(** * breads: the NIRSpec row normaliser, spectral combiner, PSF fitter and
    matched-filter cube of [breads/instruments/jwstnirspec_cal.py]

    The arrays of the program are numpy [float64] arrays.  They are embedded as
    lists of Rocq's primitive binary64 floats: an elementwise operation, a
    comparison and a cast evaluate here to the binary64 value the Python code
    computes; [NaN] is the program's sentinel for "excluded" and is kept as
    such.  The reductions [np.sum], [np.nansum] and [np.dot] add their terms
    from left to right here, which is the order of numpy for fewer than eight
    terms only (see [Np.sum]).  No general statement below rests on that
    order; the closed examples are evaluated in it. *)

From Stdlib Require Import ZArith Floats Lia Permutation Sorted.
From stdpp Require Import base list.

Local Open Scope Z_scope.

(** ** binary64 facts used throughout *)

Module F64.

Local Open Scope float_scope.

(** [np.isnan], [np.isfinite] *)
Definition isnan (x : float) : bool := is_nan x.
Definition isfinite (x : float) : bool := is_finite x.

(** [x > y], [x >= y], [x != y] of Python and numpy *)
Definition gtb (x y : float) : bool := y <? x.
Definition geb (x y : float) : bool := y <=? x.
Definition neb (x y : float) : bool := negb (x =? y).

End F64.

(** ** Exceptions

    A Python exception aborts the function that raises it; the functions that
    can raise return a [result]. *)

Inductive exn : Set :=
| IndexError          (* indexing an empty array *)
| ValueError          (* int(nan), shape mismatch *)
| OverflowError       (* int(inf) *)
| UnboundLocalError   (* a local read before any assignment *)
| TypeError           (* arithmetic on [None] *)
| LibraryError        (* an exception raised inside scipy *)
| PlainException      (* [raise Exception(...)] *)
| MemoryError.        (* an array that cannot be allocated *)

Inductive result (A : Type) : Type :=
| Ok (a : A)
| Raise (e : exn).
Arguments Ok {A} a.
Arguments Raise {A} e.

Definition rbind {A B} (m : result A) (k : A -> result B) : result B :=
  match m with
  | Ok a => k a
  | Raise e => Raise e
  end.

#[export] Instance result_ret : MRet result := fun A => @Ok A.
#[export] Instance result_bind : MBind result := fun A B k m => rbind m k.

Definition raises {A} (m : result A) : Prop := exists e, m = Raise e.
Definition returns {A} (m : result A) : Prop := exists a, m = Ok a.

(** [for x in l: state = body(state, x)] with a body that can raise *)
Fixpoint foldM {A B} (f : B -> A -> result B) (b : B) (l : list A) : result B :=
  match l with
  | [] => Ok b
  | x :: l' => b' ← f b x; foldM f b' l'
  end.

(** [for x in l: body] with a body that can raise *)
Fixpoint mapM {A B} (f : A -> result B) (l : list A) : result (list B) :=
  match l with
  | [] => Ok []
  | x :: l' => y ← f x; ys ← mapM f l'; Ok (y :: ys)
  end.

(** ** numpy on one-dimensional [float64] arrays *)

Module Np.

Import F64.
Local Open Scope float_scope.

Abbreviation vec := (list float).
Abbreviation mat := (list (list float)).

#[export] Instance float_inhabited : Inhabited float := populate nan.

(** [np.zeros(n) + x] *)
Definition full (n : nat) (x : float) : vec := replicate n x.

(** [np.where(mask)[0]]: the positions where the mask holds, increasing *)
Fixpoint where_from (i : nat) (mask : list bool) : list nat :=
  match mask with
  | [] => []
  | b :: mask' => if b then i :: where_from (S i) mask' else where_from (S i) mask'
  end.
Definition where_ (mask : list bool) : list nat := where_from 0 mask.

(** [a[idx]] for an index array; the indices come from [np.where] over an array
    of the same shape, so they are in range *)
Definition gather {A} `{Inhabited A} (a : list A) (idx : list nat) : list A :=
  (fun i => a !!! i) <$> idx.

(** [a[idx] = v] for an index array and as many values *)
Definition scatter {A} (a : list A) (idx : list nat) (v : list A) : list A :=
  foldl (fun acc iv => <[iv.1 := iv.2]> acc) a (zip idx v).

(** [a[idx] = x] for an index array and one value *)
Definition scatter_const {A} (a : list A) (idx : list nat) (x : A) : list A :=
  foldl (fun acc i => <[i := x]> acc) a idx.

(** the elementwise operations *)
Definition vsub : vec -> vec -> vec := zip_with sub.
Definition vdiv : vec -> vec -> vec := zip_with div.
Definition vmul : vec -> vec -> vec := zip_with mul.
Definition vand : list bool -> list bool -> list bool := zip_with andb.
Definition vor : list bool -> list bool -> list bool := zip_with orb.

(** [np.sum]: a plain sum, NaN included.  The terms are added from left to
    right.  numpy adds in this order below eight terms; from eight terms on it
    keeps eight partial sums and adds them pairwise, so that its result can
    differ from this one by rounding, and be an infinity where this one is NaN
    or the reverse when partial sums overflow.  A sum with a NaN term is NaN in
    either order, and a sum of zeros is zero in either order. *)
Definition sum (a : vec) : float := foldl add 0 a.

(** [np.nansum]: NaN counts as zero; the order of the terms is that of [sum] *)
Definition nansum (a : vec) : float :=
  foldl (fun acc x => if isnan x then acc else acc + x) 0 a.

(** [np.fmax], the reduction behind [np.nanmax]: a NaN operand is ignored *)
Definition fmax (x y : float) : float :=
  if isnan x then y else if isnan y then x else if x <? y then y else x.

(** [np.nanmax]; NaN when every entry is NaN *)
Definition nanmax (a : vec) : float := foldl fmax nan a.

(** [np.dot(M, p)], one left-to-right sum of products per row; numpy hands
    the product to BLAS, whose order of the terms is not fixed *)
Definition dot_row (row p : vec) : float := sum (vmul row p).
Definition dot (M : mat) (p : vec) : vec := (fun row => dot_row row p) <$> M.

(** a Python [int] that is not negative as a float: the nearest binary64
    value, ties to even; the counts and indices converted here are array
    lengths, far below the 2^1024 from which Python raises [OverflowError] *)
Definition of_nat (n : nat) : float :=
  SF2Prim (binary_normalize prec emax (Z.of_nat n) 0 false).

(** the entries that are not NaN, in order *)
Definition drop_nan (a : vec) : vec := List.filter (fun x => negb (isnan x)) a.

(** [np.sort] on an array without NaN *)
Fixpoint insert_sorted (x : float) (a : vec) : vec :=
  match a with
  | [] => [x]
  | y :: a' => if x <=? y then x :: a else y :: insert_sorted x a'
  end.
Definition sort (a : vec) : vec := foldr insert_sorted [] a.

(** [np.median]: the middle of the sorted array, or the mean of the two
    middle entries; NaN for an empty array or when an entry is NaN *)
Definition median (a : vec) : float :=
  if existsb isnan a then nan
  else
    let s := sort a in
    let n := length s in
    if Nat.eqb n 0 then nan
    else if Nat.odd n then s !!! (n / 2)%nat
    else (s !!! (n / 2 - 1)%nat + s !!! (n / 2)%nat) / 2.

(** [np.nanmedian] *)
Definition nanmedian (a : vec) : float := median (drop_nan a).

(** [np.nanstd]: the population standard deviation of the entries that are not
    NaN, NaN when there is none *)
Definition nanstd (a : vec) : float :=
  let xs := drop_nan a in
  let n := of_nat (length xs) in
  let avg := sum xs / n in
  PrimFloat.sqrt (sum ((fun x => (x - avg) * (x - avg)) <$> xs) / n).

End Np.

(** ** The row normaliser: [_task_normrows] and [_task_normslice_2dspline] *)

Module Normalizer.

Import F64 Np.
Local Open Scope float_scope.

(** the cast of [np.array(copy(im_rows), '<f4')]: a [float64] rounded to the
    nearest [float32] (ties to even, overflow to infinity) *)
Definition to_f4 (x : float) : float :=
  match Prim2SF x with
  | S754_finite s m e => SF2Prim (binary_round 24 128 s m e)
  | _ => x
  end.

(** the relative pruning thresholds [0.00001], [0.01] and [0.005] *)
Definition prune_reg : float := 0x1.4f8b588e368f1p-17.
Definition prune_noreg : float := 0x1.47ae147ae147bp-7.
Definition prune_2d : float := 0x1.47ae147ae147bp-8.

(** what [_task_normrows] and [_task_normslice_2dspline] return *)
Record outputs : Type := mk_outputs {
  new_im : mat;
  new_noise : mat;
  new_badpix : mat;
  res : mat;
  paras_out : mat
}.

(** one row of the five arrays *)
Record row_outputs : Type := mk_row {
  new_im_row : vec;
  new_noise_row : vec;
  new_badpix_row : vec;
  res_row : vec;
  paras_out_row : vec
}.

(** [np.isfinite(badpix) * np.isfinite(im) * np.isfinite(noise) * (noise != 0)
    * np.isfinite(star_model)] on one row *)
Definition usable (badpix im noise star : vec) : list bool :=
  vand (vand (vand (vand (isfinite <$> badpix) (isfinite <$> im))
                   (isfinite <$> noise))
             ((fun x => neb x 0) <$> noise))
       (isfinite <$> star).

(** [np.nansum(M > t, axis=0)[j]]: how many rows exceed [t] in column [j] *)
Definition count_gt (M : mat) (t : float) (j : nat) : nat :=
  length (List.filter (fun row : vec => gtb (row !!! j) t) M).

(** [np.where(np.nansum(M > np.nanmax(M) * rel, axis=0) != 0)[0]] *)
Definition prune_threshold (M : mat) (rel : float) : float :=
  nanmax (concat M) * rel.
Definition validpara (M : mat) (rel : float) (ncols : nat) : list nat :=
  where_ ((fun j => negb (Nat.eqb (count_gt M (prune_threshold M rel) j) 0))
            <$> seq 0 ncols).

(** [M[:, cols]] *)
Definition select_cols (M : mat) (cols : list nat) : mat :=
  (fun row : vec => gather row cols) <$> M.

(** [M * s[:, None]] and [M / s[:, None]] *)
Definition scale_rows (M : mat) (s : vec) : mat :=
  zip_with (fun (row : vec) (x : float) => (fun y => y * x) <$> row) M s.
Definition div_rows (M : mat) (s : vec) : mat :=
  zip_with (fun (row : vec) (x : float) => (fun y => y / x) <$> row) M s.

(** the regularisation rows: one identity selector per kept column whose prior
    standard deviation is finite *)
Definition selector (ncols j : nat) : vec := <[j := 1]> (full ncols 0).

Definition with_prior (M : mat) (d d_err reg_mean reg_std : vec)
    (valid : list nat) : mat * vec * vec :=
  let s_reg := gather reg_std valid in
  let d_reg := gather reg_mean valid in
  let where_reg := where_ (isfinite <$> s_reg) in
  let s_reg := gather s_reg where_reg in
  let d_reg := gather d_reg where_reg in
  let M_reg := selector (length valid) <$> where_reg in
  (M ++ M_reg, d ++ d_reg, d_err ++ s_reg).

(** the SCORE step: [np.where((np.abs(nr) / meddev > threshold) | np.isnan(nr))] *)
Definition is_bad (meddev threshold nr : float) : bool :=
  gtb (abs nr / meddev) threshold || isnan nr.
Definition where_bad (meddev threshold : float) (norm_res : vec) : list nat :=
  where_ (is_bad meddev threshold <$> norm_res).

(** [M_spline[where_data_finite, :] * star_model[k, where_data_finite, None]] *)
Definition design (M_spline : mat) (star : vec) (where_data_finite : list nat) : mat :=
  scale_rows (gather M_spline where_data_finite) (gather star where_data_finite).

(** the relative threshold of [_task_normrows], by [regularization] *)
Definition prune_rel (regularization : bool) : float :=
  if regularization then prune_reg else prune_noreg.

(** the system handed to the solver: [M4fit / s4fit[:, None]] and [d4fit / s4fit] *)
Definition fit_system (regularization : bool) (M : mat)
    (d d_err reg_mean reg_std : vec) (valid : list nat) : mat * vec :=
  let '(M4fit, d4fit, s4fit) :=
    if regularization then with_prior M d d_err reg_mean reg_std valid
    else (M, d, d_err) in
  (div_rows M4fit s4fit, vdiv d4fit s4fit).

(** [norm_res_row]: NaN, and [(d - m) / d_err] on the usable pixels *)
Definition normalized_residual (n : nat) (where_data_finite : list nat)
    (d m d_err : vec) : vec :=
  scatter (full n nan) where_data_finite (vdiv (vsub d m) d_err).

(** the returned residual over the noise on the usable pixels, NaN elsewhere *)
Definition residual_over_noise (n : nat) (where_data_finite : list nat)
    (res noise : vec) : vec :=
  scatter (full n nan) where_data_finite
    (vdiv (gather res where_data_finite) (gather noise where_data_finite)).

(** [M[:, j]] *)
Definition column (j : nat) (M : mat) : vec := (fun row : vec => row !!! j) <$> M.

Section WithLibraries.

(** [breads.utils.get_spline_model(x_nodes, x_samples, spline_degree=3)],
    which is not part of these sources: the design matrix, one row per sample
    and one column per node *)
Variable get_spline_model : vec -> vec -> result mat.
(** [scipy.optimize.lsq_linear(A, b).x] *)
Variable lsq_linear : mat -> vec -> result vec.
(** [scipy.stats.median_abs_deviation] *)
Variable median_abs_deviation : vec -> float.


(** the body of the loop of [_task_normrows] for row [k] *)
Definition normrow (x_nodes : vec) (threshold : float) (regularization : bool)
    (im wvs noise badpix star reg_mean reg_std : vec) : result row_outputs :=
  M_spline ← get_spline_model x_nodes wvs;
  let where_data_finite := where_ (usable badpix im noise star) in
  if Nat.eqb (length where_data_finite) 0 then
    Ok (mk_row (to_f4 <$> im) noise badpix
               (full (length im) nan) (full (length x_nodes) nan))
  else
    let d := gather im where_data_finite in
    let d_err := gather noise where_data_finite in
    let M := design M_spline star where_data_finite in
    let valid := validpara M (prune_rel regularization) (length x_nodes) in
    let M := select_cols M valid in
    let '(A, b) := fit_system regularization M d d_err reg_mean reg_std valid in
    p ← lsq_linear A b;
    let paras := scatter (full (length x_nodes) nan) valid p in
    let m := dot M p in
    let res := scatter (full (length im) nan) where_data_finite (vsub d m) in
    let new_im := scatter (to_f4 <$> im) where_data_finite (to_f4 <$> m) in
    let new_noise := scatter noise where_data_finite d_err in
    let norm_res_row :=
      normalized_residual (length im) where_data_finite d m d_err in
    let meddev := median_abs_deviation (gather norm_res_row where_data_finite) in
    let new_badpix :=
      scatter_const badpix (where_bad meddev threshold norm_res_row) nan in
    Ok (mk_row new_im new_noise new_badpix res paras).

(** [_task_normrows]; the prior maps are read only under [regularization] *)
Definition _task_normrows (im_rows im_wvs_rows noise_rows badpix_rows : mat)
    (x_nodes : vec) (star_model : mat) (threshold : float)
    (regularization : bool) (reg_mean_map reg_std_map : mat) : result outputs :=
  rows ← mapM (fun k : nat =>
                 normrow x_nodes threshold regularization
                   (im_rows !!! k) (im_wvs_rows !!! k) (noise_rows !!! k)
                   (badpix_rows !!! k) (star_model !!! k)
                   (reg_mean_map !!! k) (reg_std_map !!! k))
              (seq 0 (length im_rows));
  Ok (mk_outputs (new_im_row <$> rows) (new_noise_row <$> rows)
                 (new_badpix_row <$> rows) (res_row <$> rows)
                 (paras_out_row <$> rows)).

(** [np.repeat(row, n)] and [np.tile(row, n)] along the columns *)
Definition repeat_cols (n : nat) (row : vec) : vec := row ≫= replicate n.
Definition tile_cols (n : nat) (row : vec) : vec := concat (replicate n row).

(** the tensor-product design matrix:
    [np.repeat(M_spline_ifuy, n_wv, axis=1) * np.tile(M_spline_wvs, (1, n_ifuy))]
    scaled by [star_model[where_data_finite][:, None]] *)
Definition design_2d (M_spline_ifuy M_spline_wvs : mat) (n_ifuy n_wv : nat)
    (star : vec) : mat :=
  scale_rows
    (zip_with (fun ry rw : vec => vmul (repeat_cols n_wv ry) (tile_cols n_ifuy rw))
              M_spline_ifuy M_spline_wvs)
    star.

(** [ravel_im_ifuy / ravel_im_wvs * wv_ref] *)
Definition slit_position (ifuy wvs : vec) (wv_ref : float) : vec :=
  (fun x => x * wv_ref) <$> vdiv ifuy wvs.

(** the pixels a slice is fitted on *)
Definition usable_2d (im im_ifuy noise badpix star_model : mat) : list bool :=
  vand (usable (concat badpix) (concat im) (concat noise) (concat star_model))
       (isfinite <$> concat im_ifuy).

(** [_task_normslice_2dspline].  The two-dimensional arrays are handled
    through their row-major ravel, the order in which [np.where] lists the
    pixels, and the results are put back in the shape of [im].  The local
    [ravel_im_ifuy] is bound only under [if np.size(where_data_finite[0]) != 0],
    and is read right after it in every case. *)
Definition _task_normslice_2dspline (im im_wvs im_ifuy noise badpix : mat)
    (wv_nodes ifuy_nodes : vec) (wv_ref : float) (star_model : mat)
    (threshold : float) (reg_mean_map reg_std_map : mat) : result outputs :=
  let shape := length <$> im in
  let n := length (concat im) in
  let where_data_finite := where_ (usable_2d im im_ifuy noise badpix star_model) in
  ravel_im_ifuy ←
    (if negb (Nat.eqb (length where_data_finite) 0)
     then Ok (gather (concat im_ifuy) where_data_finite)
     else Raise UnboundLocalError);
  let ravel_im_wvs := gather (concat im_wvs) where_data_finite in
  M_spline_ifuy ←
    get_spline_model ifuy_nodes (slit_position ravel_im_ifuy ravel_im_wvs wv_ref);
  M_spline_wvs ← get_spline_model wv_nodes ravel_im_wvs;
  let d := gather (concat im) where_data_finite in
  let d_err := gather (concat noise) where_data_finite in
  let M := design_2d M_spline_ifuy M_spline_wvs (length ifuy_nodes)
             (length wv_nodes) (gather (concat star_model) where_data_finite) in
  let ncols := (length ifuy_nodes * length wv_nodes)%nat in
  let valid := validpara M prune_2d ncols in
  let M := select_cols M valid in
  let '(A, b) :=
    fit_system true M d d_err (concat reg_mean_map) (concat reg_std_map) valid in
  p ← lsq_linear A b;
  let m := dot M p in
  let res := scatter (full n nan) where_data_finite (vsub d m) in
  let new_im := scatter (full n nan) where_data_finite m in
  let new_noise := scatter (concat noise) where_data_finite d_err in
  let norm_res :=
    scatter res where_data_finite (vdiv (gather res where_data_finite) d_err) in
  let meddev := median_abs_deviation (gather norm_res where_data_finite) in
  let new_badpix :=
    scatter_const (concat badpix) (where_bad meddev threshold norm_res) nan in
  let paras := scatter (full ncols nan) valid p in
  Ok (mk_outputs (reshape shape new_im) (reshape shape new_noise)
                 (reshape shape new_badpix) (reshape shape res)
                 (reshape (replicate (length ifuy_nodes) (length wv_nodes)) paras)).

End WithLibraries.

(** the contract of the solver on shapes: one coefficient per column *)
Definition solver_shape (lsq_linear : mat -> vec -> result vec) : Prop :=
  forall A b x, lsq_linear A b = Ok x ->
    Forall (fun row : vec => length row = length x) A.

End Normalizer.

(** ** The spectral combiner: [combine_spectrum] *)

Module Combiner.

Import F64 Np.
Local Open Scope float_scope.

(** [int(x)] of Python on a float: truncation towards zero; [ValueError] on NaN
    and [OverflowError] on an infinity *)
Definition to_int (x : float) : result Z :=
  match Prim2SF x with
  | S754_nan => Raise ValueError
  | S754_infinity _ => Raise OverflowError
  | S754_zero _ => Ok 0%Z
  | S754_finite s m e =>
      let a := Z.shiftl (Z.pos m) e in
      Ok (if s then Z.opp a else a)
  end.

(** [np.argsort(w)] on an array without NaN: the positions by increasing value,
    equal values in the order of the array.  numpy's default sort keeps that
    order below 17 entries and does not fix it above; the sorted wavelengths
    are the same either way. *)
Fixpoint insert_index (w : vec) (k : nat) (idx : list nat) : list nat :=
  match idx with
  | [] => [k]
  | j :: idx' =>
      if w !!! k <=? w !!! j then k :: idx else j :: insert_index w k idx'
  end.
Definition argsort (w : vec) : list nat :=
  foldr (insert_index w) [] (seq 0 (length w)).

(** the samples that are kept: [np.where(~np.logical_or(np.isnan(wavelengths),
    np.isnan(fluxes)))] *)
Definition where_mask (wavelengths fluxes : vec) : list nat :=
  where_ (negb <$> vor (isnan <$> wavelengths) (isnan <$> fluxes)).

(** [np.logical_and(wavelengths >= bin_start, wavelengths < bin_end)] *)
Definition bin_mask (wavelengths : vec) (bin_start bin_end : float) : list bool :=
  vand ((fun w => geb w bin_start) <$> wavelengths)
       ((fun w => w <? bin_end) <$> wavelengths).

(** [bin_start] of bin [i] and the wavelength stored for it *)
Definition bin_start (w0 bin_size : float) (i : nat) : float :=
  w0 + of_nat i * bin_size.
Definition bin_center (w0 bin_size : float) (i : nat) : float :=
  bin_start w0 bin_size i + bin_size / 2.

(** the samples once the NaN are removed and the rest is sorted by wavelength *)
Definition prepared (wavelengths fluxes errors : vec) : vec * vec * vec :=
  let where_mask := where_mask wavelengths fluxes in
  let wavelengths := gather wavelengths where_mask in
  let fluxes := gather fluxes where_mask in
  let errors := gather errors where_mask in
  let sort_indices := argsort wavelengths in
  (gather wavelengths sort_indices, gather fluxes sort_indices,
   gather errors sort_indices).

(** [(wavelengths[-1] - wavelengths[0]) / bin_size] on the sorted wavelengths *)
Definition span_over_bin (wavelengths : vec) (bin_size : float) : float :=
  (wavelengths !!! (length wavelengths - 1)%nat - wavelengths !!! 0%nat) / bin_size.

(** [tmp_snr = (bin_fluxes - np.nanmedian(bin_fluxes)) / bin_errors] *)
Definition clip_statistic (bin_fluxes bin_errors : vec) : vec :=
  let med := nanmedian bin_fluxes in
  vdiv ((fun f => f - med) <$> bin_fluxes) bin_errors.

Section WithSigmaClip.

(** [astropy.stats.sigma_clip(x, 3, masked=True).mask] *)
Variable sigma_clip : vec -> list bool.

(** the weighted mean of one bin, from [bin_fluxes = fluxes[bin_mask]] on:
    the combined flux and the combined error *)
Definition combine_bin (bin_fluxes bin_errors : vec) : float * float :=
  let tmp_snr := clip_statistic bin_fluxes bin_errors in
  let where_tmp_snr_finite := where_ (isfinite <$> tmp_snr) in
  if Nat.eqb (length where_tmp_snr_finite) 0 then (nan, nan)
  else
    let mask :=
      scatter (replicate (length tmp_snr) false) where_tmp_snr_finite
              (sigma_clip (gather tmp_snr where_tmp_snr_finite)) in
    let where_valid := where_ (negb <$> mask) in
    let bin_fluxes := gather bin_fluxes where_valid in
    let bin_errors := gather bin_errors where_valid in
    let weights := (fun e => 1 / (e * e)) <$> bin_errors in
    if Nat.ltb 0 (length weights) then
      (sum (vmul weights bin_fluxes) / sum weights,
       1 / PrimFloat.sqrt (sum weights))
    else (nan, nan).

(** the body of the loop over the bins: wavelength, flux and error of bin [i],
    over the sorted samples *)
Definition bin_row (wavelengths fluxes errors : vec) (bin_size : float) (i : nat)
    : float * float * float :=
  let w0 := wavelengths !!! 0%nat in
  let bin_start := bin_start w0 bin_size i in
  let bin_end := bin_start + bin_size in
  let bin_mask := bin_mask wavelengths bin_start bin_end in
  if Nat.eqb (length (where_ bin_mask)) 0 then
    (bin_center w0 bin_size i, nan, nan)
  else
    let '(flux, err) :=
      combine_bin (gather fluxes (where_ bin_mask))
                  (gather errors (where_ bin_mask)) in
    (bin_center w0 bin_size i, flux, err).

(** the three arrays once the [n] bins are stored: the new wavelengths, the
    combined fluxes and the combined errors *)
Definition binned (wavelengths fluxes errors : vec) (bin_size : float) (n : nat)
    : vec * vec * vec :=
  let rows := bin_row wavelengths fluxes errors bin_size <$> seq 0 n in
  ((fun r => r.1.1) <$> rows, (fun r => r.1.2) <$> rows, (fun r => r.2) <$> rows).

(** [np.zeros(n)] at the three places where [combine_spectrum] calls it, in
    the order of the source: numpy raises for a count that is negative or
    beyond what it can allocate on the machine at hand *)
Variable np_zeros : nat -> Z -> result vec.

(** the three stores of one turn of the loop over the bins *)
Definition store_bin (row : nat -> float * float * float)
    (acc : vec * vec * vec) (i : nat) : vec * vec * vec :=
  let '(new_wavelengths, combined_fluxes, combined_errors) := acc in
  (<[i := (row i).1.1]> new_wavelengths, <[i := (row i).1.2]> combined_fluxes,
   <[i := (row i).2]> combined_errors).

(** [combine_spectrum]: the new wavelengths, the combined fluxes and the
    combined errors.  Reading [wavelengths[-1]] of an empty array raises
    [IndexError], [int] raises on a quotient that is not finite, and [np.zeros]
    raises when it cannot give the array. *)
Definition combine_spectrum (wavelengths fluxes errors : vec) (bin_size : float)
    : result (vec * vec * vec) :=
  let '(wavelengths, fluxes, errors) := prepared wavelengths fluxes errors in
  if Nat.eqb (length wavelengths) 0 then Raise IndexError
  else
    q ← to_int (span_over_bin wavelengths bin_size);
    let num_bins := (q + 1)%Z in
    combined_fluxes ← np_zeros 0 num_bins;
    combined_errors ← np_zeros 1 num_bins;
    new_wavelengths ← np_zeros 2 num_bins;
    (* the arrays have [num_bins] entries, so that every store is in range *)
    Ok (foldl (store_bin (bin_row wavelengths fluxes errors bin_size))
              (new_wavelengths, combined_fluxes, combined_errors)
              (seq 0 (Z.to_nat num_bins))).

End WithSigmaClip.

(** what numpy documents of [np.zeros(n)]: [n] zeros, [ValueError] for a
    negative count and for a count from 2^63 on ("Maximum allowed dimension
    exceeded"), and below that [ValueError] or [MemoryError] when the array is
    more than the machine gives *)
Definition allocator (np_zeros : nat -> Z -> result vec) : Prop :=
  forall (site : nat) (n : Z),
    match np_zeros site n with
    | Ok v => (0 <= n < 2 ^ 63)%Z /\ v = replicate (Z.to_nat n) 0
    | Raise e =>
        ((n < 0 \/ 2 ^ 63 <= n)%Z -> e = ValueError) /\
        (e = ValueError \/ e = MemoryError)
    end.

(** the three arrays of [n] entries are given *)
Definition allocated (np_zeros : nat -> Z -> result vec) (n : Z) : Prop :=
  returns (np_zeros 0%nat n) /\ returns (np_zeros 1%nat n) /\
  returns (np_zeros 2%nat n).

(** the removal as the specification words it: the samples whose wavelength
    and flux are not NaN, in the order of the input, each with its error *)
Fixpoint without_nan (wavelengths fluxes errors : vec) : vec * vec * vec :=
  match wavelengths, fluxes, errors with
  | w :: wavelengths', f :: fluxes', e :: errors' =>
      let '(ws, fs, es) := without_nan wavelengths' fluxes' errors' in
      if isnan w || isnan f then (ws, fs, es) else (w :: ws, f :: fs, e :: es)
  | _, _, _ => ([], [], [])
  end.

End Combiner.

(** ** The matched-filter cube: [_build_cube_task] and [build_cube] *)

Module Cube.

Import F64 Np.
Local Open Scope float_scope.

(** [multiprocessing.Pool]: the number of worker processes, and the order in
    which the chunks of one [map] happen to complete *)
Record pool : Type := mk_pool {
  processes : nat;
  completion : list nat
}.

(** the chunk size [Pool.map] picks for [n] tasks: [n] over four times the
    number of processes, rounded up *)
Definition chunksize (n processes : nat) : nat :=
  let q := (n / (processes * 4))%nat in
  if Nat.eqb (n mod (processes * 4)) 0 then q else S q.

(** the chunks of the task list, in order: [ceil(n / size)] of them *)
Definition n_chunks (n size : nat) : nat :=
  if Nat.eqb size 0 then 0%nat else ((n + size - 1) / size)%nat.
Definition chunks {A} (size : nat) (tasks : list A) : list (list A) :=
  reshape (replicate (n_chunks (length tasks) size) size) tasks.

Definition is_raise {A} (r : result A) : bool :=
  match r with Raise _ => true | Ok _ => false end.
Definition value {A} (r : result (list A)) : list A :=
  match r with Ok l => l | Raise _ => [] end.

Section PoolMap.

Context {A B : Type}.
Variable f : A -> result B.

(** the chunks as they complete, each with its position in the task list *)
Definition completed (p : pool) (tasks : list A) : list (nat * result (list B)) :=
  let cs := chunks (chunksize (length tasks) (processes p)) tasks in
  (fun c => (c, mapM f (cs !!! c))) <$> completion p.

(** the result stored for chunk [c] *)
Definition chunk_result (done : list (nat * result (list B))) (c : nat)
    : list B :=
  match List.find (fun cr => Nat.eqb cr.1 c) done with
  | Some cr => value cr.2
  | None => []
  end.

(** [Pool.map(f, tasks)]: the exception of the first chunk that fails, in the
    order of completion, is raised again; otherwise the results are put back by
    chunk position, whatever the order of completion *)
Definition pool_map (p : pool) (tasks : list A) : result (list B) :=
  let done := completed p tasks in
  let cs := chunks (chunksize (length tasks) (processes p)) tasks in
  match List.find (fun cr => is_raise cr.2) done with
  | Some (_, Raise e) => Raise e
  | _ => Ok (concat (chunk_result done <$> seq 0 (length cs)))
  end.

(** every chunk completes, once *)
Definition all_complete (p : pool) (tasks : list A) : Prop :=
  Permutation (completion p)
    (seq 0 (length (chunks (chunksize (length tasks) (processes p)) tasks))).

End PoolMap.

(** a cube of shape [(n_wv, n_dec, n_ra)] in row-major order, and
    [cube[wv_id, dec_id, ra_id] = x] *)
Definition cube_index (n_dec n_ra wv_id dec_id ra_id : nat) : nat :=
  ((wv_id * n_dec + dec_id) * n_ra + ra_id)%nat.
Definition cube_set (n_dec n_ra : nat) (cube : vec) (wv_id dec_id ra_id : nat)
    (x : float) : vec :=
  <[cube_index n_dec n_ra wv_id dec_id ra_id := x]> cube.
Definition cube_get (n_dec n_ra : nat) (cube : vec) (wv_id dec_id ra_id : nat)
    : option float :=
  cube !! cube_index n_dec n_ra wv_id dec_id ra_id.

(** the outlier cutoff [5e1] on the normalised noise, and [np.pi] *)
Definition noise_cutoff : float := 50.
Definition pi : float := 0x1.921fb54442d18p+1.

(** what one task receives: the spaxels of one wavelength *)
Record task_input (P : Type) : Type := mk_input {
  X : vec;
  Y : vec;
  Z : vec;
  Zerr : vec;
  Zbp : vec;
  psf_interp_paras : P;
  wv_id : nat;
  ra_vec : vec;
  dec_vec : vec;
  aper_radius : float;
  N_pix_min : float
}.
Arguments mk_input {P}.
Arguments X {P}.
Arguments Y {P}.
Arguments Z {P}.
Arguments Zerr {P}.
Arguments Zbp {P}.
Arguments psf_interp_paras {P}.
Arguments wv_id {P}.
Arguments ra_vec {P}.
Arguments dec_vec {P}.
Arguments aper_radius {P}.
Arguments N_pix_min {P}.

(** one entry of [outs]: [[ra_id, dec_id, flux, err]] *)
Definition cell_out : Type := nat * nat * float * float.

Section WithLibraries.

(** the PSF model of one wavelength, [(linear_interp, psfs[wv_id], psfX[wv_id],
    psfY[wv_id], wv_id, east2V2_deg)] *)
Variable P : Type.
(** [_interp_psf]: the scipy interpolant built from the PSF model *)
Variable _interp_psf : P -> result (float -> float -> float).
(** [scipy.stats.median_abs_deviation] *)
Variable median_abs_deviation : vec -> float.

(** [np.where(np.isfinite(Zbp) * (Zerr_masking < 5e1) * np.isfinite(X)
    * np.isfinite(Y) * (R < aper_radius))] *)
Definition where_finite (X Y Zerr Zbp : vec) (ra dec aper_radius : float)
    : list nat :=
  let R := zip_with (fun x y =>
                       PrimFloat.sqrt ((x - ra) * (x - ra) + (y - dec) * (y - dec)))
                    X Y in
  let meddev := median_abs_deviation (gather Zerr (where_ (isfinite <$> Zerr))) in
  let Zerr_masking := (fun e => e / meddev) <$> Zerr in
  where_ (vand (vand (vand (vand (isfinite <$> Zbp)
                                 ((fun e => e <? noise_cutoff) <$> Zerr_masking))
                           (isfinite <$> X))
                     (isfinite <$> Y))
               ((fun r => r <? aper_radius) <$> R)).

(** the matched-filter amplitude and its rescaled error over the selected
    pixels *)
Definition matched_filter (psf_interp : float -> float -> float)
    (X_fin Y_fin Z_fin Zerr_fin : vec) (ra dec : float) : float * float :=
  let M := zip_with psf_interp ((fun x => x - ra) <$> X_fin)
                               ((fun y => y - dec) <$> Y_fin) in
  let deno := nansum (vdiv (vmul M M) (vmul Zerr_fin Zerr_fin)) in
  let mfflux := nansum (vdiv (vmul M Z_fin) (vmul Zerr_fin Zerr_fin)) / deno in
  let mffluxerr := 1 / PrimFloat.sqrt deno in
  let res := vsub Z_fin ((fun m => mfflux * m) <$> M) in
  let noise_factor := nanstd (vdiv res Zerr_fin) in
  (mfflux, mffluxerr * noise_factor).

(** the body of the two loops of [_build_cube_task] for one cell *)
Definition cell (psf_interp : float -> float -> float) (inp : task_input P)
    (ra dec : float) : float * float :=
  let where_finite :=
    where_finite (X inp) (Y inp) (Zerr inp) (Zbp inp) ra dec (aper_radius inp) in
  if of_nat (length where_finite) <? N_pix_min inp then (nan, nan)
  else
    matched_filter psf_interp
      (gather (X inp) where_finite) (gather (Y inp) where_finite)
      (gather (Z inp) where_finite) (gather (Zerr inp) where_finite) ra dec.

(** [_build_cube_task] *)
Definition _build_cube_task (inp : task_input P) : result (list cell_out) :=
  psf_interp ← _interp_psf (psf_interp_paras inp);
  Ok (concat
        (imap (fun ra_id ra =>
                 imap (fun dec_id dec =>
                         let '(flux, err) := cell psf_interp inp ra dec in
                         (ra_id, dec_id, flux, err))
                      (dec_vec inp))
              (ra_vec inp))).

(** the data object: [dra_as_array], [ddec_as_array], [data], [noise] and
    [bad_pixels], one row per spaxel and one column per wavelength *)
Record dataobj : Type := mk_dataobj {
  regwvs : bool;
  wv_sampling : vec;
  dra_as_array : mat;
  ddec_as_array : mat;
  data : mat;
  noise : mat;
  bad_pixels : mat;
  N_dithers : nat
}.

(** [a[:, wv_id]] *)
Definition at_wv (a : mat) (wv_id : nat) : vec := (fun row : vec => row !!! wv_id) <$> a.

(** the default [N_pix_min]:
    [(np.pi * aper_radius ** 2 / (0.01) * N_dithers) / 4] *)
Definition default_N_pix_min (aper_radius : float) (N_dithers : nat) : float :=
  (pi * (aper_radius * aper_radius) / 0x1.47ae147ae147bp-7 * of_nat N_dithers) / 4.

(** step 1 of [build_cube]: one input per wavelength of the debug range *)
Definition input_at (obj : dataobj) (psfs : list P) `{Inhabited P}
    (ra_vec dec_vec : vec) (aper_radius N_pix_min : float) (wv_id : nat)
    : task_input P :=
  mk_input (at_wv (dra_as_array obj) wv_id) (at_wv (ddec_as_array obj) wv_id)
           (at_wv (data obj) wv_id) (at_wv (noise obj) wv_id)
           (at_wv (bad_pixels obj) wv_id) (psfs !!! wv_id) wv_id ra_vec dec_vec
           aper_radius N_pix_min.
Definition prepare_inputs (obj : dataobj) (psfs : list P) `{Inhabited P}
    (ra_vec dec_vec : vec) (aper_radius N_pix_min : float)
    (debug_init debug_end : nat) : list (task_input P) :=
  omap (fun wv_id : nat =>
          if Nat.leb debug_init wv_id && Nat.ltb wv_id debug_end then
            Some (input_at obj psfs ra_vec dec_vec aper_radius N_pix_min wv_id)
          else None)
       (seq 0 (length (wv_sampling obj))).

(** step 3 of [build_cube]: the outputs are written at their indices *)
Definition store (n_dec n_ra : nat) (wv : nat) (cubes : vec * vec) (o : cell_out)
    : vec * vec :=
  let '(ra_id, dec_id, flux, err) := o in
  (cube_set n_dec n_ra cubes.1 wv dec_id ra_id flux,
   cube_set n_dec n_ra cubes.2 wv dec_id ra_id err).
Definition merge (n_dec n_ra : nat) (cubes : vec * vec)
    (results : list (task_input P * list cell_out)) : vec * vec :=
  foldl (fun cubes r => foldl (store n_dec n_ra (wv_id r.1)) cubes r.2)
        cubes results.

(** the writes of step 3, in the order they happen: the flat index and the
    flux, or the error, of each output *)
Definition flux_of (o : cell_out) : float := o.1.2.
Definition err_of (o : cell_out) : float := o.2.
Definition cell_writes (sel : cell_out -> float) (n_dec n_ra : nat)
    (results : list (task_input P * list cell_out)) : list (nat * float) :=
  results ≫= (fun r =>
    (fun o : cell_out =>
       (cube_index n_dec n_ra (wv_id r.1) o.1.1.2 o.1.1.1, sel o)) <$> r.2).
Definition apply_writes (cube : vec) (writes : list (nat * float)) : vec :=
  foldl (fun c w => <[w.1 := w.2]> c) cube writes.

(** the inputs of step 1, with the defaults of [debug_init], [debug_end] and
    [N_pix_min] *)
Definition cube_inputs (obj : dataobj) (psfs : list P) `{Inhabited P}
    (ra_vec dec_vec : vec) (aper_radius : float)
    (debug_init debug_end : option nat) (N_pix_min : option float)
    : list (task_input P) :=
  prepare_inputs obj psfs ra_vec dec_vec aper_radius
    (default (default_N_pix_min aper_radius (N_dithers obj)) N_pix_min)
    (default 0%nat debug_init)
    (default (length (wv_sampling obj)) debug_end).

(** the two cubes before step 3: [np.zeros(...) + np.nan] *)
Definition empty_cubes (obj : dataobj) (ra_vec dec_vec : vec) : vec * vec :=
  let n := (length (wv_sampling obj) * length dec_vec * length ra_vec)%nat in
  (full n nan, full n nan).

(** [build_cube]: the flux cube and the error cube.  [mppool] is the pool, if
    any; [debug_init], [debug_end] and [N_pix_min] are optional. *)
Definition build_cube (obj : dataobj) (psfs : list P) `{Inhabited P}
    (ra_vec dec_vec : vec) (mppool : option pool) (aper_radius : float)
    (debug_init debug_end : option nat) (N_pix_min : option float)
    : result (vec * vec) :=
  if negb (regwvs obj) then Raise PlainException
  else
    let inputs := cube_inputs obj psfs ra_vec dec_vec aper_radius
                    debug_init debug_end N_pix_min in
    outputs ←
      match mppool with
      | Some p => pool_map _build_cube_task p inputs
      | None => mapM _build_cube_task inputs
      end;
    Ok (merge (length dec_vec) (length ra_vec) (empty_cubes obj ra_vec dec_vec)
              (zip inputs outputs)).

End WithLibraries.

(** the writes at one index all carry one value *)
Definition consistent (writes : list (nat * float)) : Prop :=
  forall i x y, (i, x) ∈ writes -> (i, y) ∈ writes -> x = y.

(** the wavelengths that step 1 keeps *)
Definition in_range (obj : dataobj) (debug_init debug_end wv : nat) : Prop :=
  (wv < length (wv_sampling obj))%nat /\ (debug_init <= wv < debug_end)%nat.

End Cube.

(** ** The PSF fitter: [_fit_wpsf_task], [mycostfunc]

    The PSF model is fitted sector by sector.  The two-dimensional arrays are
    used through [np.where] and fancy indexing only, and are embedded
    flattened. *)

Module PsfFitter.

Import F64 Np.
Local Open Scope float_scope.

Definition two_pi : float := 2 * Cube.pi.

(** the tuple [paras]; its short form has no [ann_width], [padding] and
    [sector_area], for which [_fit_wpsf_task] takes [None], [0.0] and [None] *)
Record paras : Type := mk_paras {
  linear_interp : bool;
  wepsf : vec;
  wifuX : vec;
  wifuY : vec;
  east2V2_deg : float;
  flipx : bool;
  _X : vec;
  _Y : vec;
  _Z : vec;
  _Zerr : vec;
  _Zbad : vec;
  IWA : float;
  OWA : float;
  fit_cen : bool;
  fit_angle : bool;
  init_paras : vec;
  ann_width : option float;
  padding : float;
  sector_area : option float
}.

Definition short_paras linear_interp wepsf wifuX wifuY east2V2_deg flipx
    _X _Y _Z _Zerr _Zbad IWA OWA fit_cen fit_angle init_paras : paras :=
  mk_paras linear_interp wepsf wifuX wifuY east2V2_deg flipx _X _Y _Z _Zerr
           _Zbad IWA OWA fit_cen fit_angle init_paras None 0 None.

(** a sector: [((r_min, r_max), (pa_min, pa_max))] *)
Definition sector : Type := (float * float) * (float * float).

(** the state of the loop over the sectors: [out_paras] and [out_model] *)
Definition fit_state : Type := mat * vec.

(** [np.max([x, y])]: a NaN operand is returned *)
Definition max2 (x y : float) : float :=
  if isnan x then x else if isnan y then y else if x <? y then y else x.

(** [np.mean([x, y])] *)
Definition mean2 (x y : float) : float := (x + y) / 2.

(** [[[dphi * phi_i, dphi * (phi_i + 1)] for phi_i in range(n)]], the last
    upper bound replaced by [2 * np.pi] *)
Definition phi_bounds_list (n : nat) : list (float * float) :=
  let dphi := two_pi / of_nat n in
  (fun phi_i : nat =>
     (dphi * of_nat phi_i,
      if Nat.eqb (S phi_i) n then two_pi else dphi * of_nat (S phi_i)))
    <$> seq 0 n.

(** the padded bounds of a sector:
    [(rmin_pad, rmax_pad, pamin_pad, pamax_pad)] *)
Definition radial_padding (padding : float) (s : sector) : float * float :=
  (max2 (s.1.1 - padding) 0, s.1.2 + padding).

(** the mask of a region of the plane:
    [(rlo <= _R) & (_R < rhi) & (palo <= _PA) & (_PA < pahi)], with [|] between
    the two tests on the angle when [palo < pahi] fails *)
Definition region (rlo rhi palo pahi : float) (R PA : vec) : list bool :=
  zip_with (fun r pa =>
              (rlo <=? r) && (r <? rhi) &&
              (if palo <? pahi then (palo <=? pa) && (pa <? pahi)
               else (palo <=? pa) || (pa <? pahi)))
           R PA.

(** [np.nansum(Z * m / Zerr ** 2) / np.nansum(m ** 2 / Zerr ** 2)] *)
Definition amplitude (Z m Zerr : vec) : float :=
  nansum (vdiv (vmul Z m) (vmul Zerr Zerr))
  / nansum (vdiv (vmul m m) (vmul Zerr Zerr)).

(** [interp(X - xc, Y - yc)] *)
Definition shifted (interp : float -> float -> float) (X Y : vec)
    (xc yc : float) : vec :=
  zip_with interp ((fun x => x - xc) <$> X) ((fun y => y - yc) <$> Y).

(** [p0[None, :] + np.diag(steps)] under [p0[None, :]]; the two shapes have to
    agree *)
Definition initial_simplex (p0 steps : vec) : result mat :=
  if Nat.eqb (length p0) (length steps) then
    Ok (p0 :: imap (fun i step => <[i := (p0 !!! i) + step]> p0) steps)
  else Raise ValueError.

(** [a[i]] of a Python sequence *)
Definition item (a : vec) (i : nat) : result float :=
  match a !! i with
  | Some x => Ok x
  | None => Raise IndexError
  end.

Section WithLibraries.

(** [np.arange(start, stop, step)], [np.arctan2] and [%] on floats *)
Variable arange : float -> float -> float -> result vec.
Variable arctan2 : float -> float -> float.
Variable remainder : float -> float -> float.
(** [rotate_coordinates(x, y, angle, flipx)] of [breads.utils] *)
Variable rotate_coordinates : vec -> vec -> float -> bool -> vec * vec.
(** [LinearNDInterpolator((wX, wY), wZ, fill_value=0.0)] when the flag is set,
    [CloughTocher2DInterpolator((wX, wY), wZ, fill_value=0.0)] otherwise *)
Variable interpolator : bool -> vec -> vec -> vec
                        -> result (float -> float -> float).
(** [scipy.optimize.minimize(cost, p0, method="Nelder-Mead", ...).x], from the
    cost function, [p0], the initial simplex and [fatol] *)
Variable minimize : (vec -> result float) -> vec -> mat -> float -> result vec.

(** [mycostfunc] *)
Definition mycostfunc (paras : vec) (_x _y data error : vec)
    (_webbpsf_interp : float -> float -> float) : result float :=
  '(xc, yc, minus_th) ←
    match paras with
    | [xc; yc] => Ok (xc, yc, 0)
    | [xc; yc; th] => Ok (xc, yc, - th)
    | _ => Raise ValueError
    end;
  let '(_x_diff, _y_diff) :=
    rotate_coordinates ((fun x => x - xc) <$> _x) ((fun y => y - yc) <$> _y)
                       minus_th false in
  let znew := zip_with _webbpsf_interp _x_diff _y_diff in
  let A := amplitude data znew error in
  let res := vsub data ((fun z => A * z) <$> znew) in
  Ok (nansum ((fun q => q * q) <$> vdiv res error)).

(** [_R] and [_PA], the polar coordinates around [init_paras] *)
Definition polar (p : paras) : result (vec * vec) :=
  x0 ← item (init_paras p) 0;
  y0 ← item (init_paras p) 1;
  let dx := (fun x => x - x0) <$> _X p in
  let dy := (fun y => y - y0) <$> _Y p in
  Ok (zip_with (fun x y => PrimFloat.sqrt (x * x + y * y)) dx dy,
      zip_with (fun x y => remainder (arctan2 x y) two_pi) dx dy).

(** [rad_bounds] and [iterator_sectors] *)
Definition rad_bounds (p : paras) : result (list (float * float)) :=
  match ann_width p return result (list (float * float)) with
  | None => Ok [(IWA p, OWA p)]
  | Some w =>
      rmins ← arange (IWA p) (OWA p) w;
      Ok ((fun rmin : float => (rmin, rmin + w)) <$> (rmins : vec))
  end.
Definition curr_sep_N_subsections (p : paras) (r : float * float) : result nat :=
  match ann_width p with
  | None => Ok 1%nat
  | Some _ =>
      match sector_area p with
      | None => Raise TypeError
      | Some area =>
          q ← Combiner.to_int (Cube.pi * (r.2 * r.2 - r.1 * r.1) / area);
          Ok (Z.to_nat (Z.max q 1))
      end
  end.
Definition iterator_sectors (p : paras) : result (list sector) :=
  bounds ← rad_bounds p;
  per_annulus ←
    mapM (fun r =>
            n ← curr_sep_N_subsections p r;
            Ok ((fun phi_bound => (r, phi_bound)) <$> phi_bounds_list n))
         bounds;
  Ok (concat per_annulus).

(** [pamin_pad] and [pamax_pad] *)
Definition angular_padding (padding : float) (s : sector) : float * float :=
  let '((rmin, rmax), (pamin, pamax)) := s in
  let pad := 2 * padding / mean2 rmin rmax in
  let deltaphi :=
    if pamin <? pamax then pamax - pamin + pad
    else (two_pi - (pamin - pamax)) + pad in
  if geb deltaphi two_pi then (0, two_pi)
  else (remainder (pamin - padding / mean2 rmin rmax) two_pi,
        remainder (pamax + padding / mean2 rmin rmax) two_pi).

(** [where_fit]: the pixels of the padded sector with a finite bad-pixel
    value; [where_sc]: the pixels of the sector; [where_wepsf_finite] *)
Definition where_fit (p : paras) (R PA : vec) (s : sector) : list nat :=
  let '(rmin_pad, rmax_pad) := radial_padding (padding p) s in
  let '(pamin_pad, pamax_pad) := angular_padding (padding p) s in
  where_ (vand (region rmin_pad rmax_pad pamin_pad pamax_pad R PA)
               (isfinite <$> _Zbad p)).
Definition where_sc (R PA : vec) (s : sector) : list nat :=
  where_ (region s.1.1 s.1.2 s.2.1 s.2.2 R PA).
Definition where_wepsf_finite (p : paras) : list nat :=
  where_ (vand (vand (isfinite <$> wepsf p) (isfinite <$> wifuX p))
               (isfinite <$> wifuY p)).

(** the three tests that end the iteration of a sector with [continue] *)
Definition skipped (p : paras) (R PA : vec) (s : sector) : bool :=
  Nat.ltb (length (where_fit p R PA s)) 1
  || Nat.ltb (length (where_sc R PA s)) 1
  || Nat.ltb (length (where_wepsf_finite p)) 3.

(** the body of the [try]: the fitted amplitude, centre and angle, and the
    interpolant they are for *)
Definition fit_try (p : paras) (X Y Z Zerr wX wY wZ p0 : vec)
    (webbpsf_interp : float -> float -> float) (simplex : mat) (chi20 : float)
    : result (float * float * float * float * (float -> float -> float)) :=
  '(xc, yc, th, interp) ←
    (if fit_cen p then
       out ← minimize (fun q => mycostfunc q X Y Z Zerr webbpsf_interp) p0
                      simplex (chi20 * 0x1.19799812dea11p-40);
       if fit_angle p then
         match out with
         | [xc; yc; th] =>
             let '(wX', wY') := rotate_coordinates wX wY th false in
             interp ← interpolator false wX' wY' wZ;
             Ok (xc, yc, th, interp)
         | _ => Raise ValueError
         end
       else
         match out with
         | [xc; yc] => Ok (xc, yc, 0, webbpsf_interp)
         | _ => Raise ValueError
         end
     else
       xc ← item p0 0; yc ← item p0 1; Ok (xc, yc, 0, webbpsf_interp));
  Ok (amplitude Z (shifted interp X Y xc yc) Zerr, xc, yc, th, interp).

(** a sector that is not skipped: the row of [out_paras] and the values of
    [out_model[where_sc]] *)
Definition fit_sector (p : paras) (R PA : vec) (s : sector)
    : result (vec * vec) :=
  let where_fit := where_fit p R PA s in
  let where_sc := where_sc R PA s in
  let where_wepsf_finite := where_wepsf_finite p in
  let X := gather (_X p) where_fit in
  let Y := gather (_Y p) where_fit in
  let Z := gather (_Z p) where_fit in
  let Zerr := gather (_Zerr p) where_fit in
  let Xsc := gather (_X p) where_sc in
  let Ysc := gather (_Y p) where_sc in
  let wZ := gather (wepsf p) where_wepsf_finite in
  let '(wX, wY) :=
    rotate_coordinates (gather (wifuX p) where_wepsf_finite)
                       (gather (wifuY p) where_wepsf_finite)
                       (- east2V2_deg p) (flipx p) in
  webbpsf_interp ← interpolator (linear_interp p) wX wY wZ;
  let simplex_init_steps :=
    if fit_angle p
    then [0x1.999999999999ap-5; 0x1.999999999999ap-5; 0x1.0624dd2f1a9fcp-10]
    else [0x1.999999999999ap-5; 0x1.999999999999ap-5] in
  let p0 := init_paras p in
  x0 ← item p0 0;
  y0 ← item p0 1;
  let m0 := shifted webbpsf_interp X Y x0 y0 in
  let a0 := amplitude Z m0 Zerr in
  simplex ← initial_simplex p0 simplex_init_steps;
  chi20 ← mycostfunc p0 X Y Z Zerr webbpsf_interp;
  let '(a, xc, yc, th, interp) :=
    match fit_try p X Y Z Zerr wX wY wZ p0 webbpsf_interp simplex chi20 with
    | Ok fitted => fitted
    | Raise _ => (nan, nan, nan, nan, webbpsf_interp)
    end in
  Ok ([a0; a; xc; yc; th], (fun m => a * m) <$> shifted interp Xsc Ysc xc yc).

(** the body of the loop over the sectors *)
Definition sector_step (p : paras) (R PA : vec) (st : fit_state)
    (entry : nat * sector) : result fit_state :=
  let '(sector_id, s) := entry in
  if Nat.ltb (length (where_fit p R PA s)) 1 then Ok st
  else if Nat.ltb (length (where_sc R PA s)) 1 then Ok st
  else if Nat.ltb (length (where_wepsf_finite p)) 3 then Ok st
  else
    '(row, model) ← fit_sector p R PA s;
    Ok (<[sector_id := row]> st.1, scatter st.2 (where_sc R PA s) model).

(** [_fit_wpsf_task]: [out_paras] and [out_model] *)
Definition _fit_wpsf_task (p : paras) : result fit_state :=
  '(R, PA) ← polar p;
  sectors ← iterator_sectors p;
  foldM (sector_step p R PA)
        (replicate (length sectors) (full 5 nan), full (length (_Z p)) nan)
        (imap pair sectors).

End WithLibraries.

End PsfFitter.

(** ** The priors of the regularisation

    [compute_starsubtraction] and the iterative pass of
    [compute_starspectrum_contnorm] build the maps [reg_mean_map] and
    [reg_std_map] that they hand to [normalize_rows], from the spline
    coefficients [spline_paras0] of an earlier fit. *)

Module Prior.

Import F64 Np.
Local Open Scope float_scope.

(** [1e-11] *)
Definition epsilon : float := 0x1.5fd7fe1796495p-37.

(** [np.clip(x, lo, hi)]; NaN stays NaN *)
Definition clip (x lo hi : float) : float :=
  if isnan x then x else if x <? lo then lo else if hi <? x then hi else x.

(** [a[r, c]] *)
Definition entry (a : mat) (r c : nat) : option float := a !! r ≫= (.!! c).

(** [compute_starsubtraction]:
    [reg_mean_map = copy(spline_paras0)], its NaN entries replaced by
    [np.nanmedian(spline_paras0, axis=1)] of their row *)
Definition reg_mean_map (spline_paras0 : mat) : mat :=
  (fun row : vec =>
     (fun x => if isnan x then nanmedian row else x) <$> row) <$> spline_paras0.

(** [reg_std_map = np.abs(spline_paras0)], its NaN entries replaced by
    [np.nanmax(np.abs(spline_paras0), axis=1)] of their row, and then
    [np.clip(reg_std_map, 1e-11, np.inf)] *)
Definition reg_std_map (spline_paras0 : mat) : mat :=
  (fun row : vec =>
     (fun x => clip (if isnan x then nanmax (abs <$> row) else abs x)
                    epsilon infinity) <$> row) <$> spline_paras0.

(** [compute_starspectrum_contnorm]: [reg_mean_map0], the median of the good
    pixels of a row in each column of that row, and zero for a row without a
    good pixel *)
Definition reg_mean_map0 (data bad_pixels : mat) (n_nodes : nat) : mat :=
  zip_with (fun row row_bp : vec =>
              let good := vmul row row_bp in
              if Nat.eqb (length (where_ (isfinite <$> good))) 0
              then replicate n_nodes 0
              else replicate n_nodes (nanmedian good))
           data bad_pixels.

(** the iterative pass: [reg_mean_map1 = copy(spline_paras0)], its NaN entries
    replaced by the entries of [reg_mean_map0] at the same place *)
Definition reg_mean_map1 (spline_paras0 reg_mean_map0 : mat) : result mat :=
  mapM (fun r_row : nat * vec =>
          mapM (fun c_x : nat * float =>
                  if isnan c_x.2 then
                    match entry reg_mean_map0 r_row.1 c_x.1 with
                    | Some fallback => Ok fallback
                    | None => Raise IndexError
                    end
                  else Ok c_x.2)
               (imap pair r_row.2))
       (imap pair spline_paras0).

(** [reg_std_map1 = np.abs(reg_mean_map1)] *)
Definition reg_std_map1 (reg_mean_map1 : mat) : mat :=
  (fun row : vec => abs <$> row) <$> reg_mean_map1.

End Prior.

(** ** The data-quality flags: [untangle_dq]

    The DQ array of a calibrated exposure is a two-dimensional [uint32]
    array: its values are integers from 0 to [2^32 - 1]. *)

Module DataQuality.

(** [np.array([1 << i for i in range(32)], dtype=arr.dtype)] *)
Definition mask : list Z := (fun i : nat => Z.shiftl 1 (Z.of_nat i)) <$> seq 0 32.

(** [(arr[..., np.newaxis] & mask[np.newaxis, np.newaxis, :]) > 0] *)
Definition bits (arr : list (list Z)) : list (list (list bool)) :=
  (fun row : list Z =>
     (fun v : Z => (fun m : Z => 0 <? Z.land v m) <$> mask) <$> row) <$> arr.

(** [bits.transpose(2, 0, 1)] for a last axis of length 32 *)
Definition transpose_201 (b : list (list (list bool))) : list (list (list bool)) :=
  (fun k : nat =>
     (fun row : list (list bool) =>
        (fun pixel : list bool => pixel !!! k) <$> row) <$> b) <$> seq 0 32.

(** [untangle_dq]: the cube of the 32 bit planes *)
Definition untangle_dq (arr : list (list Z)) : list (list (list bool)) :=
  transpose_201 (bits arr).

(** [cube[k, i, j]] *)
Definition plane_entry (cube : list (list (list bool))) (k i j : nat)
    : option bool :=
  match cube !! k with
  | Some plane =>
      match plane !! i with
      | Some row => row !! j
      | None => None
      end
  | None => None
  end.

(** the values of a [uint32] array *)
Definition uint32 (arr : list (list Z)) : Prop :=
  Forall (Forall (fun v => 0 <= v < 2 ^ 32)) arr.

End DataQuality.

(** ** The edges of the traces: [set_nans] *)

Module Edges.

Import F64 Np.
Local Open Scope float_scope.

(** [np.argmax] of a row of booleans: the first [True], and 0 without one *)
Definition argmax (mask : list bool) : nat :=
  from_option fst 0%nat (list_find Is_true mask).

(** [row[lo:hi] = x] for bounds that are not negative *)
Definition slice_set (row : vec) (lo hi : Z) (x : float) : vec :=
  imap (fun (j : nat) y =>
          if ((lo <=? Z.of_nat j) && (Z.of_nat j <? hi))%Z then x else y) row.

(** [first_real_idx[i]] and [last_real_idx[i]] *)
Definition first_real_idx (row : vec) : Z :=
  Z.of_nat (argmax ((fun x => negb (isnan x)) <$> row)).
Definition last_real_idx (row : vec) : Z :=
  (Z.of_nat (length row)
   - Z.of_nat (argmax (reverse ((fun x => negb (isnan x)) <$> row))) - 1)%Z.

(** the body of the loop of [set_nans] for one row *)
Definition set_nans_row (n : Z) (row : vec) : vec :=
  let ncols := Z.of_nat (length row) in
  let first := first_real_idx row in
  let last := last_real_idx row in
  if (0 <? n)%Z then
    let row := slice_set row 0 (Z.min (first + n) ncols) nan in
    slice_set row (Z.max 0 (last - n + 1)) ncols nan
  else if (n <? 0)%Z then
    let row := slice_set row (Z.max 0 (first + n)) first
                         (row !!! Z.to_nat first) in
    slice_set row last (Z.min (last - n + 1) ncols) (row !!! Z.to_nat last)
  else row.

(** the first and the last entry of a row that is not NaN *)
Definition is_first (row : vec) (f : nat) : Prop :=
  (exists x, row !! f = Some x /\ isnan x = false) /\
  forall j y, (j < f)%nat -> row !! j = Some y -> isnan y = true.
Definition is_last (row : vec) (l : nat) : Prop :=
  (exists x, row !! l = Some x /\ isnan x = false) /\
  forall j y, (l < j)%nat -> row !! j = Some y -> isnan y = true.

(** [set_nans]: [np.argmax] along an axis of length zero raises *)
Definition set_nans (arr : mat) (n : Z) : result mat :=
  if existsb (fun row : vec => Nat.eqb (length row) 0) arr then Raise ValueError
  else Ok (set_nans_row n <$> arr).

End Edges.

(** ** The detection map: [cube_matchedfilter]

    The cubes are the flat arrays of [build_cube]; the maps of shape
    [(n_dec, n_ra)] are flat in row-major order.  The companion spectrum
    [comp_spec], which the source computes with [astropy.units] from
    [planet_f], is an argument; it has one entry per wavelength of the
    cubes. *)

Module Detection.

Import F64 Np Cube.
Local Open Scope float_scope.

(** [cube[:, dec_id, ra_id]] and [cube[wvs, dec_id, ra_id] = np.nan] *)
Definition column (n_dec n_ra : nat) (cube : vec) (n_wv dec_id ra_id : nat) : vec :=
  (fun wv : nat => cube !!! cube_index n_dec n_ra wv dec_id ra_id) <$> seq 0 n_wv.
Definition mask_column (n_dec n_ra : nat) (cube : vec) (wvs : list nat)
    (dec_id ra_id : nat) : vec :=
  foldl (fun c wv => cube_set n_dec n_ra c wv dec_id ra_id nan) cube wvs.

(** the place of [map[dec_id, ra_id]] *)
Definition map_index (n_ra dec_id ra_id : nat) : nat := (dec_id * n_ra + ra_id)%nat.

(** the amplitude of the companion spectrum in one spaxel, and its rescaled
    error *)
Definition bb_filter (comp_spec flux fluxerr : vec) : float * float :=
  let deno := nansum (vdiv (vmul comp_spec comp_spec) (vmul fluxerr fluxerr)) in
  let bbflux :=
    nansum (vdiv (vmul comp_spec flux) (vmul fluxerr fluxerr)) / deno in
  let bbfluxerr := 1 / PrimFloat.sqrt deno in
  let res := vsub flux ((fun c => bbflux * c) <$> comp_spec) in
  let noise_factor := nanstd (vdiv res fluxerr) in
  (bbflux, bbfluxerr * noise_factor).

(** the two cubes, which the function writes to, and the two maps *)
Record maps : Type := mk_maps {
  flux_cube : vec;
  fluxerr_cube : vec;
  flux_map : vec;
  fluxerr_map : vec
}.

Section WithLibraries.

(** [scipy.ndimage.generic_filter(x, np.nanmedian, size=50)] *)
Variable generic_filter : vec -> vec.
(** [scipy.stats.median_abs_deviation] *)
Variable median_abs_deviation : vec -> float.

(** [np.where(snr_vec > outlier_threshold)[0]] *)
Definition where_outliers (flux fluxerr : vec) (outlier_threshold : float)
    : list nat :=
  let snr_vec := vdiv flux fluxerr in
  let meddev :=
    median_abs_deviation (gather snr_vec (where_ (isfinite <$> snr_vec))) in
  let snr_vec :=
    (fun x => x / meddev) <$> vsub snr_vec (generic_filter snr_vec) in
  where_ ((fun x => gtb x outlier_threshold) <$> snr_vec).

(** the body of the two loops *)
Definition cell_step (n_wv n_dec n_ra : nat) (comp_spec : vec)
    (outlier_threshold : option float) (st : maps) (cell : nat * nat) : maps :=
  let '(ra_id, dec_id) := cell in
  let '(fc, ec) :=
    match outlier_threshold with
    | Some t =>
        let w := where_outliers (column n_dec n_ra (flux_cube st) n_wv dec_id ra_id)
                   (column n_dec n_ra (fluxerr_cube st) n_wv dec_id ra_id) t in
        (mask_column n_dec n_ra (flux_cube st) w dec_id ra_id,
         mask_column n_dec n_ra (fluxerr_cube st) w dec_id ra_id)
    | None => (flux_cube st, fluxerr_cube st)
    end in
  let out := bb_filter comp_spec (column n_dec n_ra fc n_wv dec_id ra_id)
                       (column n_dec n_ra ec n_wv dec_id ra_id) in
  mk_maps fc ec
          (<[map_index n_ra dec_id ra_id := out.1]> (flux_map st))
          (<[map_index n_ra dec_id ra_id := out.2]> (fluxerr_map st)).

(** the samples of a spaxel that the call makes NaN in the cubes *)
Definition outliers_of (n_wv n_dec n_ra : nat) (flux_cube fluxerr_cube : vec)
    (outlier_threshold : option float) (dec_id ra_id : nat) : list nat :=
  match outlier_threshold with
  | Some t =>
      where_outliers (column n_dec n_ra flux_cube n_wv dec_id ra_id)
                     (column n_dec n_ra fluxerr_cube n_wv dec_id ra_id) t
  | None => []
  end.

(** the state of the loops once the cells of [L] are done, for the cubes
    [fc0] and [ec0] of the call *)
Definition after (n_wv n_dec n_ra : nat) (comp_spec : vec)
    (outlier_threshold : option float) (fc0 ec0 : vec)
    (L : list (nat * nat)) (st : maps) : Prop :=
  length (flux_map st) = (n_dec * n_ra)%nat /\
  length (fluxerr_map st) = (n_dec * n_ra)%nat /\
  forall d r, (d < n_dec)%nat -> (r < n_ra)%nat ->
    let outl := outliers_of n_wv n_dec n_ra fc0 ec0 outlier_threshold d r in
    (forall wv,
       flux_cube st !!! cube_index n_dec n_ra wv d r
       = (if bool_decide ((r, d) ∈ L) && bool_decide (wv ∈ outl)
          then nan else fc0 !!! cube_index n_dec n_ra wv d r) /\
       fluxerr_cube st !!! cube_index n_dec n_ra wv d r
       = (if bool_decide ((r, d) ∈ L) && bool_decide (wv ∈ outl)
          then nan else ec0 !!! cube_index n_dec n_ra wv d r)) /\
    let out := bb_filter comp_spec (column n_dec n_ra (flux_cube st) n_wv d r)
                         (column n_dec n_ra (fluxerr_cube st) n_wv d r) in
    flux_map st !! map_index n_ra d r
    = Some (if bool_decide ((r, d) ∈ L) then out.1 else nan) /\
    fluxerr_map st !! map_index n_ra d r
    = Some (if bool_decide ((r, d) ∈ L) then out.2 else nan).

(** the cells in the order of the loops, [ra_id] outside *)
Definition cells (n_dec n_ra : nat) : list (nat * nat) :=
  seq 0 n_ra ≫= (fun ra_id => (fun dec_id => (ra_id, dec_id)) <$> seq 0 n_dec).

(** [cube_matchedfilter]: [snr_map], [flux_map] and [fluxerr_map], and the two
    cubes as the call leaves them *)
Definition cube_matchedfilter (flux_cube fluxerr_cube : vec) (n_wv n_dec n_ra : nat)
    (comp_spec : vec) (outlier_threshold : option float)
    : vec * vec * vec * (vec * vec) :=
  let st :=
    foldl (cell_step n_wv n_dec n_ra comp_spec outlier_threshold)
          (mk_maps flux_cube fluxerr_cube
                   (full (n_dec * n_ra) nan) (full (n_dec * n_ra) nan))
          (cells n_dec n_ra) in
  (zip_with div (flux_map st) (fluxerr_map st), flux_map st, fluxerr_map st,
   (Detection.flux_cube st, Detection.fluxerr_cube st)).

End WithLibraries.

End Detection.

(** ** The rows of an image in chunks: [normalize_rows] *)

Module NormalizeRows.

Import F64 Np Normalizer Cube Edges.
Local Open Scope float_scope.

(** [np.ones(image.shape)] and [np.zeros(image.shape) + np.nan] *)
Definition ones (image : mat) : mat :=
  (fun row : vec => full (length row) 1) <$> image.
Definition nans (image : mat) : mat :=
  (fun row : vec => full (length row) nan) <$> image.

(** [a[lo:hi]] for bounds that are not negative *)
Definition slice {A} (a : list A) (lo hi : nat) : list A :=
  take (hi - lo) (drop lo a).

(** the rows of the chunks: [N_chunks - 1] chunks of [chunk_size] rows, and a
    last chunk with the rows that are left.  [chunk_size] is not zero on this
    path, and [N_chunks] is three times the number of processes or more. *)
Definition bounds (n chunk_size : nat) : list (nat * nat) :=
  let N_chunks := (n / chunk_size)%nat in
  ((fun k : nat => (k * chunk_size, (k + 1) * chunk_size)%nat)
     <$> seq 0 (N_chunks - 1))
  ++ [((N_chunks - 1) * chunk_size, n)%nat].

(** the bounds cut the rows [o .. n - 1] into consecutive chunks *)
Fixpoint contiguous (o : nat) (bs : list (nat * nat)) (n : nat) : Prop :=
  match bs with
  | [] => o = n
  | b :: bs' => b.1 = o /\ (o <= b.2)%nat /\ (b.2 <= n)%nat /\ contiguous b.2 bs' n
  end.

(** an optional array that has one row per row of the image when it is given *)
Definition same_rows (image : mat) (a : option mat) : Prop :=
  from_option (fun a : mat => length a = length image) True a.

(** one entry of the zipped lists handed to [mypool.map] *)
Record chunk : Type := mk_chunk {
  chunk_image : mat;
  chunk_wvs : mat;
  chunk_noise : mat;
  chunk_badpixs : mat;
  chunk_star_model : mat;
  chunk_reg_mean : mat;
  chunk_reg_std : mat
}.

(** [new_x[row_indices, :] = out_x] for the five arrays *)
Definition merge_chunk (acc : outputs) (out : list nat * outputs) : outputs :=
  mk_outputs (scatter (new_im acc) out.1 (new_im out.2))
             (scatter (new_noise acc) out.1 (new_noise out.2))
             (scatter (new_badpix acc) out.1 (new_badpix out.2))
             (scatter (res acc) out.1 (res out.2))
             (scatter (paras_out acc) out.1 (paras_out out.2)).

Section WithLibraries.

Variable get_spline_model : vec -> vec -> result mat.
Variable lsq_linear : mat -> vec -> result vec.
Variable median_abs_deviation : vec -> float.
(** [np.linspace(np.nanmin(im_wvs), np.nanmax(im_wvs), nodes, endpoint=True)] *)
Variable linspace_nanrange : mat -> nat -> result vec.

(** [_task_normrows] on one entry of the zipped lists; without
    [regularization] the entry holds [False, None, None] *)
Definition chunk_task (x_nodes : vec) (threshold : float) (regularization : bool)
    (c : chunk) : result outputs :=
  _task_normrows get_spline_model lsq_linear median_abs_deviation
    (chunk_image c) (chunk_wvs c) (chunk_noise c) (chunk_badpixs c) x_nodes
    (chunk_star_model c) threshold regularization
    (chunk_reg_mean c) (chunk_reg_std c).

(** [normalize_rows].  The prior maps are arrays; they are read only under
    [regularization].  [star_sub_mode] and [nan_mask_boxsize] are not used by
    the source. *)
Definition normalize_rows (image im_wvs : mat) (noise badpixs star_model : option mat)
    (nodes : nat) (mypool : option pool) (threshold : float)
    (use_set_nans : bool) (x_nodes : option vec) (regularization : bool)
    (reg_mean_map reg_std_map : mat) : result outputs :=
  let noise := default (ones image) noise in
  let badpixs := default (ones image) badpixs in
  let star_model := default (ones image) star_model in
  x_nodes ← match x_nodes with
            | Some x => Ok x
            | None => linspace_nanrange im_wvs nodes
            end;
  new_image ← (if use_set_nans then set_nans image 40 else Ok image);
  let n := length image in
  let chunk_size :=
    match mypool with
    | Some p => (n / (3 * processes p))%nat
    | None => 0%nat
    end in
  match mypool with
  | Some p =>
      if negb (Nat.eqb chunk_size 0) then
        let row_ids := seq 0 n in
        let bs := bounds n chunk_size in
        let row_indices_list :=
          (fun b : nat * nat => slice row_ids b.1 b.2) <$> bs in
        let tasks :=
          (fun b : nat * nat =>
             mk_chunk (slice new_image b.1 b.2) (slice im_wvs b.1 b.2)
                      (slice noise b.1 b.2) (slice badpixs b.1 b.2)
                      (slice star_model b.1 b.2)
                      (if regularization then slice reg_mean_map b.1 b.2 else [])
                      (if regularization then slice reg_std_map b.1 b.2 else []))
            <$> bs in
        outputs_list ← pool_map (chunk_task x_nodes threshold regularization) p tasks;
        Ok (foldl merge_chunk
                  (mk_outputs new_image noise badpixs (nans image)
                              (replicate n (full (length x_nodes) 0)))
                  (zip row_indices_list outputs_list))
      else
        _task_normrows get_spline_model lsq_linear median_abs_deviation
          new_image im_wvs noise badpixs x_nodes star_model threshold
          regularization reg_mean_map reg_std_map
  | None =>
      _task_normrows get_spline_model lsq_linear median_abs_deviation
        new_image im_wvs noise badpixs x_nodes star_model threshold
        regularization reg_mean_map reg_std_map
  end.

End WithLibraries.

End NormalizeRows.

(** ** The traces of the detector: [crop_trace_edges] *)

Module Traces.

Import F64 Np Edges NormalizeRows.
Local Open Scope float_scope.

(** [arr.T] for an array of [ncols] columns *)
Definition transpose (ncols : nat) (arr : mat) : mat :=
  (fun j : nat => (fun row : vec => row !!! j) <$> arr) <$> seq 0 ncols.

(** [trace_id_map[np.where(np.isfinite(trace_id_map))]] *)
Definition finite_ids (trace_id_map : mat) : vec :=
  List.filter isfinite (concat trace_id_map).

(** [np.where(trace_id_map == trace_id)[0]]: the row of every pixel of the
    trace, in row-major order *)
Definition where_rows (trace_id_map : mat) (trace_id : float) : list nat :=
  concat (imap (fun (i : nat) (row : vec) =>
                  (fun _ : float => i) <$> List.filter (fun t => t =? trace_id) row)
               trace_id_map).

(** [np.min] and [np.max] of an index array; an empty array has none *)
Definition np_min (l : list nat) : result nat :=
  match l with
  | [] => Raise ValueError
  | x :: l' => Ok (foldl Nat.min x l')
  end.
Definition np_max (l : list nat) : result nat :=
  match l with
  | [] => Raise ValueError
  | x :: l' => Ok (foldl Nat.max x l')
  end.

(** [np.where(ids != trace_id)]: the pixels of the map that are not of the
    trace, row and column, in row-major order *)
Definition where_off (trace_id : float) (ids : mat) : list (nat * nat) :=
  concat (imap (fun (i : nat) (id_row : vec) =>
                  (fun j : nat => (i, j))
                    <$> where_ ((fun t => neb t trace_id) <$> id_row))
               ids).

(** a row and a column that the array has *)
Definition in_array (a : mat) (p : nat * nat) : bool :=
  match a !! p.1 with
  | Some row => Nat.ltb p.2 (length row)
  | None => false
  end.

(** [a[i, j] = x] *)
Definition set_at (x : float) (a : mat) (p : nat * nat) : mat :=
  alter (<[p.2 := x]>) p.1 a.

(** [tmp_im[np.where(ids != trace_id)] = np.nan]: an index that [tmp_im] does
    not have raises, and a pixel of [tmp_im] that the map does not list stays
    as it is *)
Definition keep_trace (trace_id : float) (tmp_im ids : mat) : result mat :=
  let off := where_off trace_id ids in
  if forallb (in_array tmp_im) off then Ok (foldl (set_at nan) tmp_im off)
  else Raise IndexError.

(** [out_row[np.where(np.isfinite(new_row))] = new_row[np.where(...)]] *)
Definition write_finite (out_row new_row : vec) : vec :=
  imap (fun (j : nat) (o : float) =>
          let x := new_row !!! j in if isfinite x then x else o) out_row.

(** [np.zeros(im.shape)] *)
Definition zeros (im : mat) : mat := (fun row : vec => full (length row) 0) <$> im.

(** what the loop keeps: the shape of the output, the NaN of its last row,
    and, when nothing is widened, that a value is the value of the image at
    the same place *)
Definition kept (im : mat) (N_pix : Z) (out : mat) : Prop :=
  length <$> out = length <$> im /\
  (forall row, out !! (length im - 1)%nat = Some row ->
               Forall (fun x => isnan x = true) row) /\
  ((0 <= N_pix)%Z ->
   forall i j row x, out !! i = Some row -> row !! j = Some x ->
     isnan x = true \/ exists r, im !! i = Some r /\ r !! j = Some x).

Section WithLibraries.

(** [np.unique] *)
Variable unique : vec -> vec.

(** the body of the loop of [crop_trace_edges] *)
Definition crop_step (im trace_id_map : mat) (N_pix : Z) (im_out : mat)
    (trace_id : float) : result mat :=
  let where_trace := where_rows trace_id_map trace_id in
  row_id_min ← np_min where_trace;
  row_id_max ← np_max where_trace;
  tmp_im ← keep_trace trace_id (slice im row_id_min row_id_max)
                      (slice trace_id_map row_id_min row_id_max);
  new_slice_T ← set_nans (transpose (length (im !!! 0%nat)) tmp_im) N_pix;
  let new_slice := transpose (row_id_max - row_id_min) new_slice_T in
  Ok (imap (fun (i : nat) (out_row : vec) =>
              if Nat.leb row_id_min i && Nat.ltb i row_id_max
              then write_finite out_row (new_slice !!! (i - row_id_min)%nat)
              else out_row) im_out).

(** [crop_trace_edges] *)
Definition crop_trace_edges (im : mat) (N_pix : Z) (trace_id_map : option mat)
    : result mat :=
  let trace_id_map := default (zeros im) trace_id_map in
  foldM (crop_step im trace_id_map N_pix) (nans im)
        (unique (finite_ids trace_id_map)).

End WithLibraries.

End Traces.

(** ** The PSF fit of every wavelength: [fitpsf]

    [fitpsf] returns nothing: it writes [bestfit_coords] to [out_filename],
    and cuts the files of the exposures out of the PSF-subtracted data, the
    model and the error.  The embedding returns these four arrays, for an
    [out_filename] that is given.  [bestfit_coords], of shape
    [(n_sectors, n_wv, 5)], is a list of planes, one per sector. *)

Module FitAll.

Import F64 Np Cube PsfFitter NormalizeRows Traces.
Local Open Scope float_scope.

(** [a / area2d * psf_spaxel_area] and [a * area2d / psf_spaxel_area] *)
Definition to_psf_units (a area2d : mat) (psf_spaxel_area : float) : mat :=
  zip_with (zip_with (fun x s => x / s * psf_spaxel_area)) a area2d.
Definition from_psf_units (a area2d : mat) (psf_spaxel_area : float) : mat :=
  zip_with (zip_with (fun x s => x * s / psf_spaxel_area)) a area2d.

(** [a.T] *)
Definition T (a : mat) : mat := transpose (length (a !!! 0%nat)) a.

(** [a[:, wv_id] = col] *)
Definition set_column (a : mat) (wv_id : nat) (col : vec) : mat :=
  imap (fun (i : nat) (row : vec) => <[wv_id := col !!! i]> row) a.

(** the arrays of the two loops: [bestfit_coords], which is bound by the first
    iteration, [all_interp_psfmodel] and [all_interp_psfsub] *)
Record fits : Type := mk_fits {
  bestfit_coords : option (list mat);
  all_interp_psfmodel : mat;
  all_interp_psfsub : mat
}.

(** what the files are written from *)
Record written : Type := mk_written {
  written_coords : list mat;
  written_psfsub : mat;
  written_psfmodel : mat;
  written_err : mat
}.

(** the writes of one iteration, for the output [out] of the task of the
    wavelength [wv_id]; numpy refuses [out[0]] when it has another number of
    rows than [bestfit_coords] *)
Definition store_fit (n_wv : nat) (all_interp_flux : mat) (st : fits)
    (wv_id : nat) (out : fit_state) : result fits :=
  let coords :=
    default (replicate (length out.1) (replicate n_wv (full 5 nan)))
            (bestfit_coords st) in
  if negb (Nat.eqb (length out.1) (length coords)) then Raise ValueError
  else
    Ok (mk_fits
          (Some (imap (fun (s : nat) (plane : mat) => <[wv_id := out.1 !!! s]> plane)
                      coords))
          (set_column (all_interp_psfmodel st) wv_id out.2)
          (set_column (all_interp_psfsub st) wv_id
                      (vsub (at_wv all_interp_flux wv_id) out.2))).

(** [a[i]] of a list of arrays *)
Definition list_item {A} (a : list A) (i : nat) : result A :=
  match a !! i with
  | Some x => Ok x
  | None => Raise IndexError
  end.

(** the arguments that every wavelength shares *)
Record shared : Type := mk_shared {
  s_linear_interp : bool;
  s_rotate_psf : float;
  s_flipx : bool;
  s_IWA : float;
  s_OWA : float;
  s_fit_cen : bool;
  s_fit_angle : bool;
  s_init_paras : vec;
  s_ann_width : option float;
  s_padding : float;
  s_sector_area : option float
}.

(** an array of [n_pix] rows and [n_wv] columns *)
Definition shape (n_pix n_wv : nat) (a : mat) : Prop :=
  length a = n_pix /\ Forall (fun row : vec => length row = n_wv) a.

Section WithLibraries.

Variable arange : float -> float -> float -> result vec.
Variable arctan2 : float -> float -> float.
Variable remainder : float -> float -> float.
Variable rotate_coordinates : vec -> vec -> float -> bool -> vec * vec.
Variable interpolator : bool -> vec -> vec -> vec
                        -> result (float -> float -> float).
Variable minimize : (vec -> result float) -> vec -> mat -> float -> result vec.

(** the tuple [paras] of one wavelength; [wpsf_angle_offset] is [0] *)
Definition task_paras (sh : shared) (psf psfx psfy ra dec flux err badpix : vec)
    : paras :=
  mk_paras (s_linear_interp sh) psf psfx psfy (s_rotate_psf sh - 0) (s_flipx sh)
           ra dec flux err badpix (s_IWA sh) (s_OWA sh) (s_fit_cen sh)
           (s_fit_angle sh) (s_init_paras sh) (s_ann_width sh) (s_padding sh)
           (s_sector_area sh).

Definition fit_task : paras -> result fit_state :=
  _fit_wpsf_task arange arctan2 remainder rotate_coordinates interpolator minimize.

(** the body of the loop without a pool *)
Definition fit_wavelength (sh : shared) (psfs psfX psfY : list vec)
    (ra dec flux err badpix : mat) (n_wv debug_init debug_end : nat)
    (st : fits) (wv_id : nat) : result fits :=
  if negb (Nat.leb debug_init wv_id && Nat.ltb wv_id debug_end) then Ok st
  else
    psf ← list_item psfs wv_id;
    psfx ← list_item psfX wv_id;
    psfy ← list_item psfY wv_id;
    out ← fit_task (task_paras sh psf psfx psfy (at_wv ra wv_id) (at_wv dec wv_id)
                      (at_wv flux wv_id) (at_wv err wv_id) (at_wv badpix wv_id));
    store_fit n_wv flux st wv_id out.

(** the zipped lists handed to [mppool.map]: as many entries as the shortest
    of them *)
Definition pool_tasks (sh : shared) (psfs psfX psfY : list vec)
    (ra dec flux err badpix : mat) (debug_init debug_end : nat) : list paras :=
  let ras := slice (T ra) debug_init debug_end in
  let decs := slice (T dec) debug_init debug_end in
  let fluxes := slice (T flux) debug_init debug_end in
  let errs := slice (T err) debug_init debug_end in
  let badpixs := slice (T badpix) debug_init debug_end in
  let n := foldr Nat.min (length psfs)
             [length psfX; length psfY; length ras; length decs; length fluxes;
              length errs; length badpixs] in
  (fun k : nat =>
     task_paras sh (psfs !!! k) (psfX !!! k) (psfY !!! k) (ras !!! k)
                (decs !!! k) (fluxes !!! k) (errs !!! k) (badpixs !!! k))
    <$> seq 0 n.

(** [fitpsf] up to the files *)
Definition fitpsf (obj : dataobj) (area2d : mat) (psfs psfX psfY : list vec)
    (IWA OWA : float) (mppool : option pool) (init_centroid : option vec)
    (fit_cen fit_angle : bool) (ann_width padding sector_area : option float)
    (linear_interp : bool) (rotate_psf : float) (flipx : bool)
    (psf_spaxel_area : option float) (debug_init debug_end : option nat)
    : result written :=
  let padding := default 0 padding in
  psf_spaxel_area ← match psf_spaxel_area with
                    | Some s => Ok s
                    | None => Raise TypeError
                    end;
  let all_interp_flux := to_psf_units (data obj) area2d psf_spaxel_area in
  let all_interp_err := to_psf_units (noise obj) area2d psf_spaxel_area in
  let init_paras := default [0; 0] init_centroid in
  let n_wv := length (wv_sampling obj) in
  let debug_init := default 0%nat debug_init in
  let debug_end := default n_wv debug_end in
  let sh := mk_shared linear_interp rotate_psf flipx IWA OWA fit_cen fit_angle
                      init_paras ann_width padding sector_area in
  let st0 := mk_fits None (nans all_interp_flux) (nans all_interp_flux) in
  st ←
    match mppool with
    | None =>
        foldM (fit_wavelength sh psfs psfX psfY (dra_as_array obj)
                 (ddec_as_array obj) all_interp_flux all_interp_err
                 (bad_pixels obj) n_wv debug_init debug_end)
              st0 (seq 0 n_wv)
    | Some p =>
        output_lists ←
          pool_map fit_task p
            (pool_tasks sh psfs psfX psfY (dra_as_array obj) (ddec_as_array obj)
               all_interp_flux all_interp_err (bad_pixels obj)
               debug_init debug_end);
        foldM (fun st (o : nat * fit_state) =>
                 store_fit n_wv all_interp_flux st (debug_init + o.1)%nat o.2)
              st0 (imap pair output_lists)
    end;
  match bestfit_coords st with
  | None => Raise UnboundLocalError
  | Some coords =>
      Ok (mk_written coords
            (from_psf_units (all_interp_psfsub st) area2d psf_spaxel_area)
            (from_psf_units (all_interp_psfmodel st) area2d psf_spaxel_area)
            (from_psf_units all_interp_err area2d psf_spaxel_area))
  end.

End WithLibraries.

End FitAll.

(** ** The quick bad-pixel map: [compute_med_filt_badpix]

    The method reads [self.noise], updates [self.bad_pixels], and uses
    [self.trace_id_map] when the object has one.  The embedding returns
    [new_badpix] and the new [self.bad_pixels], for [save_utils=False]. *)

Module MedFilt.

Import F64 Np Edges NormalizeRows Traces.
Local Open Scope float_scope.

Section WithLibraries.

(** [scipy.ndimage.generic_filter(x, np.nanmedian, size=window_size)] *)
Variable generic_filter : nat -> vec -> vec.
(** [scipy.stats.median_abs_deviation] *)
Variable median_abs_deviation : vec -> float.
(** [np.unique] *)
Variable unique : vec -> vec.

(** the body of the loop: the row of [new_badpix] *)
Definition new_badpix_row (window_size : nat) (mad_threshold : float)
    (noise_row badpix_row : vec) : vec :=
  let row_err := vsub noise_row (generic_filter window_size noise_row) in
  let meddev :=
    median_abs_deviation (gather row_err (where_ (isfinite <$> badpix_row))) in
  let row_err_masking := (fun x => x / meddev) <$> row_err in
  scatter_const (full (length badpix_row) 1)
                (where_ ((fun x => gtb x mad_threshold) <$> row_err_masking)) nan.

(** [compute_med_filt_badpix] *)
Definition compute_med_filt_badpix (noise bad_pixels : mat)
    (trace_id_map : option mat) (window_size : nat) (mad_threshold : float)
    (crop_Npix_from_trace_edges : Z) : result (mat * mat) :=
  let new_badpix :=
    imap (fun (rowid : nat) (badpix_row : vec) =>
            new_badpix_row window_size mad_threshold (noise !!! rowid) badpix_row)
         bad_pixels in
  let bad_pixels := zip_with vmul bad_pixels new_badpix in
  bad_pixels ←
    (if negb (Z.eqb crop_Npix_from_trace_edges 0)
     then crop_trace_edges unique bad_pixels crop_Npix_from_trace_edges trace_id_map
     else Ok bad_pixels);
  Ok (new_badpix, bad_pixels).

End WithLibraries.

End MedFilt.

(** ** Instances of the library functions

    The scipy and astropy functions are parameters of the embedding.  The
    instances below follow their documented defaults, and are what the
    definitions are run with on concrete inputs. *)

Module Reference.

Import F64 Np.
Local Open Scope float_scope.

(** [scipy.stats.median_abs_deviation(x)] with its defaults
    ([center=np.median], [scale=1.0], [nan_policy='propagate']) *)
Definition median_abs_deviation (x : vec) : float :=
  let med := median x in
  median ((fun v => abs (v - med)) <$> x).

(** a basis builder: the linear B-spline (hat function of half-width one) of
    each node, one row per sample and one column per node *)
Definition hat (node x : float) : float :=
  let t := 1 - abs (x - node) in
  if 0 <? t then t else 0.
Definition get_spline_model (x_nodes xs : vec) : result mat :=
  Ok ((fun x => (fun node => hat node x) <$> x_nodes) <$> xs).

(** a solver: [x[j] = sum_i A[i][j] b[i] / sum_i A[i][j]^2], the least-squares
    solution of a system whose columns are orthogonal; a ragged or empty matrix
    is refused *)
Definition lsq_linear (A : mat) (b : vec) : result vec :=
  match A with
  | [] => Raise ValueError
  | row :: _ =>
      let n := length row in
      if forallb (fun r : vec => Nat.eqb (length r) n) A then
        Ok ((fun j : nat =>
               let col := (fun r : vec => r !!! j) <$> A in
               sum (vmul col b) / sum (vmul col col)) <$> seq 0 n)
      else Raise ValueError
  end.

(** [astropy.stats.sigma_clip(x, 3, masked=True).mask] with its defaults: up to
    five rounds that mask the values further than three standard deviations
    from the median of the values still unmasked *)
Definition clip_round (x : vec) (mask : list bool) : list bool :=
  let kept := gather x (where_ (negb <$> mask)) in
  let med := median kept in
  let dev := 3 * nanstd kept in
  zip_with (fun v (b : bool) => b || (v <? med - dev) || (med + dev <? v)) x mask.
Definition sigma_clip (x : vec) : list bool :=
  Nat.iter 5 (clip_round x) (replicate (length x) false).

(** [np.zeros] on a machine that gives an array of up to 2^28 entries; beyond
    that [MemoryError], and [ValueError] from 2^60 entries on, where the size
    in bytes is too large for numpy *)
Definition np_zeros (site : nat) (n : Z) : result vec :=
  if (n <? 0)%Z then Raise ValueError
  else if (n <? 2 ^ 28)%Z then Ok (replicate (Z.to_nat n) 0)
  else if (n <? 2 ^ 60)%Z then Raise MemoryError
  else Raise ValueError.

(** a PSF interpolant: the product of two hat functions of the given
    half-width, zero outside its support as with [fill_value=0.0] *)
Definition interp_psf (width : float) : result (float -> float -> float) :=
  Ok (fun x y => hat 0 (x / width) * hat 0 (y / width)).

(** a solver that raises on every call *)
Definition lsq_raising (A : mat) (b : vec) : result vec := Raise LibraryError.

(** [np.arange(start, stop, step)] for a positive step and at most a thousand
    values *)
Definition arange (start stop step : float) : result vec :=
  Ok ((fun i : nat => start + of_nat i * step)
        <$> List.filter (fun i : nat => start + of_nat i * step <? stop)
                        (seq 0 1000)).

(** [np.arctan2] on the two axes, which is where the examples put their
    pixels; NaN elsewhere *)
Definition arctan2 (x1 x2 : float) : float :=
  if x1 =? 0 then (if x2 <? 0 then Cube.pi else 0)
  else if x2 =? 0 then (if 0 <? x1 then Cube.pi / 2 else - (Cube.pi / 2))
  else nan.

(** [x % y] for [-y < x < y] and a positive [y] *)
Definition remainder (x y : float) : float := if x <? 0 then x + y else x.

(** [rotate_coordinates] for the angle zero: [x] is mirrored under [flipx] *)
Definition rotate_coordinates (x y : vec) (angle : float) (flipx : bool)
    : vec * vec :=
  (if flipx then opp <$> x else x, y).

(** an interpolant: the value of the nearest support point closer than 1, and
    the fill value 0 elsewhere; fewer than three support points are refused *)
Definition nearest (wX wY wZ : vec) (x y : float) : float :=
  (foldl (fun best (pt : float * float * float) =>
            let d := (x - pt.1.1) * (x - pt.1.1) + (y - pt.1.2) * (y - pt.1.2) in
            if d <? best.1 then (d, pt.2) else best)
         (1, 0) (zip (zip wX wY) wZ)).2.
Definition interpolator (linear : bool) (wX wY wZ : vec)
    : result (float -> float -> float) :=
  if Nat.ltb (length wZ) 3 then Raise LibraryError else Ok (nearest wX wY wZ).

(** a minimiser that stops at the best vertex of the initial simplex *)
Definition minimize (cost : vec -> result float) (p0 : vec) (simplex : mat)
    (fatol : float) : result vec :=
  costs ← mapM cost simplex;
  Ok (foldl (fun best (vc : vec * float) => if vc.2 <? best.2 then vc else best)
            (p0, infinity) (zip simplex costs)).1.

(** a minimiser that raises on every call *)
Definition minimize_raising (cost : vec -> result float) (p0 : vec)
    (simplex : mat) (fatol : float) : result vec := Raise LibraryError.

(** [np.fmin], the reduction behind [np.nanmin] *)
Definition fmin (x y : float) : float :=
  if isnan x then y else if isnan y then x else if y <? x then y else x.

(** [np.linspace(np.nanmin(a), np.nanmax(a), num, endpoint=True)]: the samples
    [arange(num) * step + start] with the last one set to [stop]; an empty
    array has no minimum *)
Definition linspace_nanrange (a : mat) (num : nat) : result vec :=
  match concat a with
  | [] => Raise ValueError
  | _ =>
      let start := foldl fmin nan (concat a) in
      let stop := nanmax (concat a) in
      let step := (stop - start) / of_nat (num - 1) in
      Ok (imap (fun (i : nat) (_ : nat) =>
                  if Nat.eqb (S i) num && Nat.ltb 1 num then stop
                  else of_nat i * step + start) (seq 0 num))
  end.

(** [np.unique] of an array without NaN: the sorted values, the first of each
    run of equal values *)
Fixpoint unique_from (prev : float) (s : vec) : vec :=
  match s with
  | [] => []
  | x :: s' => if neb x prev then x :: unique_from x s' else unique_from x s'
  end.
Definition unique (a : vec) : vec :=
  match sort a with
  | [] => []
  | x :: s => x :: unique_from x s
  end.

(** [scipy.ndimage.generic_filter(x, np.nanmedian, size=size)] with its
    defaults: the window of [size] samples that starts [size // 2] samples
    before the sample, the array mirrored at its two ends
    ([mode='reflect']: d c b a | a b c d | d c b a) *)
Definition reflect (n : nat) (k : Z) : nat :=
  let m := Z.to_nat (k mod (2 * Z.of_nat n))%Z in
  if Nat.ltb m n then m else (2 * n - 1 - m)%nat.
Definition generic_filter (size : nat) (x : vec) : vec :=
  (fun i : nat =>
     nanmedian ((fun t : nat =>
                   x !!! reflect (length x)
                           (Z.of_nat i - Z.of_nat (size / 2) + Z.of_nat t)%Z)
                  <$> seq 0 size))
    <$> seq 0 (length x).

End Reference.

(** ** A row with five spikes

    Forty pixels of flux 100 with a ripple of one noise unit, twenty at each of
    two nodes, unit noise, no bad pixel, and 50 noise units added at five
    pixels. *)

Module SpikeRow.

Import F64 Np.
Local Open Scope float_scope.

Definition spikes : list nat := [3; 11; 17; 25; 33]%nat.
Definition clean : vec := (fun i : nat => if Nat.even i then 101 else 99) <$> seq 0 40.
Definition im : vec :=
  imap (fun i x => if bool_decide (i ∈ spikes) then x + 50 else x) clean.
Definition im_wvs : vec := replicate 20 0 ++ replicate 20 1.
Definition ones : vec := replicate 40 1.
Definition x_nodes : vec := [0; 1].
Definition threshold : float := 10.

End SpikeRow.

(** A flat row with the five spikes of [SpikeRow]: 40 pixels at 100 over one
    node, noise 1, five of them raised by 50.  Every clean pixel is at the
    same distance of the fit. *)

Module FlatRow.

Import F64 Np.
Local Open Scope float_scope.

Definition clean : vec := replicate 40 100.
Definition im : vec :=
  imap (fun i x => if bool_decide (i ∈ SpikeRow.spikes) then x + 50 else x) clean.
Definition im_wvs : vec := replicate 40 0.
Definition x_nodes : vec := [0].

End FlatRow.

(** A row of one pixel under a prior: the pixel is at 1.5 * 2^1023 with a
    noise of 2^40, and the prior of the one coefficient is the opposite value
    with a deviation of 1, so that the fit follows the prior and the
    difference of the pixel to it overflows. *)

Module PriorRow.

Import F64 Np.
Local Open Scope float_scope.

Definition im : vec := [0x1.8p+1023].
Definition im_wvs : vec := [0].
Definition noise : vec := [0x1p+40].
Definition x_nodes : vec := [0].
Definition reg_mean : vec := [-0x1.8p+1023].
Definition reg_std : vec := [1].

End PriorRow.

(** ** A small data object

    Four spaxels at two wavelengths, around the origin; the fourth spaxel is
    far away and has a NaN bad-pixel value at the second wavelength. *)

Module SmallCube.

Import F64 Np Cube.
Local Open Scope float_scope.

Definition obj : dataobj :=
  mk_dataobj true [1; 2]
    [[0; 0]; [0.25; 0.25]; [-0.25; -0.25]; [0; 5]]
    [[0; 0]; [0; 0]; [0.25; 0.25]; [-0.25; 5]]
    [[4; 8]; [2; 4]; [2; 4]; [2; 4]]
    [[1; 1]; [2; 2]; [3; 3]; [1; 1]]
    [[1; 1]; [1; 1]; [1; 1]; [1; nan]]
    1.
(** PSF models of half-width 1, and of half-width 1/8 *)
Definition psfs : list float := [1; 1].
Definition narrow_psfs : list float := [0.125; 0.125].
Definition ra_vec : vec := [0; 3].
Definition dec_vec : vec := [0].
(** two processes, the second chunk completing first *)
Definition mppool : pool := mk_pool 2 [1; 0]%nat.

End SmallCube.

(** ** Two pixels in two annuli

    A good pixel in the annulus [[0, 1)] and a pixel with a NaN bad-pixel value
    in the annulus [[1, 2)]; one sector per annulus. *)

Module TwoAnnuli.

Import F64 Np PsfFitter.
Local Open Scope float_scope.

Definition paras : paras :=
  mk_paras true [1; 0.5; 0.5] [0; 1; 0] [0; 0; 1] 0 false
           [0.5; 0] [0; 1.5] [2; 3] [1; 1] [1; nan]
           0 2 true false [0; 0] (Some 1) 0 (Some 100).

(** the same with two PSF support points only *)
Definition starved : PsfFitter.paras :=
  mk_paras true [1; 0.5; nan] [0; 1; 0] [0; 0; 1] 0 false
           [0.5; 0] [0; 1.5] [2; 3] [1; 1] [1; nan]
           0 2 true false [0; 0] (Some 1) 0 (Some 100).

(** the same with a padding of 1: the good pixel is in the padding of the
    second annulus *)
Definition padded : PsfFitter.paras :=
  mk_paras true [1; 0.5; 0.5] [0; 1; 0] [0; 0; 1] 0 false
           [0.5; 0] [0; 1.5] [2; 3] [1; 1] [1; nan]
           0 2 true false [0; 0] (Some 1) 1 (Some 100).

End TwoAnnuli.

(** ** Coefficients of an earlier fit

    One row with a coefficient of [2^-40], a NaN and a 3, and one row with a
    zero. *)

Module SmallPrior.

Import Np.
Local Open Scope float_scope.

Definition spline_paras0 : mat := [[0x1p-40; nan; 3]; [0; 2; -5]].
Definition reg_mean_map0 : mat := [[1; 1; 1]; [4; 4; 4]].

End SmallPrior.

(** ** Three rows of an image

    Two rows of four pixels around 100 and around 50 and a row of NaN between
    them, a prior on the two nodes of each row, and a pool of one process whose
    three chunks complete out of order. *)

Module ThreeRows.

Import F64 Np Cube.
Local Open Scope float_scope.

Definition image : mat :=
  [[101; 99; 102; 98]; [nan; nan; nan; nan]; [51; 49; 52; 48]].
Definition im_wvs : mat := [[0; 0; 1; 1]; [0; 0; 1; 1]; [0; 0; 1; 1]].
Definition reg_mean_map : mat := [[100; 100]; [100; 100]; [50; 50]].
Definition reg_std_map : mat := [[10; 10]; [10; 10]; [5; nan]].
Definition mypool : pool := mk_pool 1 [2; 0; 1]%nat.

End ThreeRows.

(** ** Two traces on five rows

    The trace 0 on the rows 0 and 1 and the trace 1 on the rows 1 to 4, with a
    NaN in the map on each of the last two rows. *)

Module TwoTraces.

Import Np.
Local Open Scope float_scope.

Definition im : mat := [[1; 2]; [3; 4]; [5; 6]; [7; 8]; [9; 10]].
Definition trace_id_map : mat := [[0; 0]; [0; 1]; [1; 1]; [1; nan]; [nan; 1]].

End TwoTraces.

(** ** Two spaxels at two wavelengths

    A spaxel in the annulus [[0, 1)] and one in the annulus [[1, 2)] that is
    bad at the second wavelength; the PSF model of the second wavelength is
    twice the model of the first. *)

Module TwoSpaxels.

Import F64 Np Cube.
Local Open Scope float_scope.

Definition obj : dataobj :=
  mk_dataobj true [1; 2]
    [[0.5; 0.5]; [0; 0]]
    [[0; 0]; [1.5; 1.5]]
    [[2; 4]; [3; 6]]
    [[1; 1]; [1; 1]]
    [[1; 1]; [1; nan]]
    1.
Definition area2d : mat := [[1; 1]; [1; 1]].
Definition psfs : list vec := [[1; 0.5; 0.5]; [2; 1; 1]].
Definition psfX : list vec := [[0; 1; 0]; [0; 1; 0]].
Definition psfY : list vec := [[0; 0; 1]; [0; 0; 1]].
(** one process, one chunk *)
Definition mppool : pool := mk_pool 1 [0%nat].

End TwoSpaxels.

(** ** Four rows of noise

    A spike of noise in the first row, and a bad pixel in the first and in the
    third row. *)

Module NoisyRows.

Import Np.
Local Open Scope float_scope.

Definition noise : mat :=
  [[1; 4; 2; 6; 300; 5]; [1; 2; 1; 2; 1; 2]; [2; 2; 2; 2; 2; 2];
   [1; 1; 1; 1; 1; 1]].
Definition bad_pixels : mat :=
  [[1; 1; nan; 1; 1; 1]; [1; 1; 1; 1; 1; 1]; [1; nan; 1; 1; 1; 1];
   [1; 1; 1; 1; 1; 1]].

End NoisyRows.

(** * Properties *)

(** ** binary64: NaN is absorbing, and every comparison with it is false *)

Module F64Facts.

Import F64.
Local Open Scope float_scope.

Lemma SFcompare_refl x : x <> S754_nan -> SFcompare x x = Some Eq.
Proof.
  destruct x as [[]|[]|  |[] m e]; simpl; try congruence; intros _;
    try reflexivity; rewrite Z.compare_refl;
    change (PosDef.Pos.compare_cont Eq m m) with (Pos.compare m m);
    rewrite Pos.compare_refl; reflexivity.
Qed.

Lemma isnan_spec x : isnan x = true <-> Prim2SF x = S754_nan.
Proof.
  unfold isnan, is_nan. rewrite FloatAxioms.eqb_spec. unfold SFeqb. split.
  - intros H. destruct (Prim2SF x) eqn:E; try reflexivity; exfalso;
      rewrite SFcompare_refl in H by discriminate; discriminate.
  - intros ->. reflexivity.
Qed.

Lemma isnan_nan : isnan nan = true.
Proof. reflexivity. Qed.

Lemma isnan_false_spec x : isnan x = false <-> Prim2SF x <> S754_nan.
Proof.
  rewrite <- isnan_spec. destruct (isnan x); split; congruence.
Qed.

Lemma isnan_eq x : isnan x = true -> x = nan.
Proof.
  intros H. apply Prim2SF_inj. apply isnan_spec in H. rewrite H. reflexivity.
Qed.

(** NaN is absorbing for the arithmetic *)
Lemma isnan_add_l x y : isnan x = true -> isnan (x + y) = true.
Proof.
  rewrite !isnan_spec, FloatAxioms.add_spec. intros ->. reflexivity.
Qed.

Lemma isnan_add_r x y : isnan y = true -> isnan (x + y) = true.
Proof.
  rewrite !isnan_spec, FloatAxioms.add_spec. intros ->. destruct (Prim2SF x); reflexivity.
Qed.

Lemma isnan_sub_l x y : isnan x = true -> isnan (x - y) = true.
Proof.
  rewrite !isnan_spec, FloatAxioms.sub_spec. intros ->. reflexivity.
Qed.

Lemma isnan_sub_r x y : isnan y = true -> isnan (x - y) = true.
Proof.
  rewrite !isnan_spec, FloatAxioms.sub_spec. intros ->. destruct (Prim2SF x); reflexivity.
Qed.

Lemma isnan_mul_l x y : isnan x = true -> isnan (x * y) = true.
Proof.
  rewrite !isnan_spec, FloatAxioms.mul_spec. intros ->. reflexivity.
Qed.

Lemma isnan_mul_r x y : isnan y = true -> isnan (x * y) = true.
Proof.
  rewrite !isnan_spec, FloatAxioms.mul_spec. intros ->. destruct (Prim2SF x); reflexivity.
Qed.

Lemma isnan_div_l x y : isnan x = true -> isnan (x / y) = true.
Proof.
  rewrite !isnan_spec, FloatAxioms.div_spec. intros ->. reflexivity.
Qed.

Lemma isnan_div_r x y : isnan y = true -> isnan (x / y) = true.
Proof.
  rewrite !isnan_spec, FloatAxioms.div_spec. intros ->. destruct (Prim2SF x); reflexivity.
Qed.

Lemma isnan_sqrt x : isnan x = true -> isnan (PrimFloat.sqrt x) = true.
Proof.
  rewrite !isnan_spec, FloatAxioms.sqrt_spec. intros ->. reflexivity.
Qed.

Lemma isnan_abs x : isnan (abs x) = isnan x.
Proof.
  apply eq_true_iff_eq. rewrite !isnan_spec, FloatAxioms.abs_spec.
  destruct (Prim2SF x); simpl; split; congruence.
Qed.

(** every comparison with NaN is false *)
Lemma ltb_nan_l x y : isnan x = true -> (x <? y) = false.
Proof. rewrite isnan_spec, FloatAxioms.ltb_spec. intros ->. reflexivity. Qed.

Lemma ltb_nan_r x y : isnan y = true -> (x <? y) = false.
Proof.
  rewrite isnan_spec, FloatAxioms.ltb_spec. intros ->. destruct (Prim2SF x) as [[]|[]| |[]]; reflexivity.
Qed.

Lemma leb_nan_l x y : isnan x = true -> (x <=? y) = false.
Proof. rewrite isnan_spec, FloatAxioms.leb_spec. intros ->. reflexivity. Qed.

Lemma leb_nan_r x y : isnan y = true -> (x <=? y) = false.
Proof.
  rewrite isnan_spec, FloatAxioms.leb_spec. intros ->. destruct (Prim2SF x) as [[]|[]| |[]]; reflexivity.
Qed.

Lemma eqb_nan_l x y : isnan x = true -> (x =? y) = false.
Proof. rewrite isnan_spec, FloatAxioms.eqb_spec. intros ->. reflexivity. Qed.

Lemma isfinite_not_nan x : isfinite x = true -> isnan x = false.
Proof.
  unfold isfinite, is_finite, isnan. destruct (is_nan x); simpl; congruence.
Qed.

Lemma isnan_not_finite x : isnan x = true -> isfinite x = false.
Proof.
  unfold isfinite, is_finite, isnan. intros ->. reflexivity.
Qed.

(** [<] is transitive on binary64 *)
Lemma SFltb_trans a b c : SFltb a b = true -> SFltb b c = true -> SFltb a c = true.
Proof.
  unfold SFltb.
  destruct a as [sa|sa| |sa ma ea], b as [sb|sb| |sb mb eb], c as [sc|sc| |sc mc ec];
    simpl; try discriminate;
    destruct sa; try discriminate; destruct sb; try discriminate;
    destruct sc; try discriminate; try reflexivity;
    change (PosDef.Pos.compare_cont Eq) with Pos.compare;
    destruct (Z.compare_spec ea eb); try discriminate;
    destruct (Z.compare_spec eb ec); try discriminate;
    destruct (Z.compare_spec ea ec); try lia; try reflexivity; subst;
    destruct (Pos.compare_spec ma mb); try discriminate;
    destruct (Pos.compare_spec mb mc); try discriminate;
    destruct (Pos.compare_spec ma mc); try lia; try reflexivity.
Qed.

Lemma ltb_trans x y z : (x <? y) = true -> (y <? z) = true -> (x <? z) = true.
Proof. rewrite !FloatAxioms.ltb_spec. apply SFltb_trans. Qed.

Lemma ltb_not_nan_l x y : (x <? y) = true -> isnan x = false.
Proof.
  intros H. destruct (isnan x) eqn:E; [|reflexivity].
  rewrite ltb_nan_l in H by assumption. discriminate.
Qed.

Lemma ltb_not_nan_r x y : (x <? y) = true -> isnan y = false.
Proof.
  intros H. destruct (isnan y) eqn:E; [|reflexivity].
  rewrite ltb_nan_r in H by assumption. discriminate.
Qed.

Lemma Prim2SF_infinity : Prim2SF infinity = S754_infinity false.
Proof. reflexivity. Qed.

Lemma isfinite_spec x :
  isfinite x = true <->
  (exists s, Prim2SF x = S754_zero s) \/ (exists s m e, Prim2SF x = S754_finite s m e).
Proof.
  unfold isfinite, is_finite, is_infinity.
  rewrite FloatAxioms.eqb_spec, FloatAxioms.abs_spec, Prim2SF_infinity.
  destruct (is_nan x) eqn:Hn.
  - apply (isnan_spec x) in Hn. rewrite Hn. simpl.
    split; [discriminate | intros [[s H]|(s & m & e & H)]; discriminate].
  - apply (isnan_false_spec x) in Hn.
    destruct (Prim2SF x) as [s|s| |s m e]; simpl.
    + split; [eauto | reflexivity].
    + split; [destruct s; discriminate
             | intros [[s' H]|(s' & m & e & H)]; discriminate].
    + congruence.
    + split; [eauto 10 | reflexivity].
Qed.

Lemma not_finite_spec x :
  isfinite x = false <-> Prim2SF x = S754_nan \/ exists s, Prim2SF x = S754_infinity s.
Proof.
  split.
  - intros H. destruct (Prim2SF x) as [s|s| |s m e] eqn:E; eauto;
      exfalso; (assert (isfinite x = true) by (apply isfinite_spec; rewrite E; eauto 10));
      congruence.
  - intros [H|[s H]]; destruct (isfinite x) eqn:E; try reflexivity;
      apply isfinite_spec in E as [[s' E]|(s' & m & e & E)]; congruence.
Qed.

(** an infinite value over a finite one whose sign bit is clear is [+inf] *)
Lemma abs_inf_div x y s :
  Prim2SF x = S754_infinity s -> isfinite y = true -> abs y = y ->
  abs x / y = infinity.
Proof.
  intros Hx Hy Hay. apply Prim2SF_inj.
  rewrite FloatAxioms.div_spec, FloatAxioms.abs_spec, Hx, Prim2SF_infinity.
  assert (Hsign : SFabs (Prim2SF y) = Prim2SF y)
    by (rewrite <- FloatAxioms.abs_spec, Hay; reflexivity).
  apply isfinite_spec in Hy as [[sy Hy]|(sy & my & ey & Hy)];
    rewrite Hy in *; simpl in Hsign; injection Hsign as <-; reflexivity.
Qed.






End F64Facts.

(** ** Loops that can raise *)

Lemma mapM_Ok_length {A B} (f : A -> result B) l ys :
  mapM f l = Ok ys -> length ys = length l.
Proof.
  revert ys. induction l as [|x l IH]; simpl; intros ys H.
  - injection H as <-. reflexivity.
  - destruct (f x); simpl in H; [|discriminate].
    destruct (mapM f l) as [zs|]; simpl in H; [|discriminate].
    injection H as <-. simpl. f_equal. apply IH. reflexivity.
Qed.

Lemma mapM_Ok_lookup {A B} (f : A -> result B) l ys i x :
  mapM f l = Ok ys -> l !! i = Some x -> exists y, ys !! i = Some y /\ f x = Ok y.
Proof.
  revert ys i. induction l as [|a l IH]; simpl; intros ys i H Hi; [discriminate|].
  destruct (f a) as [b|] eqn:Ea; simpl in H; [|discriminate].
  destruct (mapM f l) as [zs|]; simpl in H; [|discriminate].
  injection H as <-. destruct i as [|i]; simpl in *.
  - injection Hi as <-. eauto.
  - eapply IH; eauto.
Qed.

Lemma mapM_all_Ok {A B} (f : A -> result B) l :
  (forall x, x ∈ l -> returns (f x)) -> returns (mapM f l).
Proof.
  induction l as [|a l IH]; simpl; intros H.
  - eexists; reflexivity.
  - destruct (H a) as [b Hb]; [left|]. rewrite Hb. simpl.
    destruct IH as [ys Hys]; [intros; apply H; right; assumption|].
    rewrite Hys. simpl. eexists; reflexivity.
Qed.

(** ** Index arrays *)

Module NpFacts.

Import F64 Np.
Local Open Scope float_scope.

Lemma where_from_spec mask i0 i :
  i ∈ where_from i0 mask <-> (i0 <= i)%nat /\ mask !! (i - i0)%nat = Some true.
Proof.
  revert i0. induction mask as [|b mask IH]; intros i0; simpl.
  - split; [intros H; inversion H | intros [_ H]; discriminate].
  - destruct b.
    + rewrite elem_of_cons, IH. split.
      * intros [->|[Hle Hl]].
        -- split; [lia|]. replace (i0 - i0)%nat with 0%nat by lia. reflexivity.
        -- split; [lia|]. replace (i - i0)%nat with (S (i - S i0)) by lia. exact Hl.
      * intros [Hle Hl]. destruct (decide (i = i0)) as [->|Hne]; [left; reflexivity|].
        right. split; [lia|].
        replace (i - i0)%nat with (S (i - S i0)) in Hl by lia. exact Hl.
    + rewrite IH. split.
      * intros [Hle Hl]. split; [lia|].
        replace (i - i0)%nat with (S (i - S i0)) by lia. exact Hl.
      * intros [Hle Hl]. destruct (decide (i = i0)) as [->|Hne].
        -- replace (i0 - i0)%nat with 0%nat in Hl by lia. discriminate.
        -- split; [lia|]. replace (i - i0)%nat with (S (i - S i0)) in Hl by lia. exact Hl.
Qed.

Lemma elem_of_where mask i : i ∈ where_ mask <-> mask !! i = Some true.
Proof.
  unfold where_. rewrite where_from_spec. replace (i - 0)%nat with i by lia.
  split; [intros [_ H]; exact H | intros H; split; [lia | exact H]].
Qed.

Lemma where_from_NoDup mask i0 : NoDup (where_from i0 mask).
Proof.
  revert i0. induction mask as [|b mask IH]; intros i0; simpl; [constructor|].
  destruct b; [|apply IH]. constructor; [|apply IH].
  rewrite where_from_spec. lia.
Qed.

Lemma where_NoDup mask : NoDup (where_ mask).
Proof. apply where_from_NoDup. Qed.

Lemma where_lt mask i : i ∈ where_ mask -> (i < length mask)%nat.
Proof. rewrite elem_of_where. apply lookup_lt_Some. Qed.

Lemma where_nil_iff mask : where_ mask = [] <-> forall i, mask !! i <> Some true.
Proof.
  split.
  - intros H i Hi. apply elem_of_where in Hi. rewrite H in Hi. inversion Hi.
  - intros H. destruct (where_ mask) as [|i l] eqn:E; [reflexivity|].
    exfalso. apply (H i). apply elem_of_where. rewrite E. left.
Qed.

Lemma length_scatter {A} (a : list A) idx v : length (scatter a idx v) = length a.
Proof.
  unfold scatter. generalize (zip idx v). intros l. revert a.
  induction l as [|[i x] l IH]; intros a; simpl; [reflexivity|].
  rewrite IH. apply length_insert.
Qed.

Lemma length_scatter_const {A} (a : list A) idx x :
  length (scatter_const a idx x) = length a.
Proof.
  unfold scatter_const. revert a.
  induction idx as [|i idx IH]; intros a; simpl; [reflexivity|].
  rewrite IH. apply length_insert.
Qed.

Lemma lookup_scatter_notin {A} (a : list A) idx v i :
  i ∉ idx -> scatter a idx v !! i = a !! i.
Proof.
  unfold scatter. revert a v.
  induction idx as [|j idx IH]; intros a v Hi; [reflexivity|].
  destruct v as [|x v]; [reflexivity|]. simpl.
  rewrite IH by (intros ?; apply Hi; right; assumption).
  apply list_lookup_insert_ne. intros ->. apply Hi. left.
Qed.

Lemma lookup_scatter_in {A} (a : list A) idx v r i x :
  NoDup idx -> idx !! r = Some i -> v !! r = Some x -> (i < length a)%nat ->
  scatter a idx v !! i = Some x.
Proof.
  unfold scatter. revert a v r.
  induction idx as [|j idx IH]; intros a v r Hnd Hr Hv Hlt; [discriminate|].
  destruct v as [|y v]; [discriminate|]. simpl.
  apply NoDup_cons in Hnd as [Hj Hnd].
  destruct r as [|r]; simpl in *.
  - injection Hr as ->. injection Hv as ->.
    change (foldl _ (<[i:=x]> a) (zip idx v)) with (scatter (<[i:=x]> a) idx v).
    rewrite lookup_scatter_notin by assumption.
    apply list_lookup_insert_eq. assumption.
  - eapply IH; eauto. rewrite length_insert. assumption.
Qed.

Lemma lookup_scatter_const_notin {A} (a : list A) idx x i :
  i ∉ idx -> scatter_const a idx x !! i = a !! i.
Proof.
  unfold scatter_const. revert a.
  induction idx as [|j idx IH]; intros a Hi; [reflexivity|]. simpl.
  rewrite IH by (intros ?; apply Hi; right; assumption).
  apply list_lookup_insert_ne. intros ->. apply Hi. left.
Qed.

Lemma lookup_scatter_const_in {A} (a : list A) idx x i :
  i ∈ idx -> (i < length a)%nat -> scatter_const a idx x !! i = Some x.
Proof.
  unfold scatter_const. revert a.
  induction idx as [|j idx IH]; intros a Hi Hlt; [inversion Hi|]. simpl.
  destruct (decide (i ∈ idx)) as [Hin|Hnin].
  - apply IH; [assumption|]. rewrite length_insert. assumption.
  - apply elem_of_cons in Hi as [->|Hi]; [|contradiction].
    change (foldl _ (<[j:=x]> a) idx) with (scatter_const (<[j:=x]> a) idx x).
    rewrite lookup_scatter_const_notin by assumption.
    apply list_lookup_insert_eq. assumption.
Qed.

Lemma gather_scatter (a : vec) idx (v : vec) :
  NoDup idx -> length v = length idx -> (forall i, i ∈ idx -> (i < length a)%nat) ->
  gather (scatter a idx v) idx = v.
Proof.
  intros Hnd Hlen Hlt. apply list_eq. intros r. unfold gather.
  rewrite list_lookup_fmap.
  destruct (idx !! r) as [i|] eqn:Hr; simpl.
  - assert (Hv : is_Some (v !! r)).
    { apply lookup_lt_is_Some. rewrite Hlen. eapply lookup_lt_Some; eassumption. }
    destruct Hv as [x Hx]. rewrite Hx. f_equal.
    apply list_lookup_total_correct.
    eapply lookup_scatter_in; eauto. apply Hlt.
    eapply list_elem_of_lookup_2; eassumption.
  - symmetry. apply lookup_ge_None. rewrite Hlen.
    apply lookup_ge_None in Hr. assumption.
Qed.

End NpFacts.

(** ** The row normaliser *)

Module NormalizerFacts.

Import F64 Np Normalizer F64Facts NpFacts.
Local Open Scope float_scope.

Lemma ltb_irrefl x : (x <? x) = false.
Proof.
  rewrite FloatAxioms.ltb_spec. unfold SFltb.
  destruct (Prim2SF x) eqn:E; try reflexivity;
    rewrite SFcompare_refl by discriminate; reflexivity.
Qed.

Lemma fmax_fold_keep l : forall acc x,
  isnan acc = false -> (acc <? x) = false ->
  isnan (foldl fmax acc l) = false /\ (foldl fmax acc l <? x) = false.
Proof.
  induction l as [|y l IH]; intros acc x Hacc Hx; simpl; [split; assumption|].
  apply IH; unfold fmax; rewrite Hacc.
  - destruct (isnan y) eqn:Hy; [assumption|]. destruct (acc <? y); assumption.
  - destruct (isnan y) eqn:Hy; [assumption|].
    destruct (acc <? y) eqn:Hlt; [|assumption].
    destruct (y <? x) eqn:Hyx; [|reflexivity].
    rewrite (ltb_trans _ _ _ Hlt Hyx) in Hx. discriminate.
Qed.

Lemma fmax_fold_in l : forall acc x,
  x ∈ l -> isnan x = false ->
  isnan (foldl fmax acc l) = false /\ (foldl fmax acc l <? x) = false.
Proof.
  induction l as [|y l IH]; intros acc x Hin Hx; [inversion Hin|].
  apply elem_of_cons in Hin as [->|Hin]; [|apply IH; assumption].
  simpl. apply fmax_fold_keep; unfold fmax.
  - destruct (isnan acc) eqn:Ha; [assumption|]. rewrite Hx.
    destruct (acc <? y); assumption.
  - destruct (isnan acc) eqn:Ha; [apply ltb_irrefl|]. rewrite Hx.
    destruct (acc <? y) eqn:E; [apply ltb_irrefl | assumption].
Qed.

(** nothing in an array exceeds a bound that its [np.nanmax] is below *)
Lemma nanmax_below l t x :
  (nanmax l <? t) = true -> x ∈ l -> gtb x t = false.
Proof.
  intros Hmax Hin. unfold gtb. destruct (isnan x) eqn:Hx.
  - apply ltb_nan_r. assumption.
  - destruct (fmax_fold_in l nan x Hin Hx) as [_ Hle].
    fold (nanmax l) in Hle. destruct (t <? x) eqn:Htx; [|reflexivity].
    rewrite (ltb_trans _ _ _ Hmax Htx) in Hle. discriminate.
Qed.

Lemma count_gt_zero M t j :
  (nanmax (column j M) <? t) = true -> count_gt M t j = 0%nat.
Proof.
  intros Hmax. unfold count_gt.
  assert (Hall : forall row : vec, row ∈ M -> gtb (row !!! j) t = false).
  { intros row Hrow. apply (nanmax_below _ _ _ Hmax). unfold column.
    apply list_elem_of_fmap. exists row. split; [reflexivity | assumption]. }
  clear Hmax. induction M as [|row M IH]; [reflexivity|]. simpl.
  rewrite (Hall row) by left. apply IH. intros r Hr. apply Hall. right. assumption.
Qed.

Lemma lookup_validpara M rel ncols j :
  j ∈ validpara M rel ncols <->
  (j < ncols)%nat /\ count_gt M (prune_threshold M rel) j <> 0%nat.
Proof.
  unfold validpara. rewrite elem_of_where, list_lookup_fmap. split.
  - intros H. destruct (seq 0 ncols !! j) as [j'|] eqn:E; [|discriminate].
    apply lookup_seq in E as [-> Hlt]. simpl in H. injection H as H.
    split; [assumption|]. intros Hz. rewrite Hz in H. discriminate.
  - intros [Hlt Hnz]. rewrite (lookup_seq_lt 0 ncols j Hlt). simpl. f_equal.
    destruct (Nat.eqb_spec (count_gt M (prune_threshold M rel) j) 0);
      [contradiction | reflexivity].
Qed.

(** a column whose maximum is below the threshold is not kept *)
Lemma pruned_not_valid M rel ncols j :
  (nanmax (column j M) <? prune_threshold M rel) = true ->
  j ∉ validpara M rel ncols.
Proof.
  intros Hmax Hin. apply lookup_validpara in Hin as [_ Hnz].
  apply Hnz. apply count_gt_zero. assumption.
Qed.

Lemma lookup_full n (x : float) i : (i < n)%nat -> full n x !! i = Some x.
Proof. intros H. unfold full. apply lookup_replicate_2. assumption. Qed.

(** the coefficient vector [paras_out[validpara] = p] over a NaN array *)
Lemma coefficients_scatter ncols valid (p : vec) j :
  (j < ncols)%nat -> NoDup valid ->
  (j ∉ valid -> scatter (full ncols nan) valid p !! j = Some nan) /\
  (forall r x, valid !! r = Some j -> p !! r = Some x ->
     scatter (full ncols nan) valid p !! j = Some x).
Proof.
  intros Hj Hnd. split.
  - intros Hnin. rewrite lookup_scatter_notin by assumption. apply lookup_full, Hj.
  - intros r x Hr Hp. eapply lookup_scatter_in; eauto.
    unfold full. rewrite length_replicate. assumption.
Qed.

Lemma length_gather {A} `{Inhabited A} (a : list A) idx :
  length (gather a idx) = length idx.
Proof. unfold gather. apply length_fmap. Qed.

Lemma where_nonempty mask : where_ mask <> [] -> Nat.eqb (length (where_ mask)) 0 = false.
Proof. destruct (where_ mask); [congruence | reflexivity]. Qed.

Section Rows.

Variable get_spline_model : vec -> vec -> result mat.
Variable lsq_linear : mat -> vec -> result vec.
Variable median_abs_deviation : vec -> float.

Local Abbreviation normrow :=
  (normrow get_spline_model lsq_linear median_abs_deviation).

(** a row without a usable pixel: the basis is built, nothing else is called *)
Lemma normrow_skipped x_nodes threshold reg im wvs noise badpix star rm rs :
  where_ (usable badpix im noise star) = [] ->
  normrow x_nodes threshold reg im wvs noise badpix star rm rs =
  (M_spline ← get_spline_model x_nodes wvs;
   Ok (mk_row (to_f4 <$> im) noise badpix
              (full (length im) nan) (full (length x_nodes) nan))).
Proof.
  intros H. unfold Normalizer.normrow. rewrite H. reflexivity.
Qed.

(** a row with a usable pixel: what the five outputs are made of *)
Lemma normrow_fitted x_nodes threshold reg im wvs noise badpix star rm rs out :
  normrow x_nodes threshold reg im wvs noise badpix star rm rs = Ok out ->
  where_ (usable badpix im noise star) <> [] ->
  exists M_spline p,
    get_spline_model x_nodes wvs = Ok M_spline /\
    let wdf := where_ (usable badpix im noise star) in
    let d := gather im wdf in
    let d_err := gather noise wdf in
    let M0 := design M_spline star wdf in
    let valid := validpara M0 (prune_rel reg) (length x_nodes) in
    let M := select_cols M0 valid in
    let sys := fit_system reg M d d_err rm rs valid in
    lsq_linear sys.1 sys.2 = Ok p /\
    let m := dot M p in
    let nr := normalized_residual (length im) wdf d m d_err in
    out = mk_row (scatter (to_f4 <$> im) wdf (to_f4 <$> m))
                 (scatter noise wdf d_err)
                 (scatter_const badpix
                    (where_bad (median_abs_deviation (gather nr wdf)) threshold nr) nan)
                 (scatter (full (length im) nan) wdf (vsub d m))
                 (scatter (full (length x_nodes) nan) valid p).
Proof.
  intros H Hne. unfold Normalizer.normrow in H.
  destruct (get_spline_model x_nodes wvs) as [M_spline|] eqn:Hs;
    cbn [mbind result_bind rbind] in H; [|discriminate].
  rewrite (where_nonempty _ Hne) in H.
  exists M_spline.
  destruct (fit_system reg _ _ _ rm rs _) as [A b] eqn:Hsys.
  destruct (lsq_linear A b) as [p|] eqn:Hp;
    cbn [mbind result_bind rbind] in H; [|discriminate].
  exists p. split; [reflexivity|]. cbv zeta. rewrite Hsys. simpl.
  split; [assumption|]. injection H as <-. reflexivity.
Qed.

Lemma fit_system_first_row reg (M0 : mat) (wdf : list nat) (noise rm rs : vec)
    (d : vec) valid :
  wdf <> [] -> length M0 = length wdf ->
  exists row rest,
    (fit_system reg (select_cols M0 valid) d (gather noise wdf) rm rs valid).1
      = row :: rest /\ length row = length valid.
Proof.
  intros Hne Hlen. destruct wdf as [|i wdf]; [congruence|].
  destruct M0 as [|r0 M0]; [discriminate|].
  unfold fit_system, with_prior. destruct reg; simpl;
    eexists _, _; (split; [reflexivity|]);
    rewrite length_fmap, length_gather; reflexivity.
Qed.

Lemma length_design M_spline star (wdf : list nat) :
  length (design M_spline star wdf) = length wdf.
Proof.
  unfold design, scale_rows. rewrite length_zip_with, !length_gather. lia.
Qed.

(** the coefficients of a fitted row *)
Lemma normrow_coefficients x_nodes threshold reg im wvs noise badpix star rm rs out :
  solver_shape lsq_linear ->
  normrow x_nodes threshold reg im wvs noise badpix star rm rs = Ok out ->
  where_ (usable badpix im noise star) <> [] ->
  exists M_spline p,
    get_spline_model x_nodes wvs = Ok M_spline /\
    let wdf := where_ (usable badpix im noise star) in
    let M0 := design M_spline star wdf in
    let valid := validpara M0 (prune_rel reg) (length x_nodes) in
    let sys := fit_system reg (select_cols M0 valid) (gather im wdf)
                 (gather noise wdf) rm rs valid in
    lsq_linear sys.1 sys.2 = Ok p /\
    length p = length valid /\
    forall j, (j < length x_nodes)%nat ->
      ((nanmax (column j M0) <? prune_threshold M0 (prune_rel reg)) = true ->
         j ∉ valid) /\
      (j ∉ valid -> paras_out_row out !! j = Some nan) /\
      (forall r, valid !! r = Some j ->
         paras_out_row out !! j = p !! r /\ is_Some (p !! r)).
Proof.
  intros Hshape H Hne.
  destruct (normrow_fitted _ _ _ _ _ _ _ _ _ _ _ H Hne)
    as (M_spline & p & Hs & Hp & Hout).
  exists M_spline, p. split; [assumption|]. cbv zeta in *.
  split; [assumption|].
  assert (Hlen : length p = length (validpara
            (design M_spline star (where_ (usable badpix im noise star)))
            (prune_rel reg) (length x_nodes))).
  { destruct (fit_system_first_row reg
               (design M_spline star (where_ (usable badpix im noise star)))
               _ noise rm rs (gather im (where_ (usable badpix im noise star)))
               (validpara (design M_spline star
                             (where_ (usable badpix im noise star)))
                          (prune_rel reg) (length x_nodes))
               Hne (length_design _ _ _)) as (row & rest & Hsys & Hrow).
    pose proof (Hshape _ _ _ Hp) as Hall. rewrite Hsys in Hall.
    apply Forall_cons in Hall as [Hr _]. congruence. }
  split; [assumption|].
  intros j Hj. rewrite Hout. cbn [paras_out_row].
  destruct (coefficients_scatter (length x_nodes)
              (validpara (design M_spline star
                            (where_ (usable badpix im noise star)))
                         (prune_rel reg) (length x_nodes)) p j Hj)
    as [Hnan Hval]; [apply where_NoDup|].
  split; [apply pruned_not_valid|]. split; [assumption|].
  intros r Hr.
  assert (Hsome : is_Some (p !! r)).
  { apply lookup_lt_is_Some. rewrite Hlen. eapply lookup_lt_Some; eassumption. }
  destruct Hsome as [x Hx]. rewrite Hx. split; [|eauto].
  apply (Hval r x Hr Hx).
Qed.

(** a pixel of the usable mask has a finite bad-pixel entry *)
Lemma usable_badpix badpix im noise star i :
  usable badpix im noise star !! i = Some true ->
  exists b, badpix !! i = Some b /\ isfinite b = true.
Proof.
  unfold usable, vand. intros H.
  repeat (apply lookup_zip_with_Some in H as (? & ? & ? & H & ?)).
  apply list_lookup_fmap_Some in H as (b & Hb & Hfin).
  exists b. split; [assumption|]. subst.
  repeat match goal with
         | E : true = (_ && _)%bool |- _ => symmetry in E
         | E : (_ && _)%bool = true |- _ => apply andb_true_iff in E as [E ?]
         end.
  assumption.
Qed.

(** the mask a pass returns: every entry is the input's or NaN *)
Lemma scatter_const_nan_lookup (badpix : vec) idx i b :
  badpix !! i = Some b ->
  scatter_const badpix idx nan !! i = Some (if decide (i ∈ idx) then nan else b).
Proof.
  intros Hb. destruct (decide (i ∈ idx)) as [Hin|Hnin].
  - apply lookup_scatter_const_in; [assumption|]. eapply lookup_lt_Some; eassumption.
  - rewrite lookup_scatter_const_notin by assumption. assumption.
Qed.

Lemma normrow_badpix x_nodes threshold reg im wvs noise badpix star rm rs out :
  normrow x_nodes threshold reg im wvs noise badpix star rm rs = Ok out ->
  exists idx, new_badpix_row out = scatter_const badpix idx nan.
Proof.
  intros H.
  destruct (where_ (usable badpix im noise star)) as [|i0 wdf] eqn:Hw.
  - rewrite normrow_skipped in H by assumption.
    destruct (get_spline_model x_nodes wvs);
      cbn [mbind result_bind rbind] in H; [|discriminate].
    injection H as <-. exists []. reflexivity.
  - destruct (normrow_fitted _ _ _ _ _ _ _ _ _ _ _ H)
      as (M_spline & p & _ & _ & Hout); [rewrite Hw; discriminate|].
    rewrite Hout. eexists. reflexivity.
Qed.

Lemma length_usable_le badpix im noise star :
  (length (usable badpix im noise star) <= length im)%nat.
Proof.
  unfold usable, vand. rewrite !length_zip_with, !length_fmap. lia.
Qed.

Lemma length_dot M p : length (dot M p) = length M.
Proof. unfold dot. apply length_fmap. Qed.

Lemma length_select_cols M cols : length (select_cols M cols) = length M.
Proof. unfold select_cols. apply length_fmap. Qed.

Lemma lookup_gather (a : vec) idx r i :
  idx !! r = Some i -> gather a idx !! r = Some (a !!! i).
Proof. intros H. unfold gather. rewrite list_lookup_fmap, H. reflexivity. Qed.

Lemma lookup_total_Some (a : vec) i : (i < length a)%nat -> a !! i = Some (a !!! i).
Proof.
  intros H. destruct (lookup_lt_is_Some_2 a i H) as [x Hx].
  rewrite (list_lookup_total_correct _ _ _ Hx). exact Hx.
Qed.

(** the residuals of a row: [d - m] and [(d - m) / d_err] on the usable pixels *)
Lemma residual_lookup n (im noise m : vec) wdf r i :
  NoDup wdf -> wdf !! r = Some i -> (i < n)%nat -> length m = length wdf ->
  scatter (full n nan) wdf (vsub (gather im wdf) m) !! i
    = Some (im !!! i - m !!! r) /\
  normalized_residual n wdf (gather im wdf) m (gather noise wdf) !! i
    = Some ((im !!! i - m !!! r) / noise !!! i).
Proof.
  intros Hnd Hr Hi Hm.
  assert (Hmr : m !! r = Some (m !!! r)).
  { apply lookup_total_Some. rewrite Hm. eapply lookup_lt_Some; eassumption. }
  assert (Hsub : vsub (gather im wdf) m !! r = Some (im !!! i - m !!! r)).
  { unfold vsub. apply lookup_zip_with_Some. eexists _, _.
    split; [reflexivity|]. split; [apply lookup_gather; assumption | assumption]. }
  split.
  - eapply lookup_scatter_in; eauto. unfold full. rewrite length_replicate. assumption.
  - unfold normalized_residual. eapply lookup_scatter_in; eauto.
    + unfold vdiv. apply lookup_zip_with_Some. eexists _, _.
      split; [reflexivity|]. split; [exact Hsub | apply lookup_gather; assumption].
    + unfold full. rewrite length_replicate. assumption.
Qed.

Lemma length_normalized_residual n wdf d m d_err :
  length (normalized_residual n wdf d m d_err) = n.
Proof.
  unfold normalized_residual. rewrite length_scatter. unfold full.
  apply length_replicate.
Qed.

Lemma elem_of_where_bad meddev threshold (nr : vec) i :
  i ∈ where_bad meddev threshold nr <->
  (i < length nr)%nat /\ is_bad meddev threshold (nr !!! i) = true.
Proof.
  unfold where_bad. rewrite elem_of_where. split.
  - intros H. apply list_lookup_fmap_Some in H as (x & Hx & E).
    split; [eapply lookup_lt_Some; eassumption|].
    rewrite (list_lookup_total_correct _ _ _ E). symmetry. assumption.
  - intros [Hlt H]. apply list_lookup_fmap_Some. exists (nr !!! i).
    split; [symmetry; exact H | apply lookup_total_Some; assumption].
Qed.

(** the SCORE step of a fitted row *)
Lemma normrow_score x_nodes threshold reg im wvs noise badpix star rm rs out :
  normrow x_nodes threshold reg im wvs noise badpix star rm rs = Ok out ->
  where_ (usable badpix im noise star) <> [] ->
  let wdf := where_ (usable badpix im noise star) in
  exists m : vec,
    length m = length wdf /\
    let nr := normalized_residual (length im) wdf (gather im wdf) m
                (gather noise wdf) in
    let meddev := median_abs_deviation (gather nr wdf) in
    nr = residual_over_noise (length im) wdf (res_row out) noise /\
    (forall r i, wdf !! r = Some i ->
       new_im_row out !! i = Some (to_f4 (m !!! r)) /\
       res_row out !! i = Some (im !!! i - m !!! r) /\
       nr !! i = Some ((im !!! i - m !!! r) / noise !!! i)) /\
    (forall i, (i < length im)%nat -> i ∉ wdf -> nr !! i = Some nan) /\
    (forall i b, badpix !! i = Some b -> (i < length im)%nat ->
       (isnan (new_badpix_row out !!! i) = true <->
        is_bad meddev threshold (nr !!! i) = true)).
Proof.
  intros H Hne wdf.
  destruct (normrow_fitted _ _ _ _ _ _ _ _ _ _ _ H Hne)
    as (M_spline & p & _ & _ & Hout). cbv zeta in Hout. fold wdf in Hout.
  set (M := select_cols (design M_spline star wdf)
              (validpara (design M_spline star wdf) (prune_rel reg)
                         (length x_nodes))) in *.
  exists (dot M p).
  assert (Hm : length (dot M p) = length wdf).
  { rewrite length_dot. unfold M. rewrite length_select_cols. apply length_design. }
  split; [exact Hm|]. cbv zeta.
  assert (Hlt : forall i, i ∈ wdf -> (i < length im)%nat).
  { intros i Hi. apply where_lt in Hi.
    pose proof (length_usable_le badpix im noise star). lia. }
  assert (Hnan : forall i, (i < length im)%nat -> i ∉ wdf ->
            normalized_residual (length im) wdf (gather im wdf) (dot M p)
              (gather noise wdf) !! i = Some nan).
  { intros i Hi Hnin. unfold normalized_residual.
    etransitivity; [apply lookup_scatter_notin; assumption|].
    apply lookup_full. assumption. }
  split; [|split; [|split; [exact Hnan|]]].
  - rewrite Hout. cbn [res_row]. unfold residual_over_noise, normalized_residual.
    rewrite gather_scatter; [reflexivity | apply where_NoDup | |].
    + unfold vsub. rewrite length_zip_with, length_gather. fold wdf. lia.
    + intros i Hi. unfold full. rewrite length_replicate. apply Hlt. assumption.
  - intros r i Hr.
    assert (Hi : (i < length im)%nat)
      by (apply Hlt; eapply list_elem_of_lookup_2; eassumption).
    rewrite Hout. cbn [res_row new_im_row]. split.
    + eapply lookup_scatter_in; [apply where_NoDup | exact Hr | |].
      * rewrite list_lookup_fmap, (lookup_total_Some (dot M p) r); [reflexivity|].
        rewrite Hm. eapply lookup_lt_Some; eassumption.
      * rewrite length_fmap. assumption.
    + apply residual_lookup; [apply where_NoDup | assumption | assumption | assumption].
  - intros i b Hb Hi. rewrite Hout. cbn [new_badpix_row].
    rewrite (list_lookup_total_correct _ _ _
               (scatter_const_nan_lookup badpix _ i b Hb)).
    destruct (decide (i ∈ _)) as [Hin|Hnin].
    + apply elem_of_where_bad in Hin as [_ Hbad]. split; [intros _; exact Hbad|].
      intros _. reflexivity.
    + assert (Hgood : is_bad
                (median_abs_deviation
                   (gather (normalized_residual (length im) wdf (gather im wdf)
                              (dot M p) (gather noise wdf)) wdf))
                threshold
                (normalized_residual (length im) wdf (gather im wdf) (dot M p)
                   (gather noise wdf) !!! i) = false).
      { destruct (is_bad _ _ _) eqn:E; [|reflexivity]. exfalso. apply Hnin.
        apply elem_of_where_bad. rewrite length_normalized_residual.
        split; assumption. }
      rewrite Hgood. split; [|discriminate]. intros Hbn. exfalso.
      assert (Hnin' : i ∉ wdf).
      { intros Hin. apply elem_of_where in Hin.
        apply usable_badpix in Hin as (b' & Hb' & Hfin).
        rewrite Hb in Hb'. injection Hb' as <-.
        rewrite isnan_not_finite in Hfin by assumption. discriminate. }
      rewrite (list_lookup_total_correct _ _ _ (Hnan i Hi Hnin')) in Hgood.
      unfold is_bad in Hgood. rewrite isnan_nan, orb_true_r in Hgood. discriminate.
Qed.

(** the mask of a pass never gains a pixel *)
Lemma normrow_mask x_nodes threshold reg im wvs noise badpix star rm rs out :
  normrow x_nodes threshold reg im wvs noise badpix star rm rs = Ok out ->
  length (new_badpix_row out) = length badpix /\
  forall i b, badpix !! i = Some b ->
    exists b', new_badpix_row out !! i = Some b' /\
      (isnan b = true -> isnan b' = true) /\
      (isfinite b' = true -> b' = b).
Proof.
  intros H. destruct (normrow_badpix _ _ _ _ _ _ _ _ _ _ _ H) as [idx ->].
  split; [apply length_scatter_const|].
  intros i b Hb. eexists. split; [apply scatter_const_nan_lookup; eassumption|].
  destruct (decide (i ∈ idx)); split; try reflexivity; try tauto.
  intros Hfin. rewrite (isnan_not_finite nan isnan_nan) in Hfin. discriminate.
Qed.

Local Abbreviation task_normrows :=
  (_task_normrows get_spline_model lsq_linear median_abs_deviation).

Lemma task_normrows_row im_rows im_wvs_rows noise_rows badpix_rows x_nodes
    star_model threshold reg rm rs out k :
  task_normrows im_rows im_wvs_rows noise_rows badpix_rows x_nodes star_model
                threshold reg rm rs = Ok out ->
  (k < length im_rows)%nat ->
  exists row,
    normrow x_nodes threshold reg (im_rows !!! k) (im_wvs_rows !!! k)
            (noise_rows !!! k) (badpix_rows !!! k) (star_model !!! k)
            (rm !!! k) (rs !!! k) = Ok row /\
    new_im out !! k = Some (new_im_row row) /\
    new_noise out !! k = Some (new_noise_row row) /\
    new_badpix out !! k = Some (new_badpix_row row) /\
    res out !! k = Some (res_row row) /\
    paras_out out !! k = Some (paras_out_row row).
Proof.
  intros H Hk. unfold _task_normrows in H.
  destruct (mapM _ (seq 0 (length im_rows))) as [rows|] eqn:Hrows;
    cbn [mbind result_bind rbind] in H; [|discriminate].
  injection H as <-.
  destruct (mapM_Ok_lookup _ _ _ k k Hrows (lookup_seq_lt 0 _ k Hk))
    as (row & Hrow & Hnorm).
  exists row. split; [exact Hnorm|]. cbn [new_im new_noise new_badpix res paras_out].
  rewrite !list_lookup_fmap, Hrow. simpl. repeat split; reflexivity.
Qed.

Lemma task_normrows_returns im_rows im_wvs_rows noise_rows badpix_rows x_nodes
    star_model threshold reg rm rs :
  (forall nodes xs, returns (get_spline_model nodes xs)) ->
  (forall A b, returns (lsq_linear A b)) ->
  returns (task_normrows im_rows im_wvs_rows noise_rows badpix_rows x_nodes
             star_model threshold reg rm rs).
Proof.
  intros Hs Hl. unfold _task_normrows.
  destruct (mapM_all_Ok
              (fun k : nat =>
                 normrow x_nodes threshold reg (im_rows !!! k) (im_wvs_rows !!! k)
                   (noise_rows !!! k) (badpix_rows !!! k) (star_model !!! k)
                   (rm !!! k) (rs !!! k))
              (seq 0 (length im_rows))) as [rows Hrows].
  - intros k _. unfold Normalizer.normrow.
    destruct (Hs x_nodes (im_wvs_rows !!! k)) as [M ->].
    cbn [mbind result_bind rbind].
    destruct (Nat.eqb _ 0); [eexists; reflexivity|].
    destruct (fit_system _ _ _ _ _ _ _) as [A b].
    destruct (Hl A b) as [p ->]. eexists; reflexivity.
  - rewrite Hrows. eexists; reflexivity.
Qed.

(** the rule of the SCORE step, read as the two tests of the code *)
Lemma is_bad_spec meddev threshold x :
  is_bad meddev threshold x = true <->
  gtb (abs x / meddev) threshold = true \/ isnan x = true.
Proof. unfold is_bad. apply orb_true_iff. Qed.

(** with a finite deviation and a finite threshold, a residual that is not
    finite is flagged by one of the two tests *)
Lemma is_bad_nonfinite meddev threshold x :
  isfinite meddev = true -> abs meddev = meddev ->
  (threshold <? infinity) = true ->
  (is_bad meddev threshold x = true <->
   gtb (abs x / meddev) threshold = true \/ isfinite x = false).
Proof.
  intros Hm Hs Ht. rewrite is_bad_spec. split.
  - intros [H|H]; [left; assumption | right; apply isnan_not_finite; assumption].
  - intros [H|H]; [left; assumption|].
    apply not_finite_spec in H as [H|[sx H]].
    + right. apply isnan_spec. assumption.
    + left. unfold gtb. rewrite (abs_inf_div x meddev sx H Hm Hs). assumption.
Qed.

Local Abbreviation normslice :=
  (_task_normslice_2dspline get_spline_model lsq_linear median_abs_deviation).

(** a slice without a usable pixel: the read of the unbound local raises *)
Lemma normslice_unbound im im_wvs im_ifuy noise badpix wv_nodes ifuy_nodes wv_ref
    star_model threshold rm rs :
  where_ (usable_2d im im_ifuy noise badpix star_model) = [] ->
  normslice im im_wvs im_ifuy noise badpix wv_nodes ifuy_nodes wv_ref
            star_model threshold rm rs = Raise UnboundLocalError.
Proof.
  intros H. unfold _task_normslice_2dspline. rewrite H. reflexivity.
Qed.

(** a slice that returns: what the five outputs are made of *)
Lemma normslice_fitted im im_wvs im_ifuy noise badpix wv_nodes ifuy_nodes wv_ref
    star_model threshold rm rs out :
  normslice im im_wvs im_ifuy noise badpix wv_nodes ifuy_nodes wv_ref
            star_model threshold rm rs = Ok out ->
  let wdf := where_ (usable_2d im im_ifuy noise badpix star_model) in
  let wvs := gather (concat im_wvs) wdf in
  let d := gather (concat im) wdf in
  let d_err := gather (concat noise) wdf in
  let n := length (concat im) in
  let ncols := (length ifuy_nodes * length wv_nodes)%nat in
  wdf <> [] /\
  exists My Mw p,
    get_spline_model ifuy_nodes
      (slit_position (gather (concat im_ifuy) wdf) wvs wv_ref) = Ok My /\
    get_spline_model wv_nodes wvs = Ok Mw /\
    let M0 := design_2d My Mw (length ifuy_nodes) (length wv_nodes)
                (gather (concat star_model) wdf) in
    let valid := validpara M0 prune_2d ncols in
    let M := select_cols M0 valid in
    let sys := fit_system true M d d_err (concat rm) (concat rs) valid in
    lsq_linear sys.1 sys.2 = Ok p /\
    let m := dot M p in
    let res := scatter (full n nan) wdf (vsub d m) in
    let nr := scatter res wdf (vdiv (gather res wdf) d_err) in
    out = mk_outputs
            (reshape (length <$> im) (scatter (full n nan) wdf m))
            (reshape (length <$> im) (scatter (concat noise) wdf d_err))
            (reshape (length <$> im)
               (scatter_const (concat badpix)
                  (where_bad (median_abs_deviation (gather nr wdf)) threshold nr)
                  nan))
            (reshape (length <$> im) res)
            (reshape (replicate (length ifuy_nodes) (length wv_nodes))
               (scatter (full ncols nan) valid p)).
Proof.
  intros H. cbv zeta. unfold _task_normslice_2dspline in H.
  destruct (where_ (usable_2d im im_ifuy noise badpix star_model)) as [|i wdf] eqn:Hw;
    [discriminate|].
  split; [discriminate|].
  cbn [length Nat.eqb negb mbind result_bind rbind] in H.
  destruct (get_spline_model ifuy_nodes _) as [My|] eqn:Hy;
    cbn [mbind result_bind rbind] in H; [|discriminate].
  destruct (get_spline_model wv_nodes _) as [Mw|] eqn:Hwv;
    cbn [mbind result_bind rbind] in H; [|discriminate].
  destruct (fit_system true _ _ _ (concat rm) (concat rs) _) as [A b] eqn:Hsys.
  destruct (lsq_linear A b) as [p|] eqn:Hp;
    cbn [mbind result_bind rbind] in H; [|discriminate].
  exists My, Mw, p. split; [reflexivity|]. split; [reflexivity|].
  rewrite Hsys. simpl. split; [assumption|]. injection H as <-. reflexivity.
Qed.

Lemma concat_reshape {A} (szs : list nat) (l : list A) :
  sum_list szs = length l -> concat (reshape szs l) = l.
Proof.
  revert l. induction szs as [|sz szs IH]; intros l H; simpl in *.
  - symmetry. apply nil_length_inv. symmetry. exact H.
  - rewrite IH; [apply take_drop|]. rewrite length_drop. lia.
Qed.

Lemma sum_list_replicate a b : sum_list (replicate a b) = (a * b)%nat.
Proof. induction a as [|a IH]; simpl; [reflexivity | rewrite IH; reflexivity]. Qed.

(** the coefficients of a fitted slice, read through the ravel of [paras_out] *)
Lemma normslice_coefficients im im_wvs im_ifuy noise badpix wv_nodes ifuy_nodes
    wv_ref star_model threshold rm rs out :
  normslice im im_wvs im_ifuy noise badpix wv_nodes ifuy_nodes wv_ref
            star_model threshold rm rs = Ok out ->
  let wdf := where_ (usable_2d im im_ifuy noise badpix star_model) in
  let wvs := gather (concat im_wvs) wdf in
  let ncols := (length ifuy_nodes * length wv_nodes)%nat in
  exists My Mw p,
    get_spline_model ifuy_nodes
      (slit_position (gather (concat im_ifuy) wdf) wvs wv_ref) = Ok My /\
    get_spline_model wv_nodes wvs = Ok Mw /\
    let M0 := design_2d My Mw (length ifuy_nodes) (length wv_nodes)
                (gather (concat star_model) wdf) in
    let valid := validpara M0 prune_2d ncols in
    let sys := fit_system true (select_cols M0 valid) (gather (concat im) wdf)
                 (gather (concat noise) wdf) (concat rm) (concat rs) valid in
    lsq_linear sys.1 sys.2 = Ok p /\
    forall j, (j < ncols)%nat ->
      ((nanmax (column j M0) <? prune_threshold M0 prune_2d) = true -> j ∉ valid) /\
      (j ∉ valid -> concat (paras_out out) !! j = Some nan) /\
      (forall r x, valid !! r = Some j -> p !! r = Some x ->
         concat (paras_out out) !! j = Some x).
Proof.
  intros H. destruct (normslice_fitted _ _ _ _ _ _ _ _ _ _ _ _ _ H)
    as (Hne & My & Mw & p & Hy & Hwv & Hp & Hout).
  cbv zeta in *. exists My, Mw, p.
  split; [assumption|]. split; [assumption|]. split; [assumption|].
  intros j Hj. rewrite Hout. cbn [paras_out].
  rewrite concat_reshape
    by (rewrite sum_list_replicate, length_scatter; unfold full;
        rewrite length_replicate; reflexivity).
  destruct (coefficients_scatter (length ifuy_nodes * length wv_nodes)
              (validpara (design_2d My Mw (length ifuy_nodes) (length wv_nodes)
                            (gather (concat star_model)
                               (where_ (usable_2d im im_ifuy noise badpix star_model))))
                         prune_2d (length ifuy_nodes * length wv_nodes)) p j Hj)
    as [Hnan Hval]; [apply where_NoDup|].
  split; [apply pruned_not_valid|]. split; assumption.
Qed.

End Rows.

Lemma reference_solver_shape : solver_shape Reference.lsq_linear.
Proof.
  intros A b x H. unfold Reference.lsq_linear in H.
  destruct A as [|row A]; [discriminate|].
  destruct (forallb _ (row :: A)) eqn:Hall; [|discriminate].
  injection H as <-. rewrite length_fmap, length_seq.
  apply Forall_forall. intros r Hr.
  apply list_elem_of_In in Hr.
  apply (proj1 (forallb_forall _ _) Hall) in Hr.
  apply Nat.eqb_eq. assumption.
Qed.

(** a column is kept exactly when one of its entries exceeds the threshold *)
Lemma count_gt_nonzero (M : mat) t j :
  count_gt M t j <> 0%nat <-> exists row : vec, row ∈ M /\ gtb (row !!! j) t = true.
Proof.
  unfold count_gt. induction M as [|r M IH]; simpl.
  - split; [congruence | intros (row & Hin & _); inversion Hin].
  - destruct (gtb (r !!! j) t) eqn:Hr; simpl.
    + split; [intros _; exists r; split; [left | exact Hr] | discriminate].
    + rewrite IH. split.
      * intros (row & Hin & Hgt). exists row. split; [right; exact Hin | exact Hgt].
      * intros (row & Hin & Hgt). apply elem_of_cons in Hin as [->|Hin];
          [congruence|]. exists row. split; assumption.
Qed.

Lemma elem_of_validpara (M : mat) rel ncols j :
  (j < ncols)%nat ->
  (j ∈ validpara M rel ncols <->
   exists row : vec, row ∈ M /\ gtb (row !!! j) (nanmax (concat M) * rel) = true).
Proof.
  intros Hj. rewrite lookup_validpara, count_gt_nonzero. unfold prune_threshold.
  split; [intros [_ H]; exact H | intros H; split; [exact Hj | exact H]].
Qed.

(** the rows of the system that stand for the pixels: the row of the design
    matrix and the pixel, both over the noise of the pixel *)
Lemma fit_system_pixel_row reg (M_spline : mat) (im noise star rm rs : vec)
    (wdf valid : list nat) r i :
  wdf !! r = Some i ->
  let sys := fit_system reg (select_cols (design M_spline star wdf) valid)
               (gather im wdf) (gather noise wdf) rm rs valid in
  sys.1 !! r
  = Some ((fun y => y / noise !!! i)
            <$> gather ((fun y => y * star !!! i) <$> M_spline !!! i) valid) /\
  sys.2 !! r = Some (im !!! i / noise !!! i).
Proof.
  intros Hr. cbv zeta.
  assert (HM : select_cols (design M_spline star wdf) valid !! r
               = Some (gather ((fun y => y * star !!! i) <$> M_spline !!! i) valid)).
  { unfold select_cols, design, scale_rows. rewrite list_lookup_fmap.
    erewrite (proj2 (lookup_zip_with_Some _ _ _ _ _)); [reflexivity|].
    eexists _, _. split; [reflexivity|].
    split; unfold gather; rewrite list_lookup_fmap, Hr; reflexivity. }
  assert (Hd : gather im wdf !! r = Some (im !!! i))
    by (unfold gather; rewrite list_lookup_fmap, Hr; reflexivity).
  assert (Hn : gather noise wdf !! r = Some (noise !!! i))
    by (unfold gather; rewrite list_lookup_fmap, Hr; reflexivity).
  unfold fit_system, with_prior, div_rows, vdiv. destruct reg; cbn [fst snd]; split;
    apply lookup_zip_with_Some; eexists _, _; (split; [reflexivity|]); split;
    try (apply lookup_app_l_Some); assumption.
Qed.

(** C1. In every row fitted by [_task_normrows] and in every slice fitted by
    [_task_normslice_2dspline], the columns handed to the solver are exactly
    those with an entry above the pruning threshold, [np.nanmax] of the design
    matrix times the relative threshold; a column whose maximum is below the
    threshold is not among them.  The coefficient of every column that is not
    handed to the solver is NaN, so never zero, and the coefficient of the
    r-th kept column is the r-th entry of the solution of the weighted
    least-squares solve: the system is the kept columns and the data, each row
    divided by its noise, followed under regularisation by one row per kept
    column with a finite prior deviation, which holds 1 in that column, the
    prior mean as data and the prior deviation as noise.  For a row the
    solver's contract on shapes gives one entry per kept column. *)
Theorem pruned_columns_are_nan
    (get_spline_model : vec -> vec -> result mat)
    (lsq_linear : mat -> vec -> result vec)
    (median_abs_deviation : vec -> float) :
  solver_shape lsq_linear ->
  (forall x_nodes threshold reg im wvs noise badpix star rm rs out,
     normrow get_spline_model lsq_linear median_abs_deviation
       x_nodes threshold reg im wvs noise badpix star rm rs = Ok out ->
     where_ (usable badpix im noise star) <> [] ->
     exists M_spline p,
       get_spline_model x_nodes wvs = Ok M_spline /\
       let wdf := where_ (usable badpix im noise star) in
       let M0 := design M_spline star wdf in
       let valid := validpara M0 (prune_rel reg) (length x_nodes) in
       let M := select_cols M0 valid in
       let d := gather im wdf in
       let d_err := gather noise wdf in
       let sys := fit_system reg M d d_err rm rs valid in
       lsq_linear sys.1 sys.2 = Ok p /\
       length p = length valid /\
       (forall r i, wdf !! r = Some i ->
          sys.1 !! r
          = Some ((fun y => y / noise !!! i)
                    <$> gather ((fun y => y * star !!! i) <$> M_spline !!! i) valid) /\
          sys.2 !! r = Some (im !!! i / noise !!! i)) /\
       (reg = false ->
          sys.1 = zip_with (fun (row : vec) s => (fun y => y / s) <$> row) M d_err /\
          sys.2 = zip_with div d d_err) /\
       (reg = true ->
          let where_reg := where_ (isfinite <$> gather rs valid) in
          let s_reg := gather (gather rs valid) where_reg in
          let d_reg := gather (gather rm valid) where_reg in
          let M_reg :=
            (fun k : nat => <[k := 1]> (replicate (length valid) 0)) <$> where_reg in
          sys.1 = zip_with (fun (row : vec) s => (fun y => y / s) <$> row)
                           (M ++ M_reg) (d_err ++ s_reg) /\
          sys.2 = zip_with div (d ++ d_reg) (d_err ++ s_reg)) /\
       forall j, (j < length x_nodes)%nat ->
         (j ∈ valid <->
          exists row : vec, row ∈ M0 /\
            gtb (row !!! j) (nanmax (concat M0) * prune_rel reg) = true) /\
         ((nanmax (column j M0) <? prune_threshold M0 (prune_rel reg)) = true ->
            j ∉ valid) /\
         (j ∉ valid ->
            paras_out_row out !! j = Some nan /\ paras_out_row out !! j <> Some 0) /\
         (forall r, valid !! r = Some j ->
            paras_out_row out !! j = p !! r /\ is_Some (p !! r))) /\
  (forall im im_wvs im_ifuy noise badpix wv_nodes ifuy_nodes wv_ref star_model
          threshold rm rs out,
     _task_normslice_2dspline get_spline_model lsq_linear median_abs_deviation
       im im_wvs im_ifuy noise badpix wv_nodes ifuy_nodes wv_ref star_model
       threshold rm rs = Ok out ->
     let wdf := where_ (usable_2d im im_ifuy noise badpix star_model) in
     let wvs := gather (concat im_wvs) wdf in
     let ncols := (length ifuy_nodes * length wv_nodes)%nat in
     exists My Mw p,
       get_spline_model ifuy_nodes
         (slit_position (gather (concat im_ifuy) wdf) wvs wv_ref) = Ok My /\
       get_spline_model wv_nodes wvs = Ok Mw /\
       let M0 := design_2d My Mw (length ifuy_nodes) (length wv_nodes)
                   (gather (concat star_model) wdf) in
       let valid := validpara M0 prune_2d ncols in
       let M := select_cols M0 valid in
       let d := gather (concat im) wdf in
       let d_err := gather (concat noise) wdf in
       let sys := fit_system true M d d_err (concat rm) (concat rs) valid in
       lsq_linear sys.1 sys.2 = Ok p /\
       (let where_reg := where_ (isfinite <$> gather (concat rs) valid) in
        let s_reg := gather (gather (concat rs) valid) where_reg in
        let d_reg := gather (gather (concat rm) valid) where_reg in
        let M_reg :=
          (fun k : nat => <[k := 1]> (replicate (length valid) 0)) <$> where_reg in
        sys.1 = zip_with (fun (row : vec) s => (fun y => y / s) <$> row)
                         (M ++ M_reg) (d_err ++ s_reg) /\
        sys.2 = zip_with div (d ++ d_reg) (d_err ++ s_reg)) /\
       forall j, (j < ncols)%nat ->
         (j ∈ valid <->
          exists row : vec, row ∈ M0 /\
            gtb (row !!! j) (nanmax (concat M0) * prune_2d) = true) /\
         ((nanmax (column j M0) <? prune_threshold M0 prune_2d) = true ->
            j ∉ valid) /\
         (j ∉ valid ->
            concat (paras_out out) !! j = Some nan /\
            concat (paras_out out) !! j <> Some 0) /\
         (forall r x, valid !! r = Some j -> p !! r = Some x ->
            concat (paras_out out) !! j = Some x)).
Proof.
  intros Hshape. split.
  - intros x_nodes threshold reg im wvs noise badpix star rm rs out H Hne.
    destruct (normrow_coefficients _ _ _ _ _ _ _ _ _ _ _ _ _ _ Hshape H Hne)
      as (M_spline & p & Hs & Hp & Hlen & Hcols).
    exists M_spline, p. cbv zeta in *. repeat (split; [assumption|]).
    split; [intros r i Hr; apply fit_system_pixel_row; exact Hr|].
    split; [intros ->; split; reflexivity|].
    split; [intros ->; split; reflexivity|].
    intros j Hj. destruct (Hcols j Hj) as (H1 & H2 & H3).
    split; [apply elem_of_validpara; exact Hj|].
    split; [exact H1|]. split; [|exact H3].
    intros Hnin. rewrite (H2 Hnin). split; [reflexivity | discriminate].
  - intros im im_wvs im_ifuy noise badpix wv_nodes ifuy_nodes wv_ref star_model
           threshold rm rs out H.
    destruct (normslice_coefficients _ _ _ _ _ _ _ _ _ _ _ _ _ _ _ _ H)
      as (My & Mw & p & Hy & Hw & Hp & Hcols).
    exists My, Mw, p. cbv zeta in *. repeat (split; [assumption|]).
    split; [split; reflexivity|].
    intros j Hj. destruct (Hcols j Hj) as (H1 & H2 & H3).
    split; [apply elem_of_validpara; exact Hj|].
    split; [exact H1|]. split; [|exact H3].
    intros Hnin. rewrite (H2 Hnin). split; [reflexivity | discriminate].
Qed.

(** a row of three pixels over the nodes 0, 1 and 5: no pixel reaches the third
    node, whose coefficient is NaN; the first two columns are kept, and their
    coefficients are the two entries of the solution *)
Lemma pruned_columns_are_nan_witness :
  exists out,
    normrow Reference.get_spline_model Reference.lsq_linear
      Reference.median_abs_deviation [0; 1; 5] 10 false
      [10; 20; 22] [0; 1; 1] [1; 1; 1] [1; 1; 1] [1; 1; 1] [] [] = Ok out /\
    where_ (usable [1; 1; 1] [10; 20; 22] [1; 1; 1] [1; 1; 1]) <> [] /\
    paras_out_row out !! 2%nat = Some nan /\
    paras_out_row out !! 2%nat <> Some 0 /\
    paras_out_row out = [10; 21; nan].
Proof.
  eexists. split; [vm_compute; reflexivity|]. split; [vm_compute; discriminate|].
  destruct (proj1 (pruned_columns_are_nan Reference.get_spline_model
                     Reference.lsq_linear Reference.median_abs_deviation
                     reference_solver_shape)
              [0; 1; 5] 10 false [10; 20; 22] [0; 1; 1] [1; 1; 1] [1; 1; 1]
              [1; 1; 1] [] [] _ ltac:(vm_compute; reflexivity)
              ltac:(vm_compute; discriminate))
    as (M_spline & p & Hs & _ & _ & _ & _ & _ & Hcols).
  injection Hs as <-.
  destruct (Hcols 2%nat ltac:(simpl; lia)) as (_ & Hpruned & Hnan & _).
  destruct (Hnan (Hpruned ltac:(vm_compute; reflexivity))) as [H1 H2].
  split; [exact H1|]. split; [exact H2|]. vm_compute. reflexivity.
Defined.

(** C3, as the code has it.  The SCORE step of a fitted row of
    [_task_normrows].  The normalised residual is [(data - model) / noise] on
    the usable pixels and NaN on the others, the deviation is
    [median_abs_deviation] of the normalised residuals of the usable pixels,
    and a pixel is NaN in the returned mask exactly when the absolute value of
    its normalised residual over the deviation exceeds the threshold or its
    normalised residual is NaN.  The second test is [np.isnan]: a residual that
    is infinite is flagged by the first test or not at all; with a deviation
    that is finite and not negative and a finite threshold the first test
    holds for it, and only then is the rule "exceeds the threshold or is not
    finite".  On the row of [SpikeRow], fitted with the instances of
    [Reference] and the threshold 10, one pass flags the five pixels with a
    spike and no other. *)
Theorem score_flags_outliers
    (get_spline_model : vec -> vec -> result mat)
    (lsq_linear : mat -> vec -> result vec)
    (median_abs_deviation : vec -> float) :
  (forall x_nodes threshold reg im wvs noise badpix star rm rs out,
     normrow get_spline_model lsq_linear median_abs_deviation
       x_nodes threshold reg im wvs noise badpix star rm rs = Ok out ->
     where_ (usable badpix im noise star) <> [] ->
     length badpix = length im ->
     let wdf := where_ (usable badpix im noise star) in
     let nr := residual_over_noise (length im) wdf (res_row out) noise in
     let meddev := median_abs_deviation (gather nr wdf) in
     (exists m : vec, length m = length wdf /\
        forall r i, wdf !! r = Some i ->
          new_im_row out !! i = Some (to_f4 (m !!! r)) /\
          res_row out !! i = Some (im !!! i - m !!! r) /\
          nr !! i = Some ((im !!! i - m !!! r) / noise !!! i)) /\
     (forall i, (i < length im)%nat -> i ∉ wdf -> nr !! i = Some nan) /\
     (forall i, (i < length im)%nat ->
        (isnan (new_badpix_row out !!! i) = true <->
         gtb (abs (nr !!! i) / meddev) threshold = true \/
         isnan (nr !!! i) = true)) /\
     (isfinite meddev = true -> abs meddev = meddev ->
      (threshold <? infinity) = true ->
      forall i, (i < length im)%nat ->
        (isnan (new_badpix_row out !!! i) = true <->
         gtb (abs (nr !!! i) / meddev) threshold = true \/
         isfinite (nr !!! i) = false))) /\
  (exists out,
     normrow Reference.get_spline_model Reference.lsq_linear
       Reference.median_abs_deviation SpikeRow.x_nodes SpikeRow.threshold false
       SpikeRow.im SpikeRow.im_wvs SpikeRow.ones SpikeRow.ones SpikeRow.ones
       [] [] = Ok out /\
     where_ (isnan <$> new_badpix_row out) = SpikeRow.spikes).
Proof.
  split; [|eexists; split; [vm_compute; reflexivity | vm_compute; reflexivity]].
  intros x_nodes threshold reg im wvs noise badpix star rm rs out H Hne Hlen.
  destruct (normrow_score _ _ _ _ _ _ _ _ _ _ _ _ _ _ H Hne)
    as (m & Hm & Hnr & Hres & Hnan & Hflag).
  cbv zeta in *. rewrite <- Hnr.
  assert (Hiff : forall i, (i < length im)%nat ->
            (isnan (new_badpix_row out !!! i) = true <->
             is_bad (median_abs_deviation
                       (gather (normalized_residual (length im)
                                  (where_ (usable badpix im noise star))
                                  (gather im (where_ (usable badpix im noise star)))
                                  m
                                  (gather noise (where_ (usable badpix im noise star))))
                               (where_ (usable badpix im noise star))))
                    threshold
                    (normalized_residual (length im)
                       (where_ (usable badpix im noise star))
                       (gather im (where_ (usable badpix im noise star))) m
                       (gather noise (where_ (usable badpix im noise star))) !!! i)
             = true)).
  { intros i Hi.
    destruct (lookup_lt_is_Some_2 badpix i ltac:(lia)) as [b Hb].
    apply (Hflag i b Hb Hi). }
  split; [exists m; split; [exact Hm | exact Hres]|].
  split; [exact Hnan|]. split.
  - intros i Hi. rewrite (Hiff i Hi). apply is_bad_spec.
  - intros Hfin Hsign Hthr i Hi. rewrite (Hiff i Hi).
    apply is_bad_nonfinite; assumption.
Qed.

(** the row of [SpikeRow]: pixel 3 carries a spike and is flagged by the first
    test, pixel 4 carries none and passes both *)
Lemma score_flags_outliers_witness :
  exists out,
    normrow Reference.get_spline_model Reference.lsq_linear
      Reference.median_abs_deviation SpikeRow.x_nodes SpikeRow.threshold false
      SpikeRow.im SpikeRow.im_wvs SpikeRow.ones SpikeRow.ones SpikeRow.ones
      [] [] = Ok out /\
    where_ (usable SpikeRow.ones SpikeRow.im SpikeRow.ones SpikeRow.ones) <> [] /\
    length SpikeRow.ones = length SpikeRow.im /\
    isnan (new_badpix_row out !!! 3%nat) = true /\
    isnan (new_badpix_row out !!! 4%nat) = false.
Proof.
  eexists. split; [vm_compute; reflexivity|].
  split; [vm_compute; discriminate|]. split; [reflexivity|].
  destruct (proj1 (score_flags_outliers Reference.get_spline_model
                     Reference.lsq_linear Reference.median_abs_deviation)
              SpikeRow.x_nodes SpikeRow.threshold false
              SpikeRow.im SpikeRow.im_wvs SpikeRow.ones SpikeRow.ones
              SpikeRow.ones [] [] _ ltac:(vm_compute; reflexivity)
              ltac:(vm_compute; discriminate) eq_refl)
    as (_ & _ & Hflag & _).
  split.
  - apply (Hflag 3%nat ltac:(vm_compute; lia)). left. vm_compute. reflexivity.
  - destruct (isnan _) eqn:E; [|reflexivity].
    apply (Hflag 4%nat ltac:(vm_compute; lia)) in E as [E|E];
      vm_compute in E; discriminate.
Defined.

(** C3, as stated, fails twice.  On the row of [PriorRow] the normalised
    residual of the pixel is infinite and the deviation of the row is NaN: the
    pixel is not flagged, with the threshold 10.  On the flat row of
    [FlatRow], the five spikes of 50 times the noise pull the fit, the clean
    pixels are all at the same distance of it, the deviation is 0, and one
    pass with the threshold 10 flags the 40 pixels of the row and not the five
    alone. *)
Lemma score_tests_nan_only :
  (exists out,
     normrow Reference.get_spline_model Reference.lsq_linear
       Reference.median_abs_deviation PriorRow.x_nodes 10 true
       PriorRow.im PriorRow.im_wvs PriorRow.noise [1] [1]
       PriorRow.reg_mean PriorRow.reg_std = Ok out /\
     residual_over_noise 1 [0%nat] (res_row out) PriorRow.noise = [infinity] /\
     isfinite infinity = false /\
     Reference.median_abs_deviation [infinity] = nan /\
     new_badpix_row out = [1]) /\
  (exists out,
     normrow Reference.get_spline_model Reference.lsq_linear
       Reference.median_abs_deviation FlatRow.x_nodes 10 false
       FlatRow.im FlatRow.im_wvs SpikeRow.ones SpikeRow.ones SpikeRow.ones
       [] [] = Ok out /\
     where_ (isnan <$> new_badpix_row out) = seq 0 40 /\
     seq 0 40 <> SpikeRow.spikes).
Proof.
  split.
  - eexists. split; [vm_compute; reflexivity|].
    repeat split; vm_compute; reflexivity.
  - eexists. split; [vm_compute; reflexivity|].
    split; [vm_compute; reflexivity | vm_compute; discriminate].
Qed.

(** C4, as the code has it.  A row of [_task_normrows] without a usable pixel
    (no pixel with a finite signal, a finite and nonzero noise, a finite mask and
    a finite star-model factor) is skipped once its spline basis is built: the
    solver is not called, so the row returns even with a solver that raises on
    every call; its residual and its coefficients are NaN throughout; its model
    row is the signal row cast to [float32], and its noise and mask rows are the
    input's. *)
Theorem unusable_row_is_skipped
    (get_spline_model : vec -> vec -> result mat)
    (lsq_linear : mat -> vec -> result vec)
    (median_abs_deviation : vec -> float)
    x_nodes threshold reg im wvs noise badpix star rm rs :
  where_ (usable badpix im noise star) = [] ->
  normrow get_spline_model lsq_linear median_abs_deviation
    x_nodes threshold reg im wvs noise badpix star rm rs
  = normrow get_spline_model Reference.lsq_raising median_abs_deviation
      x_nodes threshold reg im wvs noise badpix star rm rs /\
  forall M_spline, get_spline_model x_nodes wvs = Ok M_spline ->
    exists out,
      normrow get_spline_model lsq_linear median_abs_deviation
        x_nodes threshold reg im wvs noise badpix star rm rs = Ok out /\
      length (res_row out) = length im /\
      Forall (fun x => isnan x = true) (res_row out) /\
      length (paras_out_row out) = length x_nodes /\
      Forall (fun x => isnan x = true) (paras_out_row out) /\
      new_im_row out = to_f4 <$> im /\
      new_noise_row out = noise /\
      new_badpix_row out = badpix.
Proof.
  intros H. rewrite !normrow_skipped by assumption. split; [reflexivity|].
  intros M_spline ->. eexists. split; [reflexivity|]. cbn.
  unfold full. rewrite !length_replicate.
  repeat split; apply Forall_replicate; reflexivity.
Qed.

(** a row of two pixels whose noise is zero *)
Lemma unusable_row_is_skipped_witness :
  where_ (usable [1; 1] [1; 2] [0; 0] [1; 1]) = [] /\
  exists out,
    normrow Reference.get_spline_model Reference.lsq_linear
      Reference.median_abs_deviation [0; 1; 5] 10 true
      [1; 2] [0; 1] [0; 0] [1; 1] [1; 1] [10; 20; 30] [10; 20; 30] = Ok out /\
    Forall (fun x => isnan x = true) (res_row out) /\
    new_im_row out = to_f4 <$> [1; 2].
Proof.
  split; [reflexivity|].
  destruct (proj2 (unusable_row_is_skipped Reference.get_spline_model
                     Reference.lsq_linear Reference.median_abs_deviation
                     [0; 1; 5] 10 true [1; 2] [0; 1] [0; 0] [1; 1] [1; 1]
                     [10; 20; 30] [10; 20; 30] eq_refl) _ eq_refl)
    as (out & Hout & _ & Hres & _ & _ & Him & _).
  exists out. split; [exact Hout|]. split; [exact Hres | exact Him].
Defined.

(** C4, as stated, fails: the row of two pixels whose noise is zero has no usable
    pixel, and its returned model row is the signal [1; 2], not NaN. *)
Lemma unusable_row_model_is_signal :
  where_ (usable [1; 1] [1; 2] [0; 0] [1; 1]) = [] /\
  exists out,
    normrow Reference.get_spline_model Reference.lsq_linear
      Reference.median_abs_deviation [0; 1; 5] 10 true
      [1; 2] [0; 1] [0; 0] [1; 1] [1; 1] [10; 20; 30] [10; 20; 30] = Ok out /\
    new_im_row out = [1; 2] /\
    ~ Forall (fun x => isnan x = true) (new_im_row out).
Proof.
  split; [reflexivity|]. eexists. split; [vm_compute; reflexivity|].
  split; [reflexivity|]. intros H. apply Forall_cons in H as [H _].
  vm_compute in H. discriminate.
Qed.

(** C9. The mask [_task_normrows] returns has the rows of the input mask, and
    each of its entries is the input's entry or NaN: it is NaN wherever the
    input mask was NaN, and where it is finite it is the input's entry, which was
    finite.  So the set of included pixels never grows across a pass, nor across
    passes fed with the mask of the pass before.  The task returns whenever the
    basis builder and the solver do. *)
Theorem mask_never_grows
    (get_spline_model : vec -> vec -> result mat)
    (lsq_linear : mat -> vec -> result vec)
    (median_abs_deviation : vec -> float)
    im_rows im_wvs_rows noise_rows badpix_rows x_nodes star_model threshold
    reg rm rs :
  length badpix_rows = length im_rows ->
  (forall out,
     _task_normrows get_spline_model lsq_linear median_abs_deviation
       im_rows im_wvs_rows noise_rows badpix_rows x_nodes star_model
       threshold reg rm rs = Ok out ->
     forall k row, badpix_rows !! k = Some row ->
       exists row', new_badpix out !! k = Some row' /\
         length row' = length row /\
         forall i b, row !! i = Some b ->
           exists b', row' !! i = Some b' /\
             (isnan b = true -> isnan b' = true) /\
             (isfinite b' = true -> b' = b /\ isfinite b = true)) /\
  ((forall nodes xs, returns (get_spline_model nodes xs)) ->
   (forall A b, returns (lsq_linear A b)) ->
   returns (_task_normrows get_spline_model lsq_linear median_abs_deviation
              im_rows im_wvs_rows noise_rows badpix_rows x_nodes star_model
              threshold reg rm rs)).
Proof.
  intros Hlen. split; [|apply task_normrows_returns].
  intros out H k row Hrow.
  assert (Hk : (k < length im_rows)%nat)
    by (rewrite <- Hlen; eapply lookup_lt_Some; eassumption).
  destruct (task_normrows_row _ _ _ _ _ _ _ _ _ _ _ _ _ _ k H Hk)
    as (r & Hnorm & _ & _ & Hbp & _).
  rewrite (list_lookup_total_correct _ _ _ Hrow) in Hnorm.
  destruct (normrow_mask _ _ _ _ _ _ _ _ _ _ _ _ _ _ Hnorm) as [Hl Hent].
  exists (new_badpix_row r). split; [exact Hbp|]. split; [exact Hl|].
  intros i b Hb. destruct (Hent i b Hb) as (b' & Hb' & Hnan & Hfin).
  exists b'. split; [exact Hb'|]. split; [exact Hnan|].
  intros Hf. pose proof (Hfin Hf) as ->. split; [reflexivity | exact Hf].
Qed.

(** two rows, the first with a pixel already excluded and a spike of the data,
    which the pass flags: the excluded pixel stays excluded *)
Lemma mask_never_grows_witness :
  exists out,
    _task_normrows Reference.get_spline_model Reference.lsq_linear
      Reference.median_abs_deviation
      [[9; 10; 11; 9; 90; 11; 9; 11]; [1; 2; 3; 4; 5; 6; 7; 8]]
      [[0; 0; 0; 0; 0; 0; 0; 0]; [0; 0; 0; 0; 1; 1; 1; 1]]
      [[1; 1; 1; 1; 1; 1; 1; 1]; [1; 1; 1; 1; 1; 1; 1; 1]]
      [[1; nan; 1; 1; 1; 1; 1; 1]; [1; 1; 1; 1; 1; 1; 1; 1]]
      [0; 1]
      [[1; 1; 1; 1; 1; 1; 1; 1]; [1; 1; 1; 1; 1; 1; 1; 1]]
      10 false [] [] = Ok out /\
    new_badpix out = [[1; nan; 1; 1; nan; 1; 1; 1]; [1; 1; 1; 1; 1; 1; 1; 1]] /\
    exists row', new_badpix out !! 0%nat = Some row' /\
      exists b', row' !! 1%nat = Some b' /\ isnan b' = true.
Proof.
  eexists. split; [vm_compute; reflexivity|]. split; [reflexivity|].
  destruct (proj1 (mask_never_grows Reference.get_spline_model
                     Reference.lsq_linear Reference.median_abs_deviation
                     [[9; 10; 11; 9; 90; 11; 9; 11]; [1; 2; 3; 4; 5; 6; 7; 8]]
                     [[0; 0; 0; 0; 0; 0; 0; 0]; [0; 0; 0; 0; 1; 1; 1; 1]]
                     [[1; 1; 1; 1; 1; 1; 1; 1]; [1; 1; 1; 1; 1; 1; 1; 1]]
                     [[1; nan; 1; 1; 1; 1; 1; 1]; [1; 1; 1; 1; 1; 1; 1; 1]]
                     [0; 1]
                     [[1; 1; 1; 1; 1; 1; 1; 1]; [1; 1; 1; 1; 1; 1; 1; 1]]
                     10 false [] [] eq_refl)
              _ ltac:(vm_compute; reflexivity) 0%nat _ eq_refl)
    as (row' & Hrow' & _ & Hent).
  exists row'. split; [exact Hrow'|].
  destruct (Hent 1%nat nan eq_refl) as (b' & Hb' & Hnan & _).
  exists b'. split; [exact Hb' | apply Hnan; reflexivity].
Defined.

End NormalizerFacts.

(** ** The spectral combiner *)

Module CombinerFacts.

Import F64 Np Combiner F64Facts NpFacts NormalizerFacts.
Local Open Scope float_scope.

Lemma elem_of_insert_index w k idx j :
  j ∈ insert_index w k idx <-> j = k \/ j ∈ idx.
Proof.
  induction idx as [|i idx IH]; simpl.
  - rewrite list_elem_of_singleton. split; [intros ->; left; reflexivity|].
    intros [->|H]; [reflexivity | inversion H].
  - destruct (w !!! k <=? w !!! i).
    + rewrite elem_of_cons. reflexivity.
    + rewrite !elem_of_cons, IH. tauto.
Qed.

Lemma elem_of_argsort w j : j ∈ argsort w <-> (j < length w)%nat.
Proof.
  unfold argsort.
  assert (H : forall l, j ∈ foldr (insert_index w) [] l <-> j ∈ l).
  { induction l as [|k l IH]; simpl; [reflexivity|].
    rewrite elem_of_insert_index, elem_of_cons, IH. reflexivity. }
  rewrite H, elem_of_seq. lia.
Qed.

(** a sample is kept exactly when its wavelength and its flux are not NaN,
    whatever its error *)
Lemma elem_of_where_mask (w f : vec) k :
  k ∈ where_mask w f <->
  exists wk fk, w !! k = Some wk /\ f !! k = Some fk /\
                isnan wk = false /\ isnan fk = false.
Proof.
  unfold where_mask, vor. rewrite elem_of_where. split.
  - intros H. apply list_lookup_fmap_Some in H as (b & Hb & H).
    apply lookup_zip_with_Some in H as (x & y & -> & Hx & Hy).
    apply list_lookup_fmap_Some in Hx as (wk & -> & Hw).
    apply list_lookup_fmap_Some in Hy as (fk & -> & Hf).
    exists wk, fk. symmetry in Hb. apply negb_true_iff, orb_false_iff in Hb as [? ?].
    repeat split; assumption.
  - intros (wk & fk & Hw & Hf & Hnw & Hnf).
    apply list_lookup_fmap_Some. exists (isnan wk || isnan fk).
    split; [rewrite Hnw, Hnf; reflexivity|].
    apply lookup_zip_with_Some. exists (isnan wk), (isnan fk).
    split; [reflexivity|].
    split; apply list_lookup_fmap_Some; eexists; split; eauto.
Qed.

(** a NaN entry makes the plain sum NaN *)
Lemma sum_from_nan (a : vec) acc : isnan acc = true -> isnan (foldl add acc a) = true.
Proof.
  revert acc. induction a as [|x a IH]; intros acc H; simpl; [assumption|].
  apply IH. apply isnan_add_l. assumption.
Qed.

Lemma sum_nan (a : vec) x : x ∈ a -> isnan x = true -> isnan (sum a) = true.
Proof.
  unfold sum. generalize 0. induction a as [|y a IH]; intros acc Hin Hx;
    [inversion Hin|].
  simpl. apply elem_of_cons in Hin as [->|Hin].
  - apply sum_from_nan. apply isnan_add_r. assumption.
  - apply IH; assumption.
Qed.

Section Bins.

Variable sigma_clip : vec -> list bool.

(** a sample whose error is NaN makes the flux and the error of its bin NaN:
    its clip statistic is NaN, so it is never masked *)
Lemma combine_bin_nan_error (bin_fluxes bin_errors : vec) r e :
  length bin_fluxes = length bin_errors ->
  bin_errors !! r = Some e -> isnan e = true ->
  combine_bin sigma_clip bin_fluxes bin_errors = (nan, nan).
Proof.
  intros Hlen He Hnan. unfold combine_bin, clip_statistic.
  set (tmp_snr := vdiv _ bin_errors).
  destruct (Nat.eqb (length (where_ (isfinite <$> tmp_snr))) 0) eqn:Hfin;
    [reflexivity|].
  set (wtf := where_ (isfinite <$> tmp_snr)) in *.
  set (mask := scatter _ wtf _).
  set (where_valid := where_ (negb <$> mask)).
  assert (Hr : (r < length bin_errors)%nat) by (eapply lookup_lt_Some; eassumption).
  assert (Hlt : (r < length tmp_snr)%nat).
  { unfold tmp_snr, vdiv. rewrite length_zip_with, length_fmap. lia. }
  assert (Hsnr : exists x, tmp_snr !! r = Some (x / e)).
  { destruct (lookup_lt_is_Some_2 bin_fluxes r ltac:(lia)) as [fl Hfl].
    exists (fl - nanmedian bin_fluxes). unfold tmp_snr, vdiv.
    apply lookup_zip_with_Some. eexists _, _. split; [reflexivity|].
    split; [|exact He]. rewrite list_lookup_fmap, Hfl. reflexivity. }
  destruct Hsnr as [x Hsnr].
  assert (Hnot : r ∉ wtf).
  { intros Hin. unfold wtf in Hin. apply elem_of_where in Hin.
    rewrite list_lookup_fmap, Hsnr in Hin. simpl in Hin. injection Hin as Hin.
    rewrite isnan_not_finite in Hin by (apply isnan_div_r; assumption).
    discriminate. }
  assert (Hmask : mask !! r = Some false).
  { unfold mask. rewrite lookup_scatter_notin by assumption.
    apply lookup_replicate_2. assumption. }
  assert (Hvalid : r ∈ where_valid).
  { unfold where_valid. apply elem_of_where.
    rewrite list_lookup_fmap, Hmask. reflexivity. }
  apply list_elem_of_lookup_1 in Hvalid as [r' Hr'].
  set (fluxes' := gather bin_fluxes where_valid).
  set (errors' := gather bin_errors where_valid).
  set (weights := (fun e0 => 1 / (e0 * e0)) <$> errors').
  assert (Hw : weights !! r' = Some (1 / (e * e))).
  { unfold weights, errors'. rewrite list_lookup_fmap.
    rewrite (lookup_gather bin_errors where_valid r' r Hr').
    rewrite (list_lookup_total_correct _ _ _ He). reflexivity. }
  assert (Hwnan : isnan (1 / (e * e)) = true)
    by (apply isnan_div_r, isnan_mul_l; assumption).
  assert (Hpos : Nat.ltb 0 (length weights) = true).
  { apply Nat.ltb_lt. apply lookup_lt_Some in Hw. lia. }
  rewrite Hpos.
  assert (Hsw : isnan (sum weights) = true).
  { eapply sum_nan; [eapply list_elem_of_lookup_2; exact Hw | exact Hwnan]. }
  assert (Hswf : isnan (sum (vmul weights fluxes')) = true).
  { assert (Hfl : is_Some (fluxes' !! r')).
    { apply lookup_lt_is_Some. unfold fluxes'. rewrite length_gather.
      eapply lookup_lt_Some; eassumption. }
    destruct Hfl as [fl Hfl].
    eapply (sum_nan _ (1 / (e * e) * fl)).
    - eapply list_elem_of_lookup_2. unfold vmul. apply lookup_zip_with_Some.
      eexists _, _. split; [reflexivity|]. split; eassumption.
    - apply isnan_mul_l. assumption. }
  f_equal; apply isnan_eq.
  - apply isnan_div_l. assumption.
  - apply isnan_div_r, isnan_sqrt. assumption.
Qed.

Lemma length_prepared (w f e : vec) :
  length (prepared w f e).1.2 = length (prepared w f e).1.1 /\
  length (prepared w f e).2 = length (prepared w f e).1.1.
Proof. unfold prepared. simpl. rewrite !length_gather. split; reflexivity. Qed.

(** a kept sample is one of the sorted samples, with its flux and its error *)
Lemma prepared_sample (w f e : vec) k :
  k ∈ where_mask w f ->
  exists r, (prepared w f e).1.1 !! r = Some (w !!! k) /\
            (prepared w f e).1.2 !! r = Some (f !!! k) /\
            (prepared w f e).2 !! r = Some (e !!! k).
Proof.
  intros Hk. apply list_elem_of_lookup_1 in Hk as [r1 Hr1].
  assert (Hin : r1 ∈ argsort (gather w (where_mask w f))).
  { apply elem_of_argsort. rewrite length_gather. eapply lookup_lt_Some; eassumption. }
  apply list_elem_of_lookup_1 in Hin as [r Hr]. exists r.
  unfold prepared. simpl.
  rewrite !(lookup_gather _ _ r r1 Hr).
  rewrite !(list_lookup_total_correct _ _ _ (lookup_gather _ _ r1 k Hr1)).
  repeat split; reflexivity.
Qed.

Variable np_zeros : nat -> Z -> result vec.

Local Abbreviation combine := (combine_spectrum sigma_clip np_zeros).

Lemma insert_next (l : vec) n k x :
  length l = k -> (k < n)%nat ->
  <[k := x]> (l ++ replicate (n - k) 0) = (l ++ [x]) ++ replicate (n - S k) 0.
Proof.
  intros Hl Hk. rewrite insert_app_r_alt by lia.
  replace (k - length l)%nat with 0%nat by lia.
  replace (n - k)%nat with (S (n - S k)) by lia.
  simpl. rewrite <- app_assoc. reflexivity.
Qed.

(** the loop over the bins fills the arrays from the left *)
Lemma store_bins (row : nat -> float * float * float) n k :
  (k <= n)%nat ->
  foldl (store_bin row) (replicate n 0, replicate n 0, replicate n 0) (seq 0 k)
  = (((fun i => (row i).1.1) <$> seq 0 k) ++ replicate (n - k) 0,
     ((fun i => (row i).1.2) <$> seq 0 k) ++ replicate (n - k) 0,
     ((fun i => (row i).2) <$> seq 0 k) ++ replicate (n - k) 0).
Proof.
  induction k as [|k IH]; intros Hk.
  - simpl. rewrite Nat.sub_0_r. reflexivity.
  - rewrite seq_S, foldl_app, IH by lia. cbn [foldl store_bin Nat.add].
    rewrite !fmap_app. cbn [fmap list_fmap].
    rewrite !insert_next by (rewrite ?length_fmap, ?length_seq; lia).
    reflexivity.
Qed.

Lemma store_all_bins ws fs es bin_size n :
  foldl (store_bin (bin_row sigma_clip ws fs es bin_size))
        (replicate n 0, replicate n 0, replicate n 0) (seq 0 n)
  = binned sigma_clip ws fs es bin_size n.
Proof.
  rewrite store_bins by lia. rewrite Nat.sub_diag. cbn [replicate].
  rewrite !app_nil_r. unfold binned. rewrite <- !list_fmap_compose. reflexivity.
Qed.

Lemma allocator_ok site n v :
  allocator np_zeros -> np_zeros site n = Ok v ->
  (0 <= n < 2 ^ 63)%Z /\ v = replicate (Z.to_nat n) 0.
Proof. intros H Hv. specialize (H site n). rewrite Hv in H. exact H. Qed.

Lemma allocator_raise site n x :
  allocator np_zeros -> np_zeros site n = Raise x ->
  ((n < 0 \/ 2 ^ 63 <= n)%Z -> x = ValueError) /\
  (x = ValueError \/ x = MemoryError).
Proof. intros H Hv. specialize (H site n). rewrite Hv in H. exact H. Qed.

(** the body of [combine_spectrum] once the samples are prepared *)
Lemma combine_spectrum_unfold (w f e : vec) bin_size :
  let ws := (prepared w f e).1.1 in
  let fs := (prepared w f e).1.2 in
  let es := (prepared w f e).2 in
  (ws = [] -> combine w f e bin_size = Raise IndexError) /\
  (ws <> [] ->
   combine w f e bin_size
   = (q ← to_int (span_over_bin ws bin_size);
      combined_fluxes ← np_zeros 0%nat (q + 1)%Z;
      combined_errors ← np_zeros 1%nat (q + 1)%Z;
      new_wavelengths ← np_zeros 2%nat (q + 1)%Z;
      Ok (foldl (store_bin (bin_row sigma_clip ws fs es bin_size))
                (new_wavelengths, combined_fluxes, combined_errors)
                (seq 0 (Z.to_nat (q + 1)))))).
Proof.
  cbv zeta. unfold combine_spectrum.
  destruct (prepared w f e) as [[ws fs] es]. simpl.
  split; [intros ->; reflexivity|].
  intros Hne. destruct ws; [congruence | reflexivity].
Qed.

(** what [combine_spectrum] does, case by case *)
Lemma combine_spectrum_cases (w f e : vec) bin_size :
  allocator np_zeros ->
  let ws := (prepared w f e).1.1 in
  let fs := (prepared w f e).1.2 in
  let es := (prepared w f e).2 in
  (ws = [] -> combine w f e bin_size = Raise IndexError) /\
  (forall x, ws <> [] -> to_int (span_over_bin ws bin_size) = Raise x ->
     combine w f e bin_size = Raise x) /\
  (forall q, ws <> [] -> to_int (span_over_bin ws bin_size) = Ok q ->
     ~ allocated np_zeros (q + 1) ->
     exists x, combine w f e bin_size = Raise x /\
       (x = ValueError \/ x = MemoryError) /\
       ((q + 1 < 0 \/ 2 ^ 63 <= q + 1)%Z -> x = ValueError)) /\
  (forall q, ws <> [] -> to_int (span_over_bin ws bin_size) = Ok q ->
     allocated np_zeros (q + 1) ->
     (0 <= q + 1 < 2 ^ 63)%Z /\
     combine w f e bin_size
     = Ok (binned sigma_clip ws fs es bin_size (Z.to_nat (q + 1)))).
Proof.
  intros Halloc. cbv zeta.
  destruct (combine_spectrum_unfold w f e bin_size) as [Hnil Hbody].
  cbv zeta in Hnil, Hbody.
  split; [exact Hnil|]. split; [|split].
  - intros x Hne Hx. rewrite (Hbody Hne), Hx. reflexivity.
  - intros q Hne Hq Hnot. rewrite (Hbody Hne), Hq. cbn [mbind result_bind rbind].
    destruct (np_zeros 0%nat (q + 1)%Z) as [cf|x0] eqn:H0;
      cbn [mbind result_bind rbind].
    2:{ exists x0. split; [reflexivity|].
        destruct (allocator_raise _ _ _ Halloc H0). split; assumption. }
    destruct (np_zeros 1%nat (q + 1)%Z) as [ce|x1] eqn:H1;
      cbn [mbind result_bind rbind].
    2:{ exists x1. split; [reflexivity|].
        destruct (allocator_raise _ _ _ Halloc H1). split; assumption. }
    destruct (np_zeros 2%nat (q + 1)%Z) as [nw|x2] eqn:H2;
      cbn [mbind result_bind rbind].
    2:{ exists x2. split; [reflexivity|].
        destruct (allocator_raise _ _ _ Halloc H2). split; assumption. }
    exfalso. apply Hnot. unfold allocated, returns. rewrite H0, H1, H2.
    repeat split; eexists; reflexivity.
  - intros q Hne Hq ([cf H0] & [ce H1] & [nw H2]).
    rewrite (Hbody Hne), Hq. cbn [mbind result_bind rbind].
    rewrite H0. cbn [mbind result_bind rbind].
    rewrite H1. cbn [mbind result_bind rbind].
    rewrite H2. cbn [mbind result_bind rbind].
    destruct (allocator_ok _ _ _ Halloc H0) as [Hrange ->].
    destruct (allocator_ok _ _ _ Halloc H1) as [_ ->].
    destruct (allocator_ok _ _ _ Halloc H2) as [_ ->].
    split; [exact Hrange|]. rewrite store_all_bins. reflexivity.
Qed.




(** the rows of a returned result *)
Lemma combine_spectrum_rows (w f e : vec) bin_size nw cf ce :
  allocator np_zeros ->
  combine w f e bin_size = Ok (nw, cf, ce) ->
  let ws := (prepared w f e).1.1 in
  let fs := (prepared w f e).1.2 in
  let es := (prepared w f e).2 in
  exists q, ws <> [] /\ to_int (span_over_bin ws bin_size) = Ok q /\
    allocated np_zeros (q + 1) /\ (0 <= q + 1 < 2 ^ 63)%Z /\
    length nw = Z.to_nat (q + 1) /\ length cf = Z.to_nat (q + 1) /\
    length ce = Z.to_nat (q + 1) /\
    forall i, (i < Z.to_nat (q + 1))%nat ->
      nw !! i = Some (bin_row sigma_clip ws fs es bin_size i).1.1 /\
      cf !! i = Some (bin_row sigma_clip ws fs es bin_size i).1.2 /\
      ce !! i = Some (bin_row sigma_clip ws fs es bin_size i).2.
Proof.
  intros Halloc H. cbv zeta.
  destruct (combine_spectrum_cases w f e bin_size Halloc)
    as (Hnil & Hraise & Hfail & Hok).
  cbv zeta in *.
  destruct ((prepared w f e).1.1) as [|w0 ws] eqn:Hws.
  { rewrite Hnil in H by reflexivity. discriminate. }
  destruct (to_int (span_over_bin (w0 :: ws) bin_size)) as [q|x] eqn:Hq.
  2:{ rewrite (Hraise x) in H by (congruence || reflexivity). discriminate. }
  assert (Hal : allocated np_zeros (q + 1)).
  { destruct (np_zeros 0%nat (q + 1)%Z) as [a0|x0] eqn:H0;
      [destruct (np_zeros 1%nat (q + 1)%Z) as [a1|x1] eqn:H1;
       [destruct (np_zeros 2%nat (q + 1)%Z) as [a2|x2] eqn:H2|]|].
    - unfold allocated, returns. rewrite H0, H1, H2.
      repeat split; eexists; reflexivity.
    - destruct (Hfail q ltac:(discriminate) eq_refl) as (x & Hx & _);
        [|rewrite Hx in H; discriminate].
      intros (_ & _ & [? Hr]). rewrite H2 in Hr. discriminate.
    - destruct (Hfail q ltac:(discriminate) eq_refl) as (x & Hx & _);
        [|rewrite Hx in H; discriminate].
      intros (_ & [? Hr] & _). rewrite H1 in Hr. discriminate.
    - destruct (Hfail q ltac:(discriminate) eq_refl) as (x & Hx & _);
        [|rewrite Hx in H; discriminate].
      intros ([? Hr] & _). rewrite H0 in Hr. discriminate. }
  destruct (Hok q ltac:(discriminate) eq_refl Hal) as [Hrange Hret].
  rewrite Hret in H. unfold binned in H. injection H as <- <- <-. exists q.
  split; [discriminate|]. split; [reflexivity|]. split; [exact Hal|].
  split; [exact Hrange|].
  rewrite !length_fmap, !length_seq. repeat (split; [reflexivity|]).
  intros i Hi. rewrite !list_lookup_fmap, (lookup_seq_lt 0 _ i Hi). simpl.
  repeat split; reflexivity.
Qed.



(** a sample of the bin whose error is NaN *)
Lemma bin_row_nan_error ws fs es bin_size i r e :
  length fs = length ws -> length es = length ws ->
  let start := bin_start (ws !!! 0%nat) bin_size i in
  bin_mask ws start (start + bin_size) !! r = Some true ->
  es !! r = Some e -> isnan e = true ->
  (bin_row sigma_clip ws fs es bin_size i).1.2 = nan /\
  (bin_row sigma_clip ws fs es bin_size i).2 = nan.
Proof.
  cbv zeta. intros Hf He Hin Her Hnan. unfold bin_row.
  apply elem_of_where in Hin.
  destruct (Nat.eqb _ 0); [split; reflexivity|].
  apply list_elem_of_lookup_1 in Hin as [r' Hr'].
  rewrite (combine_bin_nan_error _ _ r' e); [split; reflexivity | | | assumption].
  - rewrite !length_gather. reflexivity.
  - rewrite (lookup_gather es _ r' r Hr').
    rewrite (list_lookup_total_correct _ _ _ Her). reflexivity.
Qed.

Lemma lookup_bin_mask (ws : vec) start stop r wk :
  ws !! r = Some wk ->
  bin_mask ws start stop !! r = Some (geb wk start && (wk <? stop)).
Proof.
  intros H. unfold bin_mask, vand. apply lookup_zip_with_Some.
  eexists _, _. split; [reflexivity|].
  split; rewrite list_lookup_fmap, H; reflexivity.
Qed.



End Bins.

(** the samples that [combine_spectrum] keeps are those of [without_nan] *)
Lemma gather_where_from (pre w f e : vec) (pf pe : vec) :
  length pf = length pre -> length pe = length pre ->
  let idx := where_from (length pre)
               (negb <$> vor (isnan <$> w) (isnan <$> f)) in
  length f = length w -> length e = length w ->
  gather (pre ++ w) idx = (without_nan w f e).1.1 /\
  gather (pf ++ f) idx = (without_nan w f e).1.2 /\
  gather (pe ++ e) idx = (without_nan w f e).2.
Proof.
  cbv zeta. revert pre pf pe f e.
  induction w as [|wk w IH]; intros pre pf pe f e Hpf Hpe Hf He.
  - destruct f; [|discriminate]. destruct e; [|discriminate].
    simpl. repeat split; reflexivity.
  - destruct f as [|fk f]; [discriminate|]. destruct e as [|ek e]; [discriminate|].
    simpl in Hf, He.
    destruct (IH (pre ++ [wk]) (pf ++ [fk]) (pe ++ [ek]) f e) as (Hw & Hfl & Her);
      try (rewrite ?length_app; simpl; lia).
    rewrite length_app in Hw, Hfl, Her. simpl in Hw, Hfl, Her.
    rewrite Nat.add_1_r in Hw, Hfl, Her.
    rewrite <- !app_assoc in Hw, Hfl, Her. simpl in Hw, Hfl, Her.
    cbn [fmap list_fmap vor zip_with where_from without_nan].
    destruct (without_nan w f e) as [[rw rf] re]. simpl in Hw, Hfl, Her.
    destruct (isnan wk || isnan fk); cbn [negb].
    + repeat split; assumption.
    + unfold gather in *. cbn [fmap list_fmap]. rewrite Hw, Hfl, Her.
      rewrite !(list_lookup_total_middle _ _ _ _ eq_refl).
      rewrite (list_lookup_total_middle pf _ _ _ (eq_sym Hpf)).
      rewrite (list_lookup_total_middle pe _ _ _ (eq_sym Hpe)).
      repeat split; reflexivity.
Qed.

Lemma gather_where_mask (w f e : vec) :
  length f = length w -> length e = length w ->
  (gather w (where_mask w f), gather f (where_mask w f), gather e (where_mask w f))
  = without_nan w f e.
Proof.
  intros Hf He.
  destruct (gather_where_from [] w f e [] [] eq_refl eq_refl Hf He) as (H1 & H2 & H3).
  simpl in H1, H2, H3. unfold where_mask, where_.
  destruct (without_nan w f e) as [[rw rf] re]. simpl in *.
  rewrite H1, H2, H3. reflexivity.
Qed.

Lemma length_without_nan (w f e : vec) :
  length (without_nan w f e).1.2 = length (without_nan w f e).1.1 /\
  length (without_nan w f e).2 = length (without_nan w f e).1.1.
Proof.
  revert f e. induction w as [|wk w IH]; intros f e; [split; reflexivity|].
  destruct f as [|fk f]; [split; reflexivity|].
  destruct e as [|ek e]; [split; reflexivity|]. simpl.
  specialize (IH f e). destruct (without_nan w f e) as [[rw rf] re].
  destruct (isnan wk || isnan fk); simpl in *; [exact IH|].
  destruct IH as [-> ->]. split; reflexivity.
Qed.

(** removing the removed samples again changes nothing *)
Lemma without_nan_again (w f e : vec) :
  let '(ws, fs, es) := without_nan w f e in without_nan ws fs es = (ws, fs, es).
Proof.
  revert f e. induction w as [|wk w IH]; intros f e; [reflexivity|].
  destruct f as [|fk f]; [reflexivity|]. destruct e as [|ek e]; [reflexivity|].
  simpl. specialize (IH f e). destruct (without_nan w f e) as [[rw rf] re].
  destruct (isnan wk || isnan fk) eqn:Hk; [exact IH|].
  simpl. rewrite IH, Hk. reflexivity.
Qed.

(** a sample of [without_nan] is a sample of the input that is not NaN, and
    every such sample of the input is one of them, with its error *)
Lemma without_nan_sample (w f e : vec) :
  length f = length w -> length e = length w ->
  (forall r wr fr, (without_nan w f e).1.1 !! r = Some wr ->
     (without_nan w f e).1.2 !! r = Some fr ->
     isnan wr = false /\ isnan fr = false) /\
  (forall k wk fk ek, w !! k = Some wk -> f !! k = Some fk -> e !! k = Some ek ->
     isnan wk = false -> isnan fk = false ->
     exists r, (without_nan w f e).1.1 !! r = Some wk /\
               (without_nan w f e).1.2 !! r = Some fk /\
               (without_nan w f e).2 !! r = Some ek).
Proof.
  revert f e. induction w as [|w0 w IH]; intros f e Hf He.
  - split; [intros r wr fr H; discriminate | intros k wk fk ek H; discriminate].
  - destruct f as [|f0 f]; [discriminate|]. destruct e as [|e0 e]; [discriminate|].
    simpl in Hf, He. destruct (IH f e ltac:(lia) ltac:(lia)) as [IH1 IH2].
    simpl. destruct (without_nan w f e) as [[rw rf] re]. simpl in IH1, IH2.
    destruct (isnan w0 || isnan f0) eqn:H0.
    + split; [exact IH1|]. intros [|k] wk fk ek Hw Hfl Her Hnw Hnf; simpl in *.
      * injection Hw as <-. injection Hfl as <-. rewrite Hnw, Hnf in H0. discriminate.
      * eapply IH2; eassumption.
    + apply orb_false_iff in H0 as [Hw0 Hf0]. split.
      * intros [|r] wr fr Hw Hfl; simpl in *.
        -- injection Hw as <-. injection Hfl as <-. split; assumption.
        -- eapply IH1; eassumption.
      * intros [|k] wk fk ek Hw Hfl Her Hnw Hnf; simpl in *.
        -- injection Hw as <-. injection Hfl as <-. injection Her as <-.
           exists 0%nat. repeat split; reflexivity.
        -- destruct (IH2 k wk fk ek Hw Hfl Her Hnw Hnf) as (r & ? & ? & ?).
           exists (S r). repeat split; assumption.
Qed.

(** [combine_spectrum] reads the samples of [without_nan] and no other *)
Lemma prepared_without_nan (w f e : vec) :
  length f = length w -> length e = length w ->
  let '(ws, fs, es) := without_nan w f e in prepared w f e = prepared ws fs es.
Proof.
  intros Hf He.
  pose proof (gather_where_mask w f e Hf He) as H.
  pose proof (without_nan_again w f e) as Hagain.
  pose proof (length_without_nan w f e) as Hlen.
  destruct (without_nan w f e) as [[ws fs] es]. simpl in Hlen.
  destruct Hlen as [Hlf Hle].
  pose proof (gather_where_mask ws fs es Hlf Hle) as H'.
  rewrite Hagain in H'. injection H as H1 H2 H3. injection H' as H1' H2' H3'.
  unfold prepared. cbv zeta. rewrite H1, H2, H3, H1', H2', H3'. reflexivity.
Qed.

Section Sorting.

Variable w : vec.

Local Abbreviation R := (fun i j : nat => (w !!! i <=? w !!! j) = true).

Lemma insert_index_perm k idx : insert_index w k idx ≡ₚ k :: idx.
Proof.
  induction idx as [|j idx IH]; simpl; [reflexivity|].
  destruct (w !!! k <=? w !!! j); [reflexivity|].
  rewrite IH. apply perm_swap.
Qed.


Lemma argsort_perm : argsort w ≡ₚ seq 0 (length w).
Proof.
  unfold argsort. generalize (seq 0 (length w)). intros l.
  induction l as [|k l IH]; simpl; [reflexivity|].
  rewrite insert_index_perm, IH. reflexivity.
Qed.


End Sorting.






Lemma reference_allocator : allocator Reference.np_zeros.
Proof.
  intros site n. unfold Reference.np_zeros.
  destruct (Z.ltb_spec n 0); [split; [reflexivity | left; reflexivity]|].
  destruct (Z.ltb_spec n (2 ^ 28)); [split; [lia | reflexivity]|].
  destruct (Z.ltb_spec n (2 ^ 60)).
  - split; [lia | right; reflexivity].
  - split; [reflexivity | left; reflexivity].
Qed.




(** C10.  [combine_spectrum] removes the samples whose wavelength or flux is
    NaN: on arrays of one length its result is its result on the samples of
    [without_nan], which are the samples of the input whose wavelength and
    flux are not NaN, in their order, each with its error, NaN or not.  When
    it returns, a sample whose wavelength and flux are not NaN and whose error
    is NaN makes the combined flux and the combined error of the bin it falls
    in NaN: its clip statistic is NaN, so the sigma clipping never masks it and
    it enters the weighted mean.  Such an input exists: of six samples out of
    order, one with a NaN wavelength and one with a NaN flux, the four that are
    kept fall in one bin; with a NaN error on one of them the combined flux
    and error are NaN, and they are finite once that error is 2. *)
Theorem nan_error_poisons_bin (sigma_clip : vec -> list bool)
    (np_zeros : nat -> Z -> result vec)
    (wavelengths fluxes errors : vec) (bin_size : float) :
  allocator np_zeros ->
  length fluxes = length wavelengths -> length errors = length wavelengths ->
  let kept := without_nan wavelengths fluxes errors in
  combine_spectrum sigma_clip np_zeros wavelengths fluxes errors bin_size
  = combine_spectrum sigma_clip np_zeros kept.1.1 kept.1.2 kept.2 bin_size /\
  (forall r wr fr, kept.1.1 !! r = Some wr -> kept.1.2 !! r = Some fr ->
     isnan wr = false /\ isnan fr = false) /\
  (forall k wk fk ek,
     wavelengths !! k = Some wk -> fluxes !! k = Some fk ->
     errors !! k = Some ek -> isnan wk = false -> isnan fk = false ->
     exists r, kept.1.1 !! r = Some wk /\ kept.1.2 !! r = Some fk /\
               kept.2 !! r = Some ek) /\
  (forall nw cf ce k wk fk ek i,
     combine_spectrum sigma_clip np_zeros wavelengths fluxes errors bin_size
       = Ok (nw, cf, ce) ->
     wavelengths !! k = Some wk -> fluxes !! k = Some fk ->
     errors !! k = Some ek ->
     isnan wk = false -> isnan fk = false -> isnan ek = true ->
     (i < length nw)%nat ->
     let w0 := (prepared wavelengths fluxes errors).1.1 !!! 0%nat in
     let start := bin_start w0 bin_size i in
     geb wk start && (wk <? start + bin_size) = true ->
     cf !! i = Some nan /\ ce !! i = Some nan) /\
  (combine_spectrum Reference.sigma_clip Reference.np_zeros
     [0x1.4cccccccccccdp+0; nan; 1; 0x1.3333333333333p+0; 5; 0x1.199999999999ap+0]
     [0x1.199999999999ap+1; 7; 2; 2.5; nan; 3] [1; 1; 1; 1; 1; nan] 1
   = Ok ([1.5], [nan], [nan]) /\
   exists flux err,
     combine_spectrum Reference.sigma_clip Reference.np_zeros
       [0x1.4cccccccccccdp+0; nan; 1; 0x1.3333333333333p+0; 5; 0x1.199999999999ap+0]
       [0x1.199999999999ap+1; 7; 2; 2.5; nan; 3] [1; 1; 1; 1; 1; 2] 1
     = Ok ([1.5], [flux], [err]) /\
     isfinite flux = true /\ isfinite err = true).
Proof.
  intros Halloc Hlf Hle. cbv zeta.
  destruct (without_nan_sample wavelengths fluxes errors Hlf Hle) as [Hkept Hin].
  split; [|split; [exact Hkept|split; [exact Hin|split]]].
  - pose proof (prepared_without_nan wavelengths fluxes errors Hlf Hle) as Hp.
    destruct (without_nan wavelengths fluxes errors) as [[ws fs] es]. simpl.
    unfold combine_spectrum. rewrite Hp. reflexivity.
  - intros nw cf ce k wk fk ek i Hret Hwk Hfk Hek Hnw Hnf Hnan Hi. cbv zeta.
    intros Hbin.
    destruct (combine_spectrum_rows sigma_clip np_zeros _ _ _ _ _ _ _ Halloc Hret)
      as (q & _ & _ & _ & _ & Hlen & _ & _ & Hrows).
    cbv zeta in Hrows. rewrite Hlen in Hi.
    destruct (Hrows i Hi) as (_ & Hcf & Hce).
    assert (Hk : k ∈ where_mask wavelengths fluxes).
    { apply elem_of_where_mask. exists wk, fk. repeat split; assumption. }
    destruct (prepared_sample wavelengths fluxes errors k Hk)
      as (r & Hw & _ & He).
    rewrite (list_lookup_total_correct _ _ _ Hek) in He.
    rewrite (list_lookup_total_correct _ _ _ Hwk) in Hw.
    destruct (length_prepared wavelengths fluxes errors) as [Hlf' Hle'].
    destruct (bin_row_nan_error sigma_clip _ _ _ bin_size i r ek Hlf' Hle')
      as [Hf Hv]; [|exact He|exact Hnan|].
    + rewrite (lookup_bin_mask _ _ _ r _ Hw). f_equal. exact Hbin.
    + rewrite Hcf, Hce, Hf, Hv. split; reflexivity.
  - split; [vm_compute; reflexivity|].
    eexists _, _. split; [vm_compute; reflexivity|].
    split; vm_compute; reflexivity.
Qed.

(** six samples out of order, the second with a NaN wavelength, the fifth with
    a NaN flux and the last with a NaN error: the two are removed, and the last
    makes the one bin NaN *)
Lemma nan_error_poisons_bin_witness :
  let w := [0x1.4cccccccccccdp+0; nan; 1; 0x1.3333333333333p+0; 5;
            0x1.199999999999ap+0] in
  let f := [0x1.199999999999ap+1; 7; 2; 2.5; nan; 3] in
  let e := [1; 1; 1; 1; 1; nan] in
  without_nan w f e
  = ([0x1.4cccccccccccdp+0; 1; 0x1.3333333333333p+0; 0x1.199999999999ap+0],
     [0x1.199999999999ap+1; 2; 2.5; 3], [1; 1; 1; nan]) /\
  combine_spectrum Reference.sigma_clip Reference.np_zeros w f e 1
  = combine_spectrum Reference.sigma_clip Reference.np_zeros
      [0x1.4cccccccccccdp+0; 1; 0x1.3333333333333p+0; 0x1.199999999999ap+0]
      [0x1.199999999999ap+1; 2; 2.5; 3] [1; 1; 1; nan] 1 /\
  exists nw cf ce,
    combine_spectrum Reference.sigma_clip Reference.np_zeros w f e 1
    = Ok (nw, cf, ce) /\
    cf !! 0%nat = Some nan /\ ce !! 0%nat = Some nan.
Proof.
  cbv zeta.
  pose proof (nan_error_poisons_bin Reference.sigma_clip Reference.np_zeros
                [0x1.4cccccccccccdp+0; nan; 1; 0x1.3333333333333p+0; 5;
                 0x1.199999999999ap+0]
                [0x1.199999999999ap+1; 7; 2; 2.5; nan; 3] [1; 1; 1; 1; 1; nan] 1
                reference_allocator eq_refl eq_refl) as (Heq & _ & _ & Hpoison & _).
  split; [vm_compute; reflexivity|]. split; [exact Heq|].
  eexists _, _, _. split; [vm_compute; reflexivity|].
  apply (Hpoison _ _ _ 5%nat 0x1.199999999999ap+0 3 nan 0%nat
           ltac:(vm_compute; reflexivity) eq_refl eq_refl eq_refl
           eq_refl eq_refl eq_refl ltac:(vm_compute; lia)
           ltac:(vm_compute; reflexivity)).
Defined.

End CombinerFacts.

(** ** The matched-filter cube *)

Module CubeFacts.

Import F64 Np Cube F64Facts NpFacts NormalizerFacts.
Local Open Scope float_scope.

Lemma concat_reshape_le {A} (szs : list nat) (l : list A) :
  (length l <= sum_list szs)%nat -> concat (reshape szs l) = l.
Proof.
  revert l. induction szs as [|sz szs IH]; intros l H; simpl in *.
  - symmetry. apply nil_length_inv. lia.
  - rewrite IH; [apply take_drop|]. rewrite length_drop. lia.
Qed.

Lemma chunksize_zero n p : chunksize n p = 0%nat -> n = 0%nat.
Proof.
  unfold chunksize. destruct (Nat.eqb_spec (n mod (p * 4))%nat 0%nat) as [Hm|]; [|discriminate].
  intros Hq. destruct (Nat.eq_dec (p * 4)%nat 0%nat) as [Hz|Hnz].
  - rewrite Hz in Hm. simpl in Hm. assumption.
  - pose proof (Nat.div_mod_eq n (p * 4)%nat). rewrite Hq, Hm in H. lia.
Qed.

(** the chunks of a task list, put end to end, are the task list *)
Lemma concat_chunks {A} (tasks : list A) p :
  concat (chunks (chunksize (length tasks) p) tasks) = tasks.
Proof.
  unfold chunks, n_chunks. apply concat_reshape_le. rewrite sum_list_replicate.
  destruct (Nat.eqb_spec (chunksize (length tasks) p) 0%nat) as [Hz|Hnz].
  - apply chunksize_zero in Hz. lia.
  - set (size := chunksize (length tasks) p) in *.
    pose proof (Nat.div_mod_eq (length tasks + size - 1)%nat size) as Hd.
    pose proof (Nat.mod_upper_bound (length tasks + size - 1)%nat size Hnz). nia.
Qed.

Lemma mapM_app {A B} (f : A -> result B) l1 l2 :
  mapM f (l1 ++ l2) = (r1 ← mapM f l1; r2 ← mapM f l2; Ok (r1 ++ r2)).
Proof.
  induction l1 as [|x l1 IH]; simpl.
  - destruct (mapM f l2); reflexivity.
  - destruct (f x); simpl; [|reflexivity]. rewrite IH.
    destruct (mapM f l1); simpl; [|reflexivity].
    destruct (mapM f l2); reflexivity.
Qed.

Lemma mapM_concat {A B} (f : A -> result B) (ls : list (list A)) :
  mapM f (concat ls) = (rs ← mapM (mapM f) ls; Ok (concat rs)).
Proof.
  induction ls as [|l ls IH]; simpl; [reflexivity|].
  rewrite mapM_app, IH. destruct (mapM f l); simpl; [|reflexivity].
  destruct (mapM (mapM f) ls); reflexivity.
Qed.

(** a loop returns exactly when each of its steps does, with their values *)
Lemma mapM_values {A B} (g : A -> result (list B)) l rs :
  mapM g l = Ok rs <->
  (forall x, x ∈ l -> is_raise (g x) = false) /\ rs = (fun x => value (g x)) <$> l.
Proof.
  revert rs. induction l as [|x l IH]; intros rs; simpl.
  - split.
    + intros H. injection H as <-. split; [intros x Hx; inversion Hx | reflexivity].
    + intros [_ ->]. reflexivity.
  - split.
    + intros H. destruct (g x) as [y|] eqn:Hg; simpl in H; [|discriminate].
      destruct (mapM g l) as [ys|] eqn:Hl; simpl in H; [|discriminate].
      injection H as <-. destruct (proj1 (IH ys) eq_refl) as [Hall ->].
      split; [|reflexivity].
      intros z Hz. apply elem_of_cons in Hz as [->|Hz];
        [rewrite Hg; reflexivity | apply Hall; assumption].
    + intros [Hall ->].
      pose proof (Hall x ltac:(left)) as Hx.
      destruct (g x) as [y|]; [|discriminate]. simpl.
      rewrite (proj2 (IH ((fun x => value (g x)) <$> l))); [reflexivity|].
      split; [|reflexivity]. intros z Hz. apply Hall. right. assumption.
Qed.

Section PoolMapFacts.

Context {A B : Type}.
Variable f : A -> result B.
Variable p : pool.
Variable tasks : list A.
Hypothesis Hcomplete : all_complete p tasks.

Local Abbreviation cs := (chunks (chunksize (length tasks) (processes p)) tasks).
Local Abbreviation done := (completed f p tasks).

Lemma elem_of_done cr :
  cr ∈ done <-> exists c, (c < length cs)%nat /\ cr = (c, mapM f (cs !!! c)).
Proof.
  unfold completed. rewrite list_elem_of_fmap. split.
  - intros (c & -> & Hc). exists c. split; [|reflexivity].
    rewrite Hcomplete in Hc. apply elem_of_seq in Hc. lia.
  - intros (c & Hc & ->). exists c. split; [reflexivity|].
    rewrite Hcomplete. apply elem_of_seq. lia.
Qed.

Lemma chunk_result_complete c :
  (c < length cs)%nat -> chunk_result done c = value (mapM f (cs !!! c)).
Proof.
  intros Hc. unfold chunk_result.
  destruct (List.find _ done) as [cr|] eqn:Hfind.
  - apply find_some in Hfind as [Hin Heq]. apply list_elem_of_In in Hin.
    apply elem_of_done in Hin as (c' & _ & ->). simpl in *.
    apply Nat.eqb_eq in Heq. subst c'. reflexivity.
  - exfalso.
    pose proof (find_none _ _ Hfind (c, mapM f (cs !!! c))) as Hn.
    simpl in Hn. rewrite Nat.eqb_refl in Hn.
    assert (Hd : (c, mapM f (cs !!! c)) ∈ done) by (apply elem_of_done; eauto).
    apply list_elem_of_In in Hd. apply Hn in Hd. discriminate.
Qed.

Lemma chunk_results_values :
  chunk_result done <$> seq 0 (length cs) = (fun c => value (mapM f c)) <$> cs.
Proof.
  apply list_eq. intros i. rewrite !list_lookup_fmap.
  destruct (decide (i < length cs)%nat) as [Hi|Hi].
  - rewrite (lookup_seq_lt 0 _ i Hi). simpl.
    destruct (lookup_lt_is_Some_2 cs i Hi) as [c Hc]. rewrite Hc. simpl.
    rewrite (chunk_result_complete i Hi), (list_lookup_total_correct _ _ _ Hc).
    reflexivity.
  - rewrite (lookup_ge_None_2 (seq 0 (length cs)) i), (lookup_ge_None_2 cs i);
      [reflexivity | lia | rewrite length_seq; lia].
Qed.

(** with a pool the results are those of the loop, whatever the number of
    processes and the order of completion *)
Lemma pool_map_Ok outs : pool_map f p tasks = Ok outs <-> mapM f tasks = Ok outs.
Proof.
  assert (Heq : mapM f tasks = mapM f (concat cs))
    by (rewrite concat_chunks; reflexivity).
  rewrite Heq, mapM_concat. clear Heq. unfold pool_map.
  destruct (List.find (fun cr => is_raise cr.2) done) as [[c r]|] eqn:Hfind.
  - apply find_some in Hfind as [Hin Hr]. apply list_elem_of_In in Hin.
    apply elem_of_done in Hin as (c' & Hc' & Heq). injection Heq as -> ->.
    simpl in Hr. destruct (mapM f (cs !!! c')) as [|e] eqn:Hc; [discriminate|].
    split; [discriminate|].
    destruct (mapM (mapM f) cs) as [rs|] eqn:Hrs; [|discriminate].
    apply mapM_values in Hrs as [Hall _].
    specialize (Hall (cs !!! c')). rewrite Hc in Hall.
    exfalso. assert (Hel : cs !!! c' ∈ cs).
    { apply list_elem_of_lookup_total_2. assumption. }
    apply Hall in Hel. discriminate.
  - assert (Hall : forall c, c ∈ cs -> is_raise (mapM f c) = false).
    { intros c Hc. apply list_elem_of_lookup_1 in Hc as [i Hi].
      pose proof (find_none _ _ Hfind (i, mapM f (cs !!! i))) as Hn.
      simpl in Hn. rewrite (list_lookup_total_correct _ _ _ Hi) in Hn.
      apply Hn. apply list_elem_of_In. apply elem_of_done. exists i.
      split; [eapply lookup_lt_Some; eassumption|].
      rewrite (list_lookup_total_correct _ _ _ Hi). reflexivity. }
    rewrite (proj2 (mapM_values (mapM f) cs _) (conj Hall eq_refl)).
    cbn [mbind result_bind rbind]. rewrite chunk_results_values. reflexivity.
Qed.

End PoolMapFacts.

Lemma mapM_zip {A B} (f : A -> result B) l ys :
  mapM f l = Ok ys ->
  (forall x y, (x, y) ∈ zip l ys -> x ∈ l /\ f x = Ok y) /\
  (forall x, x ∈ l -> exists y, (x, y) ∈ zip l ys /\ f x = Ok y).
Proof.
  intros H. split.
  - intros x y Hin. apply list_elem_of_lookup_1 in Hin as [i Hi].
    apply lookup_zip_with_Some in Hi as (x' & y' & Heq & Hx & Hy).
    injection Heq as -> ->.
    destruct (mapM_Ok_lookup f l ys i x' H Hx) as (y & Hy' & Hf).
    split; [eapply list_elem_of_lookup_2; eassumption | congruence].
  - intros x Hin. apply list_elem_of_lookup_1 in Hin as [i Hi].
    destruct (mapM_Ok_lookup f l ys i x H Hi) as (y & Hy & Hf).
    exists y. split; [|assumption].
    apply (list_elem_of_lookup_2 _ i). apply lookup_zip_with_Some.
    exists x, y. repeat split; assumption.
Qed.

(** *** Writes at indices *)

Lemma length_apply_writes c W : length (apply_writes c W) = length c.
Proof.
  unfold apply_writes. revert c. induction W as [|w W IH]; intros c; simpl;
    [reflexivity|]. rewrite IH. apply length_insert.
Qed.

Lemma apply_writes_snoc c W w :
  apply_writes c (W ++ [w]) = <[w.1 := w.2]> (apply_writes c W).
Proof. unfold apply_writes. rewrite foldl_app. reflexivity. Qed.

Lemma apply_writes_notin c W i :
  (forall x, (i, x) ∉ W) -> apply_writes c W !! i = c !! i.
Proof.
  induction W as [|[j y] W IH] using rev_ind; intros Hnot; [reflexivity|].
  rewrite apply_writes_snoc. simpl.
  rewrite list_lookup_insert_ne.
  - apply IH. intros x Hx. apply (Hnot x). apply elem_of_app. left. assumption.
  - intros ->. apply (Hnot y). apply elem_of_app. right. left.
Qed.

Lemma apply_writes_lookup c W i x :
  consistent W -> (i, x) ∈ W -> (i < length c)%nat ->
  apply_writes c W !! i = Some x.
Proof.
  induction W as [|[j y] W IH] using rev_ind; intros Hc Hin Hlt; [inversion Hin|].
  rewrite apply_writes_snoc. simpl.
  destruct (decide (j = i)) as [->|Hne].
  - assert (y = x) as ->.
    { apply (Hc i); [apply elem_of_app; right; left | assumption]. }
    apply list_lookup_insert_eq. rewrite length_apply_writes. assumption.
  - rewrite list_lookup_insert_ne by assumption.
    apply IH; [| |assumption].
    + intros k a b Ha Hb. apply (Hc k); apply elem_of_app; left; assumption.
    + apply elem_of_app in Hin as [Hin|Hin]; [assumption|].
      apply list_elem_of_singleton in Hin. congruence.
Qed.

(** consistent writes can be applied in any order *)
Lemma apply_writes_perm c W W' :
  consistent W -> Permutation W W' -> apply_writes c W = apply_writes c W'.
Proof.
  intros Hc Hp.
  assert (Hc' : consistent W').
  { intros i x y Hx Hy. apply (Hc i); rewrite Hp; assumption. }
  apply list_eq. intros i.
  destruct (decide (i ∈ W.*1)) as [Hin|Hnin].
  - apply list_elem_of_fmap in Hin as ([j x] & Hj & Hin). simpl in Hj. subst j.
    destruct (decide (i < length c)%nat) as [Hlt|Hge].
    + rewrite (apply_writes_lookup c W i x Hc Hin Hlt).
      symmetry. apply apply_writes_lookup; [assumption | rewrite <- Hp; assumption
                                            | assumption].
    + rewrite !lookup_ge_None_2; [reflexivity | |];
        rewrite length_apply_writes; lia.
  - assert (Hn : forall x, (i, x) ∉ W).
    { intros x Hx. apply Hnin. apply list_elem_of_fmap. exists (i, x).
      split; [reflexivity | assumption]. }
    rewrite (apply_writes_notin c W i Hn). symmetry. apply apply_writes_notin.
    intros x Hx. apply (Hn x). rewrite Hp. assumption.
Qed.

Lemma mul_add_inj n a r a' r' :
  (r < n)%nat -> (r' < n)%nat -> (a * n + r = a' * n + r')%nat ->
  a = a' /\ r = r'.
Proof.
  intros Hr Hr' Heq.
  destruct (Nat.lt_trichotomy a a') as [Hlt|[->|Hlt]]; [exfalso| lia |exfalso].
  - pose proof (Nat.mul_le_mono_r (S a) a' n Hlt). simpl in *. lia.
  - pose proof (Nat.mul_le_mono_r (S a') a n Hlt). simpl in *. lia.
Qed.

Lemma cube_index_inj n_dec n_ra w d r w' d' r' :
  (d < n_dec)%nat -> (r < n_ra)%nat -> (d' < n_dec)%nat -> (r' < n_ra)%nat ->
  cube_index n_dec n_ra w d r = cube_index n_dec n_ra w' d' r' ->
  w = w' /\ d = d' /\ r = r'.
Proof.
  unfold cube_index. intros Hd Hr Hd' Hr' Heq.
  apply mul_add_inj in Heq as [Heq ->]; [|assumption..].
  apply mul_add_inj in Heq as [-> ->]; [|assumption..].
  repeat split; reflexivity.
Qed.

Lemma cube_index_lt n_wv n_dec n_ra w d r :
  (w < n_wv)%nat -> (d < n_dec)%nat -> (r < n_ra)%nat ->
  (cube_index n_dec n_ra w d r < n_wv * n_dec * n_ra)%nat.
Proof.
  unfold cube_index. intros Hw Hd Hr.
  assert (H1 : (w * n_dec + d + 1 <= n_wv * n_dec)%nat).
  { pose proof (Nat.mul_le_mono_r (S w) n_wv n_dec Hw). simpl in *. lia. }
  pose proof (Nat.mul_le_mono_r _ _ n_ra H1) as H2.
  rewrite Nat.mul_add_distr_r in H2. lia.
Qed.

Section CubeLoop.

Variable P : Type.
Context `{HP : Inhabited P}.
Variable _interp_psf : P -> result (float -> float -> float).
Variable median_abs_deviation : vec -> float.

Local Abbreviation task := (_build_cube_task P _interp_psf median_abs_deviation).
Local Abbreviation cell_of := (cell P median_abs_deviation).

(** step 3 is the application of the writes of the fluxes and of the errors *)
Lemma store_fold n_dec n_ra wv cubes (outs : list cell_out) :
  foldl (store n_dec n_ra wv) cubes outs
  = (apply_writes cubes.1
       ((fun o : cell_out =>
           (cube_index n_dec n_ra wv o.1.1.2 o.1.1.1, flux_of o)) <$> outs),
     apply_writes cubes.2
       ((fun o : cell_out =>
           (cube_index n_dec n_ra wv o.1.1.2 o.1.1.1, err_of o)) <$> outs)).
Proof.
  revert cubes. induction outs as [|[[[ra_id dec_id] flux] err] outs IH];
    intros [c1 c2]; simpl; [reflexivity|].
  rewrite IH. reflexivity.
Qed.

Lemma merge_apply n_dec n_ra cubes (results : list (task_input P * list cell_out)) :
  merge P n_dec n_ra cubes results
  = (apply_writes cubes.1 (cell_writes P flux_of n_dec n_ra results),
     apply_writes cubes.2 (cell_writes P err_of n_dec n_ra results)).
Proof.
  unfold merge, cell_writes. revert cubes.
  induction results as [|[inp outs] results IH]; intros [c1 c2]; simpl;
    [reflexivity|].
  rewrite store_fold, IH. simpl. unfold apply_writes. rewrite !foldl_app.
  reflexivity.
Qed.

(** the outputs of one task: one per cell, with the indices of the cell *)
Lemma elem_of_task_outs inp outs (o : cell_out) :
  task inp = Ok outs ->
  (o ∈ outs <->
   exists psf ra_id dec_id ra dec,
     _interp_psf (psf_interp_paras inp) = Ok psf /\
     ra_vec inp !! ra_id = Some ra /\ dec_vec inp !! dec_id = Some dec /\
     o = (ra_id, dec_id, (cell_of psf inp ra dec).1, (cell_of psf inp ra dec).2)).
Proof.
  unfold _build_cube_task. intros Ht.
  destruct (_interp_psf (psf_interp_paras inp)) as [psf|] eqn:Hpsf;
    cbn [mbind result_bind rbind] in Ht; [|discriminate].
  injection Ht as <-. rewrite list_elem_of_In, in_concat. split.
  - intros (row & Hrow & Ho).
    apply list_elem_of_In, elem_of_lookup_imap in Hrow
      as (ra_id & ra & -> & Hra).
    apply list_elem_of_In, elem_of_lookup_imap in Ho
      as (dec_id & dec & -> & Hdec).
    exists psf, ra_id, dec_id, ra, dec. repeat (split; [assumption || reflexivity|]).
    destruct (cell_of psf inp ra dec). reflexivity.
  - intros (psf' & ra_id & dec_id & ra & dec & Hp & Hra & Hdec & ->).
    injection Hp as <-. eexists. split.
    + apply list_elem_of_In, elem_of_lookup_imap. exists ra_id, ra.
      split; [reflexivity | exact Hra].
    + apply list_elem_of_In, elem_of_lookup_imap. exists dec_id, dec.
      split; [|exact Hdec]. destruct (cell_of psf inp ra dec). reflexivity.
Qed.

Variable obj : dataobj.
Variable psfs : list P.
Variables ra_vec dec_vec : vec.
Variables aper_radius N_pix_min : float.
Variables debug_init debug_end : nat.

Local Abbreviation inputs :=
  (prepare_inputs P obj psfs ra_vec dec_vec aper_radius N_pix_min
     debug_init debug_end).
Local Abbreviation input wv :=
  (input_at P obj psfs ra_vec dec_vec aper_radius N_pix_min wv).

Local Abbreviation in_range := (Cube.in_range obj debug_init debug_end).

Lemma elem_of_inputs inp :
  inp ∈ inputs <-> exists wv, in_range wv /\ inp = input wv.
Proof.
  unfold prepare_inputs, in_range. rewrite list_elem_of_omap. split.
  - intros (wv & Hwv & Hsome). apply elem_of_seq in Hwv.
    destruct (Nat.leb_spec debug_init wv); simpl in Hsome; [|discriminate].
    destruct (Nat.ltb_spec wv debug_end); [|discriminate].
    injection Hsome as <-. exists wv. split; [lia | reflexivity].
  - intros (wv & (Hwv & Hlo & Hhi) & ->). exists wv.
    split; [apply elem_of_seq; lia|].
    destruct (Nat.leb_spec debug_init wv); [|lia].
    destruct (Nat.ltb_spec wv debug_end); [reflexivity | lia].
Qed.

(** the writes of step 3 over the results of the tasks *)
Lemma elem_of_cell_writes sel outputs i v :
  mapM task inputs = Ok outputs ->
  ((i, v) ∈ cell_writes P sel (length dec_vec) (length ra_vec) (zip inputs outputs)
   <->
   exists wv psf ra_id dec_id ra dec,
     in_range wv /\ _interp_psf (psfs !!! wv) = Ok psf /\
     ra_vec !! ra_id = Some ra /\ dec_vec !! dec_id = Some dec /\
     i = cube_index (length dec_vec) (length ra_vec) wv dec_id ra_id /\
     v = sel (ra_id, dec_id, (cell_of psf (input wv) ra dec).1,
                             (cell_of psf (input wv) ra dec).2)).
Proof.
  intros Hmap. destruct (mapM_zip _ _ _ Hmap) as [Hzip1 Hzip2].
  unfold cell_writes. rewrite list_elem_of_bind. split.
  - intros ([inp outs] & Hin & Hr). simpl in Hin.
    destruct (Hzip1 inp outs Hr) as [Hinp Ht].
    apply elem_of_inputs in Hinp as (wv & Hwv & ->).
    apply list_elem_of_fmap in Hin as (o & Heq & Ho).
    apply (elem_of_task_outs _ _ o Ht) in Ho
      as (psf & ra_id & dec_id & ra & dec & Hp & Hra & Hdec & ->).
    injection Heq as -> ->. simpl in *.
    exists wv, psf, ra_id, dec_id, ra, dec. split; [exact Hwv|].
    repeat split; (assumption || reflexivity).
  - intros (wv & psf & ra_id & dec_id & ra & dec & Hwv & Hp & Hra & Hdec & -> & ->).
    assert (Hinp : input wv ∈ inputs) by (apply elem_of_inputs; eauto).
    destruct (Hzip2 _ Hinp) as (outs & Hr & Ht).
    exists (input wv, outs). split; [|assumption]. simpl.
    apply list_elem_of_fmap. eexists. split; [|
      apply (elem_of_task_outs _ _ _ Ht);
      exists psf, ra_id, dec_id, ra, dec; repeat split; eassumption].
    reflexivity.
Qed.

Lemma cell_writes_consistent sel outputs :
  mapM task inputs = Ok outputs ->
  consistent (cell_writes P sel (length dec_vec) (length ra_vec)
                (zip inputs outputs)).
Proof.
  intros Hmap i x y Hx Hy.
  apply (elem_of_cell_writes sel outputs i x Hmap) in Hx
    as (wv & psf & ra_id & dec_id & ra & dec & _ & Hp & Hra & Hdec & Hi & ->).
  apply (elem_of_cell_writes sel outputs i y Hmap) in Hy
    as (wv' & psf' & ra_id' & dec_id' & ra' & dec' & _ & Hp' & Hra' & Hdec' & Hi' & ->).
  rewrite Hi in Hi'.
  apply cube_index_inj in Hi' as (<- & <- & <-);
    try (eapply lookup_lt_Some; eassumption).
  congruence.
Qed.

(** the cells of the cubes that step 3 builds from the results of the tasks *)
Lemma merged_cells outputs fc ec :
  mapM task inputs = Ok outputs ->
  merge P (length dec_vec) (length ra_vec) (empty_cubes obj ra_vec dec_vec)
        (zip inputs outputs) = (fc, ec) ->
  forall wv dec_id ra_id ra dec,
    (wv < length (wv_sampling obj))%nat ->
    ra_vec !! ra_id = Some ra -> dec_vec !! dec_id = Some dec ->
    (in_range wv ->
     exists psf, _interp_psf (psfs !!! wv) = Ok psf /\
       cube_get (length dec_vec) (length ra_vec) fc wv dec_id ra_id
         = Some (cell_of psf (input wv) ra dec).1 /\
       cube_get (length dec_vec) (length ra_vec) ec wv dec_id ra_id
         = Some (cell_of psf (input wv) ra dec).2) /\
    (~ in_range wv ->
     cube_get (length dec_vec) (length ra_vec) fc wv dec_id ra_id = Some nan /\
     cube_get (length dec_vec) (length ra_vec) ec wv dec_id ra_id = Some nan).
Proof.
  intros Hmap Hmerge wv dec_id ra_id ra dec Hwv Hra Hdec.
  rewrite merge_apply in Hmerge. injection Hmerge as <- <-.
  unfold empty_cubes, cube_get. cbn [fst snd].
  assert (Hlt : (cube_index (length dec_vec) (length ra_vec) wv dec_id ra_id
                 < length (full (length (wv_sampling obj) * length dec_vec
                                 * length ra_vec) nan))%nat).
  { unfold full. rewrite length_replicate.
    apply cube_index_lt; [assumption | |]; eapply lookup_lt_Some; eassumption. }
  split.
  - intros Hin.
    assert (Hpsf : exists psf, _interp_psf (psfs !!! wv) = Ok psf).
    { destruct (mapM_zip _ _ _ Hmap) as [_ Hz].
      destruct (Hz (input wv)) as (outs & _ & Ht);
        [apply elem_of_inputs; eauto|].
      unfold _build_cube_task in Ht. simpl in Ht.
      destruct (_interp_psf (psfs !!! wv)) as [psf|]; [eauto | discriminate]. }
    destruct Hpsf as [psf Hpsf]. exists psf. split; [assumption|].
    split; (apply apply_writes_lookup;
            [apply cell_writes_consistent; assumption | | assumption]);
      apply (elem_of_cell_writes _ _ _ _ Hmap);
      exists wv, psf, ra_id, dec_id, ra, dec;
      (split; [exact Hin|]); repeat split; (assumption || reflexivity).
  - intros Hout.
    assert (Hnone : forall sel v,
              (cube_index (length dec_vec) (length ra_vec) wv dec_id ra_id, v)
              ∉ cell_writes P sel (length dec_vec) (length ra_vec)
                  (zip inputs outputs)).
    { intros sel v Hin. apply (elem_of_cell_writes _ _ _ _ Hmap) in Hin
        as (wv' & psf & ra_id' & dec_id' & ra' & dec' & Hwv' & _ & Hra' & Hdec'
            & Hi & _).
      apply cube_index_inj in Hi as (-> & _ & _);
        try (eapply lookup_lt_Some; eassumption).
      contradiction. }
    split; (rewrite apply_writes_notin; [apply lookup_full; unfold full in Hlt;
                                         rewrite length_replicate in Hlt; exact Hlt
                                        | apply Hnone]).
Qed.

End CubeLoop.

(** what [build_cube] returns, with or without a pool *)
Lemma build_cube_Ok (P : Type) `{Inhabited P}
    (_interp_psf : P -> result (float -> float -> float))
    (median_abs_deviation : vec -> float) obj psfs ra_vec dec_vec mppool
    aper_radius debug_init debug_end N_pix_min cubes :
  let inputs := cube_inputs P obj psfs ra_vec dec_vec aper_radius
                  debug_init debug_end N_pix_min in
  (forall p, mppool = Some p -> all_complete p inputs) ->
  (build_cube P _interp_psf median_abs_deviation obj psfs ra_vec dec_vec mppool
     aper_radius debug_init debug_end N_pix_min = Ok cubes
   <->
   regwvs obj = true /\
   exists outputs,
     mapM (_build_cube_task P _interp_psf median_abs_deviation) inputs
       = Ok outputs /\
     cubes = merge P (length dec_vec) (length ra_vec)
               (empty_cubes obj ra_vec dec_vec) (zip inputs outputs)).
Proof.
  intros inputs Hpool. unfold build_cube. fold inputs.
  destruct (regwvs obj); simpl; [|split; [discriminate | intros [? _]; discriminate]].
  assert (Hmap : forall outs,
            match mppool with
            | Some p => pool_map (_build_cube_task P _interp_psf median_abs_deviation)
                          p inputs
            | None => mapM (_build_cube_task P _interp_psf median_abs_deviation) inputs
            end = Ok outs
            <-> mapM (_build_cube_task P _interp_psf median_abs_deviation) inputs
                = Ok outs).
  { intros outs. destruct mppool as [p|]; [|reflexivity].
    apply pool_map_Ok. apply Hpool. reflexivity. }
  destruct (match mppool with Some p => _ | None => _ end) as [outs|e].
  - pose proof (proj1 (Hmap outs) eq_refl) as Hm.
    cbn [mbind result_bind rbind]. split.
    + intros Heq. injection Heq as <-. split; [reflexivity|]. eauto.
    + intros (_ & outs' & Hm' & ->). congruence.
  - cbn [mbind result_bind rbind]. split; [discriminate|].
    intros (_ & outs' & Hm' & _). apply Hmap in Hm'. discriminate.
Qed.

(** C6.  With a pool whose chunks all complete, in whatever order and for
    whatever number of processes, [build_cube] returns the flux and error cubes
    that it returns without a pool, and it raises exactly when the loop without
    a pool raises.  Each task is a function of its own input, and step 3 writes
    the results at their [(wavelength, dec, ra)] indices: applied to the results
    of the tasks in any other order, it builds the same cubes. *)
Theorem build_cube_pool_independent (P : Type) `{Inhabited P}
    (_interp_psf : P -> result (float -> float -> float))
    (median_abs_deviation : vec -> float) obj psfs ra_vec dec_vec p
    aper_radius debug_init debug_end N_pix_min :
  let inputs := cube_inputs P obj psfs ra_vec dec_vec aper_radius
                  debug_init debug_end N_pix_min in
  let task := _build_cube_task P _interp_psf median_abs_deviation in
  all_complete p inputs ->
  (forall cubes,
     build_cube P _interp_psf median_abs_deviation obj psfs ra_vec dec_vec
       (Some p) aper_radius debug_init debug_end N_pix_min = Ok cubes
     <->
     build_cube P _interp_psf median_abs_deviation obj psfs ra_vec dec_vec
       None aper_radius debug_init debug_end N_pix_min = Ok cubes) /\
  (raises (build_cube P _interp_psf median_abs_deviation obj psfs ra_vec dec_vec
             (Some p) aper_radius debug_init debug_end N_pix_min)
   <->
   raises (build_cube P _interp_psf median_abs_deviation obj psfs ra_vec dec_vec
             None aper_radius debug_init debug_end N_pix_min)) /\
  (forall outputs results',
     mapM task inputs = Ok outputs ->
     Permutation (zip inputs outputs) results' ->
     merge P (length dec_vec) (length ra_vec) (empty_cubes obj ra_vec dec_vec)
           results'
     = merge P (length dec_vec) (length ra_vec) (empty_cubes obj ra_vec dec_vec)
             (zip inputs outputs)).
Proof.
  intros inputs task Hall.
  assert (Hiff : forall cubes,
    build_cube P _interp_psf median_abs_deviation obj psfs ra_vec dec_vec
      (Some p) aper_radius debug_init debug_end N_pix_min = Ok cubes
    <->
    build_cube P _interp_psf median_abs_deviation obj psfs ra_vec dec_vec
      None aper_radius debug_init debug_end N_pix_min = Ok cubes).
  { intros cubes. rewrite !build_cube_Ok; [reflexivity | discriminate |].
    intros p' Hp'. injection Hp' as <-. exact Hall. }
  split; [exact Hiff|]. split.
  - unfold raises. split; intros [e He].
    + destruct (build_cube _ _ _ _ _ _ _ None _ _ _ _) as [c|e']; [|eauto].
      pose proof (proj2 (Hiff c) eq_refl). congruence.
    + destruct (build_cube _ _ _ _ _ _ _ (Some p) _ _ _ _) as [c|e']; [|eauto].
      pose proof (proj1 (Hiff c) eq_refl). congruence.
  - intros outputs results' Hmap Hperm. rewrite !merge_apply.
    f_equal; symmetry;
      (apply apply_writes_perm;
       [apply (cell_writes_consistent P _interp_psf median_abs_deviation);
        exact Hmap
       | unfold cell_writes; apply bind_Permutation; exact Hperm]).
Qed.

(** two wavelengths in two chunks, the second chunk completing first *)
Lemma build_cube_pool_independent_witness :
  all_complete SmallCube.mppool
    (cube_inputs float SmallCube.obj SmallCube.psfs SmallCube.ra_vec
       SmallCube.dec_vec 0.5 None None (Some 2)) /\
  (build_cube float Reference.interp_psf Reference.median_abs_deviation
     SmallCube.obj SmallCube.psfs SmallCube.ra_vec SmallCube.dec_vec
     (Some SmallCube.mppool) 0.5 None None (Some 2)
   = Ok ([0x1.b9d0d3b4101bap+1; nan; 0x1.e9e31543307a8p+2; nan],
         [0x1.4718e4ee4f4d6p-2; nan; 0x1.da34be14522cep-2; nan])
   <->
   build_cube float Reference.interp_psf Reference.median_abs_deviation
     SmallCube.obj SmallCube.psfs SmallCube.ra_vec SmallCube.dec_vec
     None 0.5 None None (Some 2)
   = Ok ([0x1.b9d0d3b4101bap+1; nan; 0x1.e9e31543307a8p+2; nan],
         [0x1.4718e4ee4f4d6p-2; nan; 0x1.da34be14522cep-2; nan])).
Proof.
  assert (Hall : all_complete SmallCube.mppool
            (cube_inputs float SmallCube.obj SmallCube.psfs SmallCube.ra_vec
               SmallCube.dec_vec 0.5 None None (Some 2))).
  { unfold all_complete. vm_compute. apply perm_swap. }
  split; [exact Hall|].
  apply (proj1 (build_cube_pool_independent float Reference.interp_psf
                  Reference.median_abs_deviation SmallCube.obj SmallCube.psfs
                  SmallCube.ra_vec SmallCube.dec_vec SmallCube.mppool 0.5 None
                  None (Some 2) Hall)).
Defined.

(** a float that is zero or NaN *)
Lemma zero_or_nan_mul_l x y :
  (x =? 0) = true ->
  (exists s, Prim2SF (x * y) = S754_zero s) \/ Prim2SF (x * y) = S754_nan.
Proof.
  rewrite FloatAxioms.eqb_spec, FloatAxioms.mul_spec.
  change (Prim2SF 0) with (S754_zero false).
  destruct (Prim2SF x) as [sx|sx| |sx mx ex]; try discriminate;
    try (destruct sx; discriminate). intros _.
  destruct (Prim2SF y) as [sy|sy| |sy my ey]; cbv [SF64mul SFmul]; eauto.
Qed.

Lemma zero_or_nan_div_l x y :
  (exists s, Prim2SF x = S754_zero s) \/ Prim2SF x = S754_nan ->
  (exists s, Prim2SF (x / y) = S754_zero s) \/ Prim2SF (x / y) = S754_nan.
Proof.
  rewrite FloatAxioms.div_spec. intros [[s ->]| ->].
  - destruct (Prim2SF y) as [sy|sy| |sy my ey]; cbv [SF64div SFdiv]; eauto.
  - right. reflexivity.
Qed.

Lemma Forall_zip_with_l {A B C} (P : A -> Prop) (Q : C -> Prop) (f : A -> B -> C)
    (l : list A) (k : list B) :
  (forall x y, P x -> Q (f x y)) -> Forall P l -> Forall Q (zip_with f l k).
Proof.
  intros Hf Hl. revert k. induction Hl as [|x l Hx Hl IH]; intros k; simpl;
    [constructor|].
  destruct k as [|y k]; constructor; [apply Hf; exact Hx | apply IH].
Qed.

Lemma Forall_zip_with_r {A B C} (P : B -> Prop) (Q : C -> Prop) (f : A -> B -> C)
    (l : list A) (k : list B) :
  (forall x y, P y -> Q (f x y)) -> Forall P k -> Forall Q (zip_with f l k).
Proof.
  intros Hf Hk. revert l. induction Hk as [|y k Hy Hk IH]; intros l;
    [destruct l; constructor|].
  destruct l as [|x l]; simpl; constructor; [apply Hf; exact Hy | apply IH].
Qed.

(** [np.nansum] of zeros and NaN is zero *)
Lemma nansum_zeros (a : vec) :
  Forall (fun x => (exists s, Prim2SF x = S754_zero s) \/ Prim2SF x = S754_nan) a ->
  Prim2SF (nansum a) = S754_zero false.
Proof.
  unfold nansum. assert (H0 : Prim2SF 0 = S754_zero false) by reflexivity.
  revert H0. generalize 0. intros acc Hacc Ha. revert acc Hacc.
  induction Ha as [|x a Hx Ha IH]; intros acc Hacc; simpl; [exact Hacc|].
  apply IH. destruct Hx as [[s Hx]|Hx].
  - replace (isnan x) with false
      by (symmetry; apply isnan_false_spec; rewrite Hx; discriminate).
    rewrite FloatAxioms.add_spec, Hacc, Hx. destruct s; reflexivity.
  - replace (isnan x) with true by (symmetry; apply isnan_spec; exact Hx).
    exact Hacc.
Qed.

Lemma drop_nan_only_nan (a : vec) :
  Forall (fun x => isnan x = true) a -> drop_nan a = [].
Proof.
  unfold drop_nan. induction 1 as [|x a Hx Ha IH]; simpl; [reflexivity|].
  rewrite Hx. simpl. exact IH.
Qed.

(** [np.nanstd] of an array of NaN is NaN *)
Lemma nanstd_all_nan (a : vec) :
  Forall (fun x => isnan x = true) a -> isnan (nanstd a) = true.
Proof.
  intros Ha. unfold nanstd. rewrite (drop_nan_only_nan a Ha).
  vm_compute. reflexivity.
Qed.

(** a PSF model that is zero on every selected pixel: the amplitude is [0/0]
    and the error is an infinity times the NaN of [np.nanstd] *)
Lemma matched_filter_zero_psf (psf_interp : float -> float -> float)
    (X_fin Y_fin Z_fin Zerr_fin : vec) (ra dec : float) :
  Forall (fun m => (m =? 0) = true)
         (zip_with psf_interp ((fun x => x - ra) <$> X_fin)
                              ((fun y => y - dec) <$> Y_fin)) ->
  matched_filter psf_interp X_fin Y_fin Z_fin Zerr_fin ra dec = (nan, nan).
Proof.
  intros HM. unfold matched_filter.
  set (M := zip_with psf_interp _ _) in *.
  assert (Hdeno : Prim2SF (nansum (vdiv (vmul M M) (vmul Zerr_fin Zerr_fin)))
                  = S754_zero false).
  { apply nansum_zeros. unfold vdiv, vmul.
    eapply Forall_zip_with_l; [intros x y; apply zero_or_nan_div_l|].
    eapply Forall_zip_with_l; [|exact HM]. intros x y. apply zero_or_nan_mul_l. }
  assert (Hnum : Prim2SF (nansum (vdiv (vmul M Z_fin) (vmul Zerr_fin Zerr_fin)))
                 = S754_zero false).
  { apply nansum_zeros. unfold vdiv, vmul.
    eapply Forall_zip_with_l; [intros x y; apply zero_or_nan_div_l|].
    eapply Forall_zip_with_l; [|exact HM]. intros x y. apply zero_or_nan_mul_l. }
  assert (Hflux : isnan (nansum (vdiv (vmul M Z_fin) (vmul Zerr_fin Zerr_fin))
                         / nansum (vdiv (vmul M M) (vmul Zerr_fin Zerr_fin))) = true).
  { apply isnan_spec. rewrite FloatAxioms.div_spec, Hnum, Hdeno. reflexivity. }
  apply isnan_eq in Hflux. rewrite Hflux. f_equal.
  apply isnan_eq, isnan_mul_r, nanstd_all_nan.
  unfold vdiv, vsub.
  eapply Forall_zip_with_l; [intros x y; apply isnan_div_l|].
  eapply Forall_zip_with_r; [intros x y; apply isnan_sub_r|].
  apply Forall_fmap, Forall_forall. intros m _. simpl. apply isnan_mul_l, isnan_nan.
Qed.

(** C5 (as corrected).  When [build_cube] returns, every cell of a wavelength
    of the debug range holds NaN for the flux and for the error if the number
    of pixels that pass the screen is below [N_pix_min]; otherwise, with [M]
    the PSF model on the pixels that pass, it holds the amplitude
    [nansum(M * Z / Zerr^2) / nansum(M^2 / Zerr^2)] and the error
    [1 / sqrt(nansum(M^2 / Zerr^2))] times [nanstd((Z - amplitude * M) / Zerr)].
    Nothing makes these two finite: they are NaN whenever the PSF model is
    zero on every pixel that passes.  The cells of the other wavelengths hold
    NaN. *)
Theorem build_cube_cells (P : Type) `{Inhabited P}
    (_interp_psf : P -> result (float -> float -> float))
    (median_abs_deviation : vec -> float) obj psfs ra_vec dec_vec mppool
    aper_radius debug_init debug_end N_pix_min fc ec :
  let n_pix_min := default (default_N_pix_min aper_radius (N_dithers obj))
                           N_pix_min in
  let first := default 0%nat debug_init in
  let last := default (length (wv_sampling obj)) debug_end in
  (forall p, mppool = Some p ->
     all_complete p (cube_inputs P obj psfs ra_vec dec_vec aper_radius
                       debug_init debug_end N_pix_min)) ->
  build_cube P _interp_psf median_abs_deviation obj psfs ra_vec dec_vec mppool
    aper_radius debug_init debug_end N_pix_min = Ok (fc, ec) ->
  forall wv dec_id ra_id ra dec,
    (wv < length (wv_sampling obj))%nat ->
    ra_vec !! ra_id = Some ra -> dec_vec !! dec_id = Some dec ->
    let X := at_wv (dra_as_array obj) wv in
    let Y := at_wv (ddec_as_array obj) wv in
    let Z := at_wv (data obj) wv in
    let Zerr := at_wv (noise obj) wv in
    let Zbp := at_wv (bad_pixels obj) wv in
    let passing :=
      where_finite median_abs_deviation X Y Zerr Zbp ra dec aper_radius in
    let flux := cube_get (length dec_vec) (length ra_vec) fc wv dec_id ra_id in
    let err := cube_get (length dec_vec) (length ra_vec) ec wv dec_id ra_id in
    ((first <= wv < last)%nat ->
     exists psf_interp, _interp_psf (psfs !!! wv) = Ok psf_interp /\
       ((of_nat (length passing) <? n_pix_min) = true ->
        flux = Some nan /\ err = Some nan) /\
       ((of_nat (length passing) <? n_pix_min) = false ->
        let Z_fin := gather Z passing in
        let Zerr_fin := gather Zerr passing in
        let M := zip_with psf_interp ((fun x => x - ra) <$> gather X passing)
                                     ((fun y => y - dec) <$> gather Y passing) in
        let deno := nansum (vdiv (vmul M M) (vmul Zerr_fin Zerr_fin)) in
        let mfflux := nansum (vdiv (vmul M Z_fin) (vmul Zerr_fin Zerr_fin)) / deno in
        let res := vsub Z_fin ((fun m => mfflux * m) <$> M) in
        flux = Some mfflux /\
        err = Some (1 / PrimFloat.sqrt deno * nanstd (vdiv res Zerr_fin)) /\
        (Forall (fun m => (m =? 0) = true) M ->
         flux = Some nan /\ err = Some nan))) /\
    (~ (first <= wv < last)%nat -> flux = Some nan /\ err = Some nan).
Proof.
  intros n_pix_min first last Hpool Hbuild wv dec_id ra_id ra dec Hwv Hra Hdec.
  apply build_cube_Ok in Hbuild as (_ & outputs & Hmap & Hmerge);
    [|exact Hpool].
  symmetry in Hmerge.
  destruct (merged_cells P _interp_psf median_abs_deviation obj psfs ra_vec
              dec_vec aper_radius n_pix_min first last outputs fc ec Hmap Hmerge
              wv dec_id ra_id ra dec Hwv Hra Hdec) as [Hin Hout].
  cbv zeta. split.
  - intros Hrange. destruct Hin as (psf & Hpsf & Hf & He).
    { split; [exact Hwv | exact Hrange]. }
    exists psf. split; [exact Hpsf|].
    unfold cell in Hf, He. cbn [input_at Cube.X Cube.Y Cube.Z Cube.Zerr Cube.Zbp
      Cube.aper_radius Cube.N_pix_min] in Hf, He.
    split; intros Hlt; fold n_pix_min in Hf, He; rewrite Hlt in Hf, He.
    + split; assumption.
    + split; [exact Hf|]. split; [exact He|].
      intros HM. rewrite Hf, He.
      rewrite (matched_filter_zero_psf psf _ _ _ _ ra dec HM).
      split; reflexivity.
  - intros Hrange. apply Hout. intros [_ Hr]. exact (Hrange Hr).
Qed.

(** the cell at right ascension 3 of the first wavelength, with no pixel in
    its aperture *)
Lemma build_cube_cells_witness :
  (forall p, Some SmallCube.mppool = Some p ->
     all_complete p (cube_inputs float SmallCube.obj SmallCube.psfs
                       SmallCube.ra_vec SmallCube.dec_vec 0.5 None None
                       (Some 2))) /\
  build_cube float Reference.interp_psf Reference.median_abs_deviation
    SmallCube.obj SmallCube.psfs SmallCube.ra_vec SmallCube.dec_vec
    (Some SmallCube.mppool) 0.5 None None (Some 2)
  = Ok ([0x1.b9d0d3b4101bap+1; nan; 0x1.e9e31543307a8p+2; nan],
        [0x1.4718e4ee4f4d6p-2; nan; 0x1.da34be14522cep-2; nan]) /\
  cube_get 1 2 [0x1.b9d0d3b4101bap+1; nan; 0x1.e9e31543307a8p+2; nan]
    0 0 1 = Some nan /\
  cube_get 1 2 [0x1.4718e4ee4f4d6p-2; nan; 0x1.da34be14522cep-2; nan]
    0 0 1 = Some nan.
Proof.
  assert (Hall : forall p, Some SmallCube.mppool = Some p ->
            all_complete p (cube_inputs float SmallCube.obj SmallCube.psfs
                              SmallCube.ra_vec SmallCube.dec_vec 0.5 None None
                              (Some 2))).
  { intros p Hp. injection Hp as <-. unfold all_complete. vm_compute.
    apply perm_swap. }
  assert (Hbuild :
    build_cube float Reference.interp_psf Reference.median_abs_deviation
      SmallCube.obj SmallCube.psfs SmallCube.ra_vec SmallCube.dec_vec
      (Some SmallCube.mppool) 0.5 None None (Some 2)
    = Ok ([0x1.b9d0d3b4101bap+1; nan; 0x1.e9e31543307a8p+2; nan],
          [0x1.4718e4ee4f4d6p-2; nan; 0x1.da34be14522cep-2; nan])).
  { vm_compute. reflexivity. }
  split; [exact Hall|]. split; [exact Hbuild|].
  destruct (proj1 (build_cube_cells float Reference.interp_psf
                     Reference.median_abs_deviation SmallCube.obj SmallCube.psfs
                     SmallCube.ra_vec SmallCube.dec_vec (Some SmallCube.mppool)
                     0.5 None None (Some 2) _ _ Hall Hbuild
                     0%nat 0%nat 1%nat 3 0 ltac:(vm_compute; lia) eq_refl
                     eq_refl)
              ltac:(vm_compute; lia))
    as (psf & _ & Hbelow & _).
  apply Hbelow. vm_compute. reflexivity.
Defined.

(** enough pixels pass the screen at the cell, but the PSF model vanishes on
    each of them: the denominator of the matched filter is zero, and the flux
    and the error are NaN *)
Lemma build_cube_cell_is_nan :
  exists fc ec,
    build_cube float Reference.interp_psf Reference.median_abs_deviation
      SmallCube.obj SmallCube.narrow_psfs [0.125] [0] None 0.5 None None
      (Some 2) = Ok (fc, ec) /\
    (of_nat (length (where_finite Reference.median_abs_deviation
                       (at_wv (dra_as_array SmallCube.obj) 0)
                       (at_wv (ddec_as_array SmallCube.obj) 0)
                       (at_wv (noise SmallCube.obj) 0)
                       (at_wv (bad_pixels SmallCube.obj) 0) 0.125 0 0.5))
       <? 2) = false /\
    cube_get 1 1 fc 0 0 0 = Some nan /\
    cube_get 1 1 ec 0 0 0 = Some nan /\
    isfinite nan = false.
Proof.
  exists [nan; nan], [nan; nan].
  split; [vm_compute; reflexivity|].
  split; [vm_compute; reflexivity|].
  split; [reflexivity|]. split; reflexivity.
Qed.

End CubeFacts.

(** ** The PSF fitter *)

Module PsfFitterFacts.

Import F64 Np PsfFitter F64Facts NpFacts.
Local Open Scope float_scope.

(** a loop whose body returns its state unchanged on some entries is the loop
    over the other entries *)
Lemma foldM_filter {A B} (f : B -> A -> result B) (keep : A -> bool) l b :
  (forall b x, keep x = false -> f b x = Ok b) ->
  foldM f b l = foldM f b (List.filter keep l).
Proof.
  intros Hskip. revert b. induction l as [|x l IH]; intros b; simpl;
    [reflexivity|].
  destruct (keep x) eqn:Hk; simpl.
  - destruct (f b x) as [b'|e]; cbn [mbind result_bind rbind];
      [apply IH | reflexivity].
  - rewrite (Hskip b x Hk). cbn [mbind result_bind rbind]. apply IH.
Qed.

Section Sectors.

Variable remainder : float -> float -> float.
Variable rotate_coordinates : vec -> vec -> float -> bool -> vec * vec.
Variable interpolator : bool -> vec -> vec -> vec
                        -> result (float -> float -> float).
Variable minimize : (vec -> result float) -> vec -> mat -> float -> result vec.
Variable p : paras.
Variables R PA : vec.

Local Abbreviation step :=
  (sector_step remainder rotate_coordinates interpolator minimize p R PA).
Local Abbreviation skip := (skipped remainder p R PA).

(** a skipped sector raises nothing and leaves [out_paras] and [out_model] as
    they are *)
Lemma sector_step_skipped st sector_id s :
  skip s = true -> step st (sector_id, s) = Ok st.
Proof.
  unfold skipped, sector_step. intros Hs.
  destruct (Nat.ltb (length (where_fit remainder p R PA s)) 1); [reflexivity|].
  destruct (Nat.ltb (length (where_sc R PA s)) 1); [reflexivity|].
  destruct (Nat.ltb (length (where_wepsf_finite p)) 3); [reflexivity|].
  discriminate.
Qed.

(** a sector writes its own row of [out_paras] and its own pixels of
    [out_model] only *)
Lemma sector_step_frame st st' sector_id s :
  step st (sector_id, s) = Ok st' ->
  (forall j, j <> sector_id \/ skip s = true -> st'.1 !! j = st.1 !! j) /\
  (forall i, i ∉ where_sc R PA s \/ skip s = true -> st'.2 !! i = st.2 !! i).
Proof.
  intros Hstep. destruct (skip s) eqn:Hs.
  - rewrite (sector_step_skipped st sector_id s Hs) in Hstep.
    injection Hstep as <-. split; reflexivity.
  - unfold skipped in Hs. unfold sector_step in Hstep.
    destruct (Nat.ltb (length (where_fit remainder p R PA s)) 1);
      [discriminate|].
    destruct (Nat.ltb (length (where_sc R PA s)) 1); [discriminate|].
    destruct (Nat.ltb (length (where_wepsf_finite p)) 3); [discriminate|].
    destruct (fit_sector remainder rotate_coordinates interpolator minimize
                p R PA s) as [[row model]|e];
      cbn [mbind result_bind rbind] in Hstep; [|discriminate].
    injection Hstep as <-. cbn [fst snd]. split.
    + intros j [Hj|Hj]; [|discriminate].
      apply list_lookup_insert_ne. congruence.
    + intros i [Hi|Hi]; [|discriminate].
      apply lookup_scatter_notin. exact Hi.
Qed.

(** the loop: a row of [out_paras] changes only in the iteration of a sector
    of that index which is not skipped, a pixel of [out_model] only in the
    iteration of a sector which holds it and is not skipped *)
Lemma foldM_frame entries st st' :
  foldM step st entries = Ok st' ->
  (forall j, (forall sector_id s, (sector_id, s) ∈ entries -> sector_id = j ->
                skip s = true) ->
     st'.1 !! j = st.1 !! j) /\
  (forall i, (forall sector_id s, (sector_id, s) ∈ entries -> skip s = false ->
                i ∉ where_sc R PA s) ->
     st'.2 !! i = st.2 !! i).
Proof.
  revert st. induction entries as [|[sector_id s] entries IH]; intros st Hfold;
    cbn [foldM] in Hfold.
  - injection Hfold as <-. split; reflexivity.
  - destruct (step st (sector_id, s)) as [st1|e] eqn:Hstep;
      cbn [mbind result_bind rbind] in Hfold; [|discriminate].
    destruct (IH st1 Hfold) as [IHp IHm].
    destruct (sector_step_frame st st1 sector_id s Hstep) as [Hp Hm].
    split.
    + intros j Hj. rewrite IHp.
      * apply Hp. destruct (decide (j = sector_id)) as [->|Hne];
          [right | left; exact Hne].
        apply (Hj sector_id s); [left | reflexivity].
      * intros id' s' Hin Heq. apply (Hj id' s'); [right; exact Hin | exact Heq].
    + intros i Hi. rewrite IHm.
      * apply Hm. destruct (skip s) eqn:Hs; [right; reflexivity | left].
        apply (Hi sector_id s); [left | exact Hs].
      * intros id' s' Hin Hs'. apply (Hi id' s'); [right; exact Hin | exact Hs'].
Qed.

(** a loop over skipped sectors only returns its state *)
Lemma foldM_all_skipped entries st :
  (forall e, e ∈ entries -> skip e.2 = true) -> foldM step st entries = Ok st.
Proof.
  induction entries as [|[sector_id s] entries IH]; intros Hall; cbn [foldM];
    [reflexivity|].
  rewrite sector_step_skipped; [|apply (Hall (sector_id, s)); left].
  cbn [mbind result_bind rbind]. apply IH. intros e He. apply Hall. right.
  exact He.
Qed.

End Sectors.

(** the entries of [enumerate(iterator_sectors)] *)
Lemma elem_of_enumerate {A} (l : list A) i x :
  (i, x) ∈ imap pair l <-> l !! i = Some x.
Proof.
  rewrite elem_of_lookup_imap. split.
  - intros (j & y & Heq & Hl). injection Heq as -> ->. exact Hl.
  - intros Hl. exists i, x. split; [reflexivity | exact Hl].
Qed.

Lemma length_polar arctan2 remainder p R PA :
  polar arctan2 remainder p = Ok (R, PA) ->
  (length R <= length (_X p))%nat.
Proof.
  unfold polar. destruct (item (init_paras p) 0) as [x0|];
    cbn [mbind result_bind rbind]; [|discriminate].
  destruct (item (init_paras p) 1) as [y0|]; cbn [mbind result_bind rbind];
    [|discriminate].
  intros Heq. injection Heq as <- <-.
  rewrite length_zip_with, !length_fmap. lia.
Qed.

Lemma where_sc_lt R PA s i : i ∈ where_sc R PA s -> (i < length R)%nat.
Proof.
  unfold where_sc, region. intros Hi. apply where_lt in Hi.
  rewrite length_zip_with in Hi. lia.
Qed.

(** C7 (as corrected).  In [_fit_wpsf_task], a sector with no pixel of finite
    bad-pixel value in its padded region, with no pixel at all in its region, or
    met with fewer than three finite PSF support points, is skipped: its iteration raises nothing
    and leaves [out_paras] and [out_model] as they are, and the loop goes on,
    so that the task is the loop over the sectors that are not skipped.  When
    the task returns, the row of [out_paras] of a skipped sector is five NaN,
    and a pixel of its region is NaN in [out_model] unless a sector that is not
    skipped holds it too.  With fewer than three finite PSF support points every
    sector is skipped and the task returns NaN everywhere. *)
Theorem skipped_sectors_stay_nan
    (arange : float -> float -> float -> result vec)
    (arctan2 remainder : float -> float -> float)
    (rotate_coordinates : vec -> vec -> float -> bool -> vec * vec)
    (interpolator : bool -> vec -> vec -> vec
                    -> result (float -> float -> float))
    (minimize : (vec -> result float) -> vec -> mat -> float -> result vec)
    (p : paras) (R PA : vec) (sectors : list sector) :
  let step := sector_step remainder rotate_coordinates interpolator minimize
                p R PA in
  let skip := skipped remainder p R PA in
  let task := _fit_wpsf_task arange arctan2 remainder rotate_coordinates
                interpolator minimize p in
  let start := (replicate (length sectors) (full 5 nan),
                full (length (_Z p)) nan) in
  polar arctan2 remainder p = Ok (R, PA) ->
  iterator_sectors arange p = Ok sectors ->
  length (_Z p) = length (_X p) ->
  (forall st sector_id s, skip s = true -> step st (sector_id, s) = Ok st) /\
  task = foldM step start
           (List.filter (fun e => negb (skip e.2)) (imap pair sectors)) /\
  (forall out_paras out_model,
     task = Ok (out_paras, out_model) ->
     forall sector_id s,
       sectors !! sector_id = Some s -> skip s = true ->
       out_paras !! sector_id = Some [nan; nan; nan; nan; nan] /\
       forall i, i ∈ where_sc R PA s ->
         (forall sector_id' s', sectors !! sector_id' = Some s' ->
            skip s' = false -> i ∉ where_sc R PA s') ->
         out_model !! i = Some nan) /\
  ((length (where_wepsf_finite p) < 3)%nat -> task = Ok start).
Proof.
  intros step skip task start Hpolar Hsectors Hshape.
  assert (Htask : task = foldM step start (imap pair sectors)).
  { unfold task, _fit_wpsf_task. rewrite Hpolar, Hsectors. reflexivity. }
  split; [intros st sector_id s; apply sector_step_skipped|].
  split.
  { rewrite Htask. apply foldM_filter. intros st [sector_id s] Hk.
    apply sector_step_skipped. apply negb_false_iff in Hk. exact Hk. }
  split.
  - intros out_paras out_model Hret sector_id s Hs Hskip.
    rewrite Htask in Hret.
    destruct (foldM_frame remainder rotate_coordinates interpolator minimize
                p R PA _ _ _ Hret) as [Hp Hm]. cbn [fst snd] in Hp, Hm.
    split.
    + rewrite Hp.
      * apply lookup_replicate_2. eapply lookup_lt_Some. exact Hs.
      * intros sector_id' s' Hin ->. apply elem_of_enumerate in Hin.
        rewrite Hs in Hin. injection Hin as <-. exact Hskip.
    + intros i Hi Hothers. rewrite Hm.
      * apply lookup_replicate_2. apply where_sc_lt in Hi.
        pose proof (length_polar _ _ _ _ _ Hpolar). lia.
      * intros sector_id' s' Hin. apply elem_of_enumerate in Hin.
        apply (Hothers sector_id' s' Hin).
  - intros Hpsf. rewrite Htask. apply foldM_all_skipped.
    intros e _. unfold skipped.
    apply Nat.ltb_lt in Hpsf. rewrite Hpsf. apply orb_true_r.
Qed.

(** two annuli: the pixel of the first is fitted, the pixel of the second has
    a NaN bad-pixel value and its sector is skipped *)
Lemma skipped_sectors_stay_nan_witness :
  polar Reference.arctan2 Reference.remainder TwoAnnuli.paras
  = Ok ([0.5; 1.5], [0x1.921fb54442d18p+0; 0]) /\
  iterator_sectors Reference.arange TwoAnnuli.paras
  = Ok [((0, 1), (0, two_pi)); ((1, 2), (0, two_pi))] /\
  _fit_wpsf_task Reference.arange Reference.arctan2 Reference.remainder
    Reference.rotate_coordinates Reference.interpolator Reference.minimize
    TwoAnnuli.paras
  = Ok ([[2; 2; 0; 0; 0]; [nan; nan; nan; nan; nan]], [2; nan]) /\
  skipped Reference.remainder TwoAnnuli.paras [0.5; 1.5]
    [0x1.921fb54442d18p+0; 0] ((1, 2), (0, two_pi)) = true /\
  ([[2; 2; 0; 0; 0]; [nan; nan; nan; nan; nan]] : mat) !! 1%nat
  = Some [nan; nan; nan; nan; nan] /\
  ([2; nan] : vec) !! 1%nat = Some nan.
Proof.
  assert (Hpolar : polar Reference.arctan2 Reference.remainder TwoAnnuli.paras
                   = Ok ([0.5; 1.5], [0x1.921fb54442d18p+0; 0])).
  { vm_compute. reflexivity. }
  assert (Hsectors : iterator_sectors Reference.arange TwoAnnuli.paras
                     = Ok [((0, 1), (0, two_pi)); ((1, 2), (0, two_pi))]).
  { vm_compute. reflexivity. }
  assert (Htask :
    _fit_wpsf_task Reference.arange Reference.arctan2 Reference.remainder
      Reference.rotate_coordinates Reference.interpolator Reference.minimize
      TwoAnnuli.paras
    = Ok ([[2; 2; 0; 0; 0]; [nan; nan; nan; nan; nan]], [2; nan])).
  { vm_compute. reflexivity. }
  assert (Hskip : skipped Reference.remainder TwoAnnuli.paras [0.5; 1.5]
                    [0x1.921fb54442d18p+0; 0] ((1, 2), (0, two_pi)) = true).
  { vm_compute. reflexivity. }
  split; [exact Hpolar|]. split; [exact Hsectors|]. split; [exact Htask|].
  split; [exact Hskip|].
  destruct (proj1 (proj2 (proj2
              (skipped_sectors_stay_nan Reference.arange Reference.arctan2
                 Reference.remainder Reference.rotate_coordinates
                 Reference.interpolator Reference.minimize TwoAnnuli.paras
                 _ _ _ Hpolar Hsectors eq_refl)))
              _ _ Htask 1%nat _ eq_refl Hskip) as [Hrow Hmodel].
  split; [exact Hrow|].
  apply (Hmodel 1%nat).
  - vm_compute. left.
  - intros sector_id' s' Hs' Hns'.
    destruct sector_id' as [|[|n]]; simpl in Hs'; [| |discriminate];
      injection Hs' as <-.
    + vm_compute. intros Hin. inversion Hin; subst.
      match goal with H : _ ∈ [] |- _ => inversion H end.
    + rewrite Hskip in Hns'. discriminate.
Defined.

(** with a padding of 1, the second sector has one pixel in its region, of NaN
    bad-pixel value, and a good pixel in its padding: it is fitted, its
    parameters are not NaN and its pixel of the model is 1 *)
Lemma unusable_sector_is_fitted :
  polar Reference.arctan2 Reference.remainder TwoAnnuli.padded
  = Ok ([0.5; 1.5], [0x1.921fb54442d18p+0; 0]) /\
  iterator_sectors Reference.arange TwoAnnuli.padded
  = Ok [((0, 1), (0, two_pi)); ((1, 2), (0, two_pi))] /\
  where_sc [0.5; 1.5] [0x1.921fb54442d18p+0; 0] ((1, 2), (0, two_pi))
  = [1%nat] /\
  where_ (vand (region 1 2 0 two_pi [0.5; 1.5] [0x1.921fb54442d18p+0; 0])
               (isfinite <$> _Zbad TwoAnnuli.padded)) = [] /\
  _fit_wpsf_task Reference.arange Reference.arctan2 Reference.remainder
    Reference.rotate_coordinates Reference.interpolator Reference.minimize
    TwoAnnuli.padded
  = Ok ([[2; 2; 0; 0; 0]; [2; 2; 0; 0; 0]], [2; 1]).
Proof.
  repeat split; vm_compute; reflexivity.
Qed.

End PsfFitterFacts.

(** ** The priors of the regularisation *)

Module PriorFacts.

Import F64 Np Prior F64Facts.
Local Open Scope float_scope.

Lemma ltb_infinity_l y : (infinity <? y) = false.
Proof.
  rewrite FloatAxioms.ltb_spec, Prim2SF_infinity.
  destruct (Prim2SF y) as [[]|[]| |[] ? ?]; reflexivity.
Qed.

(** the clip of a number at [lo] and infinity: the larger of the two *)
Lemma clip_below y lo :
  isnan y = false -> (y <? lo) = true -> clip y lo infinity = lo.
Proof. unfold clip. intros -> ->. reflexivity. Qed.

Lemma clip_above y lo :
  isnan y = false -> (y <? lo) = false -> clip y lo infinity = y.
Proof. unfold clip. intros -> ->. rewrite ltb_infinity_l. reflexivity. Qed.

Lemma clip_le y lo bound :
  isnan y = false -> (lo <=? bound) = true -> (y <=? bound) = true ->
  (clip y lo infinity <=? bound) = true.
Proof.
  intros Hy Hlo Hb. destruct (y <? lo) eqn:Hlt.
  - rewrite clip_below; assumption.
  - rewrite clip_above; assumption.
Qed.

Lemma entry_fmap (f : vec -> float -> float) (a : mat) r c row x :
  a !! r = Some row -> row !! c = Some x ->
  entry ((fun row : vec => f row <$> row) <$> a) r c = Some (f row x).
Proof.
  intros Hr Hc. unfold entry. rewrite list_lookup_fmap, Hr. simpl.
  rewrite list_lookup_fmap, Hc. reflexivity.
Qed.

(** the entries of [reg_mean_map1] *)
Lemma entry_reg_mean_map1 spline_paras0 map0 map1 r c row x :
  reg_mean_map1 spline_paras0 map0 = Ok map1 ->
  spline_paras0 !! r = Some row -> row !! c = Some x ->
  exists m, entry map1 r c = Some m /\
    (isnan x = false -> m = x) /\
    (isnan x = true -> entry map0 r c = Some m).
Proof.
  unfold reg_mean_map1. intros Hmap Hr Hc.
  destruct (mapM_Ok_lookup _ _ _ r (r, row) Hmap) as (row1 & Hrow1 & Hrow).
  { rewrite list_lookup_imap, Hr. reflexivity. }
  cbn [fst snd] in Hrow.
  destruct (mapM_Ok_lookup _ _ _ c (c, x) Hrow) as (m & Hm & Hx).
  { rewrite list_lookup_imap, Hc. reflexivity. }
  cbn [fst snd] in Hx. exists m. split.
  - unfold entry. rewrite Hrow1. exact Hm.
  - destruct (isnan x).
    + split; [discriminate|]. intros _.
      destruct (entry map0 r c); [|discriminate]. congruence.
    + split; [|discriminate]. intros _. congruence.
Qed.

(** C8.  In [compute_starsubtraction] the prior mean of a coefficient that is
    not NaN is the coefficient, and its standard deviation is the absolute
    value of that mean clipped from below at [1e-11]: [1e-11] when the absolute
    value is smaller, the absolute value itself otherwise, so that it is below
    every bound from [1e-11] on that the absolute value of the mean is below.
    A NaN coefficient gets the median of its row for the mean and the clipped
    largest absolute value of its row for the standard deviation.  In the
    iterative pass of [compute_starspectrum_contnorm] the mean is the
    coefficient, or the entry of [reg_mean_map0] where the coefficient is NaN,
    and the standard deviation is the absolute value of the mean, without a
    clip. *)
Theorem reg_std_is_abs_of_prior_mean (spline_paras0 : mat) r c row x :
  spline_paras0 !! r = Some row -> row !! c = Some x ->
  (exists m s,
     entry (reg_mean_map spline_paras0) r c = Some m /\
     entry (reg_std_map spline_paras0) r c = Some s /\
     (isnan x = false ->
      m = x /\ s = clip (abs m) epsilon infinity /\
      ((abs m <? epsilon) = true -> s = epsilon) /\
      ((abs m <? epsilon) = false -> s = abs m) /\
      (forall bound, (epsilon <=? bound) = true -> (abs m <=? bound) = true ->
                     (s <=? bound) = true)) /\
     (isnan x = true ->
      m = nanmedian row /\
      s = clip (nanmax (abs <$> row)) epsilon infinity)) /\
  (forall map0 map1,
     reg_mean_map1 spline_paras0 map0 = Ok map1 ->
     exists m,
       entry map1 r c = Some m /\
       entry (reg_std_map1 map1) r c = Some (abs m) /\
       (isnan x = false -> m = x) /\
       (isnan x = true -> entry map0 r c = Some m)).
Proof.
  intros Hr Hc. split.
  - eexists _, _.
    split; [apply (entry_fmap (fun row x => if isnan x then nanmedian row else x));
            eassumption|].
    split; [apply (entry_fmap
                     (fun row x => clip (if isnan x then nanmax (abs <$> row)
                                         else abs x) epsilon infinity));
            eassumption|].
    split.
    + intros Hx. rewrite Hx.
      assert (Ha : isnan (abs x) = false) by (rewrite isnan_abs; exact Hx).
      split; [reflexivity|]. split; [reflexivity|].
      split; [apply clip_below; exact Ha|].
      split; [apply clip_above; exact Ha|].
      intros bound. apply clip_le. exact Ha.
    + intros Hx. rewrite Hx. split; reflexivity.
  - intros map0 map1 Hmap.
    destruct (entry_reg_mean_map1 _ _ _ r c row x Hmap Hr Hc)
      as (m & Hm & Hfin & Hnan).
    exists m. split; [exact Hm|]. split; [|split; assumption].
    unfold entry in *. unfold reg_std_map1. rewrite list_lookup_fmap.
    destruct (map1 !! r) as [row1|]; [|discriminate]. simpl in *.
    rewrite list_lookup_fmap, Hm. reflexivity.
Qed.

(** the coefficient [2^-40] of the first row: its standard deviation is
    [1e-11] in the star subtraction and [2^-40] in the iterative pass *)
Lemma reg_std_is_abs_of_prior_mean_witness :
  entry (reg_std_map SmallPrior.spline_paras0) 0 0 = Some epsilon /\
  (reg_mean_map1 SmallPrior.spline_paras0 SmallPrior.reg_mean_map0
   = Ok [[0x1p-40; 1; 3]; [0; 2; -5]] /\
   entry (reg_std_map1 [[0x1p-40; 1; 3]; [0; 2; -5]]) 0 0 = Some 0x1p-40 /\
   entry (reg_std_map1 [[0x1p-40; 1; 3]; [0; 2; -5]]) 1 0 = Some 0).
Proof.
  destruct (reg_std_is_abs_of_prior_mean SmallPrior.spline_paras0 0 0
              [0x1p-40; nan; 3] 0x1p-40 eq_refl eq_refl)
    as [(m & s & Hm & Hs & Hfin & _) Hiter].
  destruct (Hfin eq_refl) as (-> & _ & Hsmall & _).
  assert (Hmap : reg_mean_map1 SmallPrior.spline_paras0 SmallPrior.reg_mean_map0
                 = Ok [[0x1p-40; 1; 3]; [0; 2; -5]]).
  { vm_compute. reflexivity. }
  split; [rewrite Hs; f_equal; apply Hsmall; vm_compute; reflexivity|].
  split; [exact Hmap|].
  destruct (Hiter _ _ Hmap) as (m & Hm1 & Hs1 & Hfin1 & _).
  rewrite Hs1, (Hfin1 eq_refl). split; vm_compute; reflexivity.
Defined.

End PriorFacts.

(** ** The data-quality flags *)

Module DataQualityFacts.

Import DataQuality.
Local Open Scope Z_scope.

(** the test of one flag is the test of one bit *)
Lemma land_shiftl_pos v k :
  0 <= k -> (0 <? Z.land v (Z.shiftl 1 k)) = Z.testbit v k.
Proof.
  intros Hk. rewrite Z.shiftl_1_l.
  destruct (Z.testbit v k) eqn:Hb.
  - assert (Heq : Z.land v (2 ^ k) = 2 ^ k).
    { apply Z.bits_inj'. intros n Hn. rewrite Z.land_spec, Z.pow2_bits_eqb by lia.
      destruct (Z.eqb_spec k n) as [->|]; [rewrite Hb; reflexivity|].
      apply andb_false_r. }
    rewrite Heq. apply Z.ltb_lt. apply Z.pow_pos_nonneg; lia.
  - assert (Heq : Z.land v (2 ^ k) = 0).
    { apply Z.bits_inj'. intros n Hn.
      rewrite Z.land_spec, Z.pow2_bits_eqb, Z.bits_0 by lia.
      destruct (Z.eqb_spec k n) as [->|]; [rewrite Hb; reflexivity|].
      apply andb_false_r. }
    rewrite Heq. reflexivity.
Qed.

Lemma lookup_mask k : (k < 32)%nat -> mask !! k = Some (Z.shiftl 1 (Z.of_nat k)).
Proof.
  intros Hk. unfold mask. rewrite list_lookup_fmap, lookup_seq_lt by exact Hk.
  reflexivity.
Qed.

Lemma length_untangle_dq arr : length (untangle_dq arr) = 32%nat.
Proof. unfold untangle_dq, transpose_201. rewrite length_fmap. apply length_seq. Qed.

(** the entries of the cube *)
Lemma plane_entry_untangle arr k i j row v :
  (k < 32)%nat -> arr !! i = Some row -> row !! j = Some v ->
  plane_entry (untangle_dq arr) k i j = Some (Z.testbit v (Z.of_nat k)).
Proof.
  intros Hk Hi Hj. unfold plane_entry, untangle_dq, transpose_201, bits.
  rewrite list_lookup_fmap, lookup_seq_lt by exact Hk. cbn -[mask].
  rewrite !list_lookup_fmap, Hi. cbn -[mask].
  rewrite !list_lookup_fmap, Hj. cbn -[mask].
  f_equal. apply list_lookup_total_correct.
  rewrite list_lookup_fmap, (lookup_mask k Hk). cbn [fmap option_fmap option_map].
  f_equal. apply land_shiftl_pos. lia.
Qed.

(** X1.  [untangle_dq] returns 32 planes of the shape of the DQ array, and
    plane [k] holds, at each pixel, bit [k] of the value of the pixel. *)
Theorem untangle_dq_planes (arr : list (list Z)) :
  length (untangle_dq arr) = 32%nat /\
  (forall k plane, untangle_dq arr !! k = Some plane ->
     length plane = length arr /\
     forall i row prow, arr !! i = Some row -> plane !! i = Some prow ->
       length prow = length row) /\
  (forall k i j row v,
     (k < 32)%nat -> arr !! i = Some row -> row !! j = Some v ->
     plane_entry (untangle_dq arr) k i j = Some (Z.testbit v (Z.of_nat k))).
Proof.
  split; [apply length_untangle_dq|]. split.
  - intros k plane Hp. unfold untangle_dq, transpose_201, bits in Hp.
    apply list_lookup_fmap_Some in Hp as (k' & -> & Hk').
    rewrite !length_fmap. split; [reflexivity|].
    intros i row prow Hi Hrow. rewrite !list_lookup_fmap, Hi in Hrow.
    simpl in Hrow. injection Hrow as <-. rewrite !length_fmap. reflexivity.
  - intros k i j row v. apply plane_entry_untangle.
Qed.

Lemma uint32_bits_eq v w :
  0 <= v < 2 ^ 32 -> 0 <= w < 2 ^ 32 ->
  (forall k, (k < 32)%nat -> Z.testbit v (Z.of_nat k) = Z.testbit w (Z.of_nat k)) ->
  v = w.
Proof.
  intros Hv Hw Hbits. apply Z.bits_inj'. intros n Hn.
  destruct (Z.lt_ge_cases n 32) as [Hlt|Hge].
  - specialize (Hbits (Z.to_nat n)). rewrite Z2Nat.id in Hbits by lia.
    apply Hbits. lia.
  - rewrite (proj1 (Z.bounded_iff_bits_nonneg' 32 v ltac:(lia) ltac:(lia)) Hv n Hge).
    rewrite (proj1 (Z.bounded_iff_bits_nonneg' 32 w ltac:(lia) ltac:(lia)) Hw n Hge).
    reflexivity.
Qed.

(** X2.  The unpacking loses nothing: two [uint32] arrays of one shape with
    the same cube are the same array. *)
Theorem untangle_dq_injective (a b : list (list Z)) :
  uint32 a -> uint32 b ->
  length <$> a = length <$> b ->
  untangle_dq a = untangle_dq b -> a = b.
Proof.
  intros Ha Hb Hshape Hcube.
  assert (Hlen : length a = length b).
  { rewrite <- (length_fmap length a), Hshape. apply length_fmap. }
  apply list_eq_same_length with (length a); [lia | lia |].
  intros i ra rb _ Hra Hrb.
  assert (Hrlen : length ra = length rb).
  { assert (H1 : (length <$> a) !! i = Some (length ra))
      by (rewrite list_lookup_fmap, Hra; reflexivity).
    rewrite Hshape, list_lookup_fmap, Hrb in H1. simpl in H1. congruence. }
  apply list_eq_same_length with (length ra); [lia | lia |].
  intros j v w _ Hv Hw.
  apply uint32_bits_eq.
  - exact (Forall_lookup_1 _ _ _ _ (Forall_lookup_1 _ _ _ _ Ha Hra) Hv).
  - exact (Forall_lookup_1 _ _ _ _ (Forall_lookup_1 _ _ _ _ Hb Hrb) Hw).
  - intros k Hk.
    pose proof (plane_entry_untangle a k i j ra v Hk Hra Hv) as H1.
    pose proof (plane_entry_untangle b k i j rb w Hk Hrb Hw) as H2.
    rewrite Hcube in H1. congruence.
Qed.

(** a flagged pixel beside a clean one: the planes 0 and 2 of the value 5 *)
Lemma untangle_dq_injective_witness :
  uint32 [[5; 0]] /\ [[5; 0]] = [[5; 0]].
Proof.
  assert (H : uint32 [[5; 0]]).
  { repeat constructor; lia. }
  split; [exact H|].
  apply (untangle_dq_injective [[5; 0]] [[5; 0]] H H eq_refl eq_refl).
Defined.

End DataQualityFacts.

(** ** The edges of the traces *)

Module EdgesFacts.

Import F64 Np Edges F64Facts NpFacts.
Local Open Scope float_scope.

Ltac bool_lia :=
  repeat match goal with
         | |- context [Z.leb ?a ?b] => destruct (Z.leb_spec a b)
         | |- context [Z.ltb ?a ?b] => destruct (Z.ltb_spec a b)
         end;
  cbn [andb orb negb]; try reflexivity; try lia.

Lemma lookup_slice_set row lo hi x j y :
  row !! j = Some y ->
  slice_set row lo hi x !! j
  = Some (if ((lo <=? Z.of_nat j) && (Z.of_nat j <? hi))%Z then x else y).
Proof. intros H. unfold slice_set. rewrite list_lookup_imap, H. reflexivity. Qed.

Lemma length_slice_set row lo hi x : length (slice_set row lo hi x) = length row.
Proof. apply length_imap. Qed.

Lemma length_set_nans_row n row : length (set_nans_row n row) = length row.
Proof.
  unfold set_nans_row. destruct (0 <? n)%Z; [|destruct (n <? 0)%Z];
    rewrite ?length_slice_set; reflexivity.
Qed.

(** [np.argmax] on booleans *)
Lemma argmax_Some mask i :
  mask !! i = Some true ->
  mask !! argmax mask = Some true /\
  forall j, (j < argmax mask)%nat -> mask !! j = Some false.
Proof.
  intros Hi. unfold argmax.
  destruct (list_find Is_true mask) as [[k b]|] eqn:Hfind.
  - apply list_find_Some in Hfind as (Hk & Hb & Hbefore). simpl.
    destruct b; [|contradiction]. split; [exact Hk|].
    intros j Hj. destruct (mask !! j) as [[]|] eqn:Hmj.
    + exfalso. apply (Hbefore j true Hmj Hj). exact I.
    + reflexivity.
    + apply lookup_ge_None in Hmj. apply lookup_lt_Some in Hk. lia.
  - apply list_find_None in Hfind.
    exfalso. apply (Forall_lookup_1 _ _ _ _ Hfind Hi). exact I.
Qed.

Lemma argmax_None mask :
  (forall i, mask !! i <> Some true) -> argmax mask = 0%nat.
Proof.
  intros Hnone. unfold argmax.
  destruct (list_find Is_true mask) as [[k b]|] eqn:Hfind; [|reflexivity].
  apply list_find_Some in Hfind as (Hk & Hb & _). destruct b; [|contradiction].
  exfalso. apply (Hnone k Hk).
Qed.

Lemma lookup_real_mask (row : vec) j y :
  row !! j = Some y ->
  ((fun x => negb (isnan x)) <$> row) !! j = Some (negb (isnan y)).
Proof. intros H. rewrite list_lookup_fmap, H. reflexivity. Qed.

(** [first_real_idx] and [last_real_idx] of a row with an entry that is not
    NaN, and of a row without one *)
Lemma first_real_idx_spec row i x :
  row !! i = Some x -> isnan x = false ->
  exists f, first_real_idx row = Z.of_nat f /\ is_first row f.
Proof.
  intros Hi Hx. unfold first_real_idx.
  set (mask := (fun x => negb (isnan x)) <$> row).
  assert (Hm : mask !! i = Some true).
  { unfold mask. rewrite (lookup_real_mask row i x Hi), Hx. reflexivity. }
  destruct (argmax_Some mask i Hm) as [Hf Hbefore].
  exists (argmax mask). split; [reflexivity|]. split.
  - unfold mask in Hf. apply list_lookup_fmap_Some in Hf as (y & Hy & Hrow).
    exists y. split; [exact Hrow|]. destruct (isnan y); [discriminate | reflexivity].
  - intros j y Hj Hrow. specialize (Hbefore j Hj). unfold mask in Hbefore.
    rewrite (lookup_real_mask row j y Hrow) in Hbefore.
    destruct (isnan y); [reflexivity | discriminate].
Qed.

Lemma last_real_idx_spec row i x :
  row !! i = Some x -> isnan x = false ->
  exists l, last_real_idx row = Z.of_nat l /\ is_last row l.
Proof.
  intros Hi Hx. unfold last_real_idx.
  set (mask := (fun x => negb (isnan x)) <$> row).
  assert (Hlen : length mask = length row) by apply length_fmap.
  pose proof (lookup_lt_Some _ _ _ Hi) as Hilt.
  assert (Hm : reverse mask !! (length row - S i)%nat = Some true).
  { apply reverse_lookup_Some. split; [|lia].
    replace (length mask - S (length row - S i))%nat with i by lia.
    unfold mask. rewrite (lookup_real_mask row i x Hi), Hx. reflexivity. }
  destruct (argmax_Some (reverse mask) _ Hm) as [Hf Hbefore].
  set (a := argmax (reverse mask)) in *.
  apply reverse_lookup_Some in Hf as [Hf Ha].
  exists (length row - S a)%nat. split; [lia|]. split.
  - rewrite Hlen in Hf. unfold mask in Hf.
    apply list_lookup_fmap_Some in Hf as (y & Hy & Hrow).
    exists y. split; [exact Hrow|]. destruct (isnan y); [discriminate | reflexivity].
  - intros j y Hj Hrow. pose proof (lookup_lt_Some _ _ _ Hrow) as Hjlt.
    specialize (Hbefore (length row - S j)%nat ltac:(lia)).
    apply reverse_lookup_Some in Hbefore as [Hbefore _].
    replace (length mask - S (length row - S j))%nat with j in Hbefore by lia.
    unfold mask in Hbefore. rewrite (lookup_real_mask row j y Hrow) in Hbefore.
    destruct (isnan y); [reflexivity | discriminate].
Qed.

Lemma real_idx_all_nan row :
  Forall (fun x => isnan x = true) row ->
  first_real_idx row = 0%Z /\ last_real_idx row = (Z.of_nat (length row) - 1)%Z.
Proof.
  intros Hall. unfold first_real_idx, last_real_idx.
  assert (Hnone : forall i, ((fun x => negb (isnan x)) <$> row) !! i <> Some true).
  { intros i Hi. apply list_lookup_fmap_Some in Hi as (y & Hy & Hrow).
    rewrite (Forall_lookup_1 _ _ _ _ Hall Hrow) in Hy. discriminate. }
  rewrite !argmax_None; [lia | | exact Hnone].
  intros i Hi. apply reverse_lookup_Some in Hi as [Hi _]. exact (Hnone _ Hi).
Qed.

Lemma is_first_unique row f f' : is_first row f -> is_first row f' -> f = f'.
Proof.
  intros [(x & Hx & Hxr) Hb] [(x' & Hx' & Hxr') Hb'].
  destruct (Nat.lt_trichotomy f f') as [Hlt|[Heq|Hgt]]; [|exact Heq|].
  - rewrite (Hb' f x Hlt Hx) in Hxr. discriminate.
  - rewrite (Hb f' x' Hgt Hx') in Hxr'. discriminate.
Qed.

Lemma is_last_unique row l l' : is_last row l -> is_last row l' -> l = l'.
Proof.
  intros [(x & Hx & Hxr) Hb] [(x' & Hx' & Hxr') Hb'].
  destruct (Nat.lt_trichotomy l l') as [Hlt|[Heq|Hgt]]; [|exact Heq|].
  - rewrite (Hb l' x' Hlt Hx') in Hxr'. discriminate.
  - rewrite (Hb' l x Hgt Hx) in Hxr. discriminate.
Qed.

Lemma is_first_le_last row f l : is_first row f -> is_last row l -> (f <= l)%nat.
Proof.
  intros [(x & Hx & Hxr) _] [_ Hafter].
  destruct (Nat.le_gt_cases f l) as [Hle|Hgt]; [exact Hle|].
  rewrite (Hafter f x Hgt Hx) in Hxr. discriminate.
Qed.

Lemma first_real_idx_is row f :
  is_first row f -> first_real_idx row = Z.of_nat f.
Proof.
  intros Hf. destruct Hf as [(x & Hx & Hxr) Hb] eqn:E. clear E.
  destruct (first_real_idx_spec row f x Hx Hxr) as (f' & -> & Hf').
  f_equal. apply (is_first_unique row); [exact Hf'|].
  split; [eauto | exact Hb].
Qed.

Lemma last_real_idx_is row l :
  is_last row l -> last_real_idx row = Z.of_nat l.
Proof.
  intros Hl. destruct Hl as [(x & Hx & Hxr) Hb] eqn:E. clear E.
  destruct (last_real_idx_spec row l x Hx Hxr) as (l' & -> & Hl').
  f_equal. apply (is_last_unique row); [exact Hl'|].
  split; [eauto | exact Hb].
Qed.

(** the bounds of the two indices *)
Lemma real_idx_bounds row :
  row <> [] ->
  (0 <= first_real_idx row <= last_real_idx row)%Z /\
  (last_real_idx row < Z.of_nat (length row))%Z.
Proof.
  intros Hne.
  assert (Hlen : (0 < length row)%nat) by (destruct row; [congruence | simpl; lia]).
  destruct (decide (Forall (fun x => isnan x = true) row)) as [Hall|Hsome].
  - destruct (real_idx_all_nan row Hall) as [-> ->]. lia.
  - apply not_Forall_Exists in Hsome; [|intros x; apply _].
    apply Exists_exists in Hsome as (x & Hin & Hx).
    apply list_elem_of_lookup in Hin as [i Hi].
    assert (Hxr : isnan x = false).
    { simpl in Hx. destruct (isnan x); [exfalso; apply Hx; reflexivity | reflexivity]. }
    destruct (first_real_idx_spec row i x Hi Hxr) as (f & -> & Hf).
    destruct (last_real_idx_spec row i x Hi Hxr) as (l & -> & Hl).
    pose proof (is_first_le_last row f l Hf Hl).
    destruct Hl as [(y & Hy & _) _]. apply lookup_lt_Some in Hy. lia.
Qed.

(** the entries of a row after [set_nans] with a positive [n] *)
Lemma set_nans_row_erode n row j y :
  (0 < n)%Z -> row !! j = Some y ->
  set_nans_row n row !! j
  = Some (if ((first_real_idx row + n <=? Z.of_nat j)
              && (Z.of_nat j <=? last_real_idx row - n))%Z then y else nan).
Proof.
  intros Hn Hj. unfold set_nans_row. rewrite (proj2 (Z.ltb_lt 0 n) Hn). cbv zeta.
  erewrite lookup_slice_set; [|erewrite lookup_slice_set; [reflexivity | exact Hj]].
  pose proof (lookup_lt_Some _ _ _ Hj) as Hlt.
  assert (Hne : row <> []) by (intros ->; simpl in Hlt; lia).
  pose proof (real_idx_bounds row Hne) as Hb.
  f_equal. bool_lia.
Qed.

(** the entries of a row after [set_nans] with a negative [n] *)
Lemma set_nans_row_dilate n row j y :
  (n < 0)%Z -> row !! j = Some y ->
  set_nans_row n row !! j
  = Some (if ((last_real_idx row <=? Z.of_nat j)
              && (Z.of_nat j <=? last_real_idx row - n))%Z
          then row !!! Z.to_nat (last_real_idx row)
          else if ((first_real_idx row + n <=? Z.of_nat j)
                   && (Z.of_nat j <? first_real_idx row))%Z
               then row !!! Z.to_nat (first_real_idx row)
               else y).
Proof.
  intros Hn Hj. unfold set_nans_row.
  rewrite (proj2 (Z.ltb_ge 0 n)) by lia. rewrite (proj2 (Z.ltb_lt n 0) Hn).
  cbv zeta.
  pose proof (lookup_lt_Some _ _ _ Hj) as Hlt.
  assert (Hne : row <> []) by (intros ->; simpl in Hlt; lia).
  pose proof (real_idx_bounds row Hne) as Hb.
  assert (Hlast : exists z, row !! Z.to_nat (last_real_idx row) = Some z).
  { apply lookup_lt_is_Some. lia. }
  destruct Hlast as [z Hz].
  erewrite lookup_slice_set; [|erewrite lookup_slice_set; [reflexivity | exact Hj]].
  erewrite (list_lookup_total_correct (slice_set _ _ _ _));
    [|erewrite lookup_slice_set; [reflexivity | exact Hz]].
  rewrite (list_lookup_total_correct _ _ _ Hz).
  rewrite Z2Nat.id by lia.
  f_equal. bool_lia.
Qed.

(** the same, from the places of the first and of the last number *)
Lemma set_nans_row_dilate_at n row f l j y :
  (n < 0)%Z -> is_first row f -> is_last row l -> row !! j = Some y ->
  set_nans_row n row !! j
  = Some (if ((Z.of_nat f + n <=? Z.of_nat j) && (Z.of_nat j <? Z.of_nat f))%Z
          then row !!! f
          else if ((Z.of_nat l <? Z.of_nat j) && (Z.of_nat j <=? Z.of_nat l - n))%Z
               then row !!! l
               else y).
Proof.
  intros Hn Hf Hl Hj.
  rewrite (set_nans_row_dilate n row j y Hn Hj).
  rewrite (first_real_idx_is row f Hf), (last_real_idx_is row l Hl), !Nat2Z.id.
  pose proof (is_first_le_last row f l Hf Hl) as Hfl.
  f_equal.
  destruct (decide (j = l)) as [->|Hjl].
  - rewrite (list_lookup_total_correct _ _ _ Hj). bool_lia.
  - bool_lia.
Qed.

(** widening a row by [m] and then narrowing it by [m] *)
Lemma set_nans_row_round_trip (m : nat) row f l :
  (0 < m)%nat -> is_first row f -> is_last row l ->
  (m <= f)%nat -> (l + m < length row)%nat ->
  set_nans_row (Z.of_nat m) (set_nans_row (- Z.of_nat m) row) = row.
Proof.
  intros Hm Hf Hl Hmf Hlm.
  set (row' := set_nans_row (- Z.of_nat m) row).
  assert (Hlen : length row' = length row) by apply length_set_nans_row.
  pose proof (is_first_le_last row f l Hf Hl) as Hfl.
  assert (Hpoint : forall j y, row !! j = Some y ->
            row' !! j
            = Some (if ((Z.of_nat f + - Z.of_nat m <=? Z.of_nat j)
                        && (Z.of_nat j <? Z.of_nat f))%Z
                    then row !!! f
                    else if ((Z.of_nat l <? Z.of_nat j)
                             && (Z.of_nat j <=? Z.of_nat l - - Z.of_nat m))%Z
                         then row !!! l
                         else y)).
  { intros j y Hj. apply set_nans_row_dilate_at; [lia | assumption..]. }
  destruct Hf as [(xf & Hxf & Hxfr) Hbefore] eqn:Ef. clear Ef.
  destruct Hl as [(xl & Hxl & Hxlr) Hafter] eqn:El. clear El.
  assert (Hf' : is_first row' (f - m)).
  { split.
    - destruct (lookup_lt_is_Some_2 row (f - m)%nat ltac:(lia)) as [y Hy].
      exists xf. split; [|exact Hxfr].
      rewrite (Hpoint _ y Hy), (list_lookup_total_correct _ _ _ Hxf).
      f_equal. bool_lia.
    - intros j y' Hj Hy'.
      destruct (lookup_lt_is_Some_2 row j ltac:(lia)) as [y Hy].
      rewrite (Hpoint j y Hy) in Hy'. injection Hy' as <-.
      replace ((Z.of_nat f + - Z.of_nat m <=? Z.of_nat j)
               && (Z.of_nat j <? Z.of_nat f))%Z with false by (symmetry; bool_lia).
      replace ((Z.of_nat l <? Z.of_nat j)
               && (Z.of_nat j <=? Z.of_nat l - - Z.of_nat m))%Z with false
        by (symmetry; bool_lia).
      apply (Hbefore j y); [lia | exact Hy]. }
  assert (Hl' : is_last row' (l + m)).
  { split.
    - destruct (lookup_lt_is_Some_2 row (l + m)%nat ltac:(lia)) as [y Hy].
      exists xl. split; [|exact Hxlr].
      rewrite (Hpoint _ y Hy), (list_lookup_total_correct _ _ _ Hxl).
      f_equal. bool_lia.
    - intros j y' Hj Hy'.
      pose proof (lookup_lt_Some _ _ _ Hy') as Hjlt. rewrite Hlen in Hjlt.
      destruct (lookup_lt_is_Some_2 row j Hjlt) as [y Hy].
      rewrite (Hpoint j y Hy) in Hy'. injection Hy' as <-.
      replace ((Z.of_nat f + - Z.of_nat m <=? Z.of_nat j)
               && (Z.of_nat j <? Z.of_nat f))%Z with false by (symmetry; bool_lia).
      replace ((Z.of_nat l <? Z.of_nat j)
               && (Z.of_nat j <=? Z.of_nat l - - Z.of_nat m))%Z with false
        by (symmetry; bool_lia).
      apply (Hafter j y); [lia | exact Hy]. }
  apply list_eq_same_length with (length row);
    [reflexivity | rewrite length_set_nans_row; exact Hlen |].
  intros j z y Hjlt Hz Hy.
  destruct (lookup_lt_is_Some_2 row' j ltac:(lia)) as [y' Hy'].
  rewrite (set_nans_row_erode (Z.of_nat m) row' j y' ltac:(lia) Hy') in Hz.
  rewrite (first_real_idx_is row' _ Hf'), (last_real_idx_is row' _ Hl') in Hz.
  injection Hz as <-.
  rewrite (Hpoint j y Hy) in Hy'. injection Hy' as <-.
  destruct (decide (f <= j <= l)%nat) as [Hin|Hout].
  - bool_lia.
  - assert (Hnan : isnan y = true).
    { destruct (Nat.lt_ge_cases j f) as [H|H];
        [apply (Hbefore j y H Hy) | apply (Hafter j y ltac:(lia) Hy)]. }
    rewrite (isnan_eq y Hnan).
    replace ((Z.of_nat (f - m) + Z.of_nat m <=? Z.of_nat j)
             && (Z.of_nat j <=? Z.of_nat (l + m) - Z.of_nat m))%Z with false
      by (symmetry; bool_lia).
    reflexivity.
Qed.

(** X4.  With a positive [n], [set_nans] keeps the entries of a row from
    [first + n] to [last - n], [first] and [last] being the places of the
    first and of the last entry of the row that is not NaN, and makes the
    others NaN: no entry that is NaN becomes a number, and a row with
    [last - first < 2 n] is NaN throughout. *)
Theorem set_nans_erodes (arr out : mat) (n : Z) :
  (0 < n)%Z -> set_nans arr n = Ok out ->
  forall i row, arr !! i = Some row ->
    exists row', out !! i = Some row' /\ length row' = length row /\
      (forall j y, row !! j = Some y ->
         row' !! j
         = Some (if ((first_real_idx row + n <=? Z.of_nat j)
                     && (Z.of_nat j <=? last_real_idx row - n))%Z
                 then y else nan)) /\
      (forall j y y', row !! j = Some y -> row' !! j = Some y' ->
         isnan y = true -> isnan y' = true) /\
      ((last_real_idx row - first_real_idx row < 2 * n)%Z ->
       Forall (fun x => isnan x = true) row').
Proof.
  intros Hn Hset i row Hi. unfold set_nans in Hset.
  destruct (existsb _ arr); [discriminate|]. injection Hset as <-.
  exists (set_nans_row n row). rewrite list_lookup_fmap, Hi.
  split; [reflexivity|]. split; [apply length_set_nans_row|].
  split; [intros j y; apply set_nans_row_erode; exact Hn|]. split.
  - intros j y y' Hj Hj' Hy. rewrite (set_nans_row_erode n row j y Hn Hj) in Hj'.
    injection Hj' as <-. destruct (_ && _); [exact Hy | apply isnan_nan].
  - intros Hnarrow. apply Forall_lookup_2. intros j y' Hj'.
    destruct (row !! j) as [y|] eqn:Hj.
    + rewrite (set_nans_row_erode n row j y Hn Hj) in Hj'. injection Hj' as <-.
      replace ((first_real_idx row + n <=? Z.of_nat j)
               && (Z.of_nat j <=? last_real_idx row - n))%Z with false
        by (symmetry; bool_lia).
      apply isnan_nan.
    + apply lookup_lt_Some in Hj'. apply lookup_ge_None in Hj.
      rewrite length_set_nans_row in Hj'. lia.
Qed.

(** a row of six with its numbers at 1, 2 and 4: one entry at each end goes *)
Lemma set_nans_erodes_witness :
  set_nans [[nan; 1; 2; nan; 4; nan]] 1 = Ok [[nan; nan; 2; nan; nan; nan]] /\
  exists row', ([[nan; nan; 2; nan; nan; nan]] : mat) !! 0%nat = Some row' /\
    row' !! 2%nat = Some 2 /\ row' !! 1%nat = Some nan.
Proof.
  assert (Hset : set_nans [[nan; 1; 2; nan; 4; nan]] 1
                 = Ok [[nan; nan; 2; nan; nan; nan]]).
  { vm_compute. reflexivity. }
  split; [exact Hset|].
  destruct (set_nans_erodes _ _ 1 ltac:(lia) Hset 0%nat _ eq_refl)
    as (row' & Hrow' & _ & Hentries & _).
  exists row'. split; [exact Hrow'|]. split.
  - rewrite (Hentries 2%nat 2 eq_refl). vm_compute. reflexivity.
  - rewrite (Hentries 1%nat 1 eq_refl). vm_compute. reflexivity.
Defined.



(** X6.  Widening by [n] and then narrowing by [n] gives the array back, when
    every row has a number, at least [n] places from each end of the row. *)
Theorem set_nans_round_trip (arr widened : mat) (n : Z) :
  (0 < n)%Z ->
  Forall (fun row : vec =>
            exists f l, is_first row f /\ is_last row l /\
              (n <= Z.of_nat f)%Z /\ (Z.of_nat l + n < Z.of_nat (length row))%Z)
         arr ->
  set_nans arr (- n) = Ok widened ->
  set_nans widened n = Ok arr.
Proof.
  intros Hn Hrows Hset. unfold set_nans in *.
  destruct (existsb _ arr) eqn:Hempty; [discriminate|]. injection Hset as <-.
  assert (Hnone : existsb (fun row : vec => Nat.eqb (length row) 0)
                    (set_nans_row (- n) <$> arr) = false).
  { apply not_true_is_false. intros H. apply existsb_exists in H as (r & Hin & Hr).
    apply list_elem_of_In, list_elem_of_fmap in Hin as (row & -> & Hin).
    rewrite length_set_nans_row in Hr.
    assert (He : existsb (fun row : vec => Nat.eqb (length row) 0) arr = true).
    { apply existsb_exists. exists row. split; [apply list_elem_of_In; exact Hin|].
      exact Hr. }
    congruence. }
  rewrite Hnone. f_equal. rewrite <- list_fmap_compose.
  transitivity (id <$> arr); [|apply list_fmap_id].
  apply Forall_fmap_ext_1. eapply Forall_impl; [exact Hrows|].
  intros row (f & l & Hf & Hl & Hnf & Hln). simpl.
  rewrite <- (Z2Nat.id n) by lia.
  apply (set_nans_row_round_trip (Z.to_nat n) row f l); [lia | assumption.. | lia | lia].
Qed.

(** the numbers 1 and 2 at the places 2 and 3 of a row of six *)
Lemma set_nans_round_trip_witness :
  set_nans [[nan; nan; 1; 2; nan; nan]] (- 1) = Ok [[nan; 1; 1; 2; 2; nan]] /\
  set_nans [[nan; 1; 1; 2; 2; nan]] 1 = Ok [[nan; nan; 1; 2; nan; nan]].
Proof.
  assert (Hset : set_nans [[nan; nan; 1; 2; nan; nan]] (- 1)
                 = Ok [[nan; 1; 1; 2; 2; nan]]).
  { vm_compute. reflexivity. }
  split; [exact Hset|].
  apply (set_nans_round_trip [[nan; nan; 1; 2; nan; nan]] _ 1 ltac:(lia));
    [|exact Hset].
  constructor; [|constructor].
  exists 2%nat, 3%nat. split; [|split; [|simpl; lia]].
  - split; [exists 1; split; [reflexivity | vm_compute; reflexivity]|].
    intros j y Hj Hy. destruct j as [|[|j]]; [| |lia];
      injection Hy as <-; vm_compute; reflexivity.
  - split; [exists 2; split; [reflexivity | vm_compute; reflexivity]|].
    intros j y Hj Hy. destruct j as [|[|[|[|[|[|j]]]]]]; try lia;
      try (injection Hy as <-; vm_compute; reflexivity). discriminate.
Defined.

End EdgesFacts.

(** ** What the row normaliser keeps *)

Module NormalizerInvariants.

Import F64 Np Normalizer F64Facts NpFacts NormalizerFacts.
Local Open Scope float_scope.

(** writing back what was read changes nothing *)
Lemma scatter_gather_id (a : vec) idx :
  NoDup idx -> (forall i, i ∈ idx -> (i < length a)%nat) ->
  scatter a idx (gather a idx) = a.
Proof.
  intros Hnd Hlt. apply list_eq. intros i.
  destruct (decide (i ∈ idx)) as [Hin|Hnin].
  - apply list_elem_of_lookup in Hin as [r Hr].
    pose proof (Hlt i (list_elem_of_lookup_2 _ _ _ Hr)) as Hi.
    rewrite (lookup_scatter_in a idx (gather a idx) r i (a !!! i) Hnd Hr);
      [symmetry; apply lookup_total_Some; exact Hi | | exact Hi].
    apply lookup_gather. exact Hr.
  - apply lookup_scatter_notin. exact Hnin.
Qed.

Lemma usable_lt badpix im noise star i :
  i ∈ where_ (usable badpix im noise star) ->
  (i < length badpix)%nat /\ (i < length im)%nat /\ (i < length noise)%nat /\
  (i < length star)%nat.
Proof.
  intros Hi. apply where_lt in Hi. unfold usable, vand in Hi.
  rewrite !length_zip_with, !length_fmap in Hi. lia.
Qed.

Section Rows.

Variable get_spline_model : vec -> vec -> result mat.
Variable lsq_linear : mat -> vec -> result vec.
Variable median_abs_deviation : vec -> float.

(** the noise of a row is returned as it was given *)
Lemma normrow_noise x_nodes threshold reg im wvs noise badpix star rm rs out :
  normrow get_spline_model lsq_linear median_abs_deviation
    x_nodes threshold reg im wvs noise badpix star rm rs = Ok out ->
  new_noise_row out = noise.
Proof.
  intros Hrow.
  destruct (decide (where_ (usable badpix im noise star) = [])) as [Hnil|Hne].
  - rewrite normrow_skipped in Hrow by exact Hnil.
    destruct (get_spline_model x_nodes wvs); cbn [mbind result_bind rbind] in Hrow;
      [|discriminate].
    injection Hrow as <-. reflexivity.
  - destruct (normrow_fitted _ _ _ _ _ _ _ _ _ _ _ _ _ _ Hrow Hne)
      as (M_spline & p & _ & _ & ->). cbn [new_noise_row].
    apply scatter_gather_id; [apply where_NoDup|].
    intros i Hi. apply usable_lt in Hi. lia.
Qed.

(** a pixel that is not usable is flagged in the mask of a fitted row *)
Lemma normrow_flags_unusable x_nodes threshold reg im wvs noise badpix star rm rs
    out i :
  normrow get_spline_model lsq_linear median_abs_deviation
    x_nodes threshold reg im wvs noise badpix star rm rs = Ok out ->
  where_ (usable badpix im noise star) <> [] ->
  length badpix = length im -> (i < length im)%nat ->
  i ∉ where_ (usable badpix im noise star) ->
  new_badpix_row out !! i = Some nan.
Proof.
  intros Hrow Hne Hlen Hi Hnot.
  destruct (normrow_score _ _ _ _ _ _ _ _ _ _ _ _ _ _ Hrow Hne)
    as (m & _ & _ & _ & Hout & Hmask). cbv zeta in *.
  destruct (normrow_mask _ _ _ _ _ _ _ _ _ _ _ _ _ _ Hrow) as [Hl _].
  destruct (lookup_lt_is_Some_2 badpix i ltac:(lia)) as [b Hb].
  pose proof (Hout i Hi Hnot) as Hnr.
  pose proof (proj2 (Hmask i b Hb Hi)) as Hflag.
  rewrite (list_lookup_total_correct _ _ _ Hnr) in Hflag.
  assert (Hnan : isnan (new_badpix_row out !!! i) = true).
  { apply Hflag. unfold is_bad. rewrite isnan_nan. apply orb_true_r. }
  rewrite lookup_total_Some by lia. f_equal. apply isnan_eq. exact Hnan.
Qed.

End Rows.

Lemma reshape_concat_shape (m : mat) : reshape (length <$> m) (concat m) = m.
Proof.
  induction m as [|row m IH]; [reflexivity|].
  rewrite fmap_cons. cbn [concat reshape].
  rewrite take_app_length, drop_app_length, IH. reflexivity.
Qed.

(** X7.  [_task_normrows] and [_task_normslice_2dspline] return the noise
    they are given: the array [new_noise] is the array [noise], row by row,
    whatever was fitted. *)
Theorem normalisers_keep_noise
    (get_spline_model : vec -> vec -> result mat)
    (lsq_linear : mat -> vec -> result vec)
    (median_abs_deviation : vec -> float) :
  (forall im_rows im_wvs_rows noise_rows badpix_rows x_nodes star_model
          threshold reg rm rs out,
     _task_normrows get_spline_model lsq_linear median_abs_deviation
       im_rows im_wvs_rows noise_rows badpix_rows x_nodes star_model
       threshold reg rm rs = Ok out ->
     length noise_rows = length im_rows ->
     new_noise out = noise_rows) /\
  (forall im im_wvs im_ifuy noise badpix wv_nodes ifuy_nodes wv_ref star_model
          threshold rm rs out,
     _task_normslice_2dspline get_spline_model lsq_linear median_abs_deviation
       im im_wvs im_ifuy noise badpix wv_nodes ifuy_nodes wv_ref star_model
       threshold rm rs = Ok out ->
     length <$> noise = length <$> im ->
     new_noise out = noise).
Proof.
  split.
  - intros im_rows im_wvs_rows noise_rows badpix_rows x_nodes star_model
           threshold reg rm rs out Hout Hlen.
    assert (Hl : length (new_noise out) = length im_rows).
    { unfold _task_normrows in Hout.
      destruct (mapM _ (seq 0 (length im_rows))) as [rows|] eqn:Hrows;
        cbn [mbind result_bind rbind] in Hout; [|discriminate].
      injection Hout as <-. cbn [new_noise].
      rewrite length_fmap, (mapM_Ok_length _ _ _ Hrows). apply length_seq. }
    apply list_eq_same_length with (length im_rows); [exact Hlen | exact Hl |].
    intros k row noise_row Hk Hrow Hnoise.
    destruct (task_normrows_row _ _ _ _ _ _ _ _ _ _ _ _ _ _ k Hout Hk)
      as (r & Hr & _ & Hn & _).
    rewrite Hrow in Hn. injection Hn as ->.
    rewrite (normrow_noise _ _ _ _ _ _ _ _ _ _ _ _ _ _ Hr).
    apply list_lookup_total_correct. exact Hnoise.
  - intros im im_wvs im_ifuy noise badpix wv_nodes ifuy_nodes wv_ref star_model
           threshold rm rs out Hout Hshape.
    destruct (normslice_fitted _ _ _ _ _ _ _ _ _ _ _ _ _ _ _ _ Hout)
      as (_ & My & Mw & p & _ & _ & _ & ->). cbn [new_noise].
    rewrite scatter_gather_id; [|apply where_NoDup|].
    + rewrite <- Hshape. apply reshape_concat_shape.
    + intros i Hi. apply where_lt in Hi. unfold usable_2d, usable, vand in Hi.
      rewrite !length_zip_with, !length_fmap in Hi. lia.
Qed.

(** two rows, the second without a usable pixel *)
Lemma normalisers_keep_noise_witness :
  exists out,
    _task_normrows Reference.get_spline_model Reference.lsq_linear
      Reference.median_abs_deviation [[10; 20; 22]; [1; 2; 3]]
      [[0; 1; 1]; [0; 1; 1]] [[1; 2; 3]; [0; 0; 0]] [[1; 1; 1]; [1; 1; 1]]
      [0; 1] [[1; 1; 1]; [1; 1; 1]] 10 false [] [] = Ok out /\
    new_noise out = [[1; 2; 3]; [0; 0; 0]].
Proof.
  eexists. split; [vm_compute; reflexivity|].
  apply (proj1 (normalisers_keep_noise Reference.get_spline_model
                  Reference.lsq_linear Reference.median_abs_deviation)
           [[10; 20; 22]; [1; 2; 3]] [[0; 1; 1]; [0; 1; 1]]
           [[1; 2; 3]; [0; 0; 0]] [[1; 1; 1]; [1; 1; 1]] [0; 1]
           [[1; 1; 1]; [1; 1; 1]] 10 false [] []);
    [vm_compute; reflexivity | reflexivity].
Defined.

(** X8.  In a row that [_task_normrows] fits, every pixel left out of the fit
    (signal, noise, mask or star model not finite, or zero noise) is NaN in
    the mask that is returned, whatever the mask held there. *)
Theorem unusable_pixels_are_flagged
    (get_spline_model : vec -> vec -> result mat)
    (lsq_linear : mat -> vec -> result vec)
    (median_abs_deviation : vec -> float)
    im_rows im_wvs_rows noise_rows badpix_rows x_nodes star_model threshold
    reg rm rs out k i :
  _task_normrows get_spline_model lsq_linear median_abs_deviation
    im_rows im_wvs_rows noise_rows badpix_rows x_nodes star_model
    threshold reg rm rs = Ok out ->
  (k < length im_rows)%nat ->
  let im := im_rows !!! k in
  let usable_row :=
    usable (badpix_rows !!! k) im (noise_rows !!! k) (star_model !!! k) in
  where_ usable_row <> [] ->
  length (badpix_rows !!! k) = length im ->
  (i < length im)%nat ->
  usable_row !! i <> Some true ->
  exists row, new_badpix out !! k = Some row /\ row !! i = Some nan.
Proof.
  intros Hout Hk im usable_row Hne Hlen Hi Hnot.
  destruct (task_normrows_row _ _ _ _ _ _ _ _ _ _ _ _ _ _ k Hout Hk)
    as (r & Hr & _ & _ & Hb & _).
  exists (new_badpix_row r). split; [exact Hb|].
  apply (normrow_flags_unusable _ _ _ _ _ _ _ _ _ _ _ _ _ _ _ Hr Hne Hlen Hi).
  intros Hin. apply elem_of_where in Hin. exact (Hnot Hin).
Qed.

(** a row whose second pixel has a NaN signal under a mask of 1 *)
Lemma unusable_pixels_are_flagged_witness :
  exists out row,
    _task_normrows Reference.get_spline_model Reference.lsq_linear
      Reference.median_abs_deviation [[10; nan; 22; 21]]
      [[0; 1; 1; 1]] [[1; 1; 1; 1]] [[1; 1; 1; 1]]
      [0; 1] [[1; 1; 1; 1]] 10 false [] [] = Ok out /\
    new_badpix out !! 0%nat = Some row /\ row !! 1%nat = Some nan.
Proof.
  eexists.
  assert (Hout :
    _task_normrows Reference.get_spline_model Reference.lsq_linear
      Reference.median_abs_deviation [[10; nan; 22; 21]]
      [[0; 1; 1; 1]] [[1; 1; 1; 1]] [[1; 1; 1; 1]]
      [0; 1] [[1; 1; 1; 1]] 10 false [] []
    = Ok (mk_outputs [[10; nan; 0x1.58p+4; 0x1.58p+4]] [[1; 1; 1; 1]]
            [[1; nan; 1; 1]] [[0; nan; 0.5; -0.5]] [[10; 0x1.58p+4]])).
  { vm_compute. reflexivity. }
  destruct (unusable_pixels_are_flagged _ _ _ _ _ _ _ _ _ _ _ _ _ _ 0%nat 1%nat
              Hout ltac:(simpl; lia) ltac:(vm_compute; discriminate) eq_refl
              ltac:(simpl; lia) ltac:(vm_compute; discriminate))
    as (row & Hrow & Hi).
  exists row. split; [exact Hout|]. split; assumption.
Defined.

End NormalizerInvariants.

(** ** The combiner on a bin size that is zero or NaN *)

Module CombinerEdges.

Import F64 Np Combiner F64Facts CombinerFacts.
Local Open Scope float_scope.





End CombinerEdges.

(** ** A failure of the optimiser in the PSF fitter *)

Module PsfFitterFailures.

Import F64 Np PsfFitter F64Facts NpFacts NormalizerFacts PsfFitterFacts.
Local Open Scope float_scope.

Lemma length_shifted interp (X Y : vec) xc yc :
  length X = length Y -> length (shifted interp X Y xc yc) = length X.
Proof.
  intros H. unfold shifted. rewrite length_zip_with, !length_fmap. lia.
Qed.

Lemma fmap_mul_nan (l : vec) : (fun m => nan * m) <$> l = replicate (length l) nan.
Proof.
  induction l as [|m l IH]; [reflexivity|].
  rewrite fmap_cons, IH. simpl. f_equal.
  apply isnan_eq, isnan_mul_l, isnan_nan.
Qed.

(** [mycostfunc] returns on two or three parameters *)
Lemma mycostfunc_returns
    (rotate_coordinates : vec -> vec -> float -> bool -> vec * vec)
    (q X Y Z Zerr : vec) (interp : float -> float -> float) :
  (length q = 2 \/ length q = 3)%nat ->
  returns (mycostfunc rotate_coordinates q X Y Z Zerr interp).
Proof.
  intros Hq. unfold mycostfunc.
  destruct q as [|xc [|yc [|th [|? ?]]]]; simpl in Hq; try lia;
    cbn [mbind result_bind rbind];
    destruct (rotate_coordinates _ _ _ _); eexists; reflexivity.
Qed.

(** X10.  In [_fit_wpsf_task], an exception of the optimiser is caught.  Take
    a sector that is fitted, with [fit_cen] set, initial parameters of the
    length the fit asks for (three with [fit_angle], two without) and a PSF
    interpolant that is built.  When [scipy.optimize.minimize] raises, the
    iteration of the sector returns all the same; the row of the sector in
    [out_paras] is the initial amplitude followed by four NaN, the pixels of
    the sector are NaN in [out_model], and no other pixel is written. *)
Theorem optimiser_failure_is_caught
    (remainder : float -> float -> float)
    (rotate_coordinates : vec -> vec -> float -> bool -> vec * vec)
    (interpolator : bool -> vec -> vec -> vec
                    -> result (float -> float -> float))
    (minimize : (vec -> result float) -> vec -> mat -> float -> result vec)
    (p : paras) (R PA : vec) (st : fit_state) (sector_id : nat)
    (s : sector) :
  (forall cost p0 simplex fatol, raises (minimize cost p0 simplex fatol)) ->
  fit_cen p = true ->
  skipped remainder p R PA s = false ->
  length (init_paras p) = (if fit_angle p then 3 else 2)%nat ->
  (forall wX wY,
     returns (interpolator (linear_interp p) wX wY
                (gather (wepsf p) (where_wepsf_finite p)))) ->
  exists st' webbpsf_interp x0 y0,
    sector_step remainder rotate_coordinates interpolator minimize p R PA st
      (sector_id, s) = Ok st' /\
    (let where_fit := where_fit remainder p R PA s in
     let rotated :=
       rotate_coordinates (gather (wifuX p) (where_wepsf_finite p))
                          (gather (wifuY p) (where_wepsf_finite p))
                          (- east2V2_deg p) (flipx p) in
     interpolator (linear_interp p) rotated.1 rotated.2
       (gather (wepsf p) (where_wepsf_finite p)) = Ok webbpsf_interp /\
     init_paras p !! 0%nat = Some x0 /\ init_paras p !! 1%nat = Some y0 /\
     st'.1 = <[sector_id :=
                 [amplitude (gather (_Z p) where_fit)
                            (shifted webbpsf_interp (gather (_X p) where_fit)
                                     (gather (_Y p) where_fit) x0 y0)
                            (gather (_Zerr p) where_fit);
                  nan; nan; nan; nan]]> st.1) /\
    length st'.2 = length st.2 /\
    (forall i, i ∈ where_sc R PA s -> (i < length st.2)%nat ->
       st'.2 !! i = Some nan) /\
    (forall i, i ∉ where_sc R PA s -> st'.2 !! i = st.2 !! i).
Proof.
  intros Hmin Hcen Hskip Hlen Hinterp. unfold skipped in Hskip. unfold sector_step.
  destruct (Nat.ltb (length (where_fit remainder p R PA s)) 1); [discriminate|].
  destruct (Nat.ltb (length (where_sc R PA s)) 1); [discriminate|].
  destruct (Nat.ltb (length (where_wepsf_finite p)) 3); [discriminate|].
  unfold fit_sector. cbv zeta.
  destruct (rotate_coordinates _ _ _ _) as [wX wY] eqn:Hrot.
  destruct (Hinterp wX wY) as [interp Hi]. rewrite Hi.
  cbn [mbind result_bind rbind].
  assert (Hp0 : exists x0 y0 rest, init_paras p = x0 :: y0 :: rest).
  { destruct (init_paras p) as [|x0 [|y0 rest]]; simpl in Hlen;
      [destruct (fit_angle p); discriminate
      |destruct (fit_angle p); discriminate|eauto]. }
  destruct Hp0 as (x0 & y0 & rest & Hp0).
  assert (Hx0 : item (init_paras p) 0 = Ok x0) by (rewrite Hp0; reflexivity).
  assert (Hy0 : item (init_paras p) 1 = Ok y0) by (rewrite Hp0; reflexivity).
  rewrite Hx0. cbn [mbind result_bind rbind].
  rewrite Hy0. cbn [mbind result_bind rbind].
  assert (Hsimplex : returns (initial_simplex (init_paras p)
            (if fit_angle p
             then [0x1.999999999999ap-5; 0x1.999999999999ap-5; 0x1.0624dd2f1a9fcp-10]
             else [0x1.999999999999ap-5; 0x1.999999999999ap-5]))).
  { unfold initial_simplex. rewrite Hlen.
    destruct (fit_angle p); eexists; reflexivity. }
  destruct Hsimplex as [simplex Hs]. rewrite Hs. cbn [mbind result_bind rbind].
  destruct (mycostfunc_returns rotate_coordinates (init_paras p)
              (gather (_X p) (where_fit remainder p R PA s))
              (gather (_Y p) (where_fit remainder p R PA s))
              (gather (_Z p) (where_fit remainder p R PA s))
              (gather (_Zerr p) (where_fit remainder p R PA s)) interp)
    as [chi20 Hchi]; [rewrite Hlen; destruct (fit_angle p); auto|].
  rewrite Hchi. cbn [mbind result_bind rbind].
  unfold fit_try. rewrite Hcen.
  destruct (Hmin (fun q => mycostfunc rotate_coordinates q
                             (gather (_X p) (where_fit remainder p R PA s))
                             (gather (_Y p) (where_fit remainder p R PA s))
                             (gather (_Z p) (where_fit remainder p R PA s))
                             (gather (_Zerr p) (where_fit remainder p R PA s))
                             interp)
                 (init_paras p) simplex (chi20 * 0x1.19799812dea11p-40))
    as [e He].
  rewrite He. cbn [mbind result_bind rbind].
  eexists _, interp, x0, y0. split; [reflexivity|]. cbn [fst snd].
  rewrite fmap_mul_nan, length_shifted by (rewrite !length_gather; reflexivity).
  rewrite length_gather.
  split; [|split; [apply length_scatter|split]].
  - split; [exact Hi|]. rewrite Hp0. repeat split; reflexivity.
  - intros i Hin Hlt. apply list_elem_of_lookup in Hin as [r Hr].
    apply (lookup_scatter_in _ _ _ r); [apply where_NoDup | exact Hr | | exact Hlt].
    apply lookup_replicate_2. eapply lookup_lt_Some. exact Hr.
  - intros i Hin. apply lookup_scatter_notin. exact Hin.
Qed.

(** the first of the two annuli, with a minimiser that raises *)
Lemma optimiser_failure_is_caught_witness :
  sector_step Reference.remainder Reference.rotate_coordinates
    Reference.interpolator Reference.minimize_raising TwoAnnuli.paras
    [0.5; 1.5] [0x1.921fb54442d18p+0; 0]
    ([[nan; nan; nan; nan; nan]; [nan; nan; nan; nan; nan]], [nan; nan])
    (0%nat, ((0, 1), (0, two_pi)))
  = Ok ([[2; nan; nan; nan; nan]; [nan; nan; nan; nan; nan]], [nan; nan]) /\
  exists st',
    sector_step Reference.remainder Reference.rotate_coordinates
      Reference.interpolator Reference.minimize_raising TwoAnnuli.paras
      [0.5; 1.5] [0x1.921fb54442d18p+0; 0]
      ([[nan; nan; nan; nan; nan]; [nan; nan; nan; nan; nan]], [nan; nan])
      (0%nat, ((0, 1), (0, two_pi))) = Ok st' /\
    length st'.2 = 2%nat.
Proof.
  split; [vm_compute; reflexivity|].
  destruct (optimiser_failure_is_caught Reference.remainder
              Reference.rotate_coordinates Reference.interpolator
              Reference.minimize_raising TwoAnnuli.paras
              [0.5; 1.5] [0x1.921fb54442d18p+0; 0]
              ([[nan; nan; nan; nan; nan]; [nan; nan; nan; nan; nan]], [nan; nan])
              0%nat ((0, 1), (0, two_pi))
              ltac:(intros; eexists; reflexivity) eq_refl
              ltac:(vm_compute; reflexivity) eq_refl
              ltac:(intros; eexists; reflexivity))
    as (st' & _ & _ & _ & Hstep & _ & Hlen & _).
  exists st'. split; [exact Hstep | exact Hlen].
Defined.

End PsfFitterFailures.

(** ** The detection map *)

Module DetectionFacts.

Import F64 Np Cube Detection F64Facts NpFacts CubeFacts.
Local Open Scope float_scope.

(** reading a place where NaN was written gives NaN, in range or not *)
Lemma insert_nan_lookup_total (l : vec) i : <[i := nan]> l !!! i = nan.
Proof.
  destruct (decide (i < length l)%nat) as [Hlt|Hge].
  - apply list_lookup_total_insert_eq. exact Hlt.
  - rewrite list_lookup_total_alt, lookup_ge_None_2;
      [reflexivity | rewrite length_insert; lia].
Qed.

Lemma lookup_total_mask_column n_dec n_ra cube w d r wv :
  (d < n_dec)%nat -> (r < n_ra)%nat ->
  mask_column n_dec n_ra cube w d r !!! cube_index n_dec n_ra wv d r
  = if bool_decide (wv ∈ w) then nan else cube !!! cube_index n_dec n_ra wv d r.
Proof.
  intros Hd Hr. unfold mask_column. revert cube.
  induction w as [|a w IH]; intros cube; [reflexivity|].
  cbn [foldl]. rewrite IH. unfold cube_set.
  destruct (decide (wv = a)) as [->|Hne].
  - rewrite insert_nan_lookup_total.
    rewrite (bool_decide_eq_true_2 (a ∈ a :: w)) by left.
    destruct (bool_decide (a ∈ w)); reflexivity.
  - rewrite list_lookup_total_insert_ne.
    + destruct (decide (wv ∈ w)) as [Hin|Hnin].
      * rewrite !bool_decide_eq_true_2; [reflexivity | right; exact Hin | exact Hin].
      * rewrite !bool_decide_eq_false_2; [reflexivity | | exact Hnin].
        intros Hin. apply elem_of_cons in Hin as [?|?]; contradiction.
    + intros Heq. apply cube_index_inj in Heq as (<- & _ & _); [|assumption..].
      contradiction.
Qed.

Lemma lookup_total_mask_column_other n_dec n_ra cube w d r d' r' wv :
  (d < n_dec)%nat -> (r < n_ra)%nat -> (d' < n_dec)%nat -> (r' < n_ra)%nat ->
  (r, d) <> (r', d') ->
  mask_column n_dec n_ra cube w d' r' !!! cube_index n_dec n_ra wv d r
  = cube !!! cube_index n_dec n_ra wv d r.
Proof.
  intros Hd Hr Hd' Hr' Hne. unfold mask_column. revert cube.
  induction w as [|a w IH]; intros cube; [reflexivity|].
  cbn [foldl]. rewrite IH. unfold cube_set.
  apply list_lookup_total_insert_ne. intros Heq.
  apply cube_index_inj in Heq as (_ & <- & <-); [|assumption..].
  contradiction.
Qed.

Lemma column_ext n_dec n_ra cube cube' n_wv d r :
  (forall wv, cube !!! cube_index n_dec n_ra wv d r
              = cube' !!! cube_index n_dec n_ra wv d r) ->
  column n_dec n_ra cube n_wv d r = column n_dec n_ra cube' n_wv d r.
Proof. intros H. unfold column. apply list_fmap_ext. intros i wv _. apply H. Qed.

Lemma elem_of_cells n_dec n_ra r d :
  (r, d) ∈ cells n_dec n_ra <-> (r < n_ra)%nat /\ (d < n_dec)%nat.
Proof.
  unfold cells. rewrite list_elem_of_bind. split.
  - intros (r' & Hin & Hr'). apply list_elem_of_fmap in Hin as (d' & Heq & Hd').
    injection Heq as -> ->. apply elem_of_seq in Hr', Hd'. lia.
  - intros [Hr Hd]. exists r. split; [|apply elem_of_seq; lia].
    apply list_elem_of_fmap. exists d. split; [reflexivity | apply elem_of_seq; lia].
Qed.

Lemma NoDup_cells n_dec n_ra : NoDup (cells n_dec n_ra).
Proof.
  unfold cells. apply NoDup_bind; [| |apply NoDup_seq].
  - intros r1 r2 [r d] _ _ H1 H2.
    apply list_elem_of_fmap in H1 as (d1 & Heq1 & _).
    apply list_elem_of_fmap in H2 as (d2 & Heq2 & _). congruence.
  - intros r _. apply NoDup_fmap_2; [|apply NoDup_seq].
    intros d1 d2 Heq. congruence.
Qed.

Section Cells.

Variable generic_filter : vec -> vec.
Variable median_abs_deviation : vec -> float.
Variables n_wv n_dec n_ra : nat.
Variable comp_spec : vec.
Variable outlier_threshold : option float.
Variables fc0 ec0 : vec.

Local Abbreviation step :=
  (cell_step generic_filter median_abs_deviation n_wv n_dec n_ra comp_spec
             outlier_threshold).
Local Abbreviation outl :=
  (outliers_of generic_filter median_abs_deviation n_wv n_dec n_ra fc0 ec0
               outlier_threshold).
Local Abbreviation idx := (cube_index n_dec n_ra).
Local Abbreviation col := (column n_dec n_ra).

Local Abbreviation after :=
  (Detection.after generic_filter median_abs_deviation n_wv n_dec n_ra comp_spec
                   outlier_threshold fc0 ec0).

Lemma cell_step_eq st r0 d0 :
  step st (r0, d0)
  = let w := outliers_of generic_filter median_abs_deviation n_wv n_dec n_ra
               (flux_cube st) (fluxerr_cube st) outlier_threshold d0 r0 in
    let fc := mask_column n_dec n_ra (flux_cube st) w d0 r0 in
    let ec := mask_column n_dec n_ra (fluxerr_cube st) w d0 r0 in
    let out := bb_filter comp_spec (col fc n_wv d0 r0) (col ec n_wv d0 r0) in
    mk_maps fc ec (<[map_index n_ra d0 r0 := out.1]> (flux_map st))
            (<[map_index n_ra d0 r0 := out.2]> (fluxerr_map st)).
Proof.
  unfold cell_step, outliers_of. destruct outlier_threshold; reflexivity.
Qed.

Lemma after_nil :
  after [] (mk_maps fc0 ec0 (full (n_dec * n_ra) nan) (full (n_dec * n_ra) nan)).
Proof.
  unfold Detection.after, full. cbn [flux_map fluxerr_map flux_cube fluxerr_cube].
  rewrite !length_replicate. split; [reflexivity|]. split; [reflexivity|].
  intros d r Hd Hr.
  assert (Hnil : bool_decide ((r, d) ∈ @nil (nat * nat)) = false).
  { apply bool_decide_eq_false_2. intros H. inversion H. }
  rewrite Hnil. split; [intros wv; split; reflexivity|].
  cbv zeta. split; apply lookup_replicate_2; unfold map_index;
    (apply (Nat.lt_le_trans _ (S d * n_ra)); [simpl; lia|];
     apply Nat.mul_le_mono_r; lia).
Qed.

Lemma map_index_lt d r :
  (d < n_dec)%nat -> (r < n_ra)%nat -> (map_index n_ra d r < n_dec * n_ra)%nat.
Proof.
  intros Hd Hr. unfold map_index.
  apply (Nat.lt_le_trans _ (S d * n_ra)); [simpl; lia|].
  apply Nat.mul_le_mono_r. lia.
Qed.

Lemma after_step L st r0 d0 :
  after L st -> (d0 < n_dec)%nat -> (r0 < n_ra)%nat -> (r0, d0) ∉ L ->
  after (L ++ [(r0, d0)]) (step st (r0, d0)).
Proof.
  intros (Hlf & Hle & Hcells) Hd0 Hr0 Hnew.
  destruct (Hcells d0 r0 Hd0 Hr0) as [Hown _].
  assert (Hfalse : bool_decide ((r0, d0) ∈ L) = false)
    by (apply bool_decide_eq_false_2; exact Hnew).
  assert (Hcf : col (flux_cube st) n_wv d0 r0 = col fc0 n_wv d0 r0).
  { apply column_ext. intros wv. rewrite (proj1 (Hown wv)), Hfalse. reflexivity. }
  assert (Hce : col (fluxerr_cube st) n_wv d0 r0 = col ec0 n_wv d0 r0).
  { apply column_ext. intros wv. rewrite (proj2 (Hown wv)), Hfalse. reflexivity. }
  set (w := outl d0 r0).
  assert (Hw : outliers_of generic_filter median_abs_deviation n_wv n_dec n_ra
                 (flux_cube st) (fluxerr_cube st) outlier_threshold d0 r0 = w).
  { unfold w, outliers_of. destruct outlier_threshold as [t|]; [|reflexivity].
    rewrite Hcf, Hce. reflexivity. }
  rewrite cell_step_eq, Hw. cbv zeta.
  unfold Detection.after. cbn [flux_map fluxerr_map flux_cube fluxerr_cube].
  rewrite !length_insert. split; [exact Hlf|]. split; [exact Hle|].
  intros d r Hd Hr. destruct (Hcells d r Hd Hr) as (Hcube & Hfm & Hem).
  destruct (decide ((r, d) = (r0, d0))) as [Heq|Hne].
  - injection Heq as -> ->.
    assert (Htrue : bool_decide ((r0, d0) ∈ L ++ [(r0, d0)]) = true).
    { apply bool_decide_eq_true_2, elem_of_app. right. left. }
    rewrite Htrue. split.
    + intros wv. rewrite !lookup_total_mask_column by assumption.
      rewrite (proj1 (Hcube wv)), (proj2 (Hcube wv)), Hfalse. cbn [andb].
      fold w. destruct (bool_decide (wv ∈ w)); split; reflexivity.
    + cbv zeta. split; apply list_lookup_insert_eq;
        [rewrite Hlf | rewrite Hle]; apply map_index_lt; assumption.
  - assert (Hmem : bool_decide ((r, d) ∈ L ++ [(r0, d0)])
                   = bool_decide ((r, d) ∈ L)).
    { apply bool_decide_ext. rewrite elem_of_app, list_elem_of_singleton. tauto. }
    rewrite Hmem.
    assert (Hmi : map_index n_ra d0 r0 <> map_index n_ra d r).
    { unfold map_index. intros H. apply mul_add_inj in H as [-> ->];
        [contradiction | assumption..]. }
    assert (Hf' : col (mask_column n_dec n_ra (flux_cube st) w d0 r0) n_wv d r
                  = col (flux_cube st) n_wv d r).
    { apply column_ext. intros wv.
      apply lookup_total_mask_column_other; assumption. }
    assert (He' : col (mask_column n_dec n_ra (fluxerr_cube st) w d0 r0) n_wv d r
                  = col (fluxerr_cube st) n_wv d r).
    { apply column_ext. intros wv.
      apply lookup_total_mask_column_other; assumption. }
    split.
    + intros wv. rewrite !lookup_total_mask_column_other by assumption.
      apply Hcube.
    + cbv zeta. rewrite Hf', He', !list_lookup_insert_ne by exact Hmi.
      split; [exact Hfm | exact Hem].
Qed.

Lemma after_foldl L st0 L0 :
  after L0 st0 -> NoDup (L0 ++ L) ->
  (forall r d, (r, d) ∈ L -> (r < n_ra)%nat /\ (d < n_dec)%nat) ->
  after (L0 ++ L) (foldl step st0 L).
Proof.
  revert st0 L0. induction L as [|[r d] L IH]; intros st0 L0 Hafter Hnd Hin.
  - rewrite app_nil_r. exact Hafter.
  - cbn [foldl]. replace (L0 ++ (r, d) :: L) with ((L0 ++ [(r, d)]) ++ L)
      by (rewrite <- app_assoc; reflexivity).
    apply IH.
    + destruct (Hin r d ltac:(left)) as [Hr Hd].
      apply after_step; [exact Hafter | exact Hd | exact Hr |].
      apply NoDup_app in Hnd as (_ & Hdisj & _). intros H.
      apply (Hdisj _ H). left.
    + rewrite <- app_assoc. exact Hnd.
    + intros r' d' H. apply Hin. right. exact H.
Qed.

(** what [cube_matchedfilter] returns *)
Lemma cube_matchedfilter_spec snr fm em fc ec d r :
  cube_matchedfilter generic_filter median_abs_deviation fc0 ec0 n_wv n_dec n_ra
    comp_spec outlier_threshold = (snr, fm, em, (fc, ec)) ->
  (d < n_dec)%nat -> (r < n_ra)%nat ->
  (forall wv,
     fc !!! idx wv d r
     = (if bool_decide (wv ∈ outl d r) then nan else fc0 !!! idx wv d r) /\
     ec !!! idx wv d r
     = (if bool_decide (wv ∈ outl d r) then nan else ec0 !!! idx wv d r)) /\
  let out := bb_filter comp_spec (col fc n_wv d r) (col ec n_wv d r) in
  fm !! map_index n_ra d r = Some out.1 /\
  em !! map_index n_ra d r = Some out.2 /\
  snr !! map_index n_ra d r = Some (out.1 / out.2).
Proof.
  unfold cube_matchedfilter. intros Hret Hd Hr.
  pose proof (after_foldl (cells n_dec n_ra) _ [] after_nil
                (NoDup_cells n_dec n_ra)
                (fun r d H => proj1 (elem_of_cells n_dec n_ra r d) H)) as Hafter.
  cbn [app] in Hafter. injection Hret as <- <- <- <- <-.
  destruct Hafter as (_ & _ & Hcells).
  destruct (Hcells d r Hd Hr) as (Hcube & Hfm & Hem).
  assert (Hin : bool_decide ((r, d) ∈ cells n_dec n_ra) = true).
  { apply bool_decide_eq_true_2, elem_of_cells. split; assumption. }
  rewrite Hin in *. cbn [andb] in Hcube. split; [exact Hcube|].
  cbv zeta in *. split; [exact Hfm|]. split; [exact Hem|].
  rewrite lookup_zip_with, Hfm, Hem. reflexivity.
Qed.

(** without a threshold the cubes are never written to *)
Lemma foldl_step_None_cubes L st :
  outlier_threshold = None ->
  flux_cube (foldl step st L) = flux_cube st /\
  fluxerr_cube (foldl step st L) = fluxerr_cube st.
Proof.
  intros Hnone. revert st. induction L as [|[r d] L IH]; intros st;
    [split; reflexivity|].
  cbn [foldl]. destruct (IH (step st (r, d))) as [-> ->].
  unfold cell_step. rewrite Hnone. split; reflexivity.
Qed.

End Cells.

Lemma nansum_all_nan (l : vec) :
  Forall (fun x => isnan x = true) l -> nansum l = 0.
Proof.
  intros H. unfold nansum. generalize 0.
  induction H as [|x l Hx _ IH]; intros acc; [reflexivity|].
  cbn [foldl]. rewrite Hx. apply IH.
Qed.

Lemma drop_nan_all_nan (l : vec) :
  Forall (fun x => isnan x = true) l -> drop_nan l = [].
Proof.
  unfold drop_nan. induction 1 as [|x l Hx _ IH]; [reflexivity|].
  cbn [List.filter]. rewrite Hx. exact IH.
Qed.

Lemma vdiv_nan_r (a b : vec) :
  Forall (fun x => isnan x = true) b ->
  Forall (fun x => isnan x = true) (vdiv a b).
Proof.
  intros Hb. apply Forall_lookup_2. intros i z Hz. unfold vdiv in Hz.
  apply lookup_zip_with_Some in Hz as (x & y & -> & _ & Hy).
  apply isnan_div_r. exact (Forall_lookup_1 _ _ _ _ Hb Hy).
Qed.

Lemma vmul_nan (a : vec) :
  Forall (fun x => isnan x = true) a ->
  Forall (fun x => isnan x = true) (vmul a a).
Proof.
  intros Ha. apply Forall_lookup_2. intros i z Hz. unfold vmul in Hz.
  apply lookup_zip_with_Some in Hz as (x & y & -> & Hx & _).
  apply isnan_mul_l. exact (Forall_lookup_1 _ _ _ _ Ha Hx).
Qed.

(** the filter over a spaxel whose errors are NaN throughout *)
Lemma bb_filter_nan comp_spec flux fluxerr :
  Forall (fun x => isnan x = true) fluxerr ->
  bb_filter comp_spec flux fluxerr = (nan, nan).
Proof.
  intros Herr. unfold bb_filter. cbv zeta.
  rewrite !(nansum_all_nan (vdiv _ (vmul fluxerr fluxerr)))
    by (apply vdiv_nan_r, vmul_nan; exact Herr).
  unfold nanstd. rewrite (drop_nan_all_nan (vdiv _ fluxerr))
    by (apply vdiv_nan_r; exact Herr).
  reflexivity.
Qed.

(** X11.  [cube_matchedfilter] writes to the cubes it is given: with an
    outlier threshold, the samples of a spaxel above the threshold are NaN
    in both cubes after the call and every other sample is as before; without
    a threshold the cubes are unchanged.  Each cell of the flux and error
    maps is the filter over the column of the spaxel in the cubes as the call
    leaves them, and the cell of the S/N map is their quotient. *)
Theorem cube_matchedfilter_cells
    (generic_filter : vec -> vec) (median_abs_deviation : vec -> float)
    (n_wv n_dec n_ra : nat) (comp_spec : vec) (outlier_threshold : option float)
    (fc0 ec0 snr fm em fc ec : vec) :
  cube_matchedfilter generic_filter median_abs_deviation fc0 ec0 n_wv n_dec n_ra
    comp_spec outlier_threshold = (snr, fm, em, (fc, ec)) ->
  (outlier_threshold = None -> fc = fc0 /\ ec = ec0) /\
  forall d r, (d < n_dec)%nat -> (r < n_ra)%nat ->
    let outl := outliers_of generic_filter median_abs_deviation n_wv n_dec n_ra
                  fc0 ec0 outlier_threshold d r in
    (forall wv,
       fc !!! cube_index n_dec n_ra wv d r
       = (if bool_decide (wv ∈ outl) then nan
          else fc0 !!! cube_index n_dec n_ra wv d r) /\
       ec !!! cube_index n_dec n_ra wv d r
       = (if bool_decide (wv ∈ outl) then nan
          else ec0 !!! cube_index n_dec n_ra wv d r)) /\
    let out := bb_filter comp_spec (column n_dec n_ra fc n_wv d r)
                         (column n_dec n_ra ec n_wv d r) in
    fm !! map_index n_ra d r = Some out.1 /\
    em !! map_index n_ra d r = Some out.2 /\
    snr !! map_index n_ra d r = Some (out.1 / out.2).
Proof.
  intros Hret. split.
  - intros Hnone. unfold cube_matchedfilter in Hret.
    injection Hret as _ _ _ <- <-.
    exact (foldl_step_None_cubes generic_filter median_abs_deviation n_wv n_dec
             n_ra comp_spec outlier_threshold (cells n_dec n_ra)
             (mk_maps fc0 ec0 (full (n_dec * n_ra) nan) (full (n_dec * n_ra) nan))
             Hnone).
  - intros d r Hd Hr.
    apply (cube_matchedfilter_spec generic_filter median_abs_deviation n_wv n_dec
             n_ra comp_spec outlier_threshold fc0 ec0 snr fm em fc ec d r Hret
             Hd Hr).
Qed.

(** two spaxels at two wavelengths, without a threshold *)
Lemma cube_matchedfilter_cells_witness :
  cube_matchedfilter id Reference.median_abs_deviation [2; 3; 4; 5] [1; 1; 1; 2]
    2 1 2 [1; 2] None
  = ([infinity; 0x1.f1cd9cceef23ap+3], [2; 2.75],
     [0; 0x1.6a09e667f3bccp-3], ([2; 3; 4; 5], [1; 1; 1; 2])) /\
  ([2; 3; 4; 5] : vec) = [2; 3; 4; 5].
Proof.
  assert (Hret :
    cube_matchedfilter id Reference.median_abs_deviation [2; 3; 4; 5]
      [1; 1; 1; 2] 2 1 2 [1; 2] None
    = ([infinity; 0x1.f1cd9cceef23ap+3], [2; 2.75],
       [0; 0x1.6a09e667f3bccp-3],
       ([2; 3; 4; 5], [1; 1; 1; 2]))).
  { vm_compute. reflexivity. }
  split; [exact Hret|].
  apply (proj1 (cube_matchedfilter_cells _ _ _ _ _ _ _ _ _ _ _ _ _ _ Hret)).
  reflexivity.
Defined.

(** X12.  A spaxel whose error is NaN at every wavelength, as [build_cube]
    leaves the cells that it does not fill, is NaN in the flux map, in the
    error map and in the S/N map, with or without an outlier threshold. *)
Theorem empty_spaxel_is_nan
    (generic_filter : vec -> vec) (median_abs_deviation : vec -> float)
    (n_wv n_dec n_ra : nat) (comp_spec : vec) (outlier_threshold : option float)
    (fc0 ec0 snr fm em fc ec : vec) (d r : nat) :
  cube_matchedfilter generic_filter median_abs_deviation fc0 ec0 n_wv n_dec n_ra
    comp_spec outlier_threshold = (snr, fm, em, (fc, ec)) ->
  (d < n_dec)%nat -> (r < n_ra)%nat ->
  (forall wv, (wv < n_wv)%nat ->
     isnan (ec0 !!! cube_index n_dec n_ra wv d r) = true) ->
  fm !! map_index n_ra d r = Some nan /\
  em !! map_index n_ra d r = Some nan /\
  snr !! map_index n_ra d r = Some nan.
Proof.
  intros Hret Hd Hr Hnan.
  destruct (cube_matchedfilter_spec generic_filter median_abs_deviation n_wv n_dec
              n_ra comp_spec outlier_threshold fc0 ec0 snr fm em fc ec d r Hret
              Hd Hr) as (Hcube & Hfm & Hem & Hsnr).
  cbv zeta in *.
  assert (Herr : Forall (fun x => isnan x = true) (column n_dec n_ra ec n_wv d r)).
  { unfold column. apply Forall_fmap, Forall_forall. intros wv Hwv.
    apply elem_of_seq in Hwv. simpl. rewrite (proj2 (Hcube wv)).
    destruct (bool_decide _); [apply isnan_nan | apply Hnan; lia]. }
  rewrite (bb_filter_nan _ _ _ Herr) in Hfm, Hem, Hsnr.
  split; [exact Hfm|]. split; [exact Hem | exact Hsnr].
Qed.

(** two spaxels at two wavelengths, the second with NaN errors *)
Lemma empty_spaxel_is_nan_witness :
  exists snr fm em cubes,
    cube_matchedfilter id Reference.median_abs_deviation [2; 3; 4; 5]
      [1; nan; 1; nan] 2 1 2 [1; 2] (Some 3) = (snr, fm, em, cubes) /\
    fm !! 1%nat = Some nan /\ em !! 1%nat = Some nan /\ snr !! 1%nat = Some nan.
Proof.
  destruct (cube_matchedfilter id Reference.median_abs_deviation [2; 3; 4; 5]
              [1; nan; 1; nan] 2 1 2 [1; 2] (Some 3))
    as [[[snr fm] em] [fc ec]] eqn:Hret.
  exists snr, fm, em, (fc, ec). split; [reflexivity|].
  apply (empty_spaxel_is_nan id Reference.median_abs_deviation 2 1 2 [1; 2]
           (Some 3) [2; 3; 4; 5] [1; nan; 1; nan] snr fm em fc ec 0%nat 1%nat
           Hret ltac:(lia) ltac:(lia)).
  intros wv Hwv. destruct wv as [|[|wv]]; [reflexivity | reflexivity | lia].
Defined.

End DetectionFacts.

(** ** The rows of an image in chunks *)

Module NormalizeRowsFacts.

Import F64 Np Normalizer Cube Edges NormalizeRows.
Import F64Facts NpFacts NormalizerFacts CubeFacts EdgesFacts.
Local Open Scope float_scope.

Lemma length_slice {A} (a : list A) lo hi :
  (hi <= length a)%nat -> length (slice a lo hi) = (hi - lo)%nat.
Proof. intros H. unfold slice. rewrite length_take, length_drop. lia. Qed.

Lemma lookup_total_slice {A} `{Inhabited A} (a : list A) lo hi k :
  (k < hi - lo)%nat -> slice a lo hi !!! k = a !!! (lo + k)%nat.
Proof.
  intros Hk. unfold slice.
  rewrite lookup_total_take_lt by assumption. apply lookup_total_drop.
Qed.

Lemma slice_seq n lo hi :
  (hi <= n)%nat -> slice (seq 0 n) lo hi = seq lo (hi - lo).
Proof.
  intros H. unfold slice. rewrite drop_seq, take_seq. simpl.
  f_equal. lia.
Qed.

Lemma mapM_ext_in {A B} (f g : A -> result B) l :
  (forall x, x ∈ l -> f x = g x) -> mapM f l = mapM g l.
Proof.
  induction l as [|x l IH]; intros H; simpl; [reflexivity|].
  rewrite (H x) by left. rewrite IH; [reflexivity|].
  intros y Hy. apply H. right. assumption.
Qed.

Lemma mapM_fmap {A B C} (f : B -> result C) (h : A -> B) l :
  mapM f (h <$> l) = mapM (fun x => f (h x)) l.
Proof.
  induction l as [|x l IH]; [reflexivity|].
  rewrite fmap_cons. cbn [mapM]. rewrite IH. reflexivity.
Qed.

(** writing [v] at the rows [o, o + 1, ...] of an array *)
Lemma scatter_seq {A} (pre v rest : list A) :
  (length v <= length rest)%nat ->
  scatter (pre ++ rest) (seq (length pre) (length v)) v
  = pre ++ v ++ drop (length v) rest.
Proof.
  revert pre rest. induction v as [|x v IH]; intros pre rest Hlen.
  - simpl. rewrite drop_0. reflexivity.
  - destruct rest as [|y rest]; [simpl in Hlen; lia|].
    unfold scatter. simpl.
    rewrite insert_app_r_alt by lia. rewrite Nat.sub_diag. simpl.
    change (pre ++ x :: rest) with (pre ++ [x] ++ rest).
    rewrite app_assoc.
    replace (S (length pre)) with (length (pre ++ [x]))
      by (rewrite length_app; simpl; lia).
    fold (scatter ((pre ++ [x]) ++ rest) (seq (length (pre ++ [x])) (length v)) v).
    rewrite IH by (simpl in Hlen; lia).
    rewrite <- app_assoc. reflexivity.
Qed.

Lemma fmap_app_drop {A R} (f : R -> A) (done rows : list R) (init : list A) o hi :
  length done = o -> length rows = (hi - o)%nat ->
  (o <= hi)%nat -> (hi <= length init)%nat ->
  scatter ((f <$> done) ++ drop o init) (seq o (hi - o)) (f <$> rows)
  = (f <$> (done ++ rows)) ++ drop hi init.
Proof.
  intros Hd Hr Ho Hhi.
  pose proof (scatter_seq (f <$> done) (f <$> rows) (drop o init)) as Hs.
  rewrite !length_fmap, length_drop, Hd, Hr in Hs.
  rewrite Hs by lia. rewrite drop_drop, fmap_app, <- app_assoc.
  do 3 f_equal. lia.
Qed.

Lemma mapM_then {A B C} (G : A -> result B) (h : B -> C) l :
  mapM (fun x => r ← G x; (Ok (h r) : result C)) l
  = (rs ← mapM G l; (Ok (h <$> (rs : list B)) : result (list C))).
Proof.
  induction l as [|x l IH]; [reflexivity|].
  cbn [mapM]. rewrite IH. destruct (G x); [|reflexivity].
  cbn [mbind result_bind rbind]. destruct (mapM G l); reflexivity.
Qed.

Lemma contiguous_bounds_from n chunk_size m j :
  ((j + m) * chunk_size <= n)%nat ->
  contiguous (j * chunk_size)
    (((fun k : nat => (k * chunk_size, (k + 1) * chunk_size)%nat) <$> seq j m)
     ++ [((j + m) * chunk_size, n)%nat]) n.
Proof.
  revert j. induction m as [|m IH]; intros j Hle.
  - simpl. rewrite Nat.add_0_r in *. repeat split; lia.
  - cbn [seq fmap list_fmap app contiguous fst snd].
    repeat split; [nia | nia |].
    replace ((j + 1) * chunk_size)%nat with (S j * chunk_size)%nat by lia.
    replace ((j + S m) * chunk_size)%nat with ((S j + m) * chunk_size)%nat by lia.
    apply IH. nia.
Qed.

Lemma contiguous_bounds n chunk_size :
  chunk_size <> 0%nat -> (chunk_size <= n)%nat ->
  contiguous 0 (bounds n chunk_size) n.
Proof.
  intros Hc Hn. unfold bounds.
  pose proof (Nat.Div0.mul_div_le n chunk_size) as Hle.
  assert (1 <= n / chunk_size)%nat as HN
    by (apply Nat.div_le_lower_bound; lia).
  change 0%nat with (0 * chunk_size)%nat at 1.
  replace ((n / chunk_size - 1) * chunk_size)%nat
    with ((0 + (n / chunk_size - 1)) * chunk_size)%nat by lia.
  apply contiguous_bounds_from. nia.
Qed.

Lemma contiguous_le o bs n : contiguous o bs n -> (o <= n)%nat.
Proof.
  revert o. induction bs as [|b bs IH]; simpl; intros o H; [lia|].
  destruct H as (_ & H1 & H2 & H3). lia.
Qed.

Lemma contiguous_concat o bs n :
  contiguous o bs n ->
  concat ((fun b : nat * nat => seq b.1 (b.2 - b.1)) <$> bs) = seq o (n - o).
Proof.
  revert o. induction bs as [|b bs IH]; intros o H.
  - simpl in H. subst. rewrite Nat.sub_diag. reflexivity.
  - destruct H as (H0 & H1 & H2 & H3).
    rewrite fmap_cons. cbn [concat]. rewrite (IH _ H3), H0.
    pose proof (contiguous_le _ _ _ H3).
    replace (n - o)%nat with ((b.2 - o) + (n - b.2))%nat by lia.
    rewrite seq_app. do 2 f_equal. lia.
Qed.

Lemma all_complete_length {A B} (p : pool) (l1 : list A) (l2 : list B) :
  length l1 = length l2 -> all_complete p l1 -> all_complete p l2.
Proof.
  unfold all_complete, chunks. intros Hlen.
  rewrite !length_reshape, !length_replicate, Hlen. auto.
Qed.

Section Chunks.

Variable get_spline_model : vec -> vec -> result mat.
Variable lsq_linear : mat -> vec -> result vec.
Variable median_abs_deviation : vec -> float.
Variables (x_nodes : vec) (threshold : float) (regularization : bool).
Variables (im wvs noise badpix star reg_mean reg_std : mat).

Hypothesis Hwvs : length wvs = length im.
Hypothesis Hnoise : length noise = length im.
Hypothesis Hbadpix : length badpix = length im.
Hypothesis Hstar : length star = length im.
Hypothesis Hreg : regularization = true ->
  length reg_mean = length im /\ length reg_std = length im.

(** the fit of row [k] of the whole arrays *)
Local Abbreviation fit_row := (fun k : nat =>
  normrow get_spline_model lsq_linear median_abs_deviation x_nodes threshold
    regularization (im !!! k) (wvs !!! k) (noise !!! k) (badpix !!! k)
    (star !!! k) (reg_mean !!! k) (reg_std !!! k)).

Local Abbreviation pack := (fun rows : list row_outputs =>
  mk_outputs (new_im_row <$> rows) (new_noise_row <$> rows)
             (new_badpix_row <$> rows) (res_row <$> rows)
             (paras_out_row <$> rows)).

Local Abbreviation chunk_of := (fun b : nat * nat =>
  mk_chunk (slice im b.1 b.2) (slice wvs b.1 b.2) (slice noise b.1 b.2)
           (slice badpix b.1 b.2) (slice star b.1 b.2)
           (if regularization then slice reg_mean b.1 b.2 else [])
           (if regularization then slice reg_std b.1 b.2 else [])).

(** without [regularization] a row is fitted without its prior *)
Lemma normrow_without_prior xn t i w n b s r1 r2 r1' r2' :
  normrow get_spline_model lsq_linear median_abs_deviation xn t false i w n b s r1 r2
  = normrow get_spline_model lsq_linear median_abs_deviation xn t false i w n b s r1' r2'.
Proof. reflexivity. Qed.

(** a task fits the rows of its chunk as the whole array would *)
Lemma chunk_task_rows lo hi :
  (lo <= hi)%nat -> (hi <= length im)%nat ->
  chunk_task get_spline_model lsq_linear median_abs_deviation x_nodes threshold
    regularization (chunk_of (lo, hi))
  = (rows ← mapM fit_row (seq lo (hi - lo)); Ok (pack rows)).
Proof.
  intros Hlo Hhi. unfold chunk_task, _task_normrows.
  cbn [chunk_image chunk_wvs chunk_noise chunk_badpixs chunk_star_model
       chunk_reg_mean chunk_reg_std fst snd].
  rewrite length_slice by assumption.
  replace (seq lo (hi - lo)) with (Nat.add lo <$> seq 0 (hi - lo))
    by (rewrite fmap_add_seq; f_equal; lia).
  rewrite mapM_fmap.
  rewrite (mapM_ext_in _ (fun k => fit_row (lo + k)%nat)); [reflexivity|].
  intros k Hk. apply elem_of_seq in Hk.
  rewrite !lookup_total_slice by lia.
  destruct regularization.
  - rewrite !lookup_total_slice by lia. reflexivity.
  - apply normrow_without_prior.
Qed.

(** the merge of the chunks puts the rows back in their places *)
Lemma merge_chunks bs : forall o rowss (done : list row_outputs) init,
  contiguous o bs (length im) ->
  Forall2 (fun (b : nat * nat) (rows : list row_outputs) =>
             length rows = (b.2 - b.1)%nat) bs rowss ->
  length done = o ->
  length (new_im init) = length im -> length (new_noise init) = length im ->
  length (new_badpix init) = length im -> length (res init) = length im ->
  length (paras_out init) = length im ->
  foldl merge_chunk
    (mk_outputs ((new_im_row <$> done) ++ drop o (new_im init))
                ((new_noise_row <$> done) ++ drop o (new_noise init))
                ((new_badpix_row <$> done) ++ drop o (new_badpix init))
                ((res_row <$> done) ++ drop o (res init))
                ((paras_out_row <$> done) ++ drop o (paras_out init)))
    (zip ((fun b : nat * nat => slice (seq 0 (length im)) b.1 b.2) <$> bs)
         (pack <$> rowss))
  = pack (done ++ concat rowss).
Proof.
  induction bs as [|b bs IH]; intros o rowss done init Hc Hf Hd H1 H2 H3 H4 H5.
  - apply Forall2_nil_inv_l in Hf as ->. simpl in Hc. subst o.
    simpl. rewrite app_nil_r, !drop_ge by lia. rewrite !app_nil_r. reflexivity.
  - apply Forall2_cons_inv_l in Hf as (rows & rowss' & Hrows & Hf & ->).
    destruct Hc as (Hb & Hle & Hn & Hc). rewrite Hb in Hrows.
    rewrite !fmap_cons. cbn [zip zip_with foldl concat].
    unfold merge_chunk at 2. cbn [fst snd new_im new_noise new_badpix res paras_out].
    rewrite slice_seq, Hb by assumption.
    rewrite !(fmap_app_drop _ done rows _ o b.2) by (assumption || lia).
    rewrite (IH b.2 rowss' (done ++ rows) init); try assumption.
    + rewrite <- app_assoc. reflexivity.
    + rewrite length_app. lia.
Qed.

Lemma mapM_lengths bs rowss :
  mapM (fun b : nat * nat => mapM fit_row (seq b.1 (b.2 - b.1))) bs = Ok rowss ->
  Forall2 (fun (b : nat * nat) (rows : list row_outputs) =>
             length rows = (b.2 - b.1)%nat) bs rowss.
Proof.
  revert rowss. induction bs as [|b bs IH]; intros rowss H; cbn [mapM] in H.
  - injection H as <-. constructor.
  - destruct (mapM fit_row (seq b.1 (b.2 - b.1))) as [rows|] eqn:Hrows;
      cbn [mbind result_bind rbind] in H; [|discriminate].
    destruct (mapM _ bs) as [rowss'|];
      cbn [mbind result_bind rbind] in H; [|discriminate].
    injection H as <-. constructor; [|apply IH; reflexivity].
    apply mapM_Ok_length in Hrows. rewrite length_seq in Hrows. exact Hrows.
Qed.

(** the chunks, run one after the other and merged, give what the loop over
    all the rows gives *)
Lemma chunks_are_rows bs init :
  contiguous 0 bs (length im) ->
  length (new_im init) = length im -> length (new_noise init) = length im ->
  length (new_badpix init) = length im -> length (res init) = length im ->
  length (paras_out init) = length im ->
  (outputs_list ← mapM (chunk_task get_spline_model lsq_linear median_abs_deviation
                          x_nodes threshold regularization) (chunk_of <$> bs);
   Ok (foldl merge_chunk init
         (zip ((fun b : nat * nat => slice (seq 0 (length im)) b.1 b.2) <$> bs)
              outputs_list)))
  = _task_normrows get_spline_model lsq_linear median_abs_deviation
      im wvs noise badpix x_nodes star threshold regularization reg_mean reg_std.
Proof.
  intros Hc H1 H2 H3 H4 H5.
  assert (Hin : forall b, b ∈ bs -> (b.1 <= b.2)%nat /\ (b.2 <= length im)%nat).
  { clear -Hc. revert Hc. generalize 0%nat.
    induction bs as [|b' bs' IH]; intros o Hc b Hb; [inversion Hb|].
    destruct Hc as (Hb1 & Hle & Hn & Hc).
    apply elem_of_cons in Hb as [->|Hb]; [lia | eapply IH; eassumption]. }
  rewrite mapM_fmap.
  rewrite (mapM_ext_in _
    (fun b => rows ← mapM fit_row (seq b.1 (b.2 - b.1)); Ok (pack rows))).
  2:{ intros [lo hi] Hb. destruct (Hin _ Hb). apply chunk_task_rows; assumption. }
  rewrite mapM_then. unfold _task_normrows.
  assert (Hseq : mapM fit_row (seq 0 (length im))
    = (rowss ← mapM (fun b : nat * nat => mapM fit_row (seq b.1 (b.2 - b.1))) bs;
       Ok (concat rowss))).
  { replace (seq 0 (length im)) with (seq 0 (length im - 0)) by (f_equal; lia).
    rewrite <- (contiguous_concat 0 bs (length im) Hc), mapM_concat, mapM_fmap.
    reflexivity. }
  rewrite Hseq.
  destruct (mapM _ bs) as [rowss|] eqn:Hmap; [|reflexivity].
  cbn [mbind result_bind rbind]. f_equal.
  pose proof (merge_chunks bs 0 rowss [] init Hc (mapM_lengths _ _ Hmap) eq_refl
                H1 H2 H3 H4 H5) as Hm.
  cbn [fmap list_fmap app] in Hm. rewrite !drop_0 in Hm.
  destruct init. exact Hm.
Qed.

End Chunks.

Lemma same_rows_default image (a : option mat) :
  same_rows image a -> length (default (ones image) a) = length image.
Proof.
  destruct a as [a|]; simpl; intros H; [exact H|].
  unfold ones. apply length_fmap.
Qed.

Lemma set_nans_rows arr n out : set_nans arr n = Ok out -> length out = length arr.
Proof.
  unfold set_nans. destruct (existsb _ arr); [discriminate|].
  intros H. injection H as <-. apply length_fmap.
Qed.

Lemma same_value_same_raise {A} (m1 m2 : result A) :
  (forall a, m1 = Ok a <-> m2 = Ok a) -> (raises m1 <-> raises m2).
Proof.
  intros H. unfold raises. destruct m1 as [a1|e1], m2 as [a2|e2].
  - split; intros [e He]; discriminate.
  - pose proof (proj1 (H a1) eq_refl). discriminate.
  - pose proof (proj2 (H a2) eq_refl). discriminate.
  - split; intros _; eauto.
Qed.

(** X13.  [normalize_rows] with a pool returns what it returns without one.
    For arrays that have one row per row of the image and a pool whose chunks
    all complete, whatever their order and the number of processes, the five
    arrays put together from the chunks of rows are those of the loop over all
    the rows, and the call with the pool raises exactly when the call without
    it raises. *)
Theorem normalize_rows_pool_is_sequential
    (get_spline_model : vec -> vec -> result mat)
    (lsq_linear : mat -> vec -> result vec)
    (median_abs_deviation : vec -> float)
    (linspace_nanrange : mat -> nat -> result vec)
    image im_wvs noise badpixs star_model nodes p threshold use_set_nans
    x_nodes regularization reg_mean_map reg_std_map :
  length im_wvs = length image ->
  same_rows image noise -> same_rows image badpixs ->
  same_rows image star_model ->
  (regularization = true ->
   length reg_mean_map = length image /\ length reg_std_map = length image) ->
  (0 < processes p)%nat ->
  ((length image / (3 * processes p))%nat <> 0%nat ->
   all_complete p (bounds (length image) (length image / (3 * processes p)))) ->
  (forall out,
     normalize_rows get_spline_model lsq_linear median_abs_deviation
       linspace_nanrange image im_wvs noise badpixs star_model nodes (Some p)
       threshold use_set_nans x_nodes regularization reg_mean_map reg_std_map
     = Ok out
     <->
     normalize_rows get_spline_model lsq_linear median_abs_deviation
       linspace_nanrange image im_wvs noise badpixs star_model nodes None
       threshold use_set_nans x_nodes regularization reg_mean_map reg_std_map
     = Ok out) /\
  (raises
     (normalize_rows get_spline_model lsq_linear median_abs_deviation
        linspace_nanrange image im_wvs noise badpixs star_model nodes (Some p)
        threshold use_set_nans x_nodes regularization reg_mean_map reg_std_map)
   <->
   raises
     (normalize_rows get_spline_model lsq_linear median_abs_deviation
        linspace_nanrange image im_wvs noise badpixs star_model nodes None
        threshold use_set_nans x_nodes regularization reg_mean_map reg_std_map)).
Proof.
  intros Hwvs Hnoise Hbad Hstar Hreg Hp Hall.
  apply same_rows_default in Hnoise, Hbad, Hstar.
  assert (Hiff : forall out,
     normalize_rows get_spline_model lsq_linear median_abs_deviation
       linspace_nanrange image im_wvs noise badpixs star_model nodes (Some p)
       threshold use_set_nans x_nodes regularization reg_mean_map reg_std_map
     = Ok out
     <->
     normalize_rows get_spline_model lsq_linear median_abs_deviation
       linspace_nanrange image im_wvs noise badpixs star_model nodes None
       threshold use_set_nans x_nodes regularization reg_mean_map reg_std_map
     = Ok out);
    [|split; [exact Hiff | apply same_value_same_raise; exact Hiff]].
  intros out. unfold normalize_rows.
  destruct (match x_nodes with Some x => Ok x | None => _ end) as [xn|];
    [|reflexivity].
  cbn [mbind result_bind rbind].
  destruct (if use_set_nans then set_nans image 40 else Ok image)
    as [new_image|] eqn:Hnew; [|reflexivity].
  cbn [mbind result_bind rbind].
  assert (Hlen : length new_image = length image).
  { destruct use_set_nans; [eapply set_nans_rows; eassumption|].
    injection Hnew as <-. reflexivity. }
  destruct (Nat.eqb_spec (length image / (3 * processes p)) 0) as [|Hcs];
    [reflexivity|].
  cbn [negb]. specialize (Hall Hcs).
  assert (Hsize : (length image / (3 * processes p) <= length image)%nat)
    by (apply Nat.Div0.div_le_upper_bound; nia).
  rewrite <- Hlen in Hall, Hcs, Hsize, Hwvs, Hnoise, Hbad, Hstar, Hreg.
  rewrite <- (chunks_are_rows get_spline_model lsq_linear median_abs_deviation
                xn threshold regularization new_image im_wvs
                (default (ones image) noise) (default (ones image) badpixs)
                (default (ones image) star_model) reg_mean_map reg_std_map
                Hwvs Hnoise Hbad Hstar Hreg
                (bounds (length new_image)
                        (length new_image / (3 * processes p)))
                (mk_outputs new_image (default (ones image) noise)
                   (default (ones image) badpixs) (nans image)
                   (replicate (length image) (full (length xn) 0))));
    [| apply contiguous_bounds; assumption
     | reflexivity | exact Hnoise | exact Hbad
     | cbn [res]; unfold nans; rewrite length_fmap; congruence
     | cbn [paras_out]; rewrite length_replicate; congruence ].
  rewrite <- Hlen.
  match goal with
  | |- (_ ← pool_map ?f p ?tasks; _) = _ <-> _ =>
      assert (Hc : all_complete p tasks)
        by (eapply all_complete_length; [|exact Hall];
            rewrite length_fmap; reflexivity);
      pose proof (pool_map_Ok f p tasks Hc) as Hpool;
      destruct (pool_map f p tasks) as [outs|] eqn:Hpm;
      destruct (mapM f tasks) as [outs'|] eqn:Hmm
  end; cbn [mbind result_bind rbind].
  - pose proof (proj1 (Hpool outs) eq_refl) as Heq. injection Heq as ->.
    reflexivity.
  - pose proof (proj1 (Hpool outs) eq_refl). discriminate.
  - pose proof (proj2 (Hpool outs') eq_refl). discriminate.
  - split; discriminate.
Qed.

(** three chunks of one row each, completing out of order; the nodes are the
    two ends of the wavelength range *)
Lemma normalize_rows_pool_is_sequential_witness :
  let out :=
    mk_outputs
      [[100; 100; 100; 100]; [nan; nan; nan; nan]; [50; 50; 50; 50]]
      [[1; 1; 1; 1]; [1; 1; 1; 1]; [1; 1; 1; 1]]
      [[1; 1; 1; 1]; [1; 1; 1; 1]; [1; 1; 1; 1]]
      [[0x1.fffffffffff80p-1; -0x1.0000000000040p+0; 0x1.fffffffffffc0p+0;
        -0x1.0000000000020p+1];
       [nan; nan; nan; nan]; [1; -1; 2; -2]]
      [[0x1.9000000000001p+6; 0x1.9000000000001p+6]; [nan; nan]; [50; 50]] in
  normalize_rows Reference.get_spline_model Reference.lsq_linear
    Reference.median_abs_deviation Reference.linspace_nanrange
    ThreeRows.image ThreeRows.im_wvs None None None 2 (Some ThreeRows.mypool)
    10 false None true ThreeRows.reg_mean_map ThreeRows.reg_std_map
  = Ok out /\
  normalize_rows Reference.get_spline_model Reference.lsq_linear
    Reference.median_abs_deviation Reference.linspace_nanrange
    ThreeRows.image ThreeRows.im_wvs None None None 2 None
    10 false None true ThreeRows.reg_mean_map ThreeRows.reg_std_map
  = Ok out.
Proof.
  intros out.
  assert (Hpool :
    normalize_rows Reference.get_spline_model Reference.lsq_linear
      Reference.median_abs_deviation Reference.linspace_nanrange
      ThreeRows.image ThreeRows.im_wvs None None None 2 (Some ThreeRows.mypool)
      10 false None true ThreeRows.reg_mean_map ThreeRows.reg_std_map
    = Ok out) by (vm_compute; reflexivity).
  split; [exact Hpool|].
  apply (proj1 (normalize_rows_pool_is_sequential
                  Reference.get_spline_model Reference.lsq_linear
                  Reference.median_abs_deviation Reference.linspace_nanrange
                  ThreeRows.image ThreeRows.im_wvs None None None 2
                  ThreeRows.mypool 10 false None true
                  ThreeRows.reg_mean_map ThreeRows.reg_std_map
                  eq_refl I I I (fun _ => conj eq_refl eq_refl)
                  ltac:(vm_compute; lia)
                  (fun _ => ltac:(unfold all_complete; vm_compute;
                                  exact (perm_trans (perm_swap 0 2 [1])
                                           (perm_skip 0 (perm_swap 1 2 [])))%nat)))
               out).
  exact Hpool.
Defined.

End NormalizeRowsFacts.

(** ** The traces of the detector *)

Module TracesFacts.

Import F64 Np Edges NormalizeRows Traces.
Import F64Facts NpFacts EdgesFacts NormalizeRowsFacts.
Local Open Scope float_scope.

Lemma foldl_min_elem x l : foldl Nat.min x l ∈ x :: l.
Proof.
  revert x. induction l as [|y l IH]; intros x; simpl; [left|].
  destruct (Nat.min_spec x y) as [[_ ->]|[_ ->]].
  - specialize (IH x). apply elem_of_cons in IH as [->|IH]; [left|right; right; exact IH].
  - right. apply IH.
Qed.

Lemma foldl_max_elem x l : foldl Nat.max x l ∈ x :: l.
Proof.
  revert x. induction l as [|y l IH]; intros x; simpl; [left|].
  destruct (Nat.max_spec x y) as [[_ ->]|[_ ->]].
  - right. apply IH.
  - specialize (IH x). apply elem_of_cons in IH as [->|IH]; [left|right; right; exact IH].
Qed.

Lemma np_min_elem l m : np_min l = Ok m -> m ∈ l.
Proof. destruct l; [discriminate|]. intros H. injection H as <-. apply foldl_min_elem. Qed.

Lemma np_max_elem l m : np_max l = Ok m -> m ∈ l.
Proof. destruct l; [discriminate|]. intros H. injection H as <-. apply foldl_max_elem. Qed.

Lemma elem_of_concat {A} (x : A) (ls : list (list A)) :
  x ∈ concat ls <-> exists l, x ∈ l /\ l ∈ ls.
Proof.
  rewrite list_elem_of_In, in_concat. split.
  - intros (l & Hl & Hx). exists l. rewrite !list_elem_of_In. auto.
  - intros (l & Hx & Hl). exists l. rewrite <- !list_elem_of_In. auto.
Qed.

Lemma elem_of_where_rows trace_id_map trace_id i :
  i ∈ where_rows trace_id_map trace_id -> (i < length trace_id_map)%nat.
Proof.
  unfold where_rows. intros H. apply elem_of_concat in H as (l & Hi & Hl).
  apply list_elem_of_lookup_1 in Hl as [k Hk].
  rewrite list_lookup_imap in Hk.
  destruct (trace_id_map !! k) as [row|] eqn:Hrow; [|discriminate].
  simpl in Hk. injection Hk as <-.
  apply list_elem_of_fmap in Hi as (_ & -> & _).
  eapply lookup_lt_Some. eassumption.
Qed.

Lemma lookup_total_real (l : vec) j :
  isnan (l !!! j) = false -> l !! j = Some (l !!! j).
Proof.
  rewrite list_lookup_total_alt. destruct (l !! j); [reflexivity|].
  simpl. rewrite isnan_nan. discriminate.
Qed.

Lemma lookup_total_row (m : mat) i j :
  isnan ((m !!! i) !!! j) = false -> m !! i = Some (m !!! i).
Proof.
  rewrite (list_lookup_total_alt m). destruct (m !! i); [reflexivity|].
  simpl. rewrite list_lookup_total_alt. simpl. rewrite isnan_nan. discriminate.
Qed.

Lemma lookup_transpose n arr j col :
  transpose n arr !! j = Some col ->
  (j < n)%nat /\ col = (fun row : vec => row !!! j) <$> arr.
Proof.
  unfold transpose. rewrite list_lookup_fmap. intros H.
  destruct (seq 0 n !! j) as [k|] eqn:Hk; [|discriminate].
  apply lookup_seq in Hk as [-> Hlt]. simpl in H. injection H as <-. auto.
Qed.

Lemma lookup_slice {A} (a : list A) lo hi k x :
  slice a lo hi !! k = Some x -> (lo + k < hi)%nat /\ a !! (lo + k)%nat = Some x.
Proof.
  unfold slice. intros H. apply lookup_take_Some in H as [H Hk].
  rewrite lookup_drop in H. split; [lia | exact H].
Qed.

(** with [n >= 0] an entry is kept or made NaN *)
Lemma set_nans_row_keeps n row j x :
  (0 <= n)%Z -> set_nans_row n row !! j = Some x ->
  isnan x = true \/ row !! j = Some x.
Proof.
  intros Hn H. destruct (Z.eq_dec n 0%Z) as [->|Hne].
  - right. exact H.
  - assert (Hlt : (j < length row)%nat).
    { apply lookup_lt_Some in H. rewrite length_set_nans_row in H. exact H. }
    destruct (lookup_lt_is_Some_2 row j Hlt) as [y Hy].
    rewrite (set_nans_row_erode n row j y) in H by (lia || assumption).
    injection H as <-. destruct (_ && _); [right; exact Hy | left; apply isnan_nan].
Qed.

Lemma length_write_finite out_row new_row :
  length (write_finite out_row new_row) = length out_row.
Proof. apply length_imap. Qed.

(** a value of the slice that is not NaN is the value of [tmp_im] at the same
    place, when nothing is widened *)
Lemma new_slice_entry r c (tmp : mat) n i j :
  (0 <= n)%Z ->
  isnan ((transpose r (set_nans_row n <$> transpose c tmp) !!! i) !!! j) = false ->
  exists trow, tmp !! i = Some trow /\
    trow !! j
    = Some ((transpose r (set_nans_row n <$> transpose c tmp) !!! i) !!! j).
Proof.
  intros Hn. set (TT := transpose r _). intros Hv.
  pose proof (lookup_total_row TT i j Hv) as Hrow.
  apply lookup_transpose in Hrow as [Hi Hns].
  revert Hv. rewrite Hns. intros Hv.
  pose proof (lookup_total_real _ _ Hv) as Hj. rewrite list_lookup_fmap in Hj.
  destruct ((set_nans_row n <$> transpose c tmp) !! j) as [tr|] eqn:Htr;
    [|discriminate].
  simpl in Hj. injection Hj as Hj. rewrite <- Hj in Hv |- *.
  rewrite list_lookup_fmap in Htr.
  destruct (transpose c tmp !! j) as [col|] eqn:Hcol; [|discriminate].
  simpl in Htr. injection Htr as <-.
  apply lookup_transpose in Hcol as [Hjc ->].
  pose proof (lookup_total_real _ _ Hv) as Hs.
  destruct (set_nans_row_keeps _ _ _ _ Hn Hs) as [Hnan|Hc]; [congruence|].
  rewrite list_lookup_fmap in Hc.
  destruct (tmp !! i) as [trow|] eqn:Ht; [|discriminate].
  simpl in Hc. injection Hc as Hc.
  exists trow. split; [reflexivity|].
  rewrite <- Hc in Hv |- *. apply lookup_total_real. exact Hv.
Qed.

Lemma lookup_set_at x (a : mat) p i :
  set_at x a p !! i = (if decide (p.1 = i) then <[p.2 := x]> <$> a !! i else a !! i).
Proof.
  unfold set_at. rewrite list_lookup_alter.
  destruct (decide (p.1 = i)) as [->|_]; reflexivity.
Qed.



(** an entry after [a[i, j] = np.nan] that is not NaN is the entry before *)
Lemma set_at_entry (a : mat) p i j row v :
  set_at nan a p !! i = Some row -> row !! j = Some v -> isnan v = false ->
  exists arow, a !! i = Some arow /\ arow !! j = Some v.
Proof.
  rewrite lookup_set_at. intros Hrow Hv Hreal.
  destruct (decide (p.1 = i)) as [_|_]; [|exists row; auto].
  destruct (a !! i) as [arow|]; [|discriminate]. simpl in Hrow.
  injection Hrow as <-. exists arow. split; [reflexivity|].
  apply list_lookup_insert_Some in Hv as [(_ & <- & _)|(_ & Hv)]; [|exact Hv].
  rewrite isnan_nan in Hreal. discriminate.
Qed.

Lemma foldl_set_at_entry off : forall (a : mat) i j row v,
  foldl (set_at nan) a off !! i = Some row -> row !! j = Some v ->
  isnan v = false ->
  exists arow, a !! i = Some arow /\ arow !! j = Some v.
Proof.
  induction off as [|p off IH]; intros a i j row v Hrow Hv Hreal; simpl in Hrow.
  - exists row. auto.
  - destruct (IH _ _ _ _ _ Hrow Hv Hreal) as (mrow & Hm & Hmv).
    eapply set_at_entry; eassumption.
Qed.

(** a value of [tmp_im] that is not NaN is the value of the image *)
Lemma keep_trace_entry trace_id (a ids tmp : mat) i j trow v :
  keep_trace trace_id a ids = Ok tmp ->
  tmp !! i = Some trow -> trow !! j = Some v ->
  isnan v = false ->
  exists arow, a !! i = Some arow /\ arow !! j = Some v.
Proof.
  unfold keep_trace. destruct (forallb _ _); [|discriminate].
  intros H. injection H as <-. apply foldl_set_at_entry.
Qed.






Section Step.

Variables (im trace_id_map : mat) (N_pix : Z).
Hypothesis Hrows : length trace_id_map = length im.

Lemma kept_nans : kept im N_pix (nans im).
Proof.
  unfold kept, nans. split; [|split].
  - rewrite <- list_fmap_compose. apply list_fmap_ext. intros _ row _.
    simpl. apply length_replicate.
  - intros row H. rewrite list_lookup_fmap in H.
    destruct (im !! _); [|discriminate]. injection H as <-.
    apply Forall_replicate. apply isnan_nan.
  - intros _ i j row x H Hx. rewrite list_lookup_fmap in H.
    destruct (im !! i); [|discriminate]. injection H as <-.
    apply lookup_replicate in Hx as [-> _]. left. apply isnan_nan.
Qed.

Lemma crop_step_kept out trace_id out' :
  kept im N_pix out ->
  crop_step im trace_id_map N_pix out trace_id = Ok out' -> kept im N_pix out'.
Proof.
  intros (Hshape & Hlast & Hval) H. unfold crop_step in H.
  destruct (np_min _) as [lo|] eqn:Hlo; cbn [mbind result_bind rbind] in H;
    [|discriminate].
  destruct (np_max _) as [hi|] eqn:Hhi; cbn [mbind result_bind rbind] in H;
    [|discriminate].
  destruct (keep_trace _ _ _) as [tmp|] eqn:Htmp; cbn [mbind result_bind rbind] in H;
    [|discriminate].
  destruct (set_nans _ N_pix) as [T|] eqn:HT; cbn [mbind result_bind rbind] in H;
    [|discriminate].
  injection H as <-.
  apply np_max_elem, elem_of_where_rows in Hhi. rewrite Hrows in Hhi.
  unfold set_nans in HT. destruct (existsb _ _); [discriminate|].
  injection HT as <-.
  split; [|split].
  - rewrite <- Hshape. apply list_eq. intros i.
    rewrite !list_lookup_fmap, list_lookup_imap.
    destruct (out !! i) as [row|]; [|reflexivity]. simpl.
    destruct (_ && _); [rewrite length_write_finite|]; reflexivity.
  - intros row H. rewrite list_lookup_imap in H.
    destruct (out !! _) as [orow|] eqn:Ho; [|discriminate]. simpl in H.
    replace (Nat.ltb (length im - 1) hi) with false in H
      by (symmetry; apply Nat.ltb_ge; lia).
    rewrite andb_false_r in H. injection H as <-. apply Hlast. reflexivity.
  - intros Hn i j row x H Hx. rewrite list_lookup_imap in H.
    destruct (out !! i) as [orow|] eqn:Ho; [|discriminate]. simpl in H.
    destruct (_ && _) eqn:Hin; injection H as <-;
      [|eapply Hval; eassumption].
    apply andb_true_iff in Hin as [Hge Hlt].
    apply Nat.leb_le in Hge. apply Nat.ltb_lt in Hlt.
    unfold write_finite in Hx. rewrite list_lookup_imap in Hx.
    destruct (orow !! j) as [o|] eqn:Hoj; [|discriminate]. simpl in Hx.
    destruct (isfinite _) eqn:Hfin; injection Hx as <-;
      [|eapply Hval; eassumption].
    right. apply isfinite_not_nan in Hfin.
    destruct (new_slice_entry _ _ _ _ _ _ Hn Hfin) as (trow & Htrow & Hv).
    destruct (keep_trace_entry _ _ _ _ _ _ _ _ Htmp Htrow Hv Hfin)
      as (arow & Ha & Hav).
    apply lookup_slice in Ha as [_ Ha].
    replace (lo + (i - lo))%nat with i in Ha by lia.
    exists arow. split; assumption.
Qed.





End Step.

Lemma foldM_kept {A B} (f : B -> A -> result B) (P : B -> Prop) l :
  (forall s x s', P s -> f s x = Ok s' -> P s') ->
  forall b r, P b -> foldM f b l = Ok r -> P r.
Proof.
  intros Hstep. induction l as [|x l IH]; intros b r Hb H; cbn [foldM] in H.
  - injection H as <-. exact Hb.
  - destruct (f b x) as [b'|] eqn:Hf; cbn [mbind result_bind rbind] in H;
      [|discriminate].
    eapply IH; [eapply Hstep; eassumption | exact H].
Qed.


Lemma foldM_raise_only {A B} (f : B -> A -> result B) (E : exn) l :
  (forall s x e, f s x = Raise e -> e = E) ->
  forall b e, foldM f b l = Raise e -> e = E.
Proof.
  intros Honly. induction l as [|x l IH]; intros b e H; cbn [foldM] in H;
    [discriminate|].
  destruct (f b x) as [b'|e'] eqn:Hf; cbn [mbind result_bind rbind] in H.
  - eapply IH. exact H.
  - injection H as <-. eapply Honly. exact Hf.
Qed.


Lemma length_zeros im : length (zeros im) = length im.
Proof. apply length_fmap. Qed.

Lemma same_rows_map im (trace_id_map : option mat) :
  same_rows im trace_id_map -> length (default (zeros im) trace_id_map) = length im.
Proof.
  destruct trace_id_map as [m|]; simpl; intros H; [exact H | apply length_zeros].
Qed.

(** X14.  What [crop_trace_edges] returns has the shape of the image, and its
    last row is NaN whatever the image and the trace map hold: the slice
    [im[row_id_min:row_id_max, :]] of a trace leaves out the last row of the
    trace.  With [N_pix >= 0] every value of the result that is not NaN is the
    value of the image at the same place. *)
Theorem crop_trace_edges_keeps (unique : vec -> vec) im N_pix trace_id_map out :
  same_rows im trace_id_map ->
  crop_trace_edges unique im N_pix trace_id_map = Ok out ->
  length <$> out = length <$> im /\
  (forall row, out !! (length im - 1)%nat = Some row ->
               Forall (fun x => isnan x = true) row) /\
  ((0 <= N_pix)%Z ->
   forall i j row x, out !! i = Some row -> row !! j = Some x ->
     isnan x = true \/ exists r, im !! i = Some r /\ r !! j = Some x).
Proof.
  intros Hrows H. apply same_rows_map in Hrows.
  unfold crop_trace_edges in H.
  apply (foldM_kept _ (kept im N_pix) _
           (fun s x s' => crop_step_kept im _ N_pix Hrows s x s') _ _
           (kept_nans im N_pix) H).
Qed.

(** two traces that share a row; the last row of the second trace is the last
    row of the image *)
Lemma crop_trace_edges_keeps_witness :
  crop_trace_edges Reference.unique TwoTraces.im 0 (Some TwoTraces.trace_id_map)
  = Ok [[1; 2]; [nan; 4]; [5; 6]; [7; nan]; [nan; nan]] /\
  (forall row,
     [[1; 2]; [nan; 4]; [5; 6]; [7; nan]; [nan; nan]] !! 4%nat = Some row ->
     Forall (fun x => isnan x = true) row).
Proof.
  assert (H : crop_trace_edges Reference.unique TwoTraces.im 0
                (Some TwoTraces.trace_id_map)
              = Ok [[1; 2]; [nan; 4]; [5; 6]; [7; nan]; [nan; nan]])
    by (vm_compute; reflexivity).
  split; [exact H|].
  exact (proj1 (proj2 (crop_trace_edges_keeps Reference.unique TwoTraces.im 0
                         (Some TwoTraces.trace_id_map) _ eq_refl H))).
Defined.


Lemma shape_zeros im : length <$> zeros im = length <$> im.
Proof.
  unfold zeros. rewrite <- list_fmap_compose. apply list_fmap_ext.
  intros _ row _. simpl. apply length_replicate.
Qed.






(** X19.  A trace map with a pixel off the first trace of the loop, inside the
    rows of that trace, at a place the image does not have makes
    [crop_trace_edges] raise [IndexError] at
    [tmp_im[np.where(...)] = np.nan]. *)
Theorem crop_trace_edges_wider_map (unique : vec -> vec) im N_pix trace_id_map
    trace_id rest lo hi p :
  let ids := default (zeros im) trace_id_map in
  unique (finite_ids ids) = trace_id :: rest ->
  np_min (where_rows ids trace_id) = Ok lo ->
  np_max (where_rows ids trace_id) = Ok hi ->
  p ∈ where_off trace_id (slice ids lo hi) ->
  in_array (slice im lo hi) p = false ->
  crop_trace_edges unique im N_pix trace_id_map = Raise IndexError.
Proof.
  intros ids Hu Hlo Hhi Hp Hout. unfold crop_trace_edges. fold ids.
  rewrite Hu. cbn [foldM]. unfold crop_step. rewrite Hlo, Hhi.
  cbn [mbind result_bind rbind]. unfold keep_trace.
  replace (forallb _ _) with false; [reflexivity|].
  symmetry. apply not_true_is_false. intros Hall.
  rewrite forallb_forall in Hall.
  apply list_elem_of_In in Hp. rewrite (Hall p Hp) in Hout. discriminate.
Qed.

(** an image of three rows and two columns under a map of three columns; the
    third column of the map is off the trace 0 *)
Lemma crop_trace_edges_wider_map_witness :
  crop_trace_edges Reference.unique [[1; 2]; [3; 4]; [5; 6]] 0
    (Some [[0; 0; 1]; [0; 0; 1]; [0; 0; 1]]) = Raise IndexError.
Proof.
  apply (crop_trace_edges_wider_map Reference.unique [[1; 2]; [3; 4]; [5; 6]] 0
           (Some [[0; 0; 1]; [0; 0; 1]; [0; 0; 1]]) 0 [1] 0%nat 2%nat (0%nat, 2%nat)
           ltac:(vm_compute; reflexivity)
           ltac:(vm_compute; reflexivity)
           ltac:(vm_compute; reflexivity)
           ltac:(vm_compute; apply list_elem_of_here)
           ltac:(vm_compute; reflexivity)).
Defined.

End TracesFacts.

(** ** The PSF fit of every wavelength *)

Module FitAllFacts.

Import F64 Np Cube PsfFitter NormalizeRows Traces FitAll.
Import F64Facts NpFacts CubeFacts PsfFitterFacts NormalizeRowsFacts TracesFacts.
Local Open Scope float_scope.

(** the wavelengths that the loop does not skip *)
Lemma filter_debug_range d e n :
  List.filter (fun wv : nat => Nat.leb d wv && Nat.ltb wv e) (seq 0 n)
  = seq d (Nat.min e n - d).
Proof.
  induction n as [|n IH]; [rewrite Nat.min_0_r; reflexivity|].
  rewrite seq_S, List.filter_app, IH. cbn [List.filter Nat.add].
  destruct (Nat.leb_spec d n) as [Hd|Hd], (Nat.ltb_spec n e) as [He|He];
    cbn [andb].
  - replace (Nat.min e (S n) - d)%nat with (S (Nat.min e n - d)) by lia.
    rewrite seq_S. do 2 f_equal. lia.
  - rewrite app_nil_r. f_equal. lia.
  - rewrite app_nil_r. replace (Nat.min e n - d)%nat with 0%nat by lia.
    replace (Nat.min e (S n) - d)%nat with 0%nat by lia. reflexivity.
  - rewrite app_nil_r. f_equal. lia.
Qed.

(** a loop that runs a task and stores its output returns exactly when the
    tasks all return and their outputs can be stored *)
Lemma foldM_interleave {A B S} (f : A -> result B) (w : S -> A -> B -> result S)
    l : forall b r,
  foldM (fun st x => y ← f x; w st x y) b l = Ok r <->
  exists ys, mapM f l = Ok ys /\
             foldM (fun st (xy : A * B) => w st xy.1 xy.2) b (zip l ys) = Ok r.
Proof.
  induction l as [|x l IH]; intros b r; cbn [foldM mapM].
  - split.
    + intros H. exists []. split; [reflexivity | exact H].
    + intros (ys & Hys & H). injection Hys as <-. exact H.
  - destruct (f x) as [y|e]; cbn [mbind result_bind rbind].
    + destruct (w b x y) as [b'|e] eqn:Hw; cbn [mbind result_bind rbind].
      * rewrite IH. split.
        -- intros (ys & Hys & H). exists (y :: ys). rewrite Hys.
           cbn [mbind result_bind rbind zip zip_with foldM fst snd].
           rewrite Hw. cbn [mbind result_bind rbind]. auto.
        -- intros (ys & Hys & H).
           destruct (mapM f l) as [ys'|]; cbn [mbind result_bind rbind] in Hys;
             [|discriminate].
           injection Hys as <-.
           cbn [zip zip_with foldM fst snd] in H. rewrite Hw in H.
           cbn [mbind result_bind rbind] in H. eauto.
      * split; [discriminate|].
        intros (ys & Hys & H).
        destruct (mapM f l) as [ys'|]; cbn [mbind result_bind rbind] in Hys;
          [|discriminate].
        injection Hys as <-.
        cbn [zip zip_with foldM fst snd] in H. rewrite Hw in H. discriminate.
    + split; [discriminate|]. intros (ys & Hys & _). discriminate.
Qed.

Lemma zip_seq_imap {B} (ys : list B) o :
  zip (seq o (length ys)) ys = imap (fun i y => ((o + i)%nat, y)) ys.
Proof.
  revert o. induction ys as [|y ys IH]; intros o; [reflexivity|].
  cbn [length seq zip zip_with imap]. rewrite Nat.add_0_r. f_equal.
  fold (zip (seq (S o) (length ys)) ys). rewrite IH.
  apply imap_ext. intros i z _. simpl. f_equal. lia.
Qed.

Lemma foldM_fmap {A B S} (f : S -> B -> result S) (h : A -> B) l : forall b,
  foldM f b (h <$> l) = foldM (fun st x => f st (h x)) b l.
Proof.
  induction l as [|x l IH]; intros b; [reflexivity|].
  rewrite fmap_cons. cbn [foldM]. destruct (f b (h x)); [|reflexivity].
  cbn [mbind result_bind rbind]. apply IH.
Qed.

Lemma foldM_ext_in {A S} (f g : S -> A -> result S) l :
  (forall st x, x ∈ l -> f st x = g st x) -> forall b, foldM f b l = foldM g b l.
Proof.
  induction l as [|x l IH]; intros H b; [reflexivity|].
  cbn [foldM]. rewrite (H b x) by left. destruct (g b x); [|reflexivity].
  cbn [mbind result_bind rbind]. apply IH. intros st y Hy. apply H. right. exact Hy.
Qed.

Section Paths.

Variable arange : float -> float -> float -> result vec.
Variable arctan2 : float -> float -> float.
Variable remainder : float -> float -> float.
Variable rotate_coordinates : vec -> vec -> float -> bool -> vec * vec.
Variable interpolator : bool -> vec -> vec -> vec
                        -> result (float -> float -> float).
Variable minimize : (vec -> result float) -> vec -> mat -> float -> result vec.

Variables (sh : shared) (psfs psfX psfY : list vec).
Variables (ra dec flux err badpix : mat) (n_pix n_wv d e : nat).

Hypothesis Hpix : (0 < n_pix)%nat.
Hypothesis Hra : shape n_pix n_wv ra.
Hypothesis Hdec : shape n_pix n_wv dec.
Hypothesis Hflux : shape n_pix n_wv flux.
Hypothesis Herr : shape n_pix n_wv err.
Hypothesis Hbadpix : shape n_pix n_wv badpix.
Hypothesis HpsfX : length psfX = length psfs.
Hypothesis HpsfY : length psfY = length psfs.
Hypothesis Hpsfs : (Nat.min e n_wv - d <= length psfs)%nat.

Local Abbreviation task := (fit_task arange arctan2 remainder rotate_coordinates
                              interpolator minimize).
Local Abbreviation cnt := (Nat.min e n_wv - d)%nat.
Local Abbreviation pad := (app (replicate d ([] : vec))).

(** the task of the wavelength [d + k] in the pool *)
Local Abbreviation task_at := (fun k : nat =>
  task_paras sh (psfs !!! k) (psfX !!! k) (psfY !!! k)
             (at_wv ra (d + k)) (at_wv dec (d + k)) (at_wv flux (d + k))
             (at_wv err (d + k)) (at_wv badpix (d + k))).

Lemma length_T a : shape n_pix n_wv a -> length (T a) = n_wv.
Proof.
  clear -Hpix. intros [Hlen Hrows]. unfold T, transpose.
  rewrite length_fmap, length_seq.
  destruct a as [|row a]; [simpl in Hlen; lia|].
  apply Forall_cons in Hrows as [Hrow _]. exact Hrow.
Qed.

Lemma lookup_total_T a k :
  shape n_pix n_wv a -> (k < n_wv)%nat -> T a !!! k = at_wv a k.
Proof.
  clear -Hpix. intros Ha Hk. pose proof (length_T a Ha) as Hlen.
  unfold T, transpose in *. rewrite length_fmap, length_seq in Hlen.
  rewrite Hlen. apply list_lookup_total_correct.
  rewrite list_lookup_fmap, lookup_seq_lt by assumption. reflexivity.
Qed.

Lemma length_slice_T a : shape n_pix n_wv a -> length (slice (T a) d e) = cnt.
Proof.
  clear -Hpix. intros Ha. unfold slice.
  rewrite length_take, length_drop, (length_T a Ha). lia.
Qed.

Lemma slice_T a k :
  shape n_pix n_wv a -> (k < cnt)%nat -> slice (T a) d e !!! k = at_wv a (d + k).
Proof.
  clear -Hpix. intros Ha Hk. rewrite lookup_total_slice by lia.
  apply lookup_total_T; [assumption | lia].
Qed.

Lemma pool_tasks_eq :
  pool_tasks sh psfs psfX psfY ra dec flux err badpix d e = task_at <$> seq 0 cnt.
Proof.
  unfold pool_tasks. rewrite !length_slice_T by assumption.
  replace (foldr Nat.min _ _) with cnt by (cbn [foldr]; lia).
  apply list_fmap_ext. intros i k Hk. apply lookup_seq in Hk as [Heq Hk].
  subst k. cbn [Nat.add]. rewrite !slice_T by assumption. reflexivity.
Qed.

Lemma item_pad (l : list vec) k :
  (k < length l)%nat -> list_item (pad l) (d + k) = Ok (l !!! k).
Proof.
  clear. intros Hk. unfold list_item.
  rewrite lookup_app_r by (rewrite length_replicate; lia).
  rewrite length_replicate. replace (d + k - d)%nat with k by lia.
  destruct (lookup_lt_is_Some_2 l k Hk) as [x Hx].
  rewrite Hx. f_equal. symmetry. apply list_lookup_total_correct. exact Hx.
Qed.

(** the iteration of the wavelength [d + k] without a pool, on the lists that
    start [d] entries later *)
Lemma fit_wavelength_at st k :
  (k < cnt)%nat ->
  fit_wavelength arange arctan2 remainder rotate_coordinates interpolator minimize
    sh (pad psfs) (pad psfX) (pad psfY) ra dec flux err badpix n_wv d e st (d + k)
  = (out ← task (task_at k); store_fit n_wv flux st (d + k) out).
Proof.
  intros Hk. unfold fit_wavelength.
  replace (Nat.leb d (d + k)) with true by (symmetry; apply Nat.leb_le; lia).
  replace (Nat.ltb (d + k) e) with true by (symmetry; apply Nat.ltb_lt; lia).
  cbn [andb negb]. rewrite !item_pad by lia. reflexivity.
Qed.

Lemma fit_wavelength_skip ps px py st wv :
  Nat.leb d wv && Nat.ltb wv e = false ->
  fit_wavelength arange arctan2 remainder rotate_coordinates interpolator minimize
    sh ps px py ra dec flux err badpix n_wv d e st wv = Ok st.
Proof. clear. intros H. unfold fit_wavelength. rewrite H. reflexivity. Qed.

(** the two loops return the same arrays *)
Lemma paths_agree st0 r :
  foldM (fit_wavelength arange arctan2 remainder rotate_coordinates interpolator
           minimize sh (pad psfs) (pad psfX) (pad psfY) ra dec flux err badpix
           n_wv d e) st0 (seq 0 n_wv) = Ok r
  <->
  exists outs,
    mapM task (pool_tasks sh psfs psfX psfY ra dec flux err badpix d e) = Ok outs /\
    foldM (fun st (o : nat * fit_state) => store_fit n_wv flux st (d + o.1)%nat o.2)
          st0 (imap pair outs) = Ok r.
Proof.
  rewrite (foldM_filter _ (fun wv : nat => Nat.leb d wv && Nat.ltb wv e))
    by (intros; apply fit_wavelength_skip; assumption).
  rewrite filter_debug_range.
  replace (seq d cnt) with (Nat.add d <$> seq 0 cnt)
    by (rewrite fmap_add_seq; f_equal; lia).
  rewrite foldM_fmap.
  rewrite (foldM_ext_in _
    (fun st k => out ← task (task_at k); store_fit n_wv flux st (d + k)%nat out)).
  2:{ intros st k Hk. apply elem_of_seq in Hk. apply fit_wavelength_at. lia. }
  rewrite (foldM_interleave (fun k => task (task_at k))
             (fun st k out => store_fit n_wv flux st (d + k)%nat out)).
  rewrite pool_tasks_eq, mapM_fmap.
  split; intros (outs & Hmap & Hfold); exists outs; (split; [exact Hmap|]);
    pose proof (mapM_Ok_length _ _ _ Hmap) as Hlen; rewrite length_seq in Hlen;
    rewrite <- Hlen, zip_seq_imap in *; exact Hfold.
Qed.

End Paths.

Lemma shape_to_psf_units n_pix n_wv a area2d s :
  shape n_pix n_wv a -> shape n_pix n_wv area2d ->
  shape n_pix n_wv (to_psf_units a area2d s).
Proof.
  intros [Ha Hra] [Hb Hrb]. unfold to_psf_units. split.
  - rewrite length_zip_with. lia.
  - apply Forall_lookup_2. intros i row Hrow.
    apply lookup_zip_with_Some in Hrow as (x & y & -> & Hx & Hy).
    rewrite length_zip_with.
    rewrite (Forall_lookup_1 _ _ _ _ Hra Hx), (Forall_lookup_1 _ _ _ _ Hrb Hy).
    lia.
Qed.

Lemma bind_Ok_iff {A B} (m1 m2 : result A) (k : A -> result B) :
  (forall a, m1 = Ok a <-> m2 = Ok a) ->
  forall b, (a ← m1; k a) = Ok b <-> (a ← m2; k a) = Ok b.
Proof.
  intros H b. destruct m1 as [a1|e1], m2 as [a2|e2]; cbn [mbind result_bind rbind].
  - pose proof (proj1 (H a1) eq_refl) as Heq. injection Heq as ->. reflexivity.
  - pose proof (proj1 (H a1) eq_refl). discriminate.
  - pose proof (proj2 (H a2) eq_refl). discriminate.
  - split; discriminate.
Qed.

(** X17.  With a pool, [fitpsf] hands the task of the wavelength
    [debug_init + k] the PSF model [psfs[k]], [psfX[k]], [psfY[k]]: the lists of
    models are zipped from their start with the wavelengths of the debug
    range.  For arrays of one shape, enough models and a pool whose chunks all
    complete, the call with the pool writes what the call without a pool
    writes for the lists of models moved [debug_init] places down, and raises
    exactly when that call raises.  The two calls agree on the same lists when
    [debug_init] is left out or is 0. *)
Theorem fitpsf_pool_zips_from_debug_init
    (arange : float -> float -> float -> result vec)
    (arctan2 remainder : float -> float -> float)
    (rotate_coordinates : vec -> vec -> float -> bool -> vec * vec)
    (interpolator : bool -> vec -> vec -> vec -> result (float -> float -> float))
    (minimize : (vec -> result float) -> vec -> mat -> float -> result vec)
    obj area2d psfs psfX psfY IWA OWA p init_centroid fit_cen fit_angle
    ann_width padding sector_area linear_interp rotate_psf flipx
    psf_spaxel_area debug_init debug_end n_pix :
  let n_wv := length (wv_sampling obj) in
  let d := default 0%nat debug_init in
  let e := default n_wv debug_end in
  let moved := fun l : list vec => replicate d [] ++ l in
  let run := fun mppool psfs psfX psfY =>
    fitpsf arange arctan2 remainder rotate_coordinates interpolator minimize
      obj area2d psfs psfX psfY IWA OWA mppool init_centroid fit_cen fit_angle
      ann_width padding sector_area linear_interp rotate_psf flipx
      psf_spaxel_area debug_init debug_end in
  (0 < n_pix)%nat ->
  shape n_pix n_wv (dra_as_array obj) -> shape n_pix n_wv (ddec_as_array obj) ->
  shape n_pix n_wv (data obj) -> shape n_pix n_wv (noise obj) ->
  shape n_pix n_wv (bad_pixels obj) -> shape n_pix n_wv area2d ->
  length psfX = length psfs -> length psfY = length psfs ->
  (Nat.min e n_wv - d <= length psfs)%nat ->
  all_complete p (seq d (Nat.min e n_wv - d)) ->
  (forall out,
     run (Some p) psfs psfX psfY = Ok out
     <-> run None (moved psfs) (moved psfX) (moved psfY) = Ok out) /\
  (raises (run (Some p) psfs psfX psfY)
   <-> raises (run None (moved psfs) (moved psfX) (moved psfY))) /\
  (d = 0%nat ->
   forall out,
     run (Some p) psfs psfX psfY = Ok out <-> run None psfs psfX psfY = Ok out).
Proof.
  intros n_wv d e moved run Hpix Hra Hdec Hdata Hnoise Hbad Harea HpsfX HpsfY
         Hpsfs Hall.
  assert (Hiff : forall out,
     run (Some p) psfs psfX psfY = Ok out
     <-> run None (moved psfs) (moved psfX) (moved psfY) = Ok out).
  { intros out. subst run moved. cbv beta. unfold fitpsf.
    destruct psf_spaxel_area as [s|]; [|reflexivity].
    cbn [mbind result_bind rbind]. fold n_wv. fold d. fold e.
    apply bind_Ok_iff. intros st.
    pose proof (shape_to_psf_units _ _ _ _ s Hdata Harea) as Hflux.
    pose proof (shape_to_psf_units _ _ _ _ s Hnoise Harea) as Herr.
    rewrite (paths_agree arange arctan2 remainder rotate_coordinates interpolator
               minimize _ psfs psfX psfY _ _ _ _ _ n_pix n_wv d e
               Hpix Hra Hdec Hflux Herr Hbad HpsfX HpsfY Hpsfs).
    match goal with
    | |- (_ ← pool_map ?f p ?tasks; _) = _ <-> _ =>
        assert (Hc : all_complete p tasks)
          by (eapply all_complete_length; [|exact Hall];
              rewrite (pool_tasks_eq _ psfs psfX psfY _ _ _ _ _ n_pix n_wv d e
                         Hpix Hra Hdec Hflux Herr Hbad HpsfX HpsfY Hpsfs);
              rewrite length_fmap, !length_seq; reflexivity);
        pose proof (pool_map_Ok f p tasks Hc) as Hpool;
        destruct (pool_map f p tasks) as [outs|] eqn:Hpm
    end; cbn [mbind result_bind rbind].
    - split.
      + intros H. exists outs. split; [apply Hpool; reflexivity | exact H].
      + intros (outs' & Hmap & H). apply Hpool in Hmap. injection Hmap as ->.
        exact H.
    - split; [discriminate|]. intros (outs' & Hmap & _).
      apply Hpool in Hmap. discriminate. }
  split; [exact Hiff|]. split; [apply same_value_same_raise; exact Hiff|].
  intros Hd out. rewrite Hiff. subst moved. cbv beta. rewrite Hd. reflexivity.
Qed.

(** the second wavelength alone, [debug_init = 1]: the pool fits it with the
    PSF model of the first wavelength, and finds the amplitude 4 where the
    model of the second wavelength gives 2 *)
Lemma fitpsf_pool_zips_from_debug_init_witness :
  let run := fun mppool psfs psfX psfY =>
    fitpsf Reference.arange Reference.arctan2 Reference.remainder
      Reference.rotate_coordinates Reference.interpolator Reference.minimize
      TwoSpaxels.obj TwoSpaxels.area2d psfs psfX psfY 0 2 mppool None true false
      (Some 1) None (Some 100) true 0 false (Some 1) (Some 1%nat) None in
  let out :=
    mk_written
      [[[nan; nan; nan; nan; nan]; [4; 4; 0; 0; 0]];
       [[nan; nan; nan; nan; nan]; [nan; nan; nan; nan; nan]]]
      [[nan; 0]; [nan; nan]] [[nan; 4]; [nan; nan]] [[1; 1]; [1; 1]] in
  run (Some TwoSpaxels.mppool) TwoSpaxels.psfs TwoSpaxels.psfX TwoSpaxels.psfY
  = Ok out /\
  run None ([] :: TwoSpaxels.psfs) ([] :: TwoSpaxels.psfX) ([] :: TwoSpaxels.psfY)
  = Ok out.
Proof.
  intros run out.
  assert (Hpool : run (Some TwoSpaxels.mppool) TwoSpaxels.psfs TwoSpaxels.psfX
                      TwoSpaxels.psfY = Ok out) by (vm_compute; reflexivity).
  split; [exact Hpool|].
  assert (Hshape : forall a : mat,
            length a = 2%nat -> Forall (fun row : vec => length row = 2%nat) a ->
            shape 2 2 a) by (intros a H1 H2; split; assumption).
  apply (proj1 (fitpsf_pool_zips_from_debug_init
                  Reference.arange Reference.arctan2 Reference.remainder
                  Reference.rotate_coordinates Reference.interpolator
                  Reference.minimize TwoSpaxels.obj TwoSpaxels.area2d
                  TwoSpaxels.psfs TwoSpaxels.psfX TwoSpaxels.psfY 0 2
                  TwoSpaxels.mppool None true false (Some 1) None (Some 100)
                  true 0 false (Some 1) (Some 1%nat) None 2
                  ltac:(lia)
                  ltac:(apply Hshape; [reflexivity | repeat constructor])
                  ltac:(apply Hshape; [reflexivity | repeat constructor])
                  ltac:(apply Hshape; [reflexivity | repeat constructor])
                  ltac:(apply Hshape; [reflexivity | repeat constructor])
                  ltac:(apply Hshape; [reflexivity | repeat constructor])
                  ltac:(apply Hshape; [reflexivity | repeat constructor])
                  eq_refl eq_refl
                  ltac:(vm_compute; lia)
                  ltac:(unfold all_complete; vm_compute; apply Permutation_refl))
               out).
  exact Hpool.
Defined.

End FitAllFacts.

(** ** The quick bad-pixel map *)

Module MedFiltFacts.

Import F64 Np Edges NormalizeRows Traces MedFilt.
Import F64Facts NpFacts EdgesFacts NormalizeRowsFacts TracesFacts.
Local Open Scope float_scope.

Lemma crop_trace_edges_kept (unique : vec -> vec) im N_pix trace_id_map out :
  same_rows im trace_id_map ->
  crop_trace_edges unique im N_pix trace_id_map = Ok out -> kept im N_pix out.
Proof.
  intros Hrows H. apply same_rows_map in Hrows.
  exact (foldM_kept _ (kept im N_pix) _
           (fun s x s' => crop_step_kept im _ N_pix Hrows s x s') _ _
           (kept_nans im N_pix) H).
Qed.

Lemma scatter_const_one_or_nan idx : forall (a : vec) j x,
  (forall y, a !! j = Some y -> y = 1 \/ isnan y = true) ->
  scatter_const a idx nan !! j = Some x -> x = 1 \/ isnan x = true.
Proof.
  unfold scatter_const. induction idx as [|i idx IH]; intros a j x Ha H.
  - apply Ha. exact H.
  - cbn [foldl] in H. apply (IH (<[i := nan]> a) j x); [|exact H].
    intros y Hy. destruct (decide (i = j)) as [->|Hne].
    + apply list_lookup_insert_Some in Hy as [(_ & <- & _)|(Hne & _)];
        [right; apply isnan_nan | congruence].
    + rewrite list_lookup_insert_ne in Hy by assumption. apply Ha. exact Hy.
Qed.

Lemma length_new_badpix_row generic_filter median_abs_deviation w t nr br :
  length (new_badpix_row generic_filter median_abs_deviation w t nr br) = length br.
Proof. unfold new_badpix_row. rewrite length_scatter_const. apply length_replicate. Qed.

(** X18.  [compute_med_filt_badpix] never makes a bad pixel good when the
    edges are cropped by [crop_Npix_from_trace_edges >= 0] pixels: a pixel that
    is NaN in [self.bad_pixels] before the call, or in the returned
    [new_badpix], is NaN in [self.bad_pixels] after it.  [new_badpix] holds 1
    and NaN only, [self.bad_pixels] keeps its shape, and a crop that is not 0
    makes its last row NaN. *)
Theorem med_filt_keeps_bad_pixels
    (generic_filter : nat -> vec -> vec) (median_abs_deviation : vec -> float)
    (unique : vec -> vec) noise bad_pixels trace_id_map window_size
    mad_threshold crop new_badpix bad_pixels' :
  (0 <= crop)%Z ->
  length <$> noise = length <$> bad_pixels ->
  same_rows bad_pixels trace_id_map ->
  compute_med_filt_badpix generic_filter median_abs_deviation unique noise
    bad_pixels trace_id_map window_size mad_threshold crop
  = Ok (new_badpix, bad_pixels') ->
  length <$> bad_pixels' = length <$> bad_pixels /\
  length <$> new_badpix = length <$> bad_pixels /\
  (forall i j row x, new_badpix !! i = Some row -> row !! j = Some x ->
     x = 1 \/ isnan x = true) /\
  (forall i j old_row old new_row new row x,
     bad_pixels !! i = Some old_row -> old_row !! j = Some old ->
     new_badpix !! i = Some new_row -> new_row !! j = Some new ->
     bad_pixels' !! i = Some row -> row !! j = Some x ->
     isnan old = true \/ isnan new = true -> isnan x = true) /\
  (crop <> 0%Z ->
   forall row, bad_pixels' !! (length bad_pixels - 1)%nat = Some row ->
               Forall (fun x => isnan x = true) row).
Proof.
  intros Hcrop _ Hrows H. unfold compute_med_filt_badpix in H.
  set (new := imap _ bad_pixels) in H.
  set (bp1 := zip_with vmul bad_pixels new) in H.
  assert (Hnew : length <$> new = length <$> bad_pixels).
  { apply list_eq. intros i. unfold new.
    rewrite !list_lookup_fmap, list_lookup_imap.
    destruct (bad_pixels !! i); [|reflexivity]. simpl.
    rewrite length_new_badpix_row. reflexivity. }
  assert (Hbp1 : length <$> bp1 = length <$> bad_pixels).
  { apply list_eq. intros i. unfold bp1.
    rewrite !list_lookup_fmap, lookup_zip_with.
    pose proof (f_equal (fun l => l !! i) Hnew) as Hi. cbv beta in Hi.
    rewrite !list_lookup_fmap in Hi.
    destruct (bad_pixels !! i) as [r|], (new !! i) as [nr|];
      try discriminate; [|reflexivity].
    simpl in *. injection Hi as Hi. unfold vmul. rewrite length_zip_with. f_equal. lia. }
  assert (Hlen1 : length bp1 = length bad_pixels).
  { rewrite <- (length_fmap length bp1), Hbp1. apply length_fmap. }
  assert (Hprod : forall i j old_row old new_row new' row x,
     bad_pixels !! i = Some old_row -> old_row !! j = Some old ->
     new !! i = Some new_row -> new_row !! j = Some new' ->
     bp1 !! i = Some row -> row !! j = Some x ->
     isnan old = true \/ isnan new' = true -> isnan x = true).
  { intros i j old_row old new_row new' row x Ho Hoj Hn Hnj Hr Hx Hnan.
    unfold bp1 in Hr. rewrite lookup_zip_with, Ho, Hn in Hr. simpl in Hr.
    injection Hr as <-. unfold vmul in Hx.
    rewrite lookup_zip_with, Hoj, Hnj in Hx. simpl in Hx. injection Hx as <-.
    destruct Hnan; [apply isnan_mul_l | apply isnan_mul_r]; assumption. }
  assert (Hones : forall i j row x, new !! i = Some row -> row !! j = Some x ->
     x = 1 \/ isnan x = true).
  { intros i j row x Hrow Hx. unfold new in Hrow.
    rewrite list_lookup_imap in Hrow.
    destruct (bad_pixels !! i) as [br|]; [|discriminate]. simpl in Hrow.
    injection Hrow as <-. unfold new_badpix_row in Hx.
    eapply scatter_const_one_or_nan; [|exact Hx].
    intros y Hy. apply lookup_replicate in Hy as [-> _]. left. reflexivity. }
  destruct (Z.eqb_spec crop 0) as [Hz|Hnz]; cbn [negb mbind result_bind rbind] in H.
  - injection H as <- <-.
    split; [exact Hbp1|]. split; [exact Hnew|]. split; [exact Hones|].
    split; [exact Hprod|]. intros Hne. contradiction.
  - destruct (crop_trace_edges unique bp1 crop trace_id_map) as [out|] eqn:Hc;
      cbn [mbind result_bind rbind] in H; [|discriminate].
    injection H as <- <-.
    assert (Hsame : same_rows bp1 trace_id_map).
    { destruct trace_id_map as [m|]; [|exact I]. simpl in *. congruence. }
    destruct (crop_trace_edges_kept unique bp1 crop trace_id_map out Hsame Hc)
      as (Hshape & Hlast & Hval).
    split; [rewrite Hshape; exact Hbp1|]. split; [exact Hnew|].
    split; [exact Hones|]. split.
    + intros i j old_row old new_row new' row x Ho Hoj Hn Hnj Hr Hx Hnan.
      destruct (Hval Hcrop i j row x Hr Hx) as [Hx'|(r & Hr1 & Hx1)];
        [exact Hx'|].
      eapply Hprod; eassumption.
    + intros _ row Hrow. apply Hlast. rewrite Hlen1. exact Hrow.
Qed.

(** a window of three pixels and a crop of one pixel: the pixel that was bad
    in the second column of the third row makes the second row bad there *)
Lemma med_filt_keeps_bad_pixels_witness :
  compute_med_filt_badpix Reference.generic_filter Reference.median_abs_deviation
    Reference.unique NoisyRows.noise NoisyRows.bad_pixels None 3 50 1
  = Ok ([[1; nan; 1; 1; nan; 1]; [1; 1; 1; 1; 1; 1]; [1; 1; 1; 1; 1; 1];
         [1; 1; 1; 1; 1; 1]],
        [[nan; nan; nan; nan; nan; nan]; [1; nan; nan; 1; nan; 1];
         [nan; nan; nan; nan; nan; nan]; [nan; nan; nan; nan; nan; nan]]) /\
  length <$> [[nan; nan; nan; nan; nan; nan]; [1; nan; nan; 1; nan; 1];
              [nan; nan; nan; nan; nan; nan]; [nan; nan; nan; nan; nan; nan]]
  = length <$> NoisyRows.bad_pixels.
Proof.
  assert (H : compute_med_filt_badpix Reference.generic_filter
                Reference.median_abs_deviation Reference.unique NoisyRows.noise
                NoisyRows.bad_pixels None 3 50 1
              = Ok ([[1; nan; 1; 1; nan; 1]; [1; 1; 1; 1; 1; 1];
                     [1; 1; 1; 1; 1; 1]; [1; 1; 1; 1; 1; 1]],
                    [[nan; nan; nan; nan; nan; nan]; [1; nan; nan; 1; nan; 1];
                     [nan; nan; nan; nan; nan; nan];
                     [nan; nan; nan; nan; nan; nan]]))
    by (vm_compute; reflexivity).
  split; [exact H|].
  exact (proj1 (med_filt_keeps_bad_pixels Reference.generic_filter
                  Reference.median_abs_deviation Reference.unique
                  NoisyRows.noise NoisyRows.bad_pixels None 3 50 1 _ _
                  ltac:(lia) eq_refl I H)).
Defined.

End MedFiltFacts.
